(** * GraphGridLayout: grid layout of control-flow graphs

    Shallow embedding of [src/widgets/GraphGridLayout.cpp] and the properties
    of its stages.

    Conventions of the embedding.
    - [ut64] block ids are [N]; no arithmetic is done on them.
    - C++ [int] values are [Z].  Signed overflow is undefined behaviour in
      C++, so no wrap-around is modelled for [int]; the conversions to
      [size_t] that the source performs are written out ([to_size_t]).
      The embedding describes the runs in which no sum leaves the range of
      [int]; statements on the order of the pixel coordinates say so
      ([layoutFitsInt]).  Integer division is the truncating [Z.quot],
      which gives 0 where C++ would divide by zero; no run divides by zero.
    - [std::unordered_map<ut64, V>] is an association list with unique keys
      whose list order is the iteration order of the container, which C++
      leaves unspecified.  [operator[]] on an absent key inserts a
      value-initialised element; the embedding appends it.  A range-for
      over a map walks the keys that the map has when the loop begins.  An
      insertion during the loop may rehash the container and invalidate
      the iterator in C++: the embedding describes the source for the
      inputs with which the range-for of [topoSort] inserts nothing into
      the map that it walks ([targetsMetFromEntry]).
    - [std::vector<int>] indexed by an [int] is a [list Z] read with [vget]
      and written with [vset]; an access out of range (undefined behaviour
      in C++) reads 0 and writes nothing.
    - A read [m[k]] of a key that an earlier statement has inserted is
      written as the plain read [m @ k]; where the read may insert, the
      insertion is written out with [UMap.touch] or [UMap.modify].
    - [assert] is kept: a failed assertion ends the run with
      [Fail InternalInvariant].

    The section on the dependence on the input uses functional
    extensionality; everything else is axiom-free. *)

From Stdlib Require Import ZArith NArith List Lia Bool Permutation Arith.
From Stdlib Require Import FunctionalExtensionality.
Import ListNotations.
Open Scope Z_scope.

Set Implicit Arguments.

(** ** Outcome of a run *)

(** Error kinds named in section 7 of the specification.  The source has no
    error channel besides [assert], which is [InternalInvariant]. *)
Inductive ErrorKind : Type :=
| InvalidGraph
| ConfigOutOfRange
| InternalInvariant.

(** [Diverge] is the embedding's own: a loop given too little fuel. *)
Inductive Outcome (A : Type) : Type :=
| Done (a : A)
| Fail (e : ErrorKind)
| Diverge.

Arguments Fail {A} e.
Arguments Diverge {A}.

Definition bind {A B : Type} (m : Outcome A) (f : A -> Outcome B) : Outcome B :=
  match m with
  | Done a => f a
  | Fail e => Fail e
  | Diverge => Diverge
  end.

Notation "x <- m ;; k" := (bind m (fun x => k))
  (at level 61, m at next level, right associativity).
Notation "' p <- m ;; k" := (bind m (fun x => let p := x in k))
  (at level 61, p pattern, m at next level, right associativity).

Definition assert (b : bool) : Outcome unit :=
  if b then Done tt else Fail InternalInvariant.

(** ** Integers and vectors *)

Definition ut64 := N.

(** [size_t(x)] for an [int] x. *)
Definition to_size_t (x : Z) : Z := if x <? 0 then x + 2 ^ 64 else x.

(** A [size_t] result stored back into an [int]. *)
Definition to_int (x : Z) : Z :=
  let r := x mod 2 ^ 32 in if r <? 2 ^ 31 then r else r - 2 ^ 32.

Definition INT_MIN : Z := - 2 ^ 31.

Definition INT_MAX : Z := 2 ^ 31 - 1.

Definition vget (v : list Z) (i : Z) : Z :=
  if i <? 0 then 0 else nth (Z.to_nat i) v 0.

Fixpoint set_nth {A : Type} (n : nat) (l : list A) (a : A) : list A :=
  match l, n with
  | [], _ => []
  | _ :: t, O => a :: t
  | h :: t, S n' => h :: set_nth n' t a
  end.

Definition vset (v : list Z) (i : Z) (a : Z) : list Z :=
  if i <? 0 then v else set_nth (Z.to_nat i) v a.

Definition zlen {A : Type} (l : list A) : Z := Z.of_nat (length l).

(** [v.assign(n, a)] *)
Definition assign (n : Z) (a : Z) : list Z := repeat a (Z.to_nat n).

(** ** [std::unordered_map] *)

Class Default (V : Type) : Type := dflt : V.

Module UMap.
Section Defs.
Context {V : Type} `{Default V}.

Definition t : Type := list (ut64 * V).

Fixpoint find (m : t) (k : ut64) : option V :=
    match m with
    | [] => None
    | (k', v) :: m' => if N.eqb k k' then Some v else find m' k
    end.

  (** the element [m[k]] denotes *)
Definition at_ (m : t) (k : ut64) : V :=
    match find m k with Some v => v | None => dflt end.

  (** [m[k] = f (m[k])], inserting a value-initialised element first when
      [k] is absent *)
Fixpoint modify (m : t) (k : ut64) (f : V -> V) : t :=
    match m with
    | [] => [(k, f dflt)]
    | (k', v) :: m' =>
        if N.eqb k k' then (k', f v) :: m' else (k', v) :: modify m' k f
    end.

  (** the insertion done by a read [m[k]] *)
Definition touch (m : t) (k : ut64) : t := modify m k (fun v => v).

Definition set (m : t) (k : ut64) (v : V) : t := modify m k (fun _ => v).

Definition keys (m : t) : list ut64 := map fst m.
End Defs.
Arguments t V : clear implicits.
End UMap.

Notation "m @ k" := (UMap.at_ m k) (at level 20, left associativity).

(** ** Data model *)

(** [GraphLayout::GraphEdge]; the [QPointF] coordinates the layout writes are
    integers. *)
Record GraphEdge : Type := mkGraphEdge {
  target : ut64;
  polyline : list (Z * Z)
}.

(** [GraphLayout::GraphBlock] *)
Record GraphBlock : Type := mkGraphBlock {
  x : Z;
  y : Z;
  width : Z;
  height : Z;
  edges : list GraphEdge
}.

#[export] Instance GraphBlock_default : Default GraphBlock :=
  mkGraphBlock 0 0 0 0 [].

(** handle of a list of the pool: indices of its first and last cell *)
Record PList : Type := mkPList { head : nat; tail : nat }.

Record GridBlock : Type := mkGridBlock {
  id : ut64;
  tree_edge : list ut64;
  dag_edge : list ut64;
  has_parent : bool;
  inputCount : Z;
  outputCount : Z;
  row_count : Z;
  col : Z;
  row : Z;
  lastRowLeft : Z;
  lastRowRight : Z;
  leftPosition : Z;
  rightPosition : Z;
  leftSideShape : PList;
  rightSideShape : PList
}.

#[export] Instance GridBlock_default : Default GridBlock :=
  mkGridBlock 0%N [] [] false 0 0 0 0 0 0 0 0 0 (mkPList 0 0) (mkPList 0 0).

Definition with_id (v : ut64) (b : GridBlock) : GridBlock :=
  mkGridBlock v (tree_edge b) (dag_edge b) (has_parent b) (inputCount b)
    (outputCount b) (row_count b) (col b) (row b) (lastRowLeft b)
    (lastRowRight b) (leftPosition b) (rightPosition b) (leftSideShape b)
    (rightSideShape b).

Definition with_tree_edge (v : list ut64) (b : GridBlock) : GridBlock :=
  mkGridBlock (id b) v (dag_edge b) (has_parent b) (inputCount b)
    (outputCount b) (row_count b) (col b) (row b) (lastRowLeft b)
    (lastRowRight b) (leftPosition b) (rightPosition b) (leftSideShape b)
    (rightSideShape b).

Definition with_dag_edge (v : list ut64) (b : GridBlock) : GridBlock :=
  mkGridBlock (id b) (tree_edge b) v (has_parent b) (inputCount b)
    (outputCount b) (row_count b) (col b) (row b) (lastRowLeft b)
    (lastRowRight b) (leftPosition b) (rightPosition b) (leftSideShape b)
    (rightSideShape b).

Definition with_has_parent (v : bool) (b : GridBlock) : GridBlock :=
  mkGridBlock (id b) (tree_edge b) (dag_edge b) v (inputCount b)
    (outputCount b) (row_count b) (col b) (row b) (lastRowLeft b)
    (lastRowRight b) (leftPosition b) (rightPosition b) (leftSideShape b)
    (rightSideShape b).

Definition with_inputCount (v : Z) (b : GridBlock) : GridBlock :=
  mkGridBlock (id b) (tree_edge b) (dag_edge b) (has_parent b) v
    (outputCount b) (row_count b) (col b) (row b) (lastRowLeft b)
    (lastRowRight b) (leftPosition b) (rightPosition b) (leftSideShape b)
    (rightSideShape b).

Definition with_outputCount (v : Z) (b : GridBlock) : GridBlock :=
  mkGridBlock (id b) (tree_edge b) (dag_edge b) (has_parent b) (inputCount b)
    v (row_count b) (col b) (row b) (lastRowLeft b)
    (lastRowRight b) (leftPosition b) (rightPosition b) (leftSideShape b)
    (rightSideShape b).

Definition with_row_count (v : Z) (b : GridBlock) : GridBlock :=
  mkGridBlock (id b) (tree_edge b) (dag_edge b) (has_parent b) (inputCount b)
    (outputCount b) v (col b) (row b) (lastRowLeft b)
    (lastRowRight b) (leftPosition b) (rightPosition b) (leftSideShape b)
    (rightSideShape b).

Definition with_col (v : Z) (b : GridBlock) : GridBlock :=
  mkGridBlock (id b) (tree_edge b) (dag_edge b) (has_parent b) (inputCount b)
    (outputCount b) (row_count b) v (row b) (lastRowLeft b)
    (lastRowRight b) (leftPosition b) (rightPosition b) (leftSideShape b)
    (rightSideShape b).

Definition with_row (v : Z) (b : GridBlock) : GridBlock :=
  mkGridBlock (id b) (tree_edge b) (dag_edge b) (has_parent b) (inputCount b)
    (outputCount b) (row_count b) (col b) v (lastRowLeft b)
    (lastRowRight b) (leftPosition b) (rightPosition b) (leftSideShape b)
    (rightSideShape b).

Definition with_lastRowLeft (v : Z) (b : GridBlock) : GridBlock :=
  mkGridBlock (id b) (tree_edge b) (dag_edge b) (has_parent b) (inputCount b)
    (outputCount b) (row_count b) (col b) (row b) v
    (lastRowRight b) (leftPosition b) (rightPosition b) (leftSideShape b)
    (rightSideShape b).

Definition with_lastRowRight (v : Z) (b : GridBlock) : GridBlock :=
  mkGridBlock (id b) (tree_edge b) (dag_edge b) (has_parent b) (inputCount b)
    (outputCount b) (row_count b) (col b) (row b) (lastRowLeft b)
    v (leftPosition b) (rightPosition b) (leftSideShape b)
    (rightSideShape b).

Definition with_leftPosition (v : Z) (b : GridBlock) : GridBlock :=
  mkGridBlock (id b) (tree_edge b) (dag_edge b) (has_parent b) (inputCount b)
    (outputCount b) (row_count b) (col b) (row b) (lastRowLeft b)
    (lastRowRight b) v (rightPosition b) (leftSideShape b)
    (rightSideShape b).

Definition with_rightPosition (v : Z) (b : GridBlock) : GridBlock :=
  mkGridBlock (id b) (tree_edge b) (dag_edge b) (has_parent b) (inputCount b)
    (outputCount b) (row_count b) (col b) (row b) (lastRowLeft b)
    (lastRowRight b) (leftPosition b) v (leftSideShape b)
    (rightSideShape b).

Definition with_leftSideShape (v : PList) (b : GridBlock) : GridBlock :=
  mkGridBlock (id b) (tree_edge b) (dag_edge b) (has_parent b) (inputCount b)
    (outputCount b) (row_count b) (col b) (row b) (lastRowLeft b)
    (lastRowRight b) (leftPosition b) (rightPosition b) v
    (rightSideShape b).

Definition with_rightSideShape (v : PList) (b : GridBlock) : GridBlock :=
  mkGridBlock (id b) (tree_edge b) (dag_edge b) (has_parent b) (inputCount b)
    (outputCount b) (row_count b) (col b) (row b) (lastRowLeft b)
    (lastRowRight b) (leftPosition b) (rightPosition b) (leftSideShape b)
    v.

Record Point : Type := mkPoint {
  p_row : Z;
  p_col : Z;
  offset : Z;
  kind : Z;
  spacingOverride : Z
}.

Record GridEdge : Type := mkGridEdge {
  dest : ut64;
  mainColumn : Z;
  points : list Point;
  secondaryPriority : Z
}.

#[export] Instance GridEdge_default : Default GridEdge :=
  mkGridEdge 0%N (-1) [] 0.

#[export] Instance edges_default : Default (list GridEdge) := [].

(** [GridEdge::addPoint] *)
Definition addPoint (e : GridEdge) (r c k : Z) : GridEdge :=
  mkGridEdge (dest e) (mainColumn e) (points e ++ [mkPoint r c 0 k 0])
    (secondaryPriority e).

Record LayoutState : Type := mkLayoutState {
  blocks : UMap.t GraphBlock;
  grid_blocks : UMap.t GridBlock;
  edge : UMap.t (list GridEdge);
  rows : Z;
  columns : Z;
  columnWidth : list Z;
  rowHeight : list Z;
  edgeColumnWidth : list Z;
  edgeRowHeight : list Z;
  columnOffset : list Z;
  rowOffset : list Z;
  edgeColumnOffset : list Z;
  edgeRowOffset : list Z
}.

Definition with_blocks (v : UMap.t GraphBlock) (s : LayoutState) :=
  mkLayoutState v (grid_blocks s) (edge s) (rows s) (columns s)
    (columnWidth s) (rowHeight s) (edgeColumnWidth s) (edgeRowHeight s)
    (columnOffset s) (rowOffset s) (edgeColumnOffset s) (edgeRowOffset s).

Definition with_grid_blocks (v : UMap.t GridBlock) (s : LayoutState) :=
  mkLayoutState (blocks s) v (edge s) (rows s) (columns s)
    (columnWidth s) (rowHeight s) (edgeColumnWidth s) (edgeRowHeight s)
    (columnOffset s) (rowOffset s) (edgeColumnOffset s) (edgeRowOffset s).

Definition with_edge (v : UMap.t (list GridEdge)) (s : LayoutState) :=
  mkLayoutState (blocks s) (grid_blocks s) v (rows s) (columns s)
    (columnWidth s) (rowHeight s) (edgeColumnWidth s) (edgeRowHeight s)
    (columnOffset s) (rowOffset s) (edgeColumnOffset s) (edgeRowOffset s).

(** Layout presets of the constructor and the spacing configuration. *)
Inductive LayoutType : Type := Narrow | Medium | Wide.

Record Config : Type := mkConfig {
  layoutType : LayoutType;
  verticalBlockAlignmentMiddle : bool;
  blockVerticalSpacing : Z;
  blockHorizontalSpacing : Z;
  edgeVerticalSpacing : Z;
  edgeHorizontalSpacing : Z
}.

Definition tightSubtreePlacement (c : Config) : bool :=
  match layoutType c with Narrow => true | _ => false end.

Definition parentBetweenDirectChild (c : Config) : bool :=
  match layoutType c with Wide => true | _ => false end.

(** ** topoSort *)

Inductive State : Type := NotVisited | InStack | Visited.

#[export] Instance State_default : Default State := NotVisited.

(** What the lambda [dfsFragment] captures by reference. *)
Record Dfs : Type := mkDfs {
  visited : UMap.t State;
  d_blocks : UMap.t GraphBlock;
  d_grid : UMap.t GridBlock;
  stack : list (ut64 * nat);
  blockOrder : list ut64
}.

Definition push_dag (tgt : ut64) (b : GridBlock) : GridBlock :=
  with_dag_edge (dag_edge b ++ [tgt]) b.

(** One iteration of [while (!stack.empty())]. *)
Definition dfsStep (s : Dfs) : Dfs :=
  match stack s with
  | [] => s
  | (v, edge_index) :: rest =>
      let blocks1 := UMap.touch (d_blocks s) v in
      let block := blocks1 @ v in
      match nth_error (edges block) edge_index with
      | Some e =>
          let tgt := target e in
          let visited1 := UMap.touch (visited s) tgt in
          match visited1 @ tgt with
          | NotVisited =>
              mkDfs (UMap.set visited1 tgt InStack) blocks1
                (UMap.modify (d_grid s) v (push_dag tgt))
                ((tgt, O) :: (v, S edge_index) :: rest) (blockOrder s)
          | Visited =>
              mkDfs visited1 blocks1
                (UMap.modify (d_grid s) v (push_dag tgt))
                ((v, S edge_index) :: rest) (blockOrder s)
          | InStack =>
              mkDfs visited1 blocks1 (d_grid s)
                ((v, S edge_index) :: rest) (blockOrder s)
          end
      | None =>
          mkDfs (UMap.set (visited s) v Visited) blocks1 (d_grid s) rest
            (blockOrder s ++ [v])
      end
  end.

Fixpoint dfsLoop (fuel : nat) (s : Dfs) : Outcome Dfs :=
  match stack s with
  | [] => Done s
  | _ :: _ =>
      match fuel with
      | O => Diverge
      | S fuel' => dfsLoop fuel' (dfsStep s)
      end
  end.

Definition dfsFragment (fuel : nat) (s : Dfs) (first : ut64) : Outcome Dfs :=
  dfsLoop fuel
    (mkDfs (UMap.set (visited s) first InStack) (d_blocks s) (d_grid s)
       ((first, O) :: stack s) (blockOrder s)).

(** [for (auto &blockIt : blocks) if (visited[...] == NotVisited) dfsFragment(...)],
    over the keys [ks] that the map has when the loop begins. *)
Fixpoint dfsRest (fuel : nat) (ks : list ut64) (s : Dfs) : Outcome Dfs :=
  match ks with
  | [] => Done s
  | k :: ks' =>
      let s1 := mkDfs (UMap.touch (visited s) k) (d_blocks s) (d_grid s)
                  (stack s) (blockOrder s) in
      match visited s1 @ k with
      | NotVisited => s2 <- dfsFragment fuel s1 k ;; dfsRest fuel ks' s2
      | _ => dfsRest fuel ks' s1
      end
  end.

(** Number of loop iterations that always suffices: every block is pushed and
    popped once and every edge is looked at once; an edge may name a target
    that is no block, which is pushed and popped as well. *)
Definition edgeCount (bs : UMap.t GraphBlock) : nat :=
  fold_right (fun kb n => (length (edges (snd kb)) + n)%nat) O bs.

Definition dfsFuel (bs : UMap.t GraphBlock) : nat :=
  (2 * edgeCount bs + length bs + 1)%nat.

Definition topoSort (st : LayoutState) (entry : ut64)
  : Outcome (LayoutState * list ut64) :=
  let fuel := dfsFuel (blocks st) in
  s1 <- dfsFragment fuel (mkDfs [] (blocks st) (grid_blocks st) [] []) entry ;;
  s2 <- dfsRest fuel (UMap.keys (d_blocks s1)) s1 ;;
  Done (with_grid_blocks (d_grid s2) (with_blocks (d_blocks s2) st),
        blockOrder s2).

(** ** assignRows *)

Definition raise_row (nextLevel : Z) (b : GridBlock) : GridBlock :=
  with_row (Z.max (row b) nextLevel) b.

Definition assignRows_block (g : UMap.t GridBlock) (v : ut64)
  : UMap.t GridBlock :=
  let g := UMap.touch g v in
  let nextLevel := row (g @ v) + 1 in
  fold_left (fun g tgt => UMap.modify g tgt (raise_row nextLevel))
    (dag_edge (g @ v)) g.

Definition assignRows (g : UMap.t GridBlock) (blockOrder : list ut64)
  : UMap.t GridBlock :=
  fold_left assignRows_block (rev blockOrder) g.

(** ** selectTree *)

Definition push_tree (tgt : ut64) (b : GridBlock) : GridBlock :=
  with_tree_edge (tree_edge b ++ [tgt]) b.

Definition selectTree_edge (v : ut64) (g : UMap.t GridBlock) (targetId : ut64)
  : UMap.t GridBlock :=
  let g := UMap.touch g targetId in
  if negb (has_parent (g @ targetId))
     && (row (g @ targetId) =? row (g @ v) + 1)
  then UMap.modify (UMap.modify g v (push_tree targetId)) targetId
         (with_has_parent true)
  else g.

Definition selectTree_block (g : UMap.t GridBlock) (v : ut64)
  : UMap.t GridBlock :=
  fold_left (selectTree_edge v) (dag_edge (g @ v)) g.

Definition selectTree (g : UMap.t GridBlock) : UMap.t GridBlock :=
  fold_left selectTree_block (UMap.keys g) g.

(** ** findMergePoints *)

(** First loop of [findMergePoints]: the last tree grandchild seen (the key
    that [mergeBlock] points to) and the number of tree grandchildren. *)
Definition findGrandChild (g : UMap.t GridBlock) (tree : list ut64)
  : option ut64 * Z :=
  fold_left
    (fun (acc : option ut64 * Z) e =>
       let targetBlock := g @ e in
       (match tree_edge targetBlock with
        | [] => fst acc
        | m :: _ => Some m
        end,
        snd acc + zlen (tree_edge targetBlock)))
    tree (None, 0).

(** Second loop, which stops at the first child that has no dag edge to the
    merge block: [(blocksGoingToMerge, blockWithTreeEdge)]. *)
Fixpoint countGoingToMerge (g : UMap.t GridBlock) (mergeId : ut64)
    (tree : list ut64) (blocksGoingToMerge blockWithTreeEdge : Z) : Z * Z :=
  match tree with
  | [] => (blocksGoingToMerge, blockWithTreeEdge)
  | e :: tree' =>
      let targetBlock := g @ e in
      if existsb (fun secondEdgeTarget => N.eqb secondEdgeTarget mergeId)
           (dag_edge targetBlock)
      then countGoingToMerge g mergeId tree' (blocksGoingToMerge + 1)
             (if zlen (tree_edge targetBlock) =? 1
              then blocksGoingToMerge else blockWithTreeEdge)
      else (blocksGoingToMerge, blockWithTreeEdge)
  end.

Definition findMergePoints_block (g : UMap.t GridBlock) (v : ut64)
  : UMap.t GridBlock :=
  let block := g @ v in
  match findGrandChild g (tree_edge block) with
  | (Some mergeBlock, 1) =>
      let '(blocksGoingToMerge, blockWithTreeEdge) :=
        countGoingToMerge g (id (g @ mergeBlock)) (tree_edge block) 0 0 in
      if blocksGoingToMerge =? 0 then g
      else
        UMap.modify g
          (nth (Z.to_nat blockWithTreeEdge) (tree_edge block) 0%N)
          (with_col (blockWithTreeEdge * 2 - (blocksGoingToMerge - 1)))
  | _ => g
  end.

Definition findMergePoints (g : UMap.t GridBlock) : UMap.t GridBlock :=
  fold_left findMergePoints_block (UMap.keys g) g.

(** ** LinkedListPool *)

(** Modelled from the spec: the class [LinkedListPool<int>] of
    [common/LinkedListPool.h], which is not part of the sources.  Section 9
    of the specification describes it as an arena of [{value, next}] cells
    with stable handles and the operations [makeList], [head], [append] and
    [splitTail], the last two in constant time.  Cell 0 is the null cell; a
    list handle holds the indices of its first and last cell; an iterator is
    a cell index and is null when it is 0. *)
Record Item : Type := mkItem { next : nat; value : Z }.

Definition Pool : Type := list Item.

Definition newPool : Pool := [mkItem 0 0].

Definition makeList (p : Pool) (v : Z) : Pool * PList :=
  (p ++ [mkItem 0 v], mkPList (length p) (length p)).

Definition deref (p : Pool) (it : nat) : Z := value (nth it p (mkItem 0 0)).

Definition incr (p : Pool) (it : nat) : nat := next (nth it p (mkItem 0 0)).

(** [*it += d] *)
Definition addTo (p : Pool) (it : nat) (d : Z) : Pool :=
  set_nth it p (mkItem (incr p it) (deref p it + d)).

Definition splitTail (l : PList) (it : nat) : PList := mkPList it (tail l).

Definition append (p : Pool) (a b : PList) : Pool * PList :=
  if Nat.eqb (head a) 0 then (p, b)
  else if Nat.eqb (head b) 0 then (p, a)
  else (set_nth (tail a) p (mkItem (head b) (deref p (tail a))),
        mkPList (head a) (tail b)).

(** ** computeAllBlockPlacement *)

Record Walk : Type := mkWalk {
  leftIt : nat;
  rightIt : nat;
  leftPos : Z;
  rightPos : Z;
  minPos : Z;
  maxLeftWidth : Z;
  minRightPos : Z
}.

(** [while (leftIt && rightIt)]: the part of two subtrees that touch. *)
Fixpoint walkSides (fuel : nat) (p : Pool) (w : Walk) : Outcome Walk :=
  if Nat.eqb (leftIt w) 0 || Nat.eqb (rightIt w) 0 then Done w
  else
    match fuel with
    | O => Diverge
    | S fuel' =>
        let leftPos' := leftPos w + deref p (leftIt w) in
        let rightPos' := rightPos w + deref p (rightIt w) in
        walkSides fuel' p
          (mkWalk (incr p (leftIt w)) (incr p (rightIt w)) leftPos' rightPos'
             (Z.max (minPos w) (leftPos' - rightPos'))
             (Z.max (maxLeftWidth w) leftPos')
             (Z.min (minRightPos w) rightPos'))
    end.

(** State of the loop that places the children of one block side by side. *)
Record Sides : Type := mkSides {
  s_grid : UMap.t GridBlock;
  s_pool : Pool;
  leftSide : PList;
  rightSide : PList
}.

(** Body of [for (size_t i = 1; i < block.tree_edge.size(); i++)]. *)
Definition placeChild (cfg : Config) (blockId : ut64) (s : Sides)
    (childId : ut64) : Outcome Sides :=
  let g := s_grid s in
  let p := s_pool s in
  w <- walkSides (length p) p
         (mkWalk (head (rightSide s)) (head (leftSideShape (g @ childId)))
            0 0 INT_MIN 0 (col (g @ childId))) ;;
  let rightTreeOffset :=
    if tightSubtreePlacement cfg then minPos w
    else if negb (Nat.eqb (leftIt w) 0)
         then maxLeftWidth w - leftPosition (g @ childId)
         else rightPosition (g @ blockId) - minRightPos w in
  let g := UMap.modify g childId
             (fun c => with_col (col c + rightTreeOffset) c) in
  let child := g @ childId in
  let '(g, p, leftSide', rightSide') :=
    if negb (Nat.eqb (leftIt w) 0) then
      let p := addTo p (leftIt w)
                 (- (rightTreeOffset + lastRowRight child - leftPos w)) in
      let '(p, r) := append p (rightSideShape child)
                       (splitTail (rightSide s) (leftIt w)) in
      (g, p, leftSide s, r)
    else if negb (Nat.eqb (rightIt w) 0) then
      let p := addTo p (rightIt w)
                 (rightPos w + rightTreeOffset - lastRowLeft (g @ blockId)) in
      let '(p, l) := append p (leftSide s)
                       (splitTail (leftSideShape child) (rightIt w)) in
      let g := UMap.modify g blockId
                 (fun b => with_lastRowLeft (lastRowLeft child + rightTreeOffset)
                             (with_lastRowRight
                                (lastRowRight child + rightTreeOffset) b)) in
      (g, p, l, rightSideShape child)
    else (g, p, leftSide s, rightSideShape child) in
  let p := addTo p (head rightSide') rightTreeOffset in
  let child := g @ childId in
  let g := UMap.modify g blockId
             (fun b =>
                with_rightPosition
                  (Z.max (rightPosition b) (rightTreeOffset + rightPosition child))
                  (with_leftPosition
                     (Z.min (leftPosition b) (leftPosition child + rightTreeOffset))
                     (with_row_count (Z.max (row_count b) (row_count child)) b))) in
  Done (mkSides g p leftSide' rightSide').

Fixpoint placeChildren (cfg : Config) (blockId : ut64) (s : Sides)
    (children : list ut64) : Outcome Sides :=
  match children with
  | [] => Done s
  | c :: cs => s' <- placeChild cfg blockId s c ;; placeChildren cfg blockId s' cs
  end.

(** [col] of the parent, relative to its children. *)
Definition parentCol (cfg : Config) (g : UMap.t GridBlock) (blockId : ut64)
  : Z :=
  let block := g @ blockId in
  if parentBetweenDirectChild cfg then
    let sum := fold_left (fun c tgt => c + col (g @ tgt)) (tree_edge block) 0 in
    (* [col /= block.tree_edge.size()]: the division is done in size_t *)
    to_int (Z.quot (to_size_t sum) (zlen (tree_edge block)))
  else
    let c := Z.quot (rightPosition block + leftPosition block) 2 - 1 in
    let c := Z.max c (col (g @ (hd 0%N (tree_edge block))) - 1) in
    Z.min c (col (g @ (last (tree_edge block) 0%N)) + 1).

(** Body of [for (auto blockId : blockOrder)]. *)
Definition placeBlock (cfg : Config) (gp : UMap.t GridBlock * Pool)
    (blockId : ut64) : Outcome (UMap.t GridBlock * Pool) :=
  let '(g, p) := gp in
  let g := UMap.touch g blockId in
  match tree_edge (g @ blockId) with
  | [] =>
      let '(p, l) := makeList p 0 in
      let '(p, r) := makeList p 2 in
      Done (UMap.modify g blockId
              (fun b =>
                 with_rightSideShape r
                   (with_leftSideShape l
                      (with_rightPosition 2
                         (with_leftPosition 0
                            (with_lastRowLeft 0
                               (with_lastRowRight 2
                                  (with_col 0 (with_row_count 1 b)))))))), p)
  | first :: others =>
      let firstChild := g @ first in
      let g := UMap.modify g blockId
                 (fun b =>
                    with_rightPosition (rightPosition firstChild)
                      (with_leftPosition (leftPosition firstChild)
                         (with_lastRowLeft (lastRowLeft firstChild)
                            (with_lastRowRight (lastRowRight firstChild)
                               (with_row_count (row_count firstChild) b))))) in
      s <- placeChildren cfg blockId
             (mkSides g p (leftSideShape firstChild) (rightSideShape firstChild))
             others ;;
      let g := s_grid s in
      let p := s_pool s in
      let c := parentCol cfg g blockId in
      let g := UMap.modify g blockId
                 (fun b =>
                    let bcol := col b + c in
                    with_rightPosition (Z.max (rightPosition b) (bcol + 2))
                      (with_leftPosition (Z.min (leftPosition b) bcol)
                         (with_row_count (row_count b + 1) (with_col bcol b)))) in
      let bcol := col (g @ blockId) in
      let p := addTo p (head (leftSide s)) (- bcol) in
      let '(p, l0) := makeList p bcol in
      let '(p, l) := append p l0 (leftSide s) in
      let g := UMap.modify g blockId (with_leftSideShape l) in
      let p := addTo p (head (rightSide s)) (- (bcol + 2)) in
      let '(p, r0) := makeList p (bcol + 2) in
      let '(p, r) := append p r0 (rightSide s) in
      let g := UMap.modify g blockId (with_rightSideShape r) in
      let g := fold_left
                 (fun g tgt =>
                    UMap.modify g tgt
                      (fun t => with_col (col t - col (g @ blockId)) t))
                 (tree_edge (g @ blockId)) g in
      Done (g, p)
  end.

Fixpoint placeBlocks (cfg : Config) (gp : UMap.t GridBlock * Pool)
    (blockOrder : list ut64) : Outcome (UMap.t GridBlock * Pool) :=
  match blockOrder with
  | [] => Done gp
  | b :: bs => gp' <- placeBlock cfg gp b ;; placeBlocks cfg gp' bs
  end.

(** Root positions: [for (auto &blockIt : layoutState.grid_blocks)]. *)
Definition placeRoot (acc : UMap.t GridBlock * Z) (v : ut64)
  : UMap.t GridBlock * Z :=
  let '(g, nextEmptyColumn) := acc in
  let block := g @ v in
  if row block =? 0 then
    let offset := - leftPosition block in
    (UMap.modify g v (with_col (col block + (nextEmptyColumn + offset))),
     rightPosition block + offset)
  else acc.

Definition placeRoots (g : UMap.t GridBlock) : UMap.t GridBlock :=
  fst (fold_left placeRoot (UMap.keys g) (g, 0)).

(** Relative to absolute columns, top to bottom. *)
Definition absoluteBlock (g : UMap.t GridBlock) (v : ut64)
  : Outcome (UMap.t GridBlock) :=
  let g := UMap.touch g v in
  _ <- assert (0 <=? col (g @ v)) ;;
  Done (fold_left
          (fun g childId =>
             UMap.modify g childId
               (fun c => with_col (col c + col (g @ v)) c))
          (tree_edge (g @ v)) g).

Fixpoint absoluteBlocks (g : UMap.t GridBlock) (order : list ut64)
  : Outcome (UMap.t GridBlock) :=
  match order with
  | [] => Done g
  | v :: vs => g' <- absoluteBlock g v ;; absoluteBlocks g' vs
  end.

Definition computeAllBlockPlacement (cfg : Config) (blockOrder : list ut64)
    (g : UMap.t GridBlock) : Outcome (UMap.t GridBlock) :=
  let g := assignRows g blockOrder in
  let g := selectTree g in
  let g := findMergePoints g in
  gp <- placeBlocks cfg (g, newPool) blockOrder ;;
  let g := placeRoots (fst gp) in
  absoluteBlocks g (rev blockOrder).

(** ** Sorting *)

(** [std::sort] with the comparison [lt].  The source relies on no order
    among elements that compare equal; the embedding keeps their order. *)
Section Sort.
Context {A : Type} (lt : A -> A -> bool).

Fixpoint insert_sorted (a : A) (l : list A) : list A :=
    match l with
    | [] => [a]
    | b :: l' => if lt b a then b :: insert_sorted a l' else a :: b :: l'
    end.

Definition sort (l : list A) : list A := fold_right insert_sorted [] l.
End Sort.

(** ** PointSetMinTree *)

(** Modelled from the spec: the class [PointSetMinTree] of
    [common/BinaryTrees.h], which is not part of the sources.  Section 4.6
    of the specification asks for: set(c, row); value at c; rightmost index
    <= c with value < row; leftmost index >= c with value < row; the last
    two answer -1 when there is no such index (the source asserts that they
    do not).  The tree over [n] positions is the list of its [n] values. *)
Module PointSetMinTree.
Definition t : Type := list Z.

Definition make (size : Z) (v : Z) : t := assign size v.

Definition set (tr : t) (pos v : Z) : t := vset tr pos v.

Definition valueAtPoint (tr : t) (pos : Z) : Z := vget tr pos.

  (** scan of the positions [i, i+1, ...] of [l], keeping the last hit *)
Fixpoint lastLess (l : list Z) (i : Z) (position value : Z) (found : Z) : Z :=
    match l with
    | [] => found
    | v :: l' =>
        lastLess l' (i + 1) position value
          (if (i <=? position) && (v <? value) then i else found)
    end.

Definition rightMostLessThan (tr : t) (position value : Z) : Z :=
    lastLess tr 0 position value (-1).

  (** scan of the positions [i, i+1, ...] of [l], stopping at the first hit *)
Fixpoint firstLess (l : list Z) (i : Z) (position value : Z) : Z :=
    match l with
    | [] => -1
    | v :: l' =>
        if (position <=? i) && (v <? value) then i
        else firstLess l' (i + 1) position value
    end.

Definition leftMostLessThan (tr : t) (position value : Z) : Z :=
    firstLess tr 0 position value.
End PointSetMinTree.

(** ** calculateEdgeMainColumn *)

Inductive EventType : Type := EdgeEvent | BlockEvent.

Definition EventType_int (t : EventType) : Z :=
  match t with EdgeEvent => 0 | BlockEvent => 1 end.

Record Event : Type := mkEvent {
  ev_blockId : ut64;
  ev_edgeId : nat;
  ev_row : Z;
  ev_type : EventType
}.

Definition Event_lt (a b : Event) : bool :=
  if negb (ev_row a =? ev_row b) then ev_row a <? ev_row b
  else EventType_int (ev_type a) <? EventType_int (ev_type b).

(** Events of one block: the block itself, then one per outgoing edge of the
    input block. *)
Definition blockEvents (st : LayoutState) (v : ut64) : list Event :=
  let startRow := row (grid_blocks st @ v) + 1 in
  mkEvent v 0 (row (grid_blocks st @ v)) BlockEvent ::
  map (fun ie : nat * GraphEdge =>
         let endRow := row (grid_blocks st @ target (snd ie)) in
         mkEvent v (fst ie) (Z.max startRow endRow) EdgeEvent)
      (combine (seq 0 (length (edges (blocks st @ v)))) (edges (blocks st @ v))).

Definition createEvents (st : LayoutState) : list Event :=
  flat_map (blockEvents st) (UMap.keys (grid_blocks st)).

Definition with_mainColumn (c : Z) (e : GridEdge) : GridEdge :=
  mkGridEdge (dest e) c (points e) (secondaryPriority e).

Definition setMainColumn (em : UMap.t (list GridEdge)) (blockId : ut64)
    (edgeId : nat) (c : Z) : UMap.t (list GridEdge) :=
  UMap.modify em blockId
    (fun l => set_nth edgeId l (with_mainColumn c (nth edgeId l dflt))).

(** The main column of the edge of an [Edge] event; the assertion of the
    source is kept. *)
Definition chooseMainColumn (st : LayoutState)
    (blockedColumns : PointSetMinTree.t) (em : UMap.t (list GridEdge))
    (event : Event) : Outcome Z :=
  let block := grid_blocks st @ ev_blockId event in
  let column := col block + 1 in
  let edge := nth (ev_edgeId event) (em @ ev_blockId event) dflt in
  let targetBlock := grid_blocks st @ dest edge in
  let topRow := Z.min (row block + 1) (row targetBlock) in
  let targetColumn := col targetBlock + 1 in
  if PointSetMinTree.valueAtPoint blockedColumns column <? topRow then
    Done column
  else if PointSetMinTree.valueAtPoint blockedColumns targetColumn <? topRow then
    Done targetColumn
  else
    let nearestLeft :=
      PointSetMinTree.rightMostLessThan blockedColumns column topRow in
    let nearestRight :=
      PointSetMinTree.leftMostLessThan blockedColumns column topRow in
    _ <- assert (negb (nearestLeft =? -1) && negb (nearestRight =? -1)) ;;
    let distanceLeft :=
      column - nearestLeft + Z.abs (targetColumn - nearestLeft) in
    let distanceRight :=
      nearestRight - column + Z.abs (targetColumn - nearestRight) in
    if (row targetBlock <? row block)
       && (targetColumn <? column)
       && (PointSetMinTree.valueAtPoint blockedColumns (column + 1) <? topRow)
       && (column - targetColumn <=? distanceLeft + 2)
    then Done (column + 1)
    else if (row targetBlock <? row block)
       && (column <? targetColumn)
       && (PointSetMinTree.valueAtPoint blockedColumns (column - 1) <? topRow)
       && (targetColumn - column <=? distanceRight + 2)
    then Done (column - 1)
    else if negb (distanceLeft =? distanceRight) then
      Done (if distanceLeft <? distanceRight then nearestLeft else nearestRight)
    else
      Done (if Z.of_nat (ev_edgeId event)
                 <? Z.quot (zlen (em @ ev_blockId event)) 2
            then nearestLeft else nearestRight).

Definition processEvent (st : LayoutState)
    (acc : PointSetMinTree.t * UMap.t (list GridEdge)) (event : Event)
  : Outcome (PointSetMinTree.t * UMap.t (list GridEdge)) :=
  let '(blockedColumns, em) := acc in
  match ev_type event with
  | BlockEvent =>
      let block := grid_blocks st @ ev_blockId event in
      Done (PointSetMinTree.set blockedColumns (col block + 1) (ev_row event),
            em)
  | EdgeEvent =>
      c <- chooseMainColumn st blockedColumns em event ;;
      Done (blockedColumns,
            setMainColumn em (ev_blockId event) (ev_edgeId event) c)
  end.

Fixpoint processEvents (st : LayoutState)
    (acc : PointSetMinTree.t * UMap.t (list GridEdge)) (events : list Event)
  : Outcome (PointSetMinTree.t * UMap.t (list GridEdge)) :=
  match events with
  | [] => Done acc
  | e :: es => acc' <- processEvent st acc e ;; processEvents st acc' es
  end.

Definition calculateEdgeMainColumn (st : LayoutState) : Outcome LayoutState :=
  let events := sort Event_lt (createEvents st) in
  r <- processEvents st
         (PointSetMinTree.make (columns st + 1) (-1), edge st) events ;;
  Done (with_edge (snd r) st).

(** ** roughRouting *)

(** [int16_t] field written from an [int] *)
Definition to_int16 (x : Z) : Z :=
  let r := x mod 2 ^ 16 in if r <? 2 ^ 15 then r else r - 2 ^ 16.

(** [blockWidth / edgeCount]: [roughRouting] calls it with the number of
    outgoing edges of the source and of incoming edges of the target of an
    edge, which are not 0. *)
Definition getSpacingOverride (cfg : Config) (blockWidth edgeCount : Z) : Z :=
  let maxSpacing := Z.quot blockWidth edgeCount in
  if maxSpacing <? edgeHorizontalSpacing cfg then Z.max maxSpacing 1 else 0.

Definition with_spacingOverride (v : Z) (p : Point) : Point :=
  mkPoint (p_row p) (p_col p) (offset p) (kind p) (to_int16 v).

Definition with_offset (v : Z) (p : Point) : Point :=
  mkPoint (p_row p) (p_col p) v (kind p) (spacingOverride p).

(** [edge.points.front() = f(front)] and [edge.points.back() = f(back)] *)
Definition map_front {A : Type} (f : A -> A) (l : list A) : list A :=
  match l with [] => [] | a :: l' => f a :: l' end.

Definition map_back {A : Type} (f : A -> A) (l : list A) : list A :=
  rev (map_front f (rev l)).

Fixpoint pathLength (pts : list Point) : Z :=
  match pts with
  | p :: ((q :: _) as rest) =>
      Z.abs (p_row q - p_row p) + Z.abs (p_col q - p_col p) + pathLength rest
  | _ => 0
  end.

Definition mainColumnKind (mainColumn startCol targetCol : Z) : Z :=
  if (mainColumn <? startCol + 1) && (mainColumn <? targetCol + 1) then 2
  else if (startCol + 1 <? mainColumn) && (targetCol + 1 <? mainColumn) then -2
  else if (mainColumn =? startCol + 1) && negb (mainColumn =? targetCol + 1)
  then (if mainColumn <? targetCol + 1 then 1 else -1)
  else if (mainColumn =? targetCol + 1) && negb (mainColumn =? startCol + 1)
  then (if mainColumn <? startCol + 1 then 1 else -1)
  else 0.

(** The points of one edge, before the spacing overrides are written. *)
Definition routePoints (start tgt : GridBlock) (edge : GridEdge) : GridEdge :=
  let edge := addPoint edge (row start + 1) (col start + 1) 0 in
  let edge :=
    if negb (mainColumn edge =? col start + 1) then
      let edge := addPoint edge (row start + 1) (col start + 1)
                    (if mainColumn edge <? col start + 1 then -1 else 1) in
      addPoint edge (row start + 1) (mainColumn edge)
        (if row tgt <=? row start then -2 else 0)
    else edge in
  let edge := addPoint edge (row tgt) (mainColumn edge)
                (mainColumnKind (mainColumn edge) (col start) (col tgt)) in
  if negb (col tgt + 1 =? mainColumn edge) then
    let edge := addPoint edge (row tgt) (col tgt + 1)
                  (if row tgt <=? row start then 2 else 0) in
    addPoint edge (row tgt) (col tgt + 1)
      (if col tgt + 1 <? mainColumn edge then 1 else -1)
  else edge.

(** Body of the inner loop of [roughRouting] for one edge. *)
Definition routeEdge (cfg : Config) (bs : UMap.t GraphBlock)
    (start tgt : GridBlock) (edge : GridEdge) : GridEdge :=
  let edge := routePoints start tgt edge in
  let startSpacingOverride :=
    getSpacingOverride cfg (width (bs @ id start)) (outputCount start) in
  let targetSpacingOverride :=
    getSpacingOverride cfg (width (bs @ id tgt)) (inputCount tgt) in
  let pts := map_front (with_spacingOverride startSpacingOverride) (points edge) in
  let pts := map_back (with_spacingOverride targetSpacingOverride) pts in
  mkGridEdge (dest edge) (mainColumn edge) pts
    (2 * pathLength pts + (if row start <=? row tgt then 1 else 0)).

Definition roughRouting_block (cfg : Config) (st : LayoutState) (v : ut64)
  : LayoutState :=
  let start := grid_blocks st @ v in
  let blockEdges := edge st @ v in
  let bs :=
    fold_left
      (fun bs e =>
         UMap.touch (UMap.touch bs (id start)) (id (grid_blocks st @ dest e)))
      blockEdges (blocks st) in
  let blockEdges' :=
    map (fun e => routeEdge cfg bs start (grid_blocks st @ dest e) e)
      blockEdges in
  with_edge (UMap.set (edge st) v blockEdges') (with_blocks bs st).

Definition roughRouting (cfg : Config) (st : LayoutState) : LayoutState :=
  fold_left (roughRouting_block cfg) (UMap.keys (grid_blocks st)) st.

(** ** RangeAssignMaxTree *)

(** Modelled from the spec: the class [RangeAssignMaxTree] of
    [common/BinaryTrees.h], which is not part of the sources.  Section 4.8
    of the specification uses it as a range-assign / range-max structure
    over [[0, H)]: [setRange l r v] assigns [v] on [[l, r)] and
    [rangeMaximum l r] is the maximum over [[l, r)], [INT_MIN] (the value the
    source constructs the tree with) when the range is empty. *)
Module RangeAssignMaxTree.
Definition t : Type := list Z.

Definition make (size : Z) (v : Z) : t := assign size v.

Fixpoint setFrom (tr : list Z) (i left right v : Z) : list Z :=
    match tr with
    | [] => []
    | a :: tr' =>
        (if (left <=? i) && (i <? right) then v else a)
        :: setFrom tr' (i + 1) left right v
    end.

Definition setRange (tr : t) (left right v : Z) : t :=
    setFrom tr 0 left right v.

Fixpoint maxFrom (tr : list Z) (i left right acc : Z) : Z :=
    match tr with
    | [] => acc
    | a :: tr' =>
        maxFrom tr' (i + 1) left right
          (if (left <=? i) && (i <? right) then Z.max acc a else acc)
    end.

Definition rangeMaximum (tr : t) (left right : Z) : Z :=
    maxFrom tr 0 left right INT_MIN.
End RangeAssignMaxTree.

(** ** calculateSegmentOffsets *)

Record EdgeSegment : Type := mkEdgeSegment {
  y0 : Z;
  y1 : Z;
  sx : Z;
  edgeIndex : Z;
  s_secondaryPriority : Z;
  s_kind : Z;
  s_spacingOverride : Z
}.

Record NodeSide : Type := mkNodeSide {
  nx : Z;
  ny0 : Z;
  ny1 : Z;
  size : Z
}.

Definition orientSegment (s : EdgeSegment) : EdgeSegment :=
  if y1 s <? y0 s
  then mkEdgeSegment (y1 s) (y0 s) (sx s) (edgeIndex s)
         (s_secondaryPriority s) (s_kind s) (s_spacingOverride s)
  else s.

Definition EdgeSegment_lt (a b : EdgeSegment) : bool :=
  if negb (sx a =? sx b) then sx a <? sx b
  else if negb (s_kind a =? s_kind b) then s_kind a <? s_kind b
  else
    let aSize := y1 a - y0 a in
    let bSize := y1 b - y0 b in
    if negb (aSize =? bSize) then
      (if negb (s_kind a =? 1) then aSize <? bSize else bSize <? aSize)
    else if negb (s_kind a =? 1)
    then s_secondaryPriority a <? s_secondaryPriority b
    else s_secondaryPriority b <? s_secondaryPriority a.

Definition NodeSide_lt (a b : NodeSide) : bool := nx a <? nx b.

Fixpoint dropWhile {A : Type} (f : A -> bool) (l : list A) : list A :=
  match l with
  | [] => []
  | a :: l' => if f a then dropWhile f l' else l
  end.

Fixpoint takeWhile {A : Type} (f : A -> bool) (l : list A) : list A :=
  match l with
  | [] => []
  | a :: l' => if f a then a :: takeWhile f l' else []
  end.

Definition applySides (tr : RangeAssignMaxTree.t) (sides : list NodeSide)
    (columnWidth : Z) : RangeAssignMaxTree.t :=
  fold_left
    (fun tr s =>
       RangeAssignMaxTree.setRange tr (ny0 s) (ny1 s + 1) (size s - columnWidth))
    sides tr.

(** Placement of the consecutive segments [segs] of one side of a column;
    [floor] tells whether the position is kept non-negative for segments of a
    kind other than -2. *)
Definition placeSegments (floor : bool) (segmentSpacing : Z)
    (acc : RangeAssignMaxTree.t * list Z) (segs : list EdgeSegment)
  : RangeAssignMaxTree.t * list Z :=
  fold_left
    (fun (acc : RangeAssignMaxTree.t * list Z) s =>
       let '(tr, edgeOffsets) := acc in
       let y := RangeAssignMaxTree.rangeMaximum tr (y0 s) (y1 s + 1) in
       let y := if floor && negb (s_kind s =? -2) then Z.max y 0 else y in
       let y := y + (if negb (s_spacingOverride s =? 0)
                     then s_spacingOverride s else segmentSpacing) in
       (RangeAssignMaxTree.setRange tr (y0 s) (y1 s + 1) y,
        vset edgeOffsets (edgeIndex s) y))
    segs acc.

Record SegState : Type := mkSegState {
  ss_segments : list EdgeSegment;
  ss_rightSide : list NodeSide;
  ss_leftSide : list NodeSide;
  ss_edgeOffsets : list Z;
  ss_edgeColumnWidth : list Z
}.

(** One iteration of [while (nextSegmentIt != segments.end())]. *)
Definition segmentColumn (columnWidth : list Z) (H segmentSpacing : Z)
    (s : SegState) : SegState :=
  match ss_segments s with
  | [] => s
  | s0 :: _ =>
      let x := sx s0 in
      let leftColumWidth := if 0 <? x then vget columnWidth (x - 1) else 0 in
      let tr := RangeAssignMaxTree.setRange
                  (RangeAssignMaxTree.make H INT_MIN) 0 H (- leftColumWidth) in
      let rs := dropWhile (fun n => nx n + 1 <? x) (ss_rightSide s) in
      let tr := applySides tr (takeWhile (fun n => nx n + 1 =? x) rs)
                  leftColumWidth in
      let rs := dropWhile (fun n => nx n + 1 =? x) rs in
      let isLeft := fun g => (sx g =? x) && (s_kind g <=? 1) in
      let '(tr, edgeOffsets) :=
        placeSegments true segmentSpacing (tr, ss_edgeOffsets s)
          (takeWhile isLeft (ss_segments s)) in
      let segs := dropWhile isLeft (ss_segments s) in
      let middleWidth := Z.max (RangeAssignMaxTree.rangeMaximum tr 0 H) 0 in
      let rightColumnWidth :=
        if x <? zlen columnWidth then vget columnWidth x else 0 in
      let tr := RangeAssignMaxTree.setRange tr 0 H (- rightColumnWidth) in
      let ls := dropWhile (fun n => nx n <? x) (ss_leftSide s) in
      let tr := applySides tr (takeWhile (fun n => nx n =? x) ls)
                  rightColumnWidth in
      let ls := dropWhile (fun n => nx n =? x) ls in
      let isHere := fun g => sx g =? x in
      let rightSegs := takeWhile isHere segs in
      let '(tr, edgeOffsets) :=
        placeSegments false segmentSpacing (tr, edgeOffsets) rightSegs in
      let segs := dropWhile isHere segs in
      let rightSideMiddle := Z.max (RangeAssignMaxTree.rangeMaximum tr 0 H) 0 in
      let rightSideMiddle :=
        Z.max rightSideMiddle
          (vget (ss_edgeColumnWidth s) x - middleWidth - segmentSpacing) in
      let edgeOffsets :=
        fold_left
          (fun eo g =>
             vset eo (edgeIndex g)
               (middleWidth + (rightSideMiddle - vget eo (edgeIndex g))
                + segmentSpacing))
          rightSegs edgeOffsets in
      mkSegState segs rs ls edgeOffsets
        (vset (ss_edgeColumnWidth s) x
           (middleWidth + segmentSpacing + rightSideMiddle))
  end.

Fixpoint segmentColumns (fuel : nat) (columnWidth : list Z)
    (H segmentSpacing : Z) (s : SegState) : SegState :=
  match ss_segments s, fuel with
  | [], _ => s
  | _, O => s
  | _, S fuel' =>
      segmentColumns fuel' columnWidth H segmentSpacing
        (segmentColumn columnWidth H segmentSpacing s)
  end.

(** Returns the segments as the call leaves them (oriented and sorted), the
    offsets and the widths of the edge columns. *)
Definition calculateSegmentOffsets (segments : list EdgeSegment)
    (edgeOffsets edgeColumnWidth : list Z)
    (nodeRightSide nodeLeftSide : list NodeSide) (columnWidth : list Z)
    (H segmentSpacing : Z) : list EdgeSegment * list Z * list Z :=
  let segments := sort EdgeSegment_lt (map orientSegment segments) in
  let r := segmentColumns (length segments) columnWidth H segmentSpacing
             (mkSegState segments (sort NodeSide_lt nodeRightSide)
                (sort NodeSide_lt nodeLeftSide) edgeOffsets edgeColumnWidth) in
  (segments, ss_edgeOffsets r, ss_edgeColumnWidth r).

(** ** centerEdges *)

Record CEvent : Type := mkCEvent {
  cx : Z;
  cy : Z;
  index : Z;
  start : bool
}.

Definition CEvent_lt (a b : CEvent) : bool :=
  if negb (cx a =? cx b) then cx a <? cx b
  else if negb (cy a =? cy b) then cy a <? cy b
  else start a && negb (start b).

(** The events after [chunkStart] up to the one that closes the chunk, the
    events that follow, and the largest offset met. *)
Fixpoint takeChunk (segmentOffsets : list Z) (activeSegmentCount : Z)
    (chunkWidth : Z) (events : list CEvent)
  : list CEvent * list CEvent * Z :=
  if activeSegmentCount <=? 0 then ([], events, chunkWidth)
  else
    match events with
    | [] => ([], [], chunkWidth)
    | e :: es =>
        let '(chunk, rest, w) :=
          takeChunk segmentOffsets
            (activeSegmentCount + (if start e then 1 else -1))
            (Z.max chunkWidth (vget segmentOffsets (index e))) es in
        (e :: chunk, rest, w)
    end.

Fixpoint centerChunks (fuel : nat) (edgeColumnWidth : list Z) (minSpacing : Z)
    (segmentOffsets : list Z) (events : list CEvent) : list Z :=
  match events, fuel with
  | [], _ => segmentOffsets
  | _, O => segmentOffsets
  | chunkStart :: es, S fuel' =>
      let '(chunk, rest, chunkWidth) := takeChunk segmentOffsets 1 0 es in
      let chunkWidth := chunkWidth + minSpacing in
      let spacing :=
        Z.quot (Z.max (vget edgeColumnWidth (cx chunkStart)) minSpacing
                - chunkWidth) 2 in
      let segmentOffsets :=
        fold_left
          (fun so e =>
             if start e then vset so (index e) (vget so (index e) + spacing)
             else so)
          (chunkStart :: chunk) segmentOffsets in
      centerChunks fuel' edgeColumnWidth minSpacing segmentOffsets rest
  end.

Definition centerEdges (segmentOffsets edgeColumnWidth : list Z)
    (segments : list EdgeSegment) (minSpacing : Z) : list Z :=
  let events :=
    flat_map
      (fun s =>
         let o := vget segmentOffsets (edgeIndex s) in
         if (0 <=? o) && (o <=? vget edgeColumnWidth (sx s))
         then [mkCEvent (sx s) (y0 s) (edgeIndex s) true;
               mkCEvent (sx s) (y1 s) (edgeIndex s) false]
         else [])
      segments in
  let events := sort CEvent_lt events in
  centerChunks (length events) edgeColumnWidth minSpacing segmentOffsets events.

(** ** compressCoordinates *)

Fixpoint unique (l : list Z) : list Z :=
  match l with
  | a :: ((b :: _) as l') => if a =? b then unique l' else a :: unique l'
  | _ => l
  end.

(** [std::lower_bound] on a sorted vector: the number of elements below
    [position]. *)
Definition lower_bound (positions : list Z) (position : Z) : Z :=
  zlen (takeWhile (fun p => p <? position) positions).

Definition compressCoordinates (segments : list EdgeSegment)
    (leftSides rightSides : list NodeSide)
  : Outcome (list EdgeSegment * list NodeSide * list NodeSide * Z) :=
  let positions :=
    flat_map (fun s => [y0 s; y1 s]) segments
    ++ flat_map (fun n => [ny0 n; ny1 n]) leftSides in
  let positions := unique (sort Z.ltb positions) in
  let positionToIndex := lower_bound positions in
  let ok := fun p => positionToIndex p <? zlen positions in
  _ <- assert (forallb (fun s => ok (y0 s) && ok (y1 s)) segments) ;;
  _ <- assert (Nat.eqb (length leftSides) (length rightSides)) ;;
  _ <- assert (forallb (fun n => ok (ny0 n) && ok (ny1 n)) leftSides) ;;
  let segments :=
    map (fun s =>
           mkEdgeSegment (positionToIndex (y0 s)) (positionToIndex (y1 s))
             (sx s) (edgeIndex s) (s_secondaryPriority s) (s_kind s)
             (s_spacingOverride s))
      segments in
  let leftSides' :=
    map (fun n =>
           mkNodeSide (nx n) (positionToIndex (ny0 n)) (positionToIndex (ny1 n))
             (size n))
      leftSides in
  let rightSides' :=
    map (fun lr : NodeSide * NodeSide =>
           mkNodeSide (nx (snd lr)) (positionToIndex (ny0 (fst lr)))
             (positionToIndex (ny1 (fst lr))) (size (snd lr)))
      (combine leftSides rightSides) in
  Done (segments, leftSides', rightSides', zlen positions).

(** ** adjustColumnWidths and calculateColumnOffsets *)

Definition with_widths (columnWidth rowHeight : list Z) (s : LayoutState) :=
  mkLayoutState (blocks s) (grid_blocks s) (edge s) (rows s) (columns s)
    columnWidth rowHeight (edgeColumnWidth s) (edgeRowHeight s)
    (columnOffset s) (rowOffset s) (edgeColumnOffset s) (edgeRowOffset s).

Definition with_edgeColumnWidth (v : list Z) (s : LayoutState) :=
  mkLayoutState (blocks s) (grid_blocks s) (edge s) (rows s) (columns s)
    (columnWidth s) (rowHeight s) v (edgeRowHeight s)
    (columnOffset s) (rowOffset s) (edgeColumnOffset s) (edgeRowOffset s).

Definition with_edgeRowHeight (v : list Z) (s : LayoutState) :=
  mkLayoutState (blocks s) (grid_blocks s) (edge s) (rows s) (columns s)
    (columnWidth s) (rowHeight s) (edgeColumnWidth s) v
    (columnOffset s) (rowOffset s) (edgeColumnOffset s) (edgeRowOffset s).

Definition with_columnOffsets (co eco : list Z) (s : LayoutState) :=
  mkLayoutState (blocks s) (grid_blocks s) (edge s) (rows s) (columns s)
    (columnWidth s) (rowHeight s) (edgeColumnWidth s) (edgeRowHeight s)
    co (rowOffset s) eco (edgeRowOffset s).

Definition with_rowOffsets (ro ero : list Z) (s : LayoutState) :=
  mkLayoutState (blocks s) (grid_blocks s) (edge s) (rows s) (columns s)
    (columnWidth s) (rowHeight s) (edgeColumnWidth s) (edgeRowHeight s)
    (columnOffset s) ro (edgeColumnOffset s) ero.

Definition with_rows_columns (r c : Z) (s : LayoutState) :=
  mkLayoutState (blocks s) (grid_blocks s) (edge s) r c
    (columnWidth s) (rowHeight s) (edgeColumnWidth s) (edgeRowHeight s)
    (columnOffset s) (rowOffset s) (edgeColumnOffset s) (edgeRowOffset s).

Definition adjustColumnWidths (st : LayoutState) : LayoutState :=
  let '(rh, cw) :=
    fold_left
      (fun (acc : list Z * list Z) v =>
         let '(rh, cw) := acc in
         let node := grid_blocks st @ v in
         let inputBlock := blocks st @ v in
         let rh := vset rh (row node)
                     (Z.max (height inputBlock) (vget rh (row node))) in
         let edgeWidth := vget (edgeColumnWidth st) (col node + 1) in
         let columnWidth := Z.quot (width inputBlock - edgeWidth) 2 in
         let cw := vset cw (col node)
                     (Z.max columnWidth (vget cw (col node))) in
         let cw := vset cw (col node + 1)
                     (Z.max columnWidth (vget cw (col node + 1))) in
         (rh, cw))
      (UMap.keys (grid_blocks st))
      (assign (rows st) 0, assign (columns st) 0) in
  with_widths cw rh st.

(** Loop of [calculateColumnOffsets]: the offsets written so far, in reverse,
    and the running position. *)
Fixpoint columnOffsetsLoop (columnWidth edgeColumnWidth : list Z)
    (position : Z) : list Z * list Z * Z :=
  match columnWidth with
  | [] => ([], [], position)
  | w :: columnWidth' =>
      let ew := hd 0 edgeColumnWidth in
      let '(co, eco, final) :=
        columnOffsetsLoop columnWidth' (List.tail edgeColumnWidth)
          (position + ew + w) in
      ((position + ew) :: co, position :: eco, final)
  end.

(** [(columnOffset, edgeColumnOffset, returned position)].  The positions
    are sums of [int] in the source; with widths that are not negative no
    sum is above the returned position. *)
Definition calculateColumnOffsets (columnWidth edgeColumnWidth : list Z)
  : Outcome (list Z * list Z * Z) :=
  _ <- assert (Nat.eqb (length edgeColumnWidth) (length columnWidth + 1)) ;;
  let '(co, eco, position) :=
    columnOffsetsLoop columnWidth edgeColumnWidth 0 in
  Done (co, eco ++ [position], position + last edgeColumnWidth 0).

(** ** elaborateEdgePlacement *)

(** [points[j]] for j = from, from + 2, ... together with [points[j-1]] and
    [points[j+1]] (the point itself when there is none). *)
Fixpoint everySecond (prev : Point) (l : list Point)
  : list (Point * Point * Point) :=
  match l with
  | [] => []
  | [p] => [(prev, p, p)]
  | p :: q :: l' => (prev, p, q) :: everySecond q l'
  end.

(** the points of odd index, with their neighbours *)
Definition oddPoints (pts : list Point) : list (Point * Point * Point) :=
  match pts with
  | [] => []
  | p0 :: l => everySecond p0 l
  end.

(** the points of even index from 2 on, with their neighbours *)
Definition evenPoints (pts : list Point) : list (Point * Point * Point) :=
  match pts with
  | _ :: p1 :: l => everySecond p1 l
  | _ => []
  end.

Definition allEdges (st : LayoutState) : list GridEdge :=
  flat_map snd (edge st).

(** [segmentFromPoint] with the running [edgeIndex] made explicit *)
Definition segmentFromPoint (i : nat) (point : Point) (e : GridEdge)
    (y0 y1 x : Z) : EdgeSegment :=
  mkEdgeSegment y0 y1 x (Z.of_nat i) (secondaryPriority e) (kind point)
    (spacingOverride point).

Definition number {A B : Type} (f : nat -> A -> B) (l : list A) : list B :=
  map (fun ia : nat * A => f (fst ia) (snd ia)) (combine (seq 0 (length l)) l).

Definition verticalSegments (st : LayoutState) : list EdgeSegment :=
  number
    (fun i (ep : GridEdge * (Point * Point * Point)) =>
       let '(e, (prev, p, _)) := ep in
       segmentFromPoint i p e (p_row prev * 2) (p_row p * 2) (p_col p))
    (flat_map (fun e => map (pair e) (oddPoints (points e))) (allEdges st)).

Definition horizontalSegments (st : LayoutState) : list EdgeSegment :=
  number
    (fun i (ep : GridEdge * (Point * Point * Point)) =>
       let '(e, (prev, p, nxt)) := ep in
       segmentFromPoint i p e
         (vget (edgeColumnOffset st) (p_col prev) + offset prev)
         (vget (edgeColumnOffset st) (p_col nxt) + offset nxt)
         (p_row p))
    (flat_map (fun e => map (pair e) (evenPoints (points e))) (allEdges st)).

(** [copySegmentsToEdges]: the offsets are handed out in the order in which
    the segments were numbered. *)
Fixpoint setOffsets (here : bool) (pts : list Point) (edgeOffsets : list Z)
    (i : Z) : list Point * Z :=
  match pts with
  | [] => ([], i)
  | p :: pts' =>
      if here then
        let '(r, i') := setOffsets false pts' edgeOffsets (i + 1) in
        (with_offset (vget edgeOffsets i) p :: r, i')
      else
        let '(r, i') := setOffsets true pts' edgeOffsets i in
        (p :: r, i')
  end.

(** [col] selects the points of odd index (vertical segments), otherwise the
    points of even index from 2 on are written. *)
Definition copyToEdge (col : bool) (edgeOffsets : list Z)
    (acc : list GridEdge * Z) (e : GridEdge) : list GridEdge * Z :=
  let '(done, i) := acc in
  let '(pts, i') :=
    match points e with
    | [] => ([], i)
    | p0 :: rest =>
        let '(r, i') := setOffsets col rest edgeOffsets i in
        (p0 :: r, i')
    end in
  (done ++ [mkGridEdge (dest e) (mainColumn e) pts (secondaryPriority e)], i').

Definition copySegmentsToEdges (col : bool) (edgeOffsets : list Z)
    (em : UMap.t (list GridEdge)) : UMap.t (list GridEdge) :=
  fst
    (fold_left
       (fun (acc : UMap.t (list GridEdge) * Z) (kl : ut64 * list GridEdge) =>
          let '(done, i) := acc in
          let '(l, i') := fold_left (copyToEdge col edgeOffsets) (snd kl) ([], i) in
          (done ++ [(fst kl, l)], i'))
       em ([], 0)).

(** [v.resize(n)] *)
Definition resize (v : list Z) (n : Z) : list Z :=
  firstn (Z.to_nat n) v ++ repeat 0 (Z.to_nat n - length v).

Definition edgeWidths (n inner outer : Z) : list Z :=
  let v := assign n inner in
  let v := vset v (zlen v - 1) outer in
  vset v 0 outer.

Definition fixOuterOffsets (st : LayoutState) (oldColumnWidths : list Z)
    (segments : list EdgeSegment) (edgeOffsets : list Z) : list Z :=
  fold_left
    (fun eo s =>
       if s_kind s =? -2 then
         vset eo (edgeIndex s)
           (vget eo (edgeIndex s)
            - ((Z.quot (vget (edgeColumnWidth st) (sx s - 1)) 2
                + vget (columnWidth st) (sx s - 1))
               - vget oldColumnWidths (sx s - 1)))
       else if s_kind s =? 2 then
         vset eo (edgeIndex s)
           (vget eo (edgeIndex s)
            + ((Z.quot (vget (edgeColumnWidth st) (sx s + 1)) 2
                + vget (columnWidth st) (sx s))
               - vget oldColumnWidths (sx s)))
       else eo)
    segments edgeOffsets.

Definition elaborateEdgePlacement (cfg : Config) (st : LayoutState)
  : Outcome LayoutState :=
  (* vertical segments *)
  let segments := verticalSegments st in
  let leftSides :=
    map (fun v =>
           let node := grid_blocks st @ v in
           let leftWidth := Z.quot (width (blocks st @ v)) 2 in
           mkNodeSide (col node) (row node * 2 + 1) (row node * 2 + 1) leftWidth)
      (UMap.keys (grid_blocks st)) in
  let rightSides :=
    map (fun v =>
           let node := grid_blocks st @ v in
           let w := width (blocks st @ v) in
           let rightWidth := w - Z.quot w 2 in
           mkNodeSide (col node + 1) (row node * 2 + 1) (row node * 2 + 1)
             rightWidth)
      (UMap.keys (grid_blocks st)) in
  let st := with_edgeColumnWidth
              (edgeWidths (columns st + 1) (blockHorizontalSpacing cfg)
                 (edgeHorizontalSpacing cfg)) st in
  let edgeOffsets := resize [] (zlen segments) in
  let '(segments, edgeOffsets, ecw) :=
    calculateSegmentOffsets segments edgeOffsets (edgeColumnWidth st)
      rightSides leftSides (columnWidth st) (2 * rows st + 1)
      (edgeHorizontalSpacing cfg) in
  let st := with_edgeColumnWidth ecw st in
  let edgeOffsets :=
    centerEdges edgeOffsets (edgeColumnWidth st) segments
      (blockHorizontalSpacing cfg) in
  let oldColumnWidths := columnWidth st in
  let st := adjustColumnWidths st in
  let edgeOffsets := fixOuterOffsets st oldColumnWidths segments edgeOffsets in
  '(co, eco, _) <- calculateColumnOffsets (columnWidth st) (edgeColumnWidth st) ;;
  let st := with_columnOffsets co eco st in
  let st := with_edge (copySegmentsToEdges true edgeOffsets (edge st)) st in
  (* horizontal segments *)
  let segments := horizontalSegments st in
  let edgeOffsets := resize edgeOffsets (zlen segments) in
  let bs := fold_left (fun bs v => UMap.touch bs (id (grid_blocks st @ v)))
              (UMap.keys (grid_blocks st)) (blocks st) in
  let st := with_blocks bs st in
  let sideOf := fun (top : bool) v =>
    let node := grid_blocks st @ v in
    let blockWidth := width (blocks st @ id node) in
    let leftSide :=
      vget (edgeColumnOffset st) (col node + 1)
      + Z.quot (vget (edgeColumnWidth st) (col node + 1)) 2
      - Z.quot blockWidth 2 in
    let rightSide := leftSide + blockWidth in
    let h := height (blocks st @ v) in
    let freeSpace := vget (rowHeight st) (row node) - h in
    let topProfile := vget (rowHeight st) (row node) in
    let bottomProfile := h in
    let topProfile :=
      if verticalBlockAlignmentMiddle cfg
      then topProfile - Z.quot freeSpace 2 else topProfile in
    let bottomProfile :=
      if verticalBlockAlignmentMiddle cfg
      then bottomProfile + Z.quot freeSpace 2 else bottomProfile in
    mkNodeSide (row node) leftSide rightSide
      (if top then topProfile else bottomProfile) in
  let leftSides := map (sideOf true) (UMap.keys (grid_blocks st)) in
  let rightSides := map (sideOf false) (UMap.keys (grid_blocks st)) in
  let st := with_edgeRowHeight
              (edgeWidths (rows st + 1) (blockVerticalSpacing cfg)
                 (edgeVerticalSpacing cfg)) st in
  '(segments, leftSides, rightSides, compressedCoordinates) <-
    compressCoordinates segments leftSides rightSides ;;
  let '(_, edgeOffsets, erh) :=
    calculateSegmentOffsets segments edgeOffsets (edgeRowHeight st)
      rightSides leftSides (rowHeight st) compressedCoordinates
      (edgeVerticalSpacing cfg) in
  let st := with_edgeRowHeight erh st in
  Done (with_edge (copySegmentsToEdges false edgeOffsets (edge st)) st).

Definition routeEdges (cfg : Config) (st : LayoutState) : Outcome LayoutState :=
  st <- calculateEdgeMainColumn st ;;
  elaborateEdgePlacement cfg (roughRouting cfg st).

(** ** convertToPixelCoordinates *)

Definition with_xy (bx by_ : Z) (b : GraphBlock) : GraphBlock :=
  mkGraphBlock bx by_ (width b) (height b) (edges b).

Definition with_edges (es : list GraphEdge) (b : GraphBlock) : GraphBlock :=
  mkGraphBlock (x b) (y b) (width b) (height b) es.

Definition setX (v : Z) (p : Z * Z) : Z * Z := (v, snd p).
Definition setY (v : Z) (p : Z * Z) : Z * Z := (fst p, v).

(** Loop over [edge.points[j]], j >= 1; [vertical] says whether j is odd. *)
Fixpoint tracePolyline (st : LayoutState) (vertical : bool) (pts : list Point)
    (poly : list (Z * Z)) : list (Z * Z) :=
  match pts with
  | [] => poly
  | p :: pts' =>
      if vertical then
        let px := vget (edgeColumnOffset st) (p_col p) + offset p in
        tracePolyline st false pts' (map_back (setX px) poly ++ [(px, 0)])
      else
        let py := vget (edgeRowOffset st) (p_row p) + offset p in
        tracePolyline st true pts' (map_back (setY py) poly ++ [(0, py)])
  end.

Definition edgePolyline (st : LayoutState) (bs : UMap.t GraphBlock)
    (block : GraphBlock) (resultEdge : GraphEdge) (e : GridEdge)
  : GraphEdge :=
  let tgt := bs @ target resultEdge in
  let poly := tracePolyline st true (List.tail (points e))
                [(0, y block + height block)] in
  mkGraphEdge (target resultEdge) (map_back (setY (y tgt)) poly).

Definition convertToPixelCoordinates (cfg : Config) (st : LayoutState)
  : Outcome (LayoutState * Z * Z) :=
  '(co, eco, width_) <-
    calculateColumnOffsets (columnWidth st) (edgeColumnWidth st) ;;
  let st := with_columnOffsets co eco st in
  '(ro, ero, height_) <-
    calculateColumnOffsets (rowHeight st) (edgeRowHeight st) ;;
  let st := with_rowOffsets ro ero st in
  (* block pixel positions *)
  let g := fold_left UMap.touch (UMap.keys (blocks st)) (grid_blocks st) in
  let st := with_grid_blocks g st in
  let bs :=
    map (fun kb : ut64 * GraphBlock =>
           let '(k, b) := kb in
           let gridBlock := grid_blocks st @ k in
           let bx := vget (edgeColumnOffset st) (col gridBlock + 1)
                     + Z.quot (vget (edgeColumnWidth st) (col gridBlock + 1)) 2
                     - Z.quot (width b) 2 in
           let by_ := vget (rowOffset st) (row gridBlock) in
           let by_ :=
             if verticalBlockAlignmentMiddle cfg
             then by_ + Z.quot (vget (rowHeight st) (row gridBlock) - height b) 2
             else by_ in
           (k, with_xy bx by_ b))
      (blocks st) in
  (* edge pixel positions *)
  let bs :=
    map (fun kb : ut64 * GraphBlock =>
           let '(k, b) := kb in
           (k, with_edges
                 (map (fun ie : nat * GraphEdge =>
                         edgePolyline st bs b (snd ie)
                           (nth (fst ie) (edge st @ k) dflt))
                    (combine (seq 0 (length (edges b))) (edges b)))
                 b))
      bs in
  Done (with_blocks bs st, width_, height_).

(** ** CalculateLayout *)

Definition initGridBlocks (bs : UMap.t GraphBlock) : UMap.t GridBlock :=
  fold_left (fun g k => UMap.set g k (with_id k dflt)) (UMap.keys bs) [].

Definition initEdges (bs : UMap.t GraphBlock) : UMap.t (list GridEdge) :=
  fold_left
    (fun em (kb : ut64 * GraphBlock) =>
       UMap.set em (fst kb)
         (map (fun e => mkGridEdge (target e) (-1) [] 0) (edges (snd kb))))
    bs [].

(** [for (const auto &edgeList : layoutState.edge)] *)
Definition countEdges (em : UMap.t (list GridEdge)) (g : UMap.t GridBlock)
  : UMap.t GridBlock :=
  fold_left
    (fun g (kl : ut64 * list GridEdge) =>
       let g := UMap.modify g (fst kl)
                  (fun b => with_outputCount (outputCount b + 1) b) in
       fold_left
         (fun g e =>
            UMap.modify g (dest e)
              (fun b => with_inputCount (inputCount b + 1) b))
         (snd kl) g)
    em g.

(** [size_t(x) + n] for an [int] x and a small n: a negative x wraps around
    2^64, and a non-negative [int] plus n stays below 2^64. *)
Definition size_t_plus (x n : Z) : Z :=
  if x <? 0 then (to_size_t x + n) mod 2 ^ 64 else x + n.

(** [rows] and [columns] are [size_t] *)
Definition gridSize (g : UMap.t GridBlock) : Z * Z :=
  fold_left
    (fun (rc : Z * Z) (kb : ut64 * GridBlock) =>
       (Z.max (fst rc) (size_t_plus (row (snd kb)) 1),
        Z.max (snd rc) (size_t_plus (col (snd kb)) 2)))
    g (1, 1).

Definition initWidths (st : LayoutState) : LayoutState :=
  let '(rh, cw) :=
    fold_left
      (fun (acc : list Z * list Z) v =>
         let '(rh, cw) := acc in
         let node := grid_blocks st @ v in
         let inputBlock := blocks st @ v in
         let rh := vset rh (row node)
                     (Z.max (height inputBlock) (vget rh (row node))) in
         let cw := vset cw (col node)
                     (Z.max (Z.quot (width inputBlock) 2) (vget cw (col node))) in
         let cw := vset cw (col node + 1)
                     (Z.max (Z.quot (width inputBlock) 2)
                        (vget cw (col node + 1))) in
         (rh, cw))
      (UMap.keys (grid_blocks st))
      (assign (rows st) 0, assign (columns st) 0) in
  with_widths cw rh st.

(** What a call leaves in [blocks], [width] and [height]. *)
Record Layout : Type := mkLayout {
  out_blocks : UMap.t GraphBlock;
  out_width : Z;
  out_height : Z
}.

(** The [LayoutState] after the first loop of [CalculateLayout]; [rows] and
    [columns] start as [size_t(-1)] and are written before they are read. *)
Definition initialState (bs : UMap.t GraphBlock) : LayoutState :=
  mkLayoutState bs (initGridBlocks bs) [] (-1) (-1) [] [] [] [] [] [] [] [].

(** [CalculateLayout] up to the call of [routeEdges]. *)
Definition prepareLayout (cfg : Config) (bs : UMap.t GraphBlock)
    (entry : ut64) : Outcome LayoutState :=
  '(layoutState, blockOrder) <- topoSort (initialState bs) entry ;;
  g <- computeAllBlockPlacement cfg blockOrder (grid_blocks layoutState) ;;
  let layoutState := with_grid_blocks g layoutState in
  let layoutState := with_edge (initEdges (blocks layoutState)) layoutState in
  let layoutState :=
    with_grid_blocks (countEdges (edge layoutState) (grid_blocks layoutState))
      layoutState in
  let '(r, c) := gridSize (grid_blocks layoutState) in
  let layoutState := with_rows_columns r c layoutState in
  Done (initWidths layoutState).

Definition CalculateLayout (cfg : Config) (bs : UMap.t GraphBlock)
    (entry : ut64) : Outcome Layout :=
  layoutState <- prepareLayout cfg bs entry ;;
  layoutState <- routeEdges cfg layoutState ;;
  '(layoutState, w, h) <- convertToPixelCoordinates cfg layoutState ;;
  Done (mkLayout (blocks layoutState) w h).

(** The state that [roughRouting] leaves, before the offsets are computed. *)
Definition routedState (cfg : Config) (bs : UMap.t GraphBlock) (entry : ut64)
  : Outcome LayoutState :=
  layoutState <- prepareLayout cfg bs entry ;;
  layoutState <- calculateEdgeMainColumn layoutState ;;
  Done (roughRouting cfg layoutState).

(** ** Examples of section 8 of the specification *)

Definition cfg10 (t : LayoutType) : Config := mkConfig t false 10 10 10 10.

Definition blk (w h : Z) (targets : list ut64) : GraphBlock :=
  mkGraphBlock 0 0 w h (map (fun t => mkGraphEdge t []) targets).

Definition E1 : UMap.t GraphBlock := [(1%N, blk 100 50 [])].
Definition E2 : UMap.t GraphBlock :=
  [(1%N, blk 100 50 [2%N]); (2%N, blk 100 50 [3%N]); (3%N, blk 100 50 [])].
Definition E3 : UMap.t GraphBlock :=
  [(1%N, blk 100 50 [2%N; 3%N]); (2%N, blk 100 50 [4%N]);
   (3%N, blk 100 50 [4%N]); (4%N, blk 100 50 [])].
Definition E4 : UMap.t GraphBlock :=
  [(1%N, blk 100 50 [2%N]); (2%N, blk 100 50 [1%N])].
Definition E6 : UMap.t GraphBlock :=
  [(1%N, blk 100 50 [2%N]); (2%N, blk 100 50 []);
   (3%N, blk 100 50 [4%N]); (4%N, blk 100 50 [])].

(** Block 1 is narrow and has two outgoing edges. *)
Definition fanOut : UMap.t GraphBlock :=
  [(1%N, blk 10 50 [2%N; 3%N]); (2%N, blk 100 50 []); (3%N, blk 100 50 [])].

(** An edge to an id that is no block. *)
Definition dangling : UMap.t GraphBlock := [(1%N, blk 100 50 [2%N])].

(** ** Vocabulary of the statements *)

(** Every edge of every block names a block of the map. *)
Definition targetsKnown (bs : UMap.t GraphBlock) : Prop :=
  forall kb e,
    In kb bs -> In e (edges (snd kb)) -> In (target e) (UMap.keys bs).


(** The grid block that [operator[]] and the placement leave for an id that
    is the only block of the graph and was not created by [CalculateLayout]
    itself. *)
Definition implicitBlock : GridBlock :=
  mkGridBlock 0%N [] [] false 0 1 1 0 0 0 2 0 2 (mkPList 1 1) (mkPList 2 2).

(** ** Vocabulary of the depth-first search *)

Definition targetsOf (bs : UMap.t GraphBlock) (k : ut64) : list ut64 :=
  map target (edges (bs @ k)).

Definition allTargets (bs : UMap.t GraphBlock) : list ut64 :=
  flat_map (fun kb : ut64 * GraphBlock => map target (edges (snd kb))) bs.

(** The ids that [topoSort] can meet: the entry, the blocks and the targets
    of their edges. *)
Definition universe (bs : UMap.t GraphBlock) (entry : ut64) : list ut64 :=
  nodup N.eq_dec (entry :: UMap.keys bs ++ allTargets bs).

(** Iterations of the loop that a block still costs: one per edge and one to
    pop it. *)
Definition weight (bs : UMap.t GraphBlock) (k : ut64) : nat :=
  S (length (edges (bs @ k))).

Definition stackWeight (bs : UMap.t GraphBlock) (stk : list (ut64 * nat))
  : nat :=
  fold_right (fun vi n => (weight bs (fst vi) - snd vi + n)%nat) O stk.

Definition unvisitedWeight (bs : UMap.t GraphBlock) (vis : UMap.t State)
    (U : list ut64) : nat :=
  fold_right
    (fun k n =>
       (match vis @ k with NotVisited => weight bs k | _ => O end + n)%nat)
    O U.

Definition dfsMeasure (bs : UMap.t GraphBlock) (U : list ut64) (s : Dfs)
  : nat :=
  (stackWeight bs (stack s) + unvisitedWeight bs (visited s) U)%nat.

(** The four ways an iteration of the loop of [dfsFragment] goes, by what
    the maps hold afterwards. *)
Inductive dfsStepSpec (bs : UMap.t GraphBlock) (s s' : Dfs) : Prop :=
| step_tree v i rest e
    (Hstack : stack s = (v, i) :: rest)
    (Hedge : nth_error (edges (bs @ v)) i = Some e)
    (Hstate : visited s @ target e = NotVisited)
    (Hvisited : forall k, visited s' @ k =
                          if N.eqb k (target e) then InStack else visited s @ k)
    (Hstack' : stack s' = (target e, O) :: (v, S i) :: rest)
    (Horder : blockOrder s' = blockOrder s)
    (Hgrid : forall k, d_grid s' @ k =
                       if N.eqb k v then push_dag (target e) (d_grid s @ v)
                       else d_grid s @ k)
    (Hgridkeys : forall k, In k (UMap.keys (d_grid s')) <->
                           k = v \/ In k (UMap.keys (d_grid s)))
    (Hblocks : d_blocks s' = UMap.touch (d_blocks s) v)
| step_cross v i rest e
    (Hstack : stack s = (v, i) :: rest)
    (Hedge : nth_error (edges (bs @ v)) i = Some e)
    (Hstate : visited s @ target e = Visited)
    (Hvisited : forall k, visited s' @ k = visited s @ k)
    (Hstack' : stack s' = (v, S i) :: rest)
    (Horder : blockOrder s' = blockOrder s)
    (Hgrid : forall k, d_grid s' @ k =
                       if N.eqb k v then push_dag (target e) (d_grid s @ v)
                       else d_grid s @ k)
    (Hgridkeys : forall k, In k (UMap.keys (d_grid s')) <->
                           k = v \/ In k (UMap.keys (d_grid s)))
    (Hblocks : d_blocks s' = UMap.touch (d_blocks s) v)
| step_back v i rest e
    (Hstack : stack s = (v, i) :: rest)
    (Hedge : nth_error (edges (bs @ v)) i = Some e)
    (Hstate : visited s @ target e = InStack)
    (Hvisited : forall k, visited s' @ k = visited s @ k)
    (Hstack' : stack s' = (v, S i) :: rest)
    (Horder : blockOrder s' = blockOrder s)
    (Hgrid : d_grid s' = d_grid s)
    (Hblocks : d_blocks s' = UMap.touch (d_blocks s) v)
| step_pop v i rest
    (Hstack : stack s = (v, i) :: rest)
    (Hedge : nth_error (edges (bs @ v)) i = None)
    (Hvisited : forall k, visited s' @ k =
                          if N.eqb k v then Visited else visited s @ k)
    (Hstack' : stack s' = rest)
    (Horder : blockOrder s' = blockOrder s ++ [v])
    (Hgrid : d_grid s' = d_grid s)
    (Hblocks : d_blocks s' = UMap.touch (d_blocks s) v).

(** A grid block with its dag edges forgotten: what [topoSort] leaves alone. *)
Definition forgetDag (b : GridBlock) : GridBlock := with_dag_edge [] b.

(** Invariant of the loops of [topoSort], for the input blocks [bs], the
    grid blocks [g0] at the start and a set [U] of ids. *)
Record DfsInv (bs : UMap.t GraphBlock) (g0 : UMap.t GridBlock)
    (U : list ut64) (s : Dfs) : Prop := mkDfsInv {
  inv_blocks : forall k, d_blocks s @ k = bs @ k;
  inv_keys : incl (UMap.keys bs) (UMap.keys (d_blocks s));
  inv_keysU : incl (UMap.keys (d_blocks s)) U;
  inv_stack_nodup : NoDup (map fst (stack s));
  inv_stack : forall v, In v (map fst (stack s)) <-> visited s @ v = InStack;
  inv_stackU : incl (map fst (stack s)) U;
  inv_index : forall v i,
      In (v, i) (stack s) -> (i <= length (edges (bs @ v)))%nat;
  inv_order_nodup : NoDup (blockOrder s);
  inv_order : forall v, In v (blockOrder s) <-> visited s @ v = Visited;
  inv_orderU : incl (blockOrder s) U;
  inv_dag_order : forall l1 a l2,
      blockOrder s = l1 ++ a :: l2 ->
      forall b, In b (dag_edge (d_grid s @ a)) -> In b l1;
  inv_dag_stack : forall s1 a i s2,
      stack s = s1 ++ (a, i) :: s2 ->
      forall b, In b (dag_edge (d_grid s @ a)) ->
                In b (blockOrder s) \/ In b (map fst s1);
  inv_dag_fresh : forall a,
      visited s @ a = NotVisited -> dag_edge (d_grid s @ a) = [];
  inv_dag_edges : forall a b,
      In b (dag_edge (d_grid s @ a)) -> In b (targetsOf bs a);
  inv_frame : forall k, forgetDag (d_grid s @ k) = forgetDag (g0 @ k);
  inv_gridkeys : forall k,
      In k (UMap.keys (d_grid s)) ->
      In k (UMap.keys g0) \/ visited s @ k <> NotVisited;
  inv_blockkeys : forall k,
      In k (UMap.keys (d_blocks s)) ->
      In k (UMap.keys bs) \/ visited s @ k <> NotVisited;
  inv_order_keys : incl (blockOrder s) (UMap.keys (d_blocks s))
}.

(** The run goes on from [s] to [s']: nothing visited is forgotten. *)
Definition dfsMono (s s' : Dfs) : Prop :=
  forall v, visited s @ v <> NotVisited -> visited s' @ v <> NotVisited.

(** [order] lists every block after the targets of its dag edges. *)
Definition topoOrdered (g : UMap.t GridBlock) (order : list ut64) : Prop :=
  forall l1 a l2,
    order = l1 ++ a :: l2 ->
    forall b, In b (dag_edge (g @ a)) -> In b l1.

(** What [topoSort] returns on the state [st]: the state [st'] and the order
    [order]. *)
Record TopoSorted (st : LayoutState) (entry : ut64) (st' : LayoutState)
    (order : list ut64) : Prop := mkTopoSorted {
  ts_nodup : NoDup order;
  ts_blocks_in : forall k, In k (UMap.keys (blocks st)) -> In k order;
  ts_entry_in : In entry order;
  ts_universe : incl order (universe (blocks st) entry);
  ts_topo : topoOrdered (grid_blocks st') order;
  ts_dag_in : forall a, dag_edge (grid_blocks st' @ a) <> [] -> In a order;
  ts_dag_edges : forall a b,
      In b (dag_edge (grid_blocks st' @ a)) -> In b (targetsOf (blocks st) a);
  ts_frame : forall k,
      forgetDag (grid_blocks st' @ k) = forgetDag (grid_blocks st @ k);
  ts_gridkeys : forall k,
      In k (UMap.keys (grid_blocks st')) ->
      In k (UMap.keys (grid_blocks st)) \/ In k order;
  ts_blocks : forall k, blocks st' @ k = blocks st @ k;
  ts_blockkeys : forall k,
      In k (UMap.keys (blocks st')) <->
      In k (UMap.keys (blocks st)) \/ In k order
}.

(** A grid block with its row forgotten: what [assignRows] leaves alone. *)
Definition forgetRow (b : GridBlock) : GridBlock := with_row 0 b.

(** A grid block with its tree edges and parent mark forgotten: what
    [selectTree] leaves alone. *)
Definition forgetTree (b : GridBlock) : GridBlock :=
  with_has_parent false (with_tree_edge [] b).

(** Reverse of [topoOrdered], for a list walked from the roots down. *)
Definition topoRev (dag : ut64 -> list ut64) (L : list ut64) : Prop :=
  forall l1 a l2, L = l1 ++ a :: l2 -> forall b, In b (dag a) -> In b l2.

(** The tree edges chosen by [selectTree]. *)
Record TreeInv (g : UMap.t GridBlock) : Prop := mkTreeInv {
  tree_row : forall a b,
      In b (tree_edge (g @ a)) -> row (g @ b) = row (g @ a) + 1;
  tree_dag : forall a b,
      In b (tree_edge (g @ a)) -> In b (dag_edge (g @ a));
  tree_parent : forall a b,
      In b (tree_edge (g @ a)) -> has_parent (g @ b) = true;
  tree_unique : forall a a' b,
      In b (tree_edge (g @ a)) -> In b (tree_edge (g @ a')) -> a = a';
  tree_nodup : forall a, NoDup (tree_edge (g @ a))
}.

(** ** Vocabulary of the main-column selection *)

(** The block of id [k] lies within the columns of the grid. *)
Definition inGrid (st : LayoutState) (k : ut64) : Prop :=
  0 <= col (grid_blocks st @ k) /\ col (grid_blocks st @ k) + 2 <= columns st.

(** The tree has one value per edge column, 0 to [columns], and the two
    outer columns are not blocked. *)
Definition sentinelsFree (columns : Z) (tr : PointSetMinTree.t) : Prop :=
  length tr = Z.to_nat (columns + 1) /\ vget tr 0 = -1 /\ vget tr columns = -1.

(** ** Vocabulary of the placement *)

(** What the placement reads of the earlier stages and never writes. *)
Definition structure (b : GridBlock) : list ut64 * list ut64 * Z :=
  (tree_edge b, dag_edge b, row b).

(** [f] does not change the part [proj] of a grid block. *)
Definition keeps {T : Type} (proj : GridBlock -> T)
    (f : GridBlock -> GridBlock) : Prop :=
  forall b, proj (f b) = proj b.

(** [g'] has the part [proj] of every block of [g] and the keys of [g], and
    its new keys are in [K]. *)
Definition FrameBy {T : Type} (proj : GridBlock -> T) (K : ut64 -> Prop)
    (g g' : UMap.t GridBlock) : Prop :=
  (forall k, proj (g' @ k) = proj (g @ k)) /\
  (forall k, In k (UMap.keys g') -> In k (UMap.keys g) \/ K k) /\
  (forall k, In k (UMap.keys g) -> In k (UMap.keys g')).

Definition Frame (K : ut64 -> Prop) (g g' : UMap.t GridBlock) : Prop :=
  FrameBy structure K g g'.

(** ** Vocabulary of the failures *)

(** The only failure of [o], if any, is a failed assertion. *)
Definition assertOnly {A : Type} (o : Outcome A) : Prop :=
  match o with
  | Fail e => e = InternalInvariant
  | _ => True
  end.

(** ** Vocabulary of the dependence on the input *)

(** A block with its output fields ([x], [y], the polylines) cleared. *)
Definition clearEdge (e : GraphEdge) : GraphEdge := mkGraphEdge (target e) [].

Definition clearBlock (b : GraphBlock) : GraphBlock :=
  mkGraphBlock 0 0 (width b) (height b) (map clearEdge (edges b)).







(** The two halves of [elaborateEdgePlacement], named for the proofs: the
    placement of the vertical segments, which leaves the edge offsets, and
    the placement of the horizontal segments. *)
Definition verticalPlacement (cfg : Config) (st : LayoutState)
  : Outcome (LayoutState * list Z) :=
  let segments := verticalSegments st in
  let leftSides :=
    map (fun v =>
           let node := grid_blocks st @ v in
           let leftWidth := Z.quot (width (blocks st @ v)) 2 in
           mkNodeSide (col node) (row node * 2 + 1) (row node * 2 + 1) leftWidth)
      (UMap.keys (grid_blocks st)) in
  let rightSides :=
    map (fun v =>
           let node := grid_blocks st @ v in
           let w := width (blocks st @ v) in
           let rightWidth := w - Z.quot w 2 in
           mkNodeSide (col node + 1) (row node * 2 + 1) (row node * 2 + 1)
             rightWidth)
      (UMap.keys (grid_blocks st)) in
  let st := with_edgeColumnWidth
              (edgeWidths (columns st + 1) (blockHorizontalSpacing cfg)
                 (edgeHorizontalSpacing cfg)) st in
  let edgeOffsets := resize [] (zlen segments) in
  let '(segments, edgeOffsets, ecw) :=
    calculateSegmentOffsets segments edgeOffsets (edgeColumnWidth st)
      rightSides leftSides (columnWidth st) (2 * rows st + 1)
      (edgeHorizontalSpacing cfg) in
  let st := with_edgeColumnWidth ecw st in
  let edgeOffsets :=
    centerEdges edgeOffsets (edgeColumnWidth st) segments
      (blockHorizontalSpacing cfg) in
  let oldColumnWidths := columnWidth st in
  let st := adjustColumnWidths st in
  let edgeOffsets := fixOuterOffsets st oldColumnWidths segments edgeOffsets in
  '(co, eco, _) <- calculateColumnOffsets (columnWidth st) (edgeColumnWidth st) ;;
  let st := with_columnOffsets co eco st in
  Done (with_edge (copySegmentsToEdges true edgeOffsets (edge st)) st,
        edgeOffsets).

Definition horizontalPlacement (cfg : Config) (st : LayoutState)
    (edgeOffsets : list Z) : Outcome LayoutState :=
  let segments := horizontalSegments st in
  let edgeOffsets := resize edgeOffsets (zlen segments) in
  let bs := fold_left (fun bs v => UMap.touch bs (id (grid_blocks st @ v)))
              (UMap.keys (grid_blocks st)) (blocks st) in
  let st := with_blocks bs st in
  let sideOf := fun (top : bool) v =>
    let node := grid_blocks st @ v in
    let blockWidth := width (blocks st @ id node) in
    let leftSide :=
      vget (edgeColumnOffset st) (col node + 1)
      + Z.quot (vget (edgeColumnWidth st) (col node + 1)) 2
      - Z.quot blockWidth 2 in
    let rightSide := leftSide + blockWidth in
    let h := height (blocks st @ v) in
    let freeSpace := vget (rowHeight st) (row node) - h in
    let topProfile := vget (rowHeight st) (row node) in
    let bottomProfile := h in
    let topProfile :=
      if verticalBlockAlignmentMiddle cfg
      then topProfile - Z.quot freeSpace 2 else topProfile in
    let bottomProfile :=
      if verticalBlockAlignmentMiddle cfg
      then bottomProfile + Z.quot freeSpace 2 else bottomProfile in
    mkNodeSide (row node) leftSide rightSide
      (if top then topProfile else bottomProfile) in
  let leftSides := map (sideOf true) (UMap.keys (grid_blocks st)) in
  let rightSides := map (sideOf false) (UMap.keys (grid_blocks st)) in
  let st := with_edgeRowHeight
              (edgeWidths (rows st + 1) (blockVerticalSpacing cfg)
                 (edgeVerticalSpacing cfg)) st in
  '(segments, leftSides, rightSides, compressedCoordinates) <-
    compressCoordinates segments leftSides rightSides ;;
  let '(_, edgeOffsets, erh) :=
    calculateSegmentOffsets segments edgeOffsets (edgeRowHeight st)
      rightSides leftSides (rowHeight st) compressedCoordinates
      (edgeVerticalSpacing cfg) in
  let st := with_edgeRowHeight erh st in
  Done (with_edge (copySegmentsToEdges false edgeOffsets (edge st)) st).

(** ** Examples for the further properties *)

(** Three roots as the placement of three blocks without edges leaves them:
    each subtree is two columns wide. *)
Definition threeRoots : UMap.t GridBlock :=
  [(1%N, with_rightPosition 2 (with_id 1%N dflt));
   (2%N, with_rightPosition 2 (with_id 2%N dflt));
   (3%N, with_rightPosition 2 (with_id 3%N dflt))].

(** ** Vocabulary of the paths *)

(** Consecutive grid points keep the column and the row in turn;
    [vertical] says which of the two the first step keeps. *)
Fixpoint alternating (vertical : bool) (pts : list Point) : Prop :=
  match pts with
  | p :: ((q :: _) as rest) =>
      (if vertical then p_col p = p_col q else p_row p = p_row q)
      /\ alternating (negb vertical) rest
  | _ => True
  end.

(** The same for pixel positions: consecutive points keep x and y in turn. *)
Fixpoint rectilinear (vertical : bool) (poly : list (Z * Z)) : Prop :=
  match poly with
  | p :: ((q :: _) as rest) =>
      (if vertical then fst p = fst q else snd p = snd q)
      /\ rectilinear (negb vertical) rest
  | _ => True
  end.

(** ** Vocabulary of the comparators *)

(** What [std::sort] asks of its comparator: a strict weak ordering. *)
Definition StrictWeakOrder {A : Type} (lt : A -> A -> bool) : Prop :=
  (forall a, lt a a = false) /\
  (forall a b c, lt a b = true -> lt b c = true -> lt a c = true) /\
  (forall a b c,
     lt a b = false -> lt b a = false -> lt b c = false -> lt c b = false ->
     lt a c = false /\ lt c a = false).

(** ** Vocabulary of the edge counts *)

(** The two counters of a grid block, which only [CalculateLayout] itself
    writes. *)
Definition counts (b : GridBlock) : Z * Z := (inputCount b, outputCount b).

(** [g'] is [g] after writes that leave the counters alone; like every
    write to a map they keep the ids unique. *)
Definition SameCounts (g g' : UMap.t GridBlock) : Prop :=
  FrameBy counts (fun _ => True) g g' /\
  (NoDup (UMap.keys g) -> NoDup (UMap.keys g')).


(** ** Vocabulary of the sizes *)

(** No block of the input has a negative width or height. *)
Definition sizesNonNegative (bs : UMap.t GraphBlock) : Prop :=
  forall k, 0 <= width (bs @ k) /\ 0 <= height (bs @ k).

(** The layout is not wider and not higher than an [int] can say. *)
Definition layoutFitsInt (l : Layout) : Prop :=
  out_width l <= INT_MAX /\ out_height l <= INT_MAX.

(** ** Vocabulary of the coordinate compression *)

(** No element is larger than one that follows it. *)
Fixpoint ascending (l : list Z) : Prop :=
  match l with
  | [] => True
  | a :: l' => (forall b, In b l' -> a <= b) /\ ascending l'
  end.

(** Every element is smaller than those that follow it. *)
Fixpoint strictlyAscending (l : list Z) : Prop :=
  match l with
  | [] => True
  | a :: l' => (forall b, In b l' -> a < b) /\ strictlyAscending l'
  end.

(** The coordinates that [compressCoordinates] collects. *)
Definition coordinates (segments : list EdgeSegment)
    (leftSides : list NodeSide) : list Z :=
  flat_map (fun s => [y0 s; y1 s]) segments
  ++ flat_map (fun n => [ny0 n; ny1 n]) leftSides.

(** An edge with the offsets of its points forgotten: what
    [elaborateEdgePlacement] leaves alone. *)
Definition forgetOffsets (e : GridEdge) : GridEdge :=
  mkGridEdge (dest e) (mainColumn e) (map (with_offset 0) (points e))
    (secondaryPriority e).

(** ** [centerEdges] with its reads checked *)

(** The inner loop of [centerEdges] reads [*it] without comparing [it] with
    [events.end()].  [takeChunkChecked] is [takeChunk] with that read
    checked: [None] stands for a read past the last event. *)
Fixpoint takeChunkChecked (segmentOffsets : list Z) (activeSegmentCount : Z)
    (chunkWidth : Z) (events : list CEvent)
  : option (list CEvent * list CEvent * Z) :=
  if activeSegmentCount <=? 0 then Some ([], events, chunkWidth)
  else
    match events with
    | [] => None
    | e :: es =>
        match takeChunkChecked segmentOffsets
                (activeSegmentCount + (if start e then 1 else -1))
                (Z.max chunkWidth (vget segmentOffsets (index e))) es with
        | Some (chunk, rest, w) => Some (e :: chunk, rest, w)
        | None => None
        end
    end.

Fixpoint centerChunksChecked (fuel : nat) (edgeColumnWidth : list Z)
    (minSpacing : Z) (segmentOffsets : list Z) (events : list CEvent)
  : option (list Z) :=
  match events, fuel with
  | [], _ => Some segmentOffsets
  | _, O => Some segmentOffsets
  | chunkStart :: es, S fuel' =>
      match takeChunkChecked segmentOffsets 1 0 es with
      | None => None
      | Some (chunk, rest, chunkWidth) =>
          let chunkWidth := chunkWidth + minSpacing in
          let spacing :=
            Z.quot (Z.max (vget edgeColumnWidth (cx chunkStart)) minSpacing
                    - chunkWidth) 2 in
          let segmentOffsets :=
            fold_left
              (fun so e =>
                 if start e then vset so (index e) (vget so (index e) + spacing)
                 else so)
              (chunkStart :: chunk) segmentOffsets in
          centerChunksChecked fuel' edgeColumnWidth minSpacing segmentOffsets
            rest
      end
  end.

Definition centerEdgesChecked (segmentOffsets edgeColumnWidth : list Z)
    (segments : list EdgeSegment) (minSpacing : Z) : option (list Z) :=
  let events :=
    flat_map
      (fun s =>
         let o := vget segmentOffsets (edgeIndex s) in
         if (0 <=? o) && (o <=? vget edgeColumnWidth (sx s))
         then [mkCEvent (sx s) (y0 s) (edgeIndex s) true;
               mkCEvent (sx s) (y1 s) (edgeIndex s) false]
         else [])
      segments in
  let events := sort CEvent_lt events in
  centerChunksChecked (length events) edgeColumnWidth minSpacing
    segmentOffsets events.

(** The segments that have started and not ended, after each event of a list,
    counted from [c], are never fewer than none. *)
Fixpoint activeNonNegative (c : Z) (events : list CEvent) : Prop :=
  match events with
  | [] => True
  | e :: es =>
      0 <= c + (if start e then 1 else -1) /\
      activeNonNegative (c + (if start e then 1 else -1)) es
  end.

(** Starts less ends. *)
Fixpoint activeAfter (events : list CEvent) : Z :=
  match events with
  | [] => 0
  | e :: es => (if start e then 1 else -1) + activeAfter es
  end.

(** ** Vocabulary of the edges that [topoSort] drops *)

(** Every edge that the search has looked at is a dag edge or leads to a
    block that was on the stack: to one that is still there, to the block
    itself, or to one that has left the stack later than the source of the
    edge. *)
Definition DagComplete (bs : UMap.t GraphBlock) (s : Dfs) : Prop :=
  (forall k, d_blocks s @ k = bs @ k) /\
  (forall v, visited s @ v = InStack -> In v (map fst (stack s))) /\
  (forall s1 a i s2,
     stack s = s1 ++ (a, i) :: s2 ->
     forall j b,
       (j < i)%nat -> nth_error (targetsOf bs a) j = Some b ->
       In b (dag_edge (d_grid s @ a)) \/ In b (map fst ((a, i) :: s2))) /\
  (forall a b,
     In a (blockOrder s) -> In b (targetsOf bs a) ->
     In b (dag_edge (d_grid s @ a)) \/ a = b \/ In b (map fst (stack s)) \/
     exists l1 l2 l3, blockOrder s = l1 ++ a :: l2 ++ b :: l3).

(** ** Vocabulary of the lists of the pool *)

(** The cells [cells], in this order, are what an iterator that starts at
    the cell [i] of the pool [p] meets before it becomes null. *)
Fixpoint chain (p : Pool) (i : nat) (cells : list nat) : Prop :=
  match cells with
  | [] => i = 0%nat
  | c :: cs =>
      i = c /\ c <> 0%nat /\ (c < length p)%nat /\ chain p (incr p c) cs
  end.

(** The handle [h] denotes the list of the cells [cells]: its head leads
    through them, and its tail is the last of them. *)
Definition listOf (p : Pool) (h : PList) (cells : list nat) : Prop :=
  chain p (head h) cells /\ (cells <> [] -> tail h = last cells 0%nat).

(** The pool [p] with [next] of the cell [t] set to [n]: what [append] does
    to the last cell of its first list. *)
Definition setNext (p : Pool) (t n : nat) : Pool :=
  set_nth t p (mkItem n (deref p t)).

Definition disjoint (A B : list nat) : Prop := forall c, In c A -> ~ In c B.

(** The two list handles of a grid block. *)
Definition shapesOf (b : GridBlock) : PList * PList :=
  (leftSideShape b, rightSideShape b).

(** Ownership of the cells of the pool [p] while [computeAllBlockPlacement]
    runs: every block that no parent has taken the lists of yet ([consumed]
    holds the others) has two lists, of the cells [own] names, and no cell
    is in two of these lists. *)
Record PoolInv (p : Pool) (g : UMap.t GridBlock) (consumed : list ut64)
    (own : ut64 -> list nat * list nat) : Prop := mkPoolInv {
  pool_nonempty : (1 <= length p)%nat;
  pool_left : forall b, ~ In b consumed ->
      listOf p (leftSideShape (g @ b)) (fst (own b));
  pool_right : forall b, ~ In b consumed ->
      listOf p (rightSideShape (g @ b)) (snd (own b));
  pool_sides : forall b, ~ In b consumed ->
      disjoint (fst (own b)) (snd (own b));
  pool_apart : forall b b', ~ In b consumed -> ~ In b' consumed -> b <> b' ->
      disjoint (fst (own b) ++ snd (own b)) (fst (own b') ++ snd (own b'))
}.

(** The same while the children of one block are placed side by side: the
    two lists [leftSide] and [rightSide] of the loop have cells of their
    own. *)
Record SidesInv (s : Sides) (consumed : list ut64)
    (own : ut64 -> list nat * list nat) (LS RS : list nat) : Prop :=
  mkSidesInv {
  sides_pool : PoolInv (s_pool s) (s_grid s) consumed own;
  sides_left : listOf (s_pool s) (leftSide s) LS;
  sides_right : listOf (s_pool s) (rightSide s) RS;
  sides_sides : disjoint LS RS;
  sides_apart : forall b, ~ In b consumed ->
      disjoint (LS ++ RS) (fst (own b) ++ snd (own b))
}.

(** ** Vocabulary of the ids that are no block *)

(** The search from the entry, with which [topoSort] begins: the state in
    which it leaves the lambda [dfsFragment], before the range-for over the
    blocks. *)
Definition searchFromEntry (bs : UMap.t GraphBlock) (entry : ut64)
  : Outcome Dfs :=
  dfsFragment (dfsFuel bs) (mkDfs [] bs (initGridBlocks bs) [] []) entry.

(** Every id that an edge names is a key of the map of the blocks when the
    range-for of [topoSort] begins: the ids that are no block of the input
    have been met, and inserted by [blocks[v]], during the search from the
    entry.  The range-for then inserts nothing into the map that it walks.
    (An insertion during the loop may rehash the [unordered_map], which
    invalidates the iterator of the loop; the embedding walks the keys that
    the map has when the loop begins and says nothing of such a run.) *)
Definition targetsMetFromEntry (bs : UMap.t GraphBlock) (entry : ut64)
  : Prop :=
  exists s1,
    searchFromEntry bs entry = Done s1 /\
    incl (allTargets bs) (UMap.keys (d_blocks s1)).

(** Every id on the stack of the search is a key of the map [B]. *)
Definition stackIn (B : UMap.t GraphBlock) (s : Dfs) : Prop :=
  forall v i, In (v, i) (stack s) -> In v (UMap.keys B).

(** * Properties *)

(** ** Worked examples *)

(** C9. Example E1: one block of width 100 and height 50, id 1, entry 1, no
    edges, Medium layout, the four spacings equal to 10 (with or without
    vertical centering): the call returns width 120 and height 70 and puts
    block 1 at pixel (10, 10). *)
Theorem E1_single_node :
  forall middle : bool,
  exists l,
    CalculateLayout (mkConfig Medium middle 10 10 10 10) E1 1%N = Done l /\
    out_width l = 120 /\ out_height l = 70 /\
    x (out_blocks l @ 1%N) = 10 /\ y (out_blocks l @ 1%N) = 10.
Proof.
  intros [|]; eexists; (split; [vm_compute; reflexivity|]); vm_compute; auto.
Qed.

(** ** Facts on [UMap] *)

Section UMapFacts.
Context {V : Type} `{Default V}.
  Implicit Types (m : UMap.t V) (k : ut64) (f : V -> V).

Lemma at_nil k : (@nil (ut64 * V)) @ k = dflt.
  Proof. reflexivity. Qed.

Lemma at_cons_same k v m : ((k, v) :: m) @ k = v.
  Proof. unfold UMap.at_; simpl. now rewrite N.eqb_refl. Qed.

Lemma at_cons_other k k' v m : k <> k' -> ((k', v) :: m) @ k = m @ k.
  Proof.
    intros Hne. unfold UMap.at_; simpl.
    destruct (N.eqb_spec k k'); [contradiction | reflexivity].
  Qed.

Lemma modify_nil k f : UMap.modify (@nil (ut64 * V)) k f = [(k, f dflt)].
  Proof. reflexivity. Qed.

Lemma modify_cons_same k v m f :
    UMap.modify ((k, v) :: m) k f = (k, f v) :: m.
  Proof. simpl. now rewrite N.eqb_refl. Qed.

Lemma modify_cons_other k k' v m f :
    k <> k' -> UMap.modify ((k', v) :: m) k f = (k', v) :: UMap.modify m k f.
  Proof.
    intros Hne. simpl. destruct (N.eqb_spec k k'); [contradiction | reflexivity].
  Qed.

Lemma at_modify m k f k' :
    UMap.modify m k f @ k' = if N.eqb k' k then f (m @ k) else m @ k'.
  Proof.
    unfold UMap.at_. induction m as [|[k0 v0] m IH]; simpl.
    - destruct (N.eqb_spec k' k) as [->|Hk]; reflexivity.
    - destruct (N.eqb_spec k k0) as [->|Hk]; simpl.
      + destruct (N.eqb_spec k' k0); reflexivity.
      + destruct (N.eqb_spec k' k0) as [->|Hk'].
        * destruct (N.eqb_spec k0 k); [congruence | reflexivity].
        * exact IH.
  Qed.

Lemma at_modify_same m k f : UMap.modify m k f @ k = f (m @ k).
  Proof. rewrite at_modify. now rewrite N.eqb_refl. Qed.

Lemma at_modify_other m k f k' : k' <> k -> UMap.modify m k f @ k' = m @ k'.
  Proof.
    intros Hne. rewrite at_modify.
    destruct (N.eqb_spec k' k); [contradiction | reflexivity].
  Qed.

Lemma at_touch m k k' : UMap.touch m k @ k' = m @ k'.
  Proof.
    unfold UMap.touch. rewrite at_modify.
    destruct (N.eqb_spec k' k); congruence.
  Qed.

Lemma at_set m k v k' :
    UMap.set m k v @ k' = if N.eqb k' k then v else m @ k'.
  Proof. unfold UMap.set. apply at_modify. Qed.

Lemma in_keys_modify m k f k' :
    In k' (UMap.keys (UMap.modify m k f)) <-> k' = k \/ In k' (UMap.keys m).
  Proof.
    unfold UMap.keys. induction m as [|[k0 v0] m IH]; simpl.
    - intuition.
    - destruct (N.eqb_spec k k0) as [->|Hk]; simpl; intuition.
  Qed.

Lemma keys_modify_present m k f :
    In k (UMap.keys m) -> UMap.keys (UMap.modify m k f) = UMap.keys m.
  Proof.
    unfold UMap.keys. induction m as [|[k0 v0] m IH]; simpl; [tauto|].
    intros Hin. destruct (N.eqb_spec k k0) as [->|Hk]; simpl; [reflexivity|].
    f_equal. apply IH. destruct Hin; congruence.
  Qed.

Lemma keys_modify_absent m k f :
    ~ In k (UMap.keys m) -> UMap.keys (UMap.modify m k f) = UMap.keys m ++ [k].
  Proof.
    unfold UMap.keys. induction m as [|[k0 v0] m IH]; simpl; [reflexivity|].
    intros Hin. destruct (N.eqb_spec k k0) as [->|Hk]; simpl; [tauto|].
    f_equal. apply IH. tauto.
  Qed.

Lemma NoDup_keys_modify m k f :
    NoDup (UMap.keys m) -> NoDup (UMap.keys (UMap.modify m k f)).
  Proof.
    intros Hnd. destruct (in_dec N.eq_dec k (UMap.keys m)) as [Hin|Hin].
    - now rewrite keys_modify_present.
    - rewrite keys_modify_absent by assumption.
      apply NoDup_app; [assumption | repeat constructor; simpl; tauto |].
      intros a Ha [<-|[]]. contradiction.
  Qed.

Lemma modify_present_id m k :
    In k (UMap.keys m) -> UMap.touch m k = m.
  Proof.
    unfold UMap.touch, UMap.keys.
    induction m as [|[k0 v0] m IH]; simpl; [tauto|].
    intros Hin. destruct (N.eqb_spec k k0) as [->|Hk]; [reflexivity|].
    f_equal. apply IH. destruct Hin; congruence.
  Qed.
End UMapFacts.
(** Symbolic evaluation of a run whose block ids are not all literals. *)
Ltac umap_step :=
  cbn -[UMap.at_ UMap.modify];
  repeat match goal with
  | |- context [Pos.to_nat ?p] =>
      let n := eval vm_compute in (Pos.to_nat p) in
      change (Pos.to_nat p) with n
  end;
  cbn -[UMap.at_ UMap.modify];
  unfold UMap.touch, UMap.set;
  repeat first
    [ rewrite at_cons_same | rewrite modify_cons_same | rewrite modify_nil
    | rewrite at_nil | rewrite at_cons_other by assumption
    | rewrite modify_cons_other by assumption ].

(** ** Empty input *)

Lemma prepareLayout_empty cfg entry :
  prepareLayout cfg [] entry =
  Done (mkLayoutState [(entry, dflt)] [(entry, implicitBlock)] [(entry, [])]
          1 2 [0; 0] [0] [] [] [] [] [] []).
Proof.
  destruct cfg as [t m bv bh ev eh].
  unfold prepareLayout, topoSort, dfsFragment, dfsFuel.
  umap_step. unfold dfsStep. umap_step. umap_step.
  unfold computeAllBlockPlacement, assignRows, selectTree, findMergePoints.
  umap_step. unfold assignRows_block. umap_step. umap_step.
  unfold selectTree_block. umap_step.
  unfold findMergePoints_block. umap_step. umap_step.
  unfold placeRoots. umap_step. unfold placeRoot. umap_step. umap_step.
  unfold absoluteBlock. umap_step. umap_step.
  unfold initEdges, countEdges, initWidths. umap_step. umap_step.
  reflexivity.
Qed.

(** C3, as stated, fails: with no blocks, entry 1 and the spacing 10 of the
    examples the call does not return width 0 and height 0. *)
Lemma empty_input_not_zero :
  ~ (exists l, CalculateLayout (cfg10 Medium) [] 1%N = Done l /\
               out_width l = 0 /\ out_height l = 0).
Proof.
  intros [l [Hl [Hw _]]]. vm_compute in Hl. inversion Hl; subst l.
  discriminate Hw.
Qed.

(** C3, amended.  With no blocks, any entry id and the spacing 10 of the
    examples (any layout type, with or without vertical centering) the call
    succeeds: [operator[]] makes the entry id a block of width 0 and height 0
    without edges, and the call returns width 30 (two outer edge columns and
    the edge column of the block) and height 20 (two outer edge rows). *)
Theorem empty_input_layout :
  forall (t : LayoutType) (middle : bool) (entry : ut64),
  exists l,
    CalculateLayout (mkConfig t middle 10 10 10 10) [] entry = Done l /\
    out_width l = 30 /\ out_height l = 20 /\
    width (out_blocks l @ entry) = 0 /\ height (out_blocks l @ entry) = 0.
Proof.
  intros t m entry. unfold CalculateLayout. rewrite prepareLayout_empty.
  unfold bind at 3.
  destruct (N.eq_dec entry 0) as [->|Hne].
  - destruct t, m; vm_compute; eexists;
      (split; [reflexivity | repeat (split; [reflexivity|]); reflexivity]).
  - assert (Hne' : 0%N <> entry) by congruence.
    unfold routeEdges, calculateEdgeMainColumn. umap_step.
    unfold roughRouting. umap_step. unfold roughRouting_block. umap_step.
    unfold elaborateEdgePlacement. umap_step.
    unfold adjustColumnWidths. umap_step. umap_step.
    unfold convertToPixelCoordinates. umap_step.
    eexists. split; [reflexivity|]. umap_step.
    repeat (split; [reflexivity|]); reflexivity.
Qed.

(** ** Rough routing *)

(** C4, as stated, fails: in example E4 (blocks 1 and 2, edges 1->2 and
    2->1) the back edge 2->1 gets six grid points. *)
Lemma roughRouting_six_points :
  ~ (forall st k e,
       routedState (cfg10 Medium) E4 1%N = Done st ->
       In e (edge st @ k) -> (length (points e) <= 5)%nat).
Proof.
  intros Hall.
  destruct (routedState (cfg10 Medium) E4 1%N) as [st| |] eqn:Hst;
    try (vm_compute in Hst; discriminate Hst).
  assert (Hin : exists e, In e (edge st @ 2%N) /\ length (points e) = 6%nat).
  { vm_compute in Hst. inversion Hst; subst st. eexists. split.
    - left. reflexivity.
    - reflexivity. }
  destruct Hin as [e [Hin Hlen]].
  specialize (Hall st 2%N e eq_refl Hin). lia.
Qed.

(** C4, amended.  For an edge without points, from a block with an outgoing
    edge to a block with an incoming edge (the two counts by which
    [getSpacingOverride] divides), rough routing emits two, four or six
    grid points, hence at most five segments: the first is the exit anchor
    below the source, the last the entry anchor above the target, and two
    points are added on either side when the main column differs from the
    column of the source, respectively of the target. *)
Theorem roughRouting_at_most_six_points :
  forall cfg bs source tgt e,
    points e = [] ->
    0 < outputCount source -> 0 < inputCount tgt ->
    let pts := points (routeEdge cfg bs source tgt e) in
    (length pts = 2 \/ length pts = 4 \/ length pts = 6)%nat /\
    (length pts <= 6)%nat /\
    length pts =
      (2 + (if Z.eqb (mainColumn e) (col source + 1) then 0 else 2)
         + (if Z.eqb (col tgt + 1) (mainColumn e) then 0 else 2))%nat /\
    map (fun p => (p_row p, p_col p)) (firstn 1 pts)
      = [(row source + 1, col source + 1)] /\
    map (fun p => (p_row p, p_col p)) (skipn (length pts - 1) pts)
      = [(row tgt, col tgt + 1)].
Proof.
  intros cfg bs source tgt [d mc ps sp] He _ _ pts. subst pts.
  simpl in He. subst ps.
  unfold routeEdge, routePoints, addPoint; simpl.
  destruct (mc =? col source + 1) eqn:Hs; simpl;
    destruct (col tgt + 1 =? mc) eqn:Ht; simpl;
    rewrite ?Hs, ?Ht; simpl;
    repeat split; auto; try lia.
  all: apply Z.eqb_eq in Ht; now rewrite Ht.
Qed.

(** The back edge 2->1 of example E4, as [roughRouting] meets it: it leaves
    the column of its source and enters the column of its target from the
    main column 2, and gets six points. *)
Lemma roughRouting_at_most_six_points_witness :
  exists st0 st1 e,
    prepareLayout (cfg10 Medium) E4 1%N = Done st0 /\
    calculateEdgeMainColumn st0 = Done st1 /\
    nth_error (edge st1 @ 2%N) 0 = Some e /\
    dest e = 1%N /\
    points e = [] /\
    0 < outputCount (grid_blocks st1 @ 2%N) /\
    0 < inputCount (grid_blocks st1 @ dest e) /\
    let pts :=
      points (routeEdge (cfg10 Medium) (blocks st1) (grid_blocks st1 @ 2%N)
                (grid_blocks st1 @ dest e) e) in
    length pts = 6%nat /\
    map (fun p => (p_row p, p_col p)) pts
      = [(2, 1); (2, 1); (2, 2); (0, 2); (0, 1); (0, 1)].
Proof.
  eexists _, _, _.
  split; [vm_compute; reflexivity|].
  split; [vm_compute; reflexivity|].
  split; [vm_compute; reflexivity|].
  split; [reflexivity|].
  match goal with
  | |- points ?e = [] /\ 0 < outputCount ?s /\ 0 < inputCount ?t /\ _ =>
      assert (Hp : points e = []) by reflexivity;
      assert (Ho : 0 < outputCount s) by reflexivity;
      assert (Hi : 0 < inputCount t) by reflexivity
  end.
  split; [exact Hp|]. split; [exact Ho|]. split; [exact Hi|].
  split; [|vm_compute; reflexivity].
  match goal with
  | |- length (points (routeEdge ?c ?b ?s ?t ?e)) = _ =>
      exact (proj1 (proj2 (proj2
               (roughRouting_at_most_six_points c b s t e Hp Ho Hi))))
  end.
Defined.

(** ** Edge counts *)

(** C5 at the input [fanOut]: block 1 has width 10 and two outgoing edges,
    the edge spacing is 10.  The source counts one output for it, and the
    first point of its first edge gets no spacing override, where two
    outgoing edges would give max(10 / 2, 1) = 5. *)
Lemma fanOut_outputCount :
  exists st e,
    routedState (cfg10 Medium) fanOut 1%N = Done st /\
    length (edges (fanOut @ 1%N)) = 2%nat /\
    outputCount (grid_blocks st @ 1%N) = 1 /\
    inputCount (grid_blocks st @ 2%N) = 1 /\
    nth_error (edge st @ 1%N) 0 = Some e /\
    map spacingOverride (firstn 1 (points e)) = [0] /\
    getSpacingOverride (cfg10 Medium) 10 2 = 5.
Proof.
  eexists. eexists. split; [vm_compute; reflexivity|].
  vm_compute. repeat (split; [reflexivity|]). reflexivity.
Qed.

(** ** Iteration order *)


(** ** Unknown targets *)

(** C6, as stated, fails: in [dangling] block 1 has an edge to the id 2,
    which is no block, and the call succeeds. *)
Lemma dangling_target_succeeds :
  ~ targetsKnown dangling /\
  exists l, CalculateLayout (cfg10 Medium) dangling 1%N = Done l.
Proof.
  split.
  - intros Hk.
    specialize (Hk (1%N, blk 100 50 [2%N]) (mkGraphEdge 2%N [])
                  (or_introl eq_refl) (or_introl eq_refl)).
    simpl in Hk. destruct Hk as [Hk|[]]. discriminate Hk.
  - eexists. vm_compute. reflexivity.
Qed.

(** ** The step of the depth-first search *)

Lemma dfsStep_spec bs s :
  (forall k, d_blocks s @ k = bs @ k) ->
  stack s <> [] ->
  dfsStepSpec bs s (dfsStep s).
Proof.
  intros Hb Hne. unfold dfsStep.
  destruct (stack s) as [|[v i] rest] eqn:Hstack; [congruence|].
  rewrite at_touch, Hb.
  destruct (nth_error (edges (bs @ v)) i) as [e|] eqn:Hedge.
  - rewrite at_touch.
    destruct (visited s @ target e) eqn:Hstate.
    + eapply step_tree; eauto; simpl.
      * intro k. rewrite at_set, at_touch. reflexivity.
      * intro k. apply at_modify.
      * intro k. apply in_keys_modify.
    + eapply step_back; eauto; simpl. intro k. apply at_touch.
    + eapply step_cross; eauto; simpl.
      * intro k. apply at_touch.
      * intro k. apply at_modify.
      * intro k. apply in_keys_modify.
  - eapply step_pop; eauto; simpl. intro k. apply at_set.
Qed.

Lemma dfsStep_mono bs s s' : dfsStepSpec bs s s' -> dfsMono s s'.
Proof.
  intros Hstep v Hv. destruct Hstep; rewrite Hvisited; auto.
  - destruct (N.eqb_spec v (target e)); [discriminate | assumption].
  - destruct (N.eqb_spec v v0); [discriminate | assumption].
Qed.

Lemma app_cons_tail_inv {A : Type} (l l1 l2 : list A) (v a : A) :
  l ++ [v] = l1 ++ a :: l2 ->
  (l2 = [] /\ a = v /\ l1 = l) \/
  (exists l2', l2 = l2' ++ [v] /\ l = l1 ++ a :: l2').
Proof.
  intros Heq. destruct l2 as [|x l2 _] using rev_ind.
  - left. apply app_inj_tail in Heq. intuition.
  - right. exists l2.
    change (l1 ++ a :: l2 ++ [x]) with (l1 ++ (a :: l2) ++ [x]) in Heq.
    rewrite app_assoc in Heq. apply app_inj_tail in Heq.
    destruct Heq as [-> ->]. auto.
Qed.

Lemma nodup_fst_decompose (s1 s2 : list (ut64 * nat)) v i rest a j :
  NoDup (v :: map fst rest) ->
  (v, i) :: rest = s1 ++ (a, j) :: s2 ->
  (s1 = [] /\ a = v /\ j = i /\ s2 = rest) \/
  (exists s1', s1 = (v, i) :: s1' /\ rest = s1' ++ (a, j) :: s2 /\ a <> v).
Proof.
  intros Hnd Heq. destruct s1 as [|x s1]; simpl in Heq.
  - left. inversion Heq. auto.
  - right. inversion Heq; subst. exists s1. repeat split; auto.
    intros ->. inversion Hnd as [|? ? Hnin _]; subst.
    apply Hnin. rewrite map_app. apply in_or_app. right. simpl. auto.
Qed.

Section DfsInvariant.
Variable bs : UMap.t GraphBlock.
Variable g0 : UMap.t GridBlock.
Variable U : list ut64.
Hypothesis U_nodup : NoDup U.
Hypothesis U_closed :
    forall k t, In k U -> In t (targetsOf bs k) -> In t U.

Lemma target_in_targetsOf v i e :
    nth_error (edges (bs @ v)) i = Some e -> In (target e) (targetsOf bs v).
  Proof.
    intros Hn. unfold targetsOf. apply in_map. eapply nth_error_In; eauto.
  Qed.

Lemma dfsStep_inv s s' :
    DfsInv bs g0 U s -> dfsStepSpec bs s s' -> DfsInv bs g0 U s'.
  Proof.
    intros I Hstep.
    pose proof (dfsStep_mono Hstep) as Hmono.
    assert (Htop : forall v i rest, stack s = (v, i) :: rest ->
              visited s @ v = InStack /\ In v U /\ ~ In v (blockOrder s) /\
              ~ In v (map fst rest) /\ NoDup (map fst rest)).
    { intros v i rest Hs.
      assert (Hin : In v (map fst (stack s))) by (rewrite Hs; simpl; auto).
      pose proof (inv_stack_nodup I) as Hnd. rewrite Hs in Hnd; simpl in Hnd.
      inversion Hnd; subst.
      repeat split; auto.
      - now apply (inv_stack I).
      - now apply (inv_stackU I).
      - intros Ho. apply (inv_order I) in Ho. apply (inv_stack I) in Hin.
        congruence. }
    destruct Hstep.
    - (* tree edge *)
      destruct (Htop _ _ _ Hstack) as (Hv & HvU & Hvo & Hvr & Hndr).
      assert (Htv : target e <> v) by (intros Heq; congruence).
      assert (Htnot : ~ In (target e) (map fst (stack s))).
      { intros Hin. apply (inv_stack I) in Hin. congruence. }
      assert (Htord : ~ In (target e) (blockOrder s)).
      { intros Hin. apply (inv_order I) in Hin. congruence. }
      assert (HtU : In (target e) U).
      { eapply U_closed; eauto using target_in_targetsOf. }
      constructor.
      + intro k. rewrite Hblocks, at_touch. apply (inv_blocks I).
      + rewrite Hblocks. intros k Hk. apply in_keys_modify. right.
        now apply (inv_keys I).
      + rewrite Hblocks. intros k Hk. apply in_keys_modify in Hk.
        destruct Hk as [->|Hk]; auto. now apply (inv_keysU I).
      + rewrite Hstack'. simpl. constructor.
        * rewrite Hstack in Htnot. exact Htnot.
        * pose proof (inv_stack_nodup I) as Hnd. now rewrite Hstack in Hnd.
      + intro k. rewrite Hstack', Hvisited. simpl.
        destruct (N.eqb_spec k (target e)) as [->|Hk].
        * intuition.
        * rewrite <- (inv_stack I), Hstack. simpl. intuition congruence.
      + rewrite Hstack'. simpl. intros k [<-|Hk]; auto.
        apply (inv_stackU I). now rewrite Hstack.
      + rewrite Hstack'. intros w j [Hw|[Hw|Hw]].
        * inversion Hw; subst. lia.
        * inversion Hw; subst. apply nth_error_Some. congruence.
        * apply (inv_index I). rewrite Hstack. now right.
      + rewrite Horder. apply (inv_order_nodup I).
      + intro k. rewrite Horder, Hvisited.
        destruct (N.eqb_spec k (target e)) as [->|Hk].
        * split; [contradiction | discriminate].
        * apply (inv_order I).
      + rewrite Horder. apply (inv_orderU I).
      + intros l1 a l2 Ho b Hb. rewrite Horder in Ho. rewrite Hgrid in Hb.
        destruct (N.eqb_spec a v) as [->|Ha].
        * exfalso. apply Hvo. rewrite Ho. apply in_or_app. right. now left.
        * eapply (inv_dag_order I); eauto.
      + intros s1 a j s2 Hs b Hb. rewrite Hstack' in Hs. rewrite Hgrid in Hb.
        rewrite Horder.
        destruct s1 as [|x1 s1]; simpl in Hs.
        { inversion Hs; subst a j s2.
          destruct (N.eqb_spec (target e) v) as [Heq|_]; [congruence|].
          rewrite (inv_dag_fresh I _ Hstate) in Hb. destruct Hb. }
        inversion Hs as [[Hx1 Hs']]. subst x1.
        pose proof (inv_stack_nodup I) as Hnd. rewrite Hstack in Hnd.
        destruct (@nodup_fst_decompose _ _ _ _ _ _ _ Hnd Hs')
          as [(-> & -> & _ & _)|(s1' & -> & Hrest & Hav)].
        { rewrite N.eqb_refl in Hb. unfold push_dag in Hb. simpl in Hb.
          apply in_app_or in Hb. destruct Hb as [Hb|[<-|[]]].
          - destruct (inv_dag_stack I [] v i rest Hstack b Hb) as [Ho|[]].
            now left.
          - right. simpl. auto. }
        destruct (N.eqb_spec a v) as [Heq|_]; [contradiction|].
        assert (Hs0 : stack s = ((v, i) :: s1') ++ (a, j) :: s2).
        { rewrite Hstack, Hrest. reflexivity. }
        destruct (inv_dag_stack I _ _ _ _ Hs0 b Hb) as [Ho|Hin]; auto.
        right. simpl in *. tauto.
      + intros a Ha. rewrite Hvisited in Ha. rewrite Hgrid.
        destruct (N.eqb_spec a (target e)) as [Heq|Hat]; [discriminate|].
        destruct (N.eqb_spec a v) as [->|Hav]; [congruence|].
        now apply (inv_dag_fresh I).
      + intros a b Hb. rewrite Hgrid in Hb.
        destruct (N.eqb_spec a v) as [->|Hav].
        * unfold push_dag in Hb. simpl in Hb. apply in_app_or in Hb.
          destruct Hb as [Hb|[<-|[]]].
          -- now apply (inv_dag_edges I).
          -- eauto using target_in_targetsOf.
        * now apply (inv_dag_edges I).
      + intro k. rewrite Hgrid. destruct (N.eqb_spec k v) as [->|_].
        * rewrite <- (inv_frame I v). reflexivity.
        * apply (inv_frame I).
      + intros k Hk. apply Hgridkeys in Hk. destruct Hk as [->|Hk].
        * right. apply (Hmono v). congruence.
        * destruct (inv_gridkeys I _ Hk) as [?|Hn];
            [now left | right; now apply Hmono].
      + rewrite Hblocks. intros k Hk. apply in_keys_modify in Hk.
        destruct Hk as [->|Hk].
        * right. apply (Hmono v). congruence.
        * destruct (inv_blockkeys I _ Hk) as [?|Hn];
            [now left | right; now apply Hmono].
      + rewrite Horder, Hblocks. intros k Hk. apply in_keys_modify. right.
        now apply (inv_order_keys I).
    - (* edge to a finished block *)
      destruct (Htop _ _ _ Hstack) as (Hv & HvU & Hvo & Hvr & Hndr).
      constructor.
      + intro k. rewrite Hblocks, at_touch. apply (inv_blocks I).
      + rewrite Hblocks. intros k Hk. apply in_keys_modify. right.
        now apply (inv_keys I).
      + rewrite Hblocks. intros k Hk. apply in_keys_modify in Hk.
        destruct Hk as [->|Hk]; auto. now apply (inv_keysU I).
      + rewrite Hstack'. pose proof (inv_stack_nodup I) as Hnd.
        now rewrite Hstack in Hnd.
      + intro k. rewrite Hstack', Hvisited, <- (inv_stack I), Hstack.
        reflexivity.
      + rewrite Hstack'. pose proof (inv_stackU I) as HU.
        now rewrite Hstack in HU.
      + rewrite Hstack'. intros w j [Hw|Hw].
        * inversion Hw; subst. apply nth_error_Some. congruence.
        * apply (inv_index I). rewrite Hstack. now right.
      + rewrite Horder. apply (inv_order_nodup I).
      + intro k. rewrite Horder, Hvisited. apply (inv_order I).
      + rewrite Horder. apply (inv_orderU I).
      + intros l1 a l2 Ho b Hb. rewrite Horder in Ho. rewrite Hgrid in Hb.
        destruct (N.eqb_spec a v) as [->|Ha].
        * exfalso. apply Hvo. rewrite Ho. apply in_or_app. right. now left.
        * eapply (inv_dag_order I); eauto.
      + intros s1 a j s2 Hs b Hb. rewrite Hstack' in Hs. rewrite Hgrid in Hb.
        rewrite Horder.
        assert (Hnd' : NoDup (map fst ((v, S i) :: rest))).
        { pose proof (inv_stack_nodup I) as Hnd. now rewrite Hstack in Hnd. }
        destruct (@nodup_fst_decompose _ _ _ _ _ _ _ Hnd' Hs)
          as [(-> & -> & _ & _)|(s1' & -> & Hrest & Hav)].
        { rewrite N.eqb_refl in Hb. unfold push_dag in Hb. simpl in Hb.
          apply in_app_or in Hb. destruct Hb as [Hb|[<-|[]]].
          - destruct (inv_dag_stack I [] v i rest Hstack b Hb) as [Ho|[]].
            now left.
          - left. now apply (inv_order I). }
        destruct (N.eqb_spec a v) as [Heq|_]; [contradiction|].
        assert (Hs0 : stack s = ((v, i) :: s1') ++ (a, j) :: s2).
        { rewrite Hstack, Hrest. reflexivity. }
        destruct (inv_dag_stack I _ _ _ _ Hs0 b Hb) as [Ho|Hin]; auto.
      + intros a Ha. rewrite Hvisited in Ha. rewrite Hgrid.
        destruct (N.eqb_spec a v) as [->|Hav]; [congruence|].
        now apply (inv_dag_fresh I).
      + intros a b Hb. rewrite Hgrid in Hb.
        destruct (N.eqb_spec a v) as [->|Hav].
        * unfold push_dag in Hb. simpl in Hb. apply in_app_or in Hb.
          destruct Hb as [Hb|[<-|[]]].
          -- now apply (inv_dag_edges I).
          -- eauto using target_in_targetsOf.
        * now apply (inv_dag_edges I).
      + intro k. rewrite Hgrid. destruct (N.eqb_spec k v) as [->|_].
        * rewrite <- (inv_frame I v). reflexivity.
        * apply (inv_frame I).
      + intros k Hk. apply Hgridkeys in Hk. destruct Hk as [->|Hk].
        * right. apply (Hmono v). congruence.
        * destruct (inv_gridkeys I _ Hk) as [?|Hn];
            [now left | right; now apply Hmono].
      + rewrite Hblocks. intros k Hk. apply in_keys_modify in Hk.
        destruct Hk as [->|Hk].
        * right. apply (Hmono v). congruence.
        * destruct (inv_blockkeys I _ Hk) as [?|Hn];
            [now left | right; now apply Hmono].
      + rewrite Horder, Hblocks. intros k Hk. apply in_keys_modify. right.
        now apply (inv_order_keys I).
    - (* edge to a block on the stack *)
      destruct (Htop _ _ _ Hstack) as (Hv & HvU & Hvo & Hvr & Hndr).
      constructor.
      + intro k. rewrite Hblocks, at_touch. apply (inv_blocks I).
      + rewrite Hblocks. intros k Hk. apply in_keys_modify. right.
        now apply (inv_keys I).
      + rewrite Hblocks. intros k Hk. apply in_keys_modify in Hk.
        destruct Hk as [->|Hk]; auto. now apply (inv_keysU I).
      + rewrite Hstack'. pose proof (inv_stack_nodup I) as Hnd.
        now rewrite Hstack in Hnd.
      + intro k. rewrite Hstack', Hvisited, <- (inv_stack I), Hstack.
        reflexivity.
      + rewrite Hstack'. pose proof (inv_stackU I) as HU.
        now rewrite Hstack in HU.
      + rewrite Hstack'. intros w j [Hw|Hw].
        * inversion Hw; subst. apply nth_error_Some. congruence.
        * apply (inv_index I). rewrite Hstack. now right.
      + rewrite Horder. apply (inv_order_nodup I).
      + intro k. rewrite Horder, Hvisited. apply (inv_order I).
      + rewrite Horder. apply (inv_orderU I).
      + rewrite Horder, Hgrid. apply (inv_dag_order I).
      + intros s1 a j s2 Hs b Hb. rewrite Hstack' in Hs. rewrite Hgrid in Hb.
        rewrite Horder.
        assert (Hnd' : NoDup (map fst ((v, S i) :: rest))).
        { pose proof (inv_stack_nodup I) as Hnd. now rewrite Hstack in Hnd. }
        destruct (@nodup_fst_decompose _ _ _ _ _ _ _ Hnd' Hs)
          as [(-> & -> & _ & _)|(s1' & -> & Hrest & Hav)].
        { destruct (inv_dag_stack I [] v i rest Hstack b Hb) as [Ho|[]].
          now left. }
        assert (Hs0 : stack s = ((v, i) :: s1') ++ (a, j) :: s2).
        { rewrite Hstack, Hrest. reflexivity. }
        destruct (inv_dag_stack I _ _ _ _ Hs0 b Hb) as [Ho|Hin]; auto.
      + intros a Ha. rewrite Hvisited in Ha. rewrite Hgrid.
        now apply (inv_dag_fresh I).
      + rewrite Hgrid. apply (inv_dag_edges I).
      + rewrite Hgrid. apply (inv_frame I).
      + rewrite Hgrid. intros k Hk.
        destruct (inv_gridkeys I _ Hk) as [?|Hn];
          [now left | right; now apply Hmono].
      + rewrite Hblocks. intros k Hk. apply in_keys_modify in Hk.
        destruct Hk as [->|Hk].
        * right. apply (Hmono v). congruence.
        * destruct (inv_blockkeys I _ Hk) as [?|Hn];
            [now left | right; now apply Hmono].
      + rewrite Horder, Hblocks. intros k Hk. apply in_keys_modify. right.
        now apply (inv_order_keys I).
    - (* pop *)
      destruct (Htop _ _ _ Hstack) as (Hv & HvU & Hvo & Hvr & Hndr).
      constructor.
      + intro k. rewrite Hblocks, at_touch. apply (inv_blocks I).
      + rewrite Hblocks. intros k Hk. apply in_keys_modify. right.
        now apply (inv_keys I).
      + rewrite Hblocks. intros k Hk. apply in_keys_modify in Hk.
        destruct Hk as [->|Hk]; auto. now apply (inv_keysU I).
      + now rewrite Hstack'.
      + intro k. rewrite Hstack', Hvisited.
        destruct (N.eqb_spec k v) as [->|Hk].
        * split; [contradiction | discriminate].
        * rewrite <- (inv_stack I), Hstack. simpl. intuition congruence.
      + rewrite Hstack'. intros k Hk. apply (inv_stackU I).
        rewrite Hstack. now right.
      + rewrite Hstack'. intros w j Hw. apply (inv_index I).
        rewrite Hstack. now right.
      + rewrite Horder. apply NoDup_app; [apply (inv_order_nodup I) | |].
        * repeat constructor. simpl. tauto.
        * intros a Ha [<-|[]]. contradiction.
      + intro k. rewrite Horder, Hvisited, in_app_iff. simpl.
        destruct (N.eqb_spec k v) as [->|Hk].
        * intuition.
        * rewrite (inv_order I). intuition congruence.
      + rewrite Horder. intros k Hk. apply in_app_or in Hk.
        destruct Hk as [Hk|[<-|[]]]; auto. now apply (inv_orderU I).
      + intros l1 a l2 Ho b Hb. rewrite Horder in Ho. rewrite Hgrid in Hb.
        apply app_cons_tail_inv in Ho.
        destruct Ho as [(-> & -> & ->)|(l2' & -> & Ho)].
        * destruct (inv_dag_stack I [] v i rest Hstack b Hb) as [Ho|[]].
          exact Ho.
        * eapply (inv_dag_order I); eauto.
      + intros s1 a j s2 Hs b Hb. rewrite Hstack' in Hs. rewrite Hgrid in Hb.
        rewrite Horder.
        assert (Hs0 : stack s = ((v, i) :: s1) ++ (a, j) :: s2).
        { rewrite Hstack, Hs. reflexivity. }
        destruct (inv_dag_stack I _ _ _ _ Hs0 b Hb) as [Ho|[<-|Hin]].
        * left. apply in_or_app. now left.
        * left. apply in_or_app. right. simpl. auto.
        * now right.
      + intros a Ha. rewrite Hvisited in Ha. rewrite Hgrid.
        destruct (N.eqb_spec a v) as [Heq|Hav]; [discriminate|].
        now apply (inv_dag_fresh I).
      + rewrite Hgrid. apply (inv_dag_edges I).
      + rewrite Hgrid. apply (inv_frame I).
      + rewrite Hgrid. intros k Hk.
        destruct (inv_gridkeys I _ Hk) as [?|Hn];
          [now left | right; now apply Hmono].
      + rewrite Hblocks. intros k Hk. apply in_keys_modify in Hk.
        destruct Hk as [->|Hk].
        * right. apply (Hmono v). congruence.
        * destruct (inv_blockkeys I _ Hk) as [?|Hn];
            [now left | right; now apply Hmono].
      + rewrite Horder, Hblocks. intros k Hk. apply in_keys_modify.
        apply in_app_or in Hk. destruct Hk as [Hk|[<-|[]]];
          [right; now apply (inv_order_keys I) | now left].
  Qed.
End DfsInvariant.

(** ** Termination of the depth-first search *)

Ltac splits := repeat match goal with |- _ /\ _ => split end.

Section DfsMeasure.
Variable bs : UMap.t GraphBlock.
Variable g0 : UMap.t GridBlock.
Variable U : list ut64.
Hypothesis U_nodup : NoDup U.
Hypothesis U_closed :
    forall k t, In k U -> In t (targetsOf bs k) -> In t U.

Lemma unvisitedWeight_same (vis vis' : UMap.t State) (L : list ut64) :
    (forall k, In k L -> (vis' @ k = NotVisited <-> vis @ k = NotVisited)) ->
    unvisitedWeight bs vis' L = unvisitedWeight bs vis L.
  Proof.
    induction L as [|k L IH]; intros Hsame; simpl; [reflexivity|].
    rewrite IH by (intros; apply Hsame; now right).
    specialize (Hsame k (or_introl eq_refl)).
    destruct (vis' @ k), (vis @ k); try reflexivity;
      exfalso; intuition congruence.
  Qed.

Lemma unvisitedWeight_visit (vis vis' : UMap.t State) (L : list ut64) t :
    NoDup L -> In t L ->
    vis @ t = NotVisited -> vis' @ t <> NotVisited ->
    (forall k, k <> t -> vis' @ k = vis @ k) ->
    (unvisitedWeight bs vis' L + weight bs t)%nat = unvisitedWeight bs vis L.
  Proof.
    intros Hnd Hin Ht Ht' Hother.
    induction L as [|k L IH]; simpl in *; [contradiction|].
    inversion Hnd as [|? ? Hnin Hnd']; subst.
    destruct Hin as [->|Hin].
    - rewrite Ht.
      rewrite (unvisitedWeight_same vis vis' L).
      + destruct (vis' @ t); [congruence | lia | lia].
      + intros k Hk. rewrite Hother; [tauto|]. intros ->. contradiction.
    - rewrite <- (IH Hnd' Hin).
      rewrite Hother by (intros ->; contradiction). lia.
  Qed.

Lemma dfsStep_measure s s' :
    DfsInv bs g0 U s -> dfsStepSpec bs s s' ->
    S (dfsMeasure bs U s') = dfsMeasure bs U s.
  Proof.
    intros I Hstep. unfold dfsMeasure.
    destruct Hstep; rewrite Hstack, Hstack';
      unfold stackWeight; cbn [fold_right fst snd].
    - assert (Hi : (i < length (edges (bs @ v)))%nat)
        by (apply nth_error_Some; congruence).
      assert (HtU : In (target e) U).
      { eapply U_closed; eauto using target_in_targetsOf.
        apply (inv_stackU I). rewrite Hstack. simpl. auto. }
      rewrite <- (unvisitedWeight_visit (visited s) (visited s') U_nodup HtU Hstate).
      + unfold weight. lia.
      + rewrite Hvisited, N.eqb_refl. discriminate.
      + intros k Hk. rewrite Hvisited.
        destruct (N.eqb_spec k (target e)); [contradiction | reflexivity].
    - assert (Hi : (i < length (edges (bs @ v)))%nat)
        by (apply nth_error_Some; congruence).
      rewrite (unvisitedWeight_same (visited s) (visited s') U)
        by (intros; now rewrite Hvisited).
      unfold weight. lia.
    - assert (Hi : (i < length (edges (bs @ v)))%nat)
        by (apply nth_error_Some; congruence).
      rewrite (unvisitedWeight_same (visited s) (visited s') U)
        by (intros; now rewrite Hvisited).
      unfold weight. lia.
    - assert (Hi : (i <= length (edges (bs @ v)))%nat).
      { apply (inv_index I). rewrite Hstack. now left. }
      assert (Hi' : (length (edges (bs @ v)) <= i)%nat)
        by (now apply nth_error_None).
      assert (Hv : visited s @ v = InStack).
      { apply (inv_stack I). rewrite Hstack. simpl. auto. }
      rewrite (unvisitedWeight_same (visited s) (visited s') U).
      + unfold weight. lia.
      + intros k _. rewrite Hvisited.
        destruct (N.eqb_spec k v) as [->|]; [|tauto].
        rewrite Hv. split; discriminate.
  Qed.

Lemma stack_measure_pos s :
    DfsInv bs g0 U s -> stack s <> [] -> (0 < dfsMeasure bs U s)%nat.
  Proof.
    intros I Hne. unfold dfsMeasure.
    destruct (stack s) as [|[v i] rest] eqn:Hs; [congruence|].
    unfold stackWeight; cbn [fold_right fst snd].
    assert (Hi : (i <= length (edges (bs @ v)))%nat).
    { apply (inv_index I). rewrite Hs. now left. }
    unfold weight. lia.
  Qed.

  (** With fuel for every remaining iteration the loop ends, with the stack
      empty. *)
Lemma dfsLoop_terminates fuel :
    forall s,
      DfsInv bs g0 U s -> (dfsMeasure bs U s <= fuel)%nat ->
      exists s',
        dfsLoop fuel s = Done s' /\ DfsInv bs g0 U s' /\ stack s' = [] /\
        dfsMono s s' /\ (dfsMeasure bs U s' <= dfsMeasure bs U s)%nat.
  Proof.
    induction fuel as [|fuel IH]; intros s I Hfuel.
    - destruct (stack s) as [|x rest] eqn:Hs.
      + exists s. simpl. rewrite Hs. splits; auto. intros v Hv; exact Hv.
      + exfalso. assert (Hne : stack s <> []) by congruence.
        pose proof (stack_measure_pos I Hne). lia.
    - simpl. destruct (stack s) as [|x rest] eqn:Hs.
      + exists s. splits; auto. intros v Hv; exact Hv.
      + assert (Hne : stack s <> []) by congruence.
        pose proof (@dfsStep_spec bs s (inv_blocks I) Hne) as Hstep.
        pose proof (dfsStep_inv U_closed I Hstep) as I'.
        pose proof (dfsStep_measure I Hstep) as Hm.
        destruct (IH (dfsStep s) I' ltac:(lia))
          as (s' & Hrun & Is' & Hs' & Hmono & Hle).
        exists s'. splits; auto.
        * intros v Hv. apply Hmono. now apply (dfsStep_mono Hstep).
        * lia.
  Qed.

  (** [dfsFragment] from a block that is not visited yet. *)
Lemma dfsFragment_terminates fuel s first :
    DfsInv bs g0 U s -> stack s = [] ->
    visited s @ first = NotVisited -> In first U ->
    (dfsMeasure bs U s <= fuel)%nat ->
    exists s',
      dfsFragment fuel s first = Done s' /\ DfsInv bs g0 U s' /\
      stack s' = [] /\ dfsMono s s' /\ visited s' @ first = Visited /\
      (dfsMeasure bs U s' <= dfsMeasure bs U s)%nat.
  Proof.
    intros I Hs Hfirst HU Hfuel. unfold dfsFragment. rewrite Hs.
    set (s0 := mkDfs (UMap.set (visited s) first InStack) (d_blocks s)
                 (d_grid s) [(first, O)] (blockOrder s)).
    assert (Hvis0 : forall k, visited s0 @ k =
                              if N.eqb k first then InStack else visited s @ k).
    { intro k. unfold s0. simpl. apply at_set. }
    assert (Hnone : forall k, visited s @ k <> InStack).
    { intros k Hk. apply (inv_stack I) in Hk. now rewrite Hs in Hk. }
    assert (I0 : DfsInv bs g0 U s0).
    { constructor; unfold s0 in *; simpl.
      - apply (inv_blocks I).
      - apply (inv_keys I).
      - apply (inv_keysU I).
      - repeat constructor. simpl. tauto.
      - intro k. rewrite Hvis0. destruct (N.eqb_spec k first) as [->|Hk].
        + intuition.
        + split; [intros [Heq|[]]; congruence | intros Hk'; now apply Hnone in Hk'].
      - intros k [<-|[]]. exact HU.
      - intros v i [Hv|[]]. inversion Hv; subst. lia.
      - apply (inv_order_nodup I).
      - intro k. rewrite Hvis0. destruct (N.eqb_spec k first) as [->|Hk].
        + split; [|discriminate]. intro Hin. apply (inv_order I) in Hin.
          congruence.
        + apply (inv_order I).
      - apply (inv_orderU I).
      - apply (inv_dag_order I).
      - intros s1 a i s2 Heq b Hb.
        destruct s1 as [|x s1]; simpl in Heq.
        + inversion Heq; subst.
          rewrite (inv_dag_fresh I _ Hfirst) in Hb. destruct Hb.
        + inversion Heq as [[Hx Hnil]]. destruct s1; discriminate Hnil.
      - intros a Ha. rewrite Hvis0 in Ha.
        destruct (N.eqb_spec a first); [discriminate|].
        now apply (inv_dag_fresh I).
      - apply (inv_dag_edges I).
      - apply (inv_frame I).
      - intros k Hk. destruct (inv_gridkeys I _ Hk) as [?|Hn]; [now left|].
        right. rewrite Hvis0. destruct (N.eqb_spec k first);
          [discriminate | assumption].
      - intros k Hk. destruct (inv_blockkeys I _ Hk) as [?|Hn]; [now left|].
        right. rewrite Hvis0. destruct (N.eqb_spec k first);
          [discriminate | assumption].
      - apply (inv_order_keys I). }
    assert (Hm0 : dfsMeasure bs U s0 = dfsMeasure bs U s).
    { unfold dfsMeasure. rewrite Hs. unfold s0 at 1.
      unfold stackWeight; cbn [fold_right fst snd stack].
      rewrite <- (unvisitedWeight_visit (visited s) (visited s0) U_nodup HU Hfirst).
      - lia.
      - rewrite Hvis0, N.eqb_refl. discriminate.
      - intros k Hk. rewrite Hvis0.
        destruct (N.eqb_spec k first); [contradiction | reflexivity]. }
    destruct (dfsLoop_terminates (fuel := fuel) I0 ltac:(lia))
      as (s' & Hrun & Is' & Hs' & Hmono & Hle).
    exists s'. splits; auto.
    - intros v Hv. apply Hmono. rewrite Hvis0.
      destruct (N.eqb_spec v first); [discriminate | assumption].
    - assert (Hnn : visited s' @ first <> NotVisited).
      { apply Hmono. rewrite Hvis0, N.eqb_refl. discriminate. }
      assert (Hni : visited s' @ first <> InStack).
      { intro Hk. apply (inv_stack Is') in Hk. now rewrite Hs' in Hk. }
      destruct (visited s' @ first); congruence.
    - lia.
  Qed.

Lemma DfsInv_touch_visited s k :
    DfsInv bs g0 U s ->
    DfsInv bs g0 U
      (mkDfs (UMap.touch (visited s) k) (d_blocks s) (d_grid s) (stack s)
         (blockOrder s)).
  Proof.
    intros I. constructor; simpl; try apply I.
    - intro v. rewrite at_touch. apply (inv_stack I).
    - intro v. rewrite at_touch. apply (inv_order I).
    - intro a. rewrite at_touch. apply (inv_dag_fresh I).
    - intros v Hv. rewrite at_touch. now apply (inv_gridkeys I).
    - intros v Hv. rewrite at_touch. now apply (inv_blockkeys I).
  Qed.

  (** The loop over the blocks leaves every listed block visited. *)
Lemma dfsRest_terminates fuel ks :
    forall s,
      DfsInv bs g0 U s -> stack s = [] -> incl ks U ->
      (dfsMeasure bs U s <= fuel)%nat ->
      exists s',
        dfsRest fuel ks s = Done s' /\ DfsInv bs g0 U s' /\ stack s' = [] /\
        dfsMono s s' /\ (forall k, In k ks -> visited s' @ k = Visited).
  Proof.
    induction ks as [|k ks IH]; intros s I Hs HU Hfuel.
    - exists s. simpl. splits; auto; try (intros v Hv; exact Hv).
      intros k [].
    - simpl.
      set (s1 := mkDfs (UMap.touch (visited s) k) (d_blocks s) (d_grid s)
                   (stack s) (blockOrder s)).
      assert (I1 : DfsInv bs g0 U s1) by now apply DfsInv_touch_visited.
      assert (Hm1 : dfsMeasure bs U s1 = dfsMeasure bs U s).
      { unfold dfsMeasure, s1. simpl. f_equal.
        apply unvisitedWeight_same. intros; now rewrite at_touch. }
      assert (Hmono1 : dfsMono s s1).
      { intros v Hv. unfold s1; simpl. now rewrite at_touch. }
      assert (Hdone : forall s2,
                 DfsInv bs g0 U s2 -> stack s2 = [] -> dfsMono s s2 ->
                 (dfsMeasure bs U s2 <= fuel)%nat ->
                 visited s2 @ k = Visited ->
                 exists s',
                   dfsRest fuel ks s2 = Done s' /\ DfsInv bs g0 U s' /\
                   stack s' = [] /\ dfsMono s s' /\
                   (forall k', In k' (k :: ks) -> visited s' @ k' = Visited)).
      { intros s2 I2 Hs2 Hmono2 Hfuel2 Hk.
        destruct (IH s2 I2 Hs2 ltac:(intros x Hx; apply HU; now right) Hfuel2)
          as (s' & Hrun & Is' & Hs' & Hmono & Hall).
        exists s'. splits; auto.
        - intros v Hv. now apply Hmono, Hmono2.
        - intros k' [<-|Hk']; auto.
          assert (Hnn : visited s' @ k <> NotVisited).
          { apply Hmono. rewrite Hk. discriminate. }
          assert (Hni : visited s' @ k <> InStack).
          { intro Hx. apply (inv_stack Is') in Hx. now rewrite Hs' in Hx. }
          destruct (visited s' @ k); congruence. }
      change (UMap.touch (visited s) k @ k) with (visited s1 @ k).
      destruct (visited s1 @ k) eqn:Hk.
      + destruct (@dfsFragment_terminates fuel s1 k I1 Hs Hk
                    ltac:(apply HU; now left) ltac:(lia))
          as (s2 & Hrun & I2 & Hs2 & Hmono2 & Hk2 & Hle).
        rewrite Hrun. simpl.
        apply Hdone; auto.
        * intros v Hv. now apply Hmono2, Hmono1.
        * lia.
      + exfalso. apply (inv_stack I1) in Hk. unfold s1 in Hk; simpl in Hk.
        now rewrite Hs in Hk.
      + apply Hdone; auto. lia.
  Qed.
End DfsMeasure.

(** ** topoSort *)

Lemma at_in_or_default {V : Type} `{Default V} (m : UMap.t V) k :
  In (k, m @ k) m \/ m @ k = dflt.
Proof.
  unfold UMap.at_. induction m as [|[k0 v0] m IH]; simpl; [now right|].
  destruct (N.eqb_spec k k0) as [->|Hk]; [left; now left|].
  destruct IH as [IH|IH]; [left; now right | now right].
Qed.

Lemma at_in_keys {V : Type} `{Default V} (m : UMap.t V) k :
  ~ In k (UMap.keys m) -> m @ k = dflt.
Proof.
  intros Hk. destruct (at_in_or_default m k) as [Hin|]; [|assumption].
  exfalso. apply Hk. unfold UMap.keys. apply in_map_iff.
  exists (k, m @ k). auto.
Qed.

Lemma universe_nodup bs entry : NoDup (universe bs entry).
Proof. apply NoDup_nodup. Qed.

Lemma universe_entry bs entry : In entry (universe bs entry).
Proof. apply nodup_In. now left. Qed.

Lemma universe_keys bs entry : incl (UMap.keys bs) (universe bs entry).
Proof.
  intros k Hk. apply nodup_In. right. apply in_or_app. now left.
Qed.

Lemma targetsOf_allTargets bs k : incl (targetsOf bs k) (allTargets bs).
Proof.
  intros t Ht. unfold targetsOf in Ht.
  destruct (at_in_or_default bs k) as [Hin|Hd].
  - unfold allTargets. apply in_flat_map. exists (k, bs @ k). auto.
  - rewrite Hd in Ht. destruct Ht.
Qed.

Lemma universe_closed bs entry k t :
  In k (universe bs entry) -> In t (targetsOf bs k) -> In t (universe bs entry).
Proof.
  intros _ Ht. apply nodup_In. right. apply in_or_app. right.
  eapply targetsOf_allTargets; eauto.
Qed.

Lemma length_allTargets bs : length (allTargets bs) = edgeCount bs.
Proof.
  unfold allTargets, edgeCount. induction bs as [|[k b] bs IH]; simpl; auto.
  rewrite length_app, length_map, IH. reflexivity.
Qed.

Lemma length_universe bs entry :
  (length (universe bs entry) <= 1 + length bs + edgeCount bs)%nat.
Proof.
  unfold universe.
  transitivity (length (entry :: UMap.keys bs ++ allTargets bs)).
  - apply NoDup_incl_length; [apply NoDup_nodup|].
    intros k Hk. now apply nodup_In in Hk.
  - simpl. rewrite length_app, length_allTargets. unfold UMap.keys.
    rewrite length_map. lia.
Qed.

Lemma list_sum_cons a l : list_sum (a :: l) = (a + list_sum l)%nat.
Proof. reflexivity. Qed.

Lemma edgeCount_cons k b bs :
  edgeCount ((k, b) :: bs) = (length (edges b) + edgeCount bs)%nat.
Proof. reflexivity. Qed.

Lemma sum_edges_le bs :
  forall L, NoDup L ->
    (list_sum (map (fun k => length (edges (bs @ k))) L) <= edgeCount bs)%nat.
Proof.
  induction bs as [|[k0 b0] bs IH]; intros L Hnd.
  - induction L as [|k L IHL]; cbn [map edgeCount fold_right]; auto.
    inversion Hnd; subst. rewrite list_sum_cons, at_nil. apply IHL; assumption.
  - rewrite edgeCount_cons.
    assert (Hsplit : forall L, NoDup L ->
              (list_sum (map (fun k => length (edges (((k0, b0) :: bs) @ k))) L)
               <= (if in_dec N.eq_dec k0 L then length (edges b0) else 0)
                  + list_sum (map (fun k => length (edges (bs @ k))) L))%nat).
    { clear. induction L as [|k L IHL]; intros Hnd;
        cbn [map]; [simpl; lia|].
      inversion Hnd as [|? ? Hnin Hnd']; subst. specialize (IHL Hnd').
      rewrite !list_sum_cons.
      destruct (N.eq_dec k0 k) as [<-|Hk].
      - rewrite at_cons_same.
        destruct (in_dec N.eq_dec k0 (k0 :: L)) as [_|Hn];
          [|exfalso; apply Hn; now left].
        destruct (in_dec N.eq_dec k0 L); [contradiction|]. lia.
      - rewrite at_cons_other by congruence.
        destruct (in_dec N.eq_dec k0 (k :: L)) as [[Heq|Hi]|Hn];
          destruct (in_dec N.eq_dec k0 L) as [Hi'|Hn'];
          try congruence; try contradiction; try lia.
        exfalso. apply Hn. now right. }
    specialize (Hsplit L Hnd). specialize (IH L Hnd).
    destruct (in_dec N.eq_dec k0 L); lia.
Qed.

Lemma unvisitedWeight_nil bs L :
  unvisitedWeight bs [] L
  = (length L + list_sum (map (fun k => length (edges (bs @ k))) L))%nat.
Proof.
  unfold unvisitedWeight.
  induction L as [|k L IH]; cbn [fold_right map length]; auto.
  rewrite list_sum_cons, IH, at_nil. unfold weight, dflt, State_default. lia.
Qed.

Lemma dfsFuel_enough bs entry :
  (unvisitedWeight bs [] (universe bs entry) <= dfsFuel bs)%nat.
Proof.
  rewrite unvisitedWeight_nil. unfold dfsFuel.
  pose proof (length_universe bs entry).
  pose proof (sum_edges_le bs (universe_nodup bs entry)). lia.
Qed.

Lemma DfsInv_init bs g0 U :
  (forall k, dag_edge (g0 @ k) = []) ->
  incl (UMap.keys bs) U ->
  DfsInv bs g0 U (mkDfs [] bs g0 [] []).
Proof.
  intros Hdag HU. constructor; simpl; auto.
  - apply incl_refl.
  - constructor.
  - intro v. rewrite at_nil. split; [tauto | discriminate].
  - intros v []. 
  - intros v i [].
  - constructor.
  - intro v. rewrite at_nil. split; [tauto | discriminate].
  - intros v [].
  - intros l1 a l2 Heq. destruct l1; discriminate Heq.
  - intros s1 a i s2 Heq. destruct s1; discriminate Heq.
  - intros a b Hb. rewrite Hdag in Hb. destruct Hb.
  - intros v [].
Qed.

Lemma topoOrdered_in g order a b :
  topoOrdered g order -> In a order -> In b (dag_edge (g @ a)) -> In b order.
Proof.
  intros Htopo Ha Hb. apply in_split in Ha. destruct Ha as (l1 & l2 & ->).
  apply in_or_app. left. eapply Htopo; eauto.
Qed.

(** [topoSort] always returns: the fuel it is given suffices. *)
Lemma topoSort_sorted st entry :
  (forall k, dag_edge (grid_blocks st @ k) = []) ->
  exists st' order,
    topoSort st entry = Done (st', order) /\
    TopoSorted st entry st' order /\
    st' = with_grid_blocks (grid_blocks st') (with_blocks (blocks st') st).
Proof.
  intros Hdag. unfold topoSort.
  set (bs := blocks st). set (g0 := grid_blocks st).
  set (U := universe bs entry).
  pose proof (universe_nodup bs entry) as Hnd.
  pose proof (@universe_closed bs entry) as Hcl.
  pose proof (DfsInv_init bs g0 Hdag (@universe_keys bs entry)) as I0.
  fold U in Hnd, Hcl, I0.
  assert (Hm0 : (dfsMeasure bs U (mkDfs [] bs g0 [] []) <= dfsFuel bs)%nat).
  { unfold dfsMeasure. simpl. apply dfsFuel_enough. }
  destruct (@dfsFragment_terminates bs g0 U Hnd Hcl (dfsFuel bs) _ entry I0
              eq_refl (at_nil entry) (universe_entry bs entry) Hm0)
    as (s1 & Hrun1 & I1 & Hs1 & Hmono1 & He1 & Hle1).
  rewrite Hrun1. simpl.
  destruct (@dfsRest_terminates bs g0 U Hnd Hcl (dfsFuel bs)
              (UMap.keys (d_blocks s1)) s1 I1 Hs1 (inv_keysU I1) ltac:(lia))
    as (s2 & Hrun2 & I2 & Hs2 & Hmono2 & Hall).
  rewrite Hrun2. simpl.
  exists (with_grid_blocks (d_grid s2) (with_blocks (d_blocks s2) st)).
  exists (blockOrder s2).
  split; [reflexivity|]. split; [|reflexivity].
  assert (Hvis : forall k, visited s2 @ k <> NotVisited -> In k (blockOrder s2)).
  { intros k Hk. apply (inv_order I2).
    assert (Hni : visited s2 @ k <> InStack).
    { intro Hx. apply (inv_stack I2) in Hx. now rewrite Hs2 in Hx. }
    destruct (visited s2 @ k); congruence. }
  constructor; simpl.
  - apply (inv_order_nodup I2).
  - intros k Hk. apply (inv_order I2). apply Hall. now apply (inv_keys I1).
  - apply (inv_order I2).
    assert (Hn : visited s2 @ entry <> NotVisited).
    { apply Hmono2. rewrite He1. discriminate. }
    apply (inv_order I2). now apply Hvis.
  - apply (inv_orderU I2).
  - exact (inv_dag_order I2).
  - intros a Ha. apply Hvis. intro Hn. apply Ha. now apply (inv_dag_fresh I2).
  - apply (inv_dag_edges I2).
  - apply (inv_frame I2).
  - intros k Hk. destruct (inv_gridkeys I2 _ Hk) as [?|Hn]; [now left|].
    right. now apply Hvis.
  - apply (inv_blocks I2).
  - intro k. split.
    + intro Hk. destruct (inv_blockkeys I2 _ Hk) as [?|Hn]; [now left|].
      right. now apply Hvis.
    + intros [Hk|Hk].
      * now apply (inv_keys I2).
      * now apply (inv_order_keys I2).
Qed.

(** ** assignRows *)

Lemma raise_rows_spec n l :
  forall g,
    let g' := fold_left (fun g tgt => UMap.modify g tgt (raise_row n)) l g in
    (forall k, forgetRow (g' @ k) = forgetRow (g @ k)) /\
    (forall k, In k l -> row (g' @ k) = Z.max (row (g @ k)) n) /\
    (forall k, ~ In k l -> row (g' @ k) = row (g @ k)).
Proof.
  induction l as [|t l IH]; intros g; simpl.
  - splits; auto. intros k [].
  - destruct (IH (UMap.modify g t (raise_row n))) as (Hf & Hin & Hout).
    splits.
    + intro k. rewrite Hf, at_modify.
      destruct (N.eqb_spec k t) as [->|]; reflexivity.
    + intros k Hk.
      destruct (in_dec N.eq_dec k l) as [Hl|Hl].
      * rewrite (Hin k Hl), at_modify.
        destruct (N.eqb_spec k t) as [->|]; simpl; lia.
      * destruct Hk as [->|Hk]; [|contradiction].
        rewrite (Hout k Hl), at_modify_same. reflexivity.
    + intros k Hk. rewrite Hout by tauto.
      rewrite at_modify_other by (intros ->; tauto). reflexivity.
Qed.

Lemma assignRows_block_spec g v :
  let g' := assignRows_block g v in
  (forall k, forgetRow (g' @ k) = forgetRow (g @ k)) /\
  (forall k, In k (dag_edge (g @ v)) ->
             row (g' @ k) = Z.max (row (g @ k)) (row (g @ v) + 1)) /\
  (forall k, ~ In k (dag_edge (g @ v)) -> row (g' @ k) = row (g @ k)).
Proof.
  unfold assignRows_block. rewrite !at_touch.
  destruct (raise_rows_spec (row (g @ v) + 1) (dag_edge (g @ v))
              (UMap.touch g v)) as (Hf & Hin & Hout).
  splits.
  - intro k. rewrite Hf, at_touch. reflexivity.
  - intros k Hk. rewrite Hin, at_touch by assumption. reflexivity.
  - intros k Hk. rewrite Hout, at_touch by assumption. reflexivity.
Qed.

Lemma forgetRow_dag b b' : forgetRow b = forgetRow b' -> dag_edge b = dag_edge b'.
Proof. intros Heq. apply (f_equal dag_edge) in Heq. exact Heq. Qed.

Lemma topoRev_tail dag v L : topoRev dag (v :: L) -> topoRev dag L.
Proof.
  intros Ht l1 a l2 Heq b Hb. apply (Ht (v :: l1) a l2); auto.
  rewrite Heq. reflexivity.
Qed.

Lemma topoRev_of_ordered g order :
  topoOrdered g order -> topoRev (fun k => dag_edge (g @ k)) (rev order).
Proof.
  intros Ht l1 a l2 Heq b Hb.
  apply (f_equal (@rev ut64)) in Heq. rewrite rev_involutive in Heq.
  rewrite rev_app_distr in Heq. simpl in Heq. rewrite <- app_assoc in Heq.
  simpl in Heq. apply in_rev. eapply Ht; eauto.
Qed.

(** Walking a list in which every block comes before the targets of its dag
    edges puts every target at least one row below its source. *)
Lemma assignRows_list dag L :
  forall g,
    NoDup L -> topoRev dag L ->
    (forall k, dag_edge (g @ k) = dag k) ->
    let g' := fold_left assignRows_block L g in
    (forall k, forgetRow (g' @ k) = forgetRow (g @ k)) /\
    (forall k, row (g @ k) <= row (g' @ k)) /\
    (forall k, (forall a, In a L -> ~ In k (dag a)) ->
               row (g' @ k) = row (g @ k)) /\
    (forall a b, In a L -> In b (dag a) -> row (g' @ a) + 1 <= row (g' @ b)).
Proof.
  induction L as [|v L IH]; intros g Hnd Htopo Hdag; simpl.
  - splits; auto; try lia; try (intros ? ? []).
  - destruct (assignRows_block_spec g v) as (Hf1 & Hin1 & Hout1).
    set (g1 := assignRows_block g v) in *.
    assert (Hdag1 : forall k, dag_edge (g1 @ k) = dag k).
    { intro k. rewrite <- Hdag. apply forgetRow_dag, Hf1. }
    inversion Hnd as [|? ? Hnin Hnd']; subst.
    destruct (IH g1 Hnd' (topoRev_tail Htopo) Hdag1)
      as (Hf & Hmono & Hsame & Hedge).
    assert (Hmono1 : forall k, row (g @ k) <= row (g1 @ k)).
    { intro k. destruct (in_dec N.eq_dec k (dag_edge (g @ v))) as [Hk|Hk].
      - rewrite (Hin1 k Hk). lia.
      - rewrite (Hout1 k Hk). lia. }
    splits.
    + intro k. rewrite Hf. apply Hf1.
    + intro k. specialize (Hmono k). specialize (Hmono1 k). lia.
    + intros k Hk. rewrite Hsame by (intros a Ha; apply Hk; now right).
      apply Hout1. rewrite Hdag. apply Hk. now left.
    + intros a b [<-|Ha] Hb.
      * assert (HbL : In b L) by (apply (Htopo [] v L eq_refl b Hb)).
        assert (Hv : row (fold_left assignRows_block L g1 @ v) = row (g @ v)).
        { rewrite Hsame.
          - apply Hout1. rewrite Hdag. intro Hx.
            apply Hnin. apply (Htopo [] v L eq_refl v Hx).
          - intros a Ha Hx. apply in_split in Ha.
            destruct Ha as (l1 & l2 & ->).
            assert (Hv2 : In v l2)
              by (apply (Htopo (v :: l1) a l2 eq_refl v Hx)).
            apply Hnin. apply in_or_app. right. now right. }
        rewrite Hv. specialize (Hmono b).
        rewrite (Hin1 b) in Hmono by (now rewrite Hdag). lia.
      * now apply Hedge.
Qed.

Lemma assignRows_spec g order :
  NoDup order -> topoOrdered g order ->
  let g' := assignRows g order in
  (forall k, forgetRow (g' @ k) = forgetRow (g @ k)) /\
  (forall k, row (g @ k) <= row (g' @ k)) /\
  (forall k, ~ In k order -> row (g' @ k) = row (g @ k)
                             \/ exists a, In a order /\ In k (dag_edge (g @ a))) /\
  (forall a b, In a order -> In b (dag_edge (g @ a)) ->
               row (g' @ a) + 1 <= row (g' @ b)).
Proof.
  intros Hnd Htopo. unfold assignRows.
  destruct (@assignRows_list (fun k => dag_edge (g @ k)) (rev order) g
              (NoDup_rev Hnd) (topoRev_of_ordered Htopo) (fun k => eq_refl))
    as (Hf & Hmono & Hsame & Hedge).
  splits; auto.
  - intros k Hk. left. apply Hsame. intros a Ha Hx.
    apply in_rev in Ha. apply Hk. eapply topoOrdered_in; eauto.
  - intros a b Ha Hb. apply Hedge; auto. now apply in_rev in Ha.
Qed.

(** ** selectTree *)

Lemma forgetTree_fields b b' :
  forgetTree b = forgetTree b' ->
  row b = row b' /\ dag_edge b = dag_edge b' /\ col b = col b' /\ id b = id b'.
Proof.
  intros Heq. splits.
  - apply (f_equal row) in Heq. exact Heq.
  - apply (f_equal dag_edge) in Heq. exact Heq.
  - apply (f_equal col) in Heq. exact Heq.
  - apply (f_equal id) in Heq. exact Heq.
Qed.

Lemma selectTree_edge_spec v g t :
  TreeInv g -> In t (dag_edge (g @ v)) ->
  let g' := selectTree_edge v g t in
  TreeInv g' /\ (forall k, forgetTree (g' @ k) = forgetTree (g @ k)).
Proof.
  intros T Ht. unfold selectTree_edge. rewrite !at_touch.
  destruct (negb (has_parent (g @ t)) && (row (g @ t) =? row (g @ v) + 1))
    eqn:Hc.
  - apply andb_prop in Hc. destruct Hc as [Hp Hr].
    apply negb_true_iff in Hp. apply Z.eqb_eq in Hr.
    set (g' := UMap.modify (UMap.modify (UMap.touch g t) v (push_tree t)) t
                 (with_has_parent true)).
    assert (Htree : forall k, tree_edge (g' @ k) =
                              if N.eqb k v then tree_edge (g @ v) ++ [t]
                              else tree_edge (g @ k)).
    { intro k. unfold g'. rewrite !at_modify, !at_touch.
      destruct (N.eqb_spec k t) as [->|Hkt]; simpl;
        destruct (N.eqb_spec t v) as [->|Htv]; try reflexivity;
        destruct (N.eqb_spec k v) as [->|Hkv]; try reflexivity;
        rewrite ?N.eqb_refl; simpl; try reflexivity; congruence. }
    assert (Hpar : forall k, has_parent (g' @ k) =
                             if N.eqb k t then true else has_parent (g @ k)).
    { intro k. unfold g'. rewrite !at_modify, !at_touch.
      destruct (N.eqb_spec k t) as [->|Hkt]; simpl; [reflexivity|].
      destruct (N.eqb_spec k v) as [->|Hkv]; reflexivity. }
    assert (Hframe : forall k, forgetTree (g' @ k) = forgetTree (g @ k)).
    { intro k. unfold g'. rewrite !at_modify, !at_touch.
      destruct (N.eqb_spec k t) as [->|Hkt]; simpl;
        destruct (N.eqb_spec t v) as [->|Htv]; try reflexivity;
        destruct (N.eqb_spec k v) as [->|Hkv]; try reflexivity. }
    assert (Hfresh : forall a, ~ In t (tree_edge (g @ a))).
    { intros a Hin. apply (tree_parent T) in Hin. congruence. }
    assert (Hmem : forall a b, In b (tree_edge (g' @ a)) ->
                   In b (tree_edge (g @ a)) \/ (a = v /\ b = t)).
    { intros a b Hb. rewrite Htree in Hb.
      destruct (N.eqb_spec a v) as [->|]; [|now left].
      apply in_app_or in Hb. destruct Hb as [Hb|[<-|[]]]; auto. }
    split; [|exact Hframe].
    assert (Hrow : forall k, row (g' @ k) = row (g @ k))
      by (intro k; apply (forgetTree_fields (Hframe k))).
    assert (Hdg : forall k, dag_edge (g' @ k) = dag_edge (g @ k))
      by (intro k; apply (forgetTree_fields (Hframe k))).
    constructor.
    + intros a b Hb. rewrite !Hrow.
      destruct (Hmem a b Hb) as [Hold|[-> ->]]; [now apply (tree_row T)|].
      exact Hr.
    + intros a b Hb. rewrite Hdg.
      destruct (Hmem a b Hb) as [Hold|[-> ->]]; [now apply (tree_dag T)|].
      exact Ht.
    + intros a b Hb. rewrite Hpar.
      destruct (N.eqb_spec b t); [reflexivity|].
      destruct (Hmem a b Hb) as [Hold|[_ ->]]; [|congruence].
      now apply (tree_parent T) in Hold.
    + intros a a' b Hb Hb'.
      destruct (Hmem a b Hb) as [Hold|[Ha Hbt]];
        destruct (Hmem a' b Hb') as [Hold'|[Ha' Hbt']].
      * eapply (tree_unique T); eauto.
      * exfalso. rewrite Hbt' in Hold. eapply Hfresh; eauto.
      * exfalso. rewrite Hbt in Hold'. eapply Hfresh; eauto.
      * congruence.
    + intro a. rewrite Htree. destruct (N.eqb_spec a v) as [->|].
      * apply NoDup_app; [apply (tree_nodup T) | repeat constructor; simpl; tauto|].
        intros x Hx [<-|[]]. eapply Hfresh; eauto.
      * apply (tree_nodup T).
  - split.
    + destruct T as [T1 T2 T3 T4 T5].
      constructor; intros; rewrite ?at_touch in *; eauto.
    + intro k. now rewrite at_touch.
Qed.

Lemma selectTree_edges_spec v l :
  forall g,
    TreeInv g -> incl l (dag_edge (g @ v)) ->
    let g' := fold_left (selectTree_edge v) l g in
    TreeInv g' /\ (forall k, forgetTree (g' @ k) = forgetTree (g @ k)).
Proof.
  induction l as [|t l IH]; intros g T Hl; simpl.
  - split; auto.
  - destruct (@selectTree_edge_spec v g t T (Hl t (or_introl eq_refl)))
      as (T1 & Hf1).
    destruct (IH (selectTree_edge v g t) T1) as (T' & Hf').
    + intros x Hx.
      replace (dag_edge (selectTree_edge v g t @ v)) with (dag_edge (g @ v))
        by (symmetry; apply (forgetTree_fields (Hf1 v))).
      apply Hl. now right.
    + split; auto. intro k. rewrite Hf'. apply Hf1.
Qed.

Lemma selectTree_blocks_spec ks :
  forall g,
    TreeInv g ->
    let g' := fold_left selectTree_block ks g in
    TreeInv g' /\ (forall k, forgetTree (g' @ k) = forgetTree (g @ k)).
Proof.
  induction ks as [|v ks IH]; intros g T; simpl.
  - split; auto.
  - unfold selectTree_block at 2.
    destruct (@selectTree_edges_spec v (dag_edge (g @ v)) g T (incl_refl _))
      as (T1 & Hf1).
    destruct (IH _ T1) as (T' & Hf').
    split; auto. intro k. rewrite Hf'. apply Hf1.
Qed.

Lemma TreeInv_empty g :
  (forall k, tree_edge (g @ k) = []) -> TreeInv g.
Proof.
  intros He. constructor; intros; rewrite ?He in *;
    try contradiction; constructor.
Qed.

Lemma selectTree_spec g :
  (forall k, tree_edge (g @ k) = []) ->
  TreeInv (selectTree g) /\
  (forall k, forgetTree (selectTree g @ k) = forgetTree (g @ k)).
Proof.
  intros He. unfold selectTree.
  apply selectTree_blocks_spec. now apply TreeInv_empty.
Qed.

(** ** The first stages on the state of [CalculateLayout] *)

Lemma initGridBlocks_at bs k : with_id 0%N (initGridBlocks bs @ k) = dflt.
Proof.
  unfold initGridBlocks.
  assert (Hgen : forall ks g,
            (forall k, with_id 0%N (g @ k) = dflt) ->
            forall k, with_id 0%N
                        (fold_left (fun g k => UMap.set g k (with_id k dflt))
                           ks g @ k) = dflt).
  { induction ks as [|k0 ks IH]; intros g Hg k'; simpl; [apply Hg|].
    apply IH. intro k1. rewrite at_set.
    destruct (N.eqb_spec k1 k0); [reflexivity | apply Hg]. }
  apply Hgen. intro k'. reflexivity.
Qed.

Lemma initGridBlocks_dag bs k : dag_edge (initGridBlocks bs @ k) = [].
Proof.
  pose proof (initGridBlocks_at bs k) as H.
  apply (f_equal dag_edge) in H. exact H.
Qed.

Lemma initGridBlocks_fields bs k :
  tree_edge (initGridBlocks bs @ k) = [] /\
  has_parent (initGridBlocks bs @ k) = false /\
  row (initGridBlocks bs @ k) = 0 /\ col (initGridBlocks bs @ k) = 0.
Proof.
  pose proof (initGridBlocks_at bs k) as H. splits.
  - apply (f_equal tree_edge) in H. exact H.
  - apply (f_equal has_parent) in H. exact H.
  - apply (f_equal row) in H. exact H.
  - apply (f_equal col) in H. exact H.
Qed.

(** [topoSort] on the state that [CalculateLayout] builds. *)
Lemma topoSort_initial bs entry :
  exists st order,
    topoSort (initialState bs) entry = Done (st, order) /\
    TopoSorted (initialState bs) entry st order /\
    st = with_grid_blocks (grid_blocks st)
           (with_blocks (blocks st) (initialState bs)).
Proof.
  apply topoSort_sorted. intro k. apply initGridBlocks_dag.
Qed.

Lemma allTargets_known bs : targetsKnown bs -> incl (allTargets bs) (UMap.keys bs).
Proof.
  intros Hk t Ht. unfold allTargets in Ht. apply in_flat_map in Ht.
  destruct Ht as (kb & Hkb & Ht). apply in_map_iff in Ht.
  destruct Ht as (e & <- & He). eapply Hk; eauto.
Qed.

(** C10. When every edge names a block, [topoSort] returns, and the order it
    returns has no repetition and holds every block id, reachable from the
    entry or not, exactly once; it holds nothing but the block ids and the
    entry.  The same is then true of the order read backwards. *)
Theorem topoSort_every_block_once :
  forall bs entry,
    targetsKnown bs ->
    exists st order,
      topoSort (initialState bs) entry = Done (st, order) /\
      NoDup order /\
      (forall k, In k (UMap.keys bs) ->
                 count_occ N.eq_dec order k = 1%nat /\
                 count_occ N.eq_dec (rev order) k = 1%nat) /\
      (forall k, In k order -> k = entry \/ In k (UMap.keys bs)).
Proof.
  intros bs entry Hknown.
  destruct (topoSort_initial bs entry) as (st & order & Hrun & TS & _).
  exists st, order. splits; auto.
  - apply (ts_nodup TS).
  - intros k Hk. apply (ts_blocks_in TS) in Hk. split.
    + apply (proj1 (NoDup_count_occ' N.eq_dec order) (ts_nodup TS)). exact Hk.
    + apply (proj1 (NoDup_count_occ' N.eq_dec (rev order))
               (NoDup_rev (ts_nodup TS))).
      now apply -> in_rev.
  - intros k Hk. apply (ts_universe TS) in Hk. unfold universe in Hk.
    apply nodup_In in Hk. simpl in Hk. destruct Hk as [Hk|Hk]; [now left|].
    right. apply in_app_or in Hk. destruct Hk as [Hk|Hk]; [exact Hk|].
    now apply allTargets_known.
Qed.

Lemma E6_targetsKnown : targetsKnown E6.
Proof.
  intros kb e Hkb He. unfold E6 in Hkb. simpl in Hkb.
  repeat (destruct Hkb as [<-|Hkb];
          [simpl in He; repeat (destruct He as [<-|He]; [simpl; tauto|]);
           destruct He|]).
  destruct Hkb.
Defined.

Lemma topoSort_every_block_once_witness :
  targetsKnown E6 /\
  exists st order,
    topoSort (initialState E6) 1%N = Done (st, order) /\
    NoDup order /\
    (forall k, In k (UMap.keys E6) ->
               count_occ N.eq_dec order k = 1%nat /\
               count_occ N.eq_dec (rev order) k = 1%nat) /\
    (forall k, In k order -> k = 1%N \/ In k (UMap.keys E6)).
Proof.
  split; [exact E6_targetsKnown|].
  exact (topoSort_every_block_once (bs := E6) 1%N E6_targetsKnown).
Defined.

(** Rows of the state that [CalculateLayout] builds, after [assignRows]. *)
Lemma rows_after_assignRows bs entry st order :
  TopoSorted (initialState bs) entry st order ->
  let g := assignRows (grid_blocks st) order in
  (forall k, forgetRow (g @ k) = forgetRow (grid_blocks st @ k)) /\
  (forall k, 0 <= row (g @ k)) /\
  (forall a b, In b (dag_edge (g @ a)) -> row (g @ a) + 1 <= row (g @ b)).
Proof.
  intros TS g.
  destruct (@assignRows_spec (grid_blocks st) order (ts_nodup TS) (ts_topo TS))
    as (Hf & Hmono & _ & Hedge).
  fold g in Hf, Hmono, Hedge.
  assert (Hrow0 : forall k, row (grid_blocks st @ k) = 0).
  { intro k. pose proof (ts_frame TS k) as H.
    apply (f_equal row) in H. simpl in H. rewrite H.
    apply initGridBlocks_fields. }
  splits; auto.
  - intro k. specialize (Hmono k). rewrite Hrow0 in Hmono. exact Hmono.
  - intros a b Hb.
    assert (Hdag : dag_edge (g @ a) = dag_edge (grid_blocks st @ a))
      by (apply forgetRow_dag, Hf).
    rewrite Hdag in Hb. apply Hedge; auto.
    apply (ts_dag_in TS). intro Hnil. rewrite Hnil in Hb. destruct Hb.
Qed.

(** C2. For every input, [topoSort] returns, and after [assignRows] every
    edge a -> b that the search kept in [dag_edge] -- an edge to a block not
    yet visited or to a block already finished -- has row(b) >= row(a) + 1. *)
Theorem assignRows_dag_edges_descend :
  forall bs entry,
    exists st order,
      topoSort (initialState bs) entry = Done (st, order) /\
      let g := assignRows (grid_blocks st) order in
      forall a b, In b (dag_edge (g @ a)) -> row (g @ b) >= row (g @ a) + 1.
Proof.
  intros bs entry.
  destruct (topoSort_initial bs entry) as (st & order & Hrun & TS & _).
  exists st, order. split; [exact Hrun|].
  intros g a b Hb.
  destruct (rows_after_assignRows TS) as (_ & _ & Hedge).
  specialize (Hedge a b Hb). fold g in Hedge. lia.
Qed.

(** Tree edges of the state that [CalculateLayout] builds, after
    [selectTree]. *)
Lemma tree_after_selectTree bs entry st order :
  TopoSorted (initialState bs) entry st order ->
  let g := selectTree (assignRows (grid_blocks st) order) in
  TreeInv g /\
  (forall k, forgetTree (g @ k)
             = forgetTree (assignRows (grid_blocks st) order @ k)).
Proof.
  intros TS g. apply selectTree_spec. intro k.
  destruct (rows_after_assignRows TS) as (Hf & _ & _).
  pose proof (Hf k) as H1. apply (f_equal tree_edge) in H1. simpl in H1.
  rewrite H1.
  pose proof (ts_frame TS k) as H2. apply (f_equal tree_edge) in H2.
  simpl in H2. rewrite H2. apply initGridBlocks_fields.
Qed.

(** C7. For every input, after [selectTree] every tree edge a -> b has
    row(b) = row(a) + 1, no block is in the [tree_edge] list of two blocks,
    and no block is twice in one list. *)
Theorem selectTree_one_parent :
  forall bs entry,
    exists st order,
      topoSort (initialState bs) entry = Done (st, order) /\
      let g := selectTree (assignRows (grid_blocks st) order) in
      (forall a b, In b (tree_edge (g @ a)) -> row (g @ b) = row (g @ a) + 1) /\
      (forall a a' b,
          In b (tree_edge (g @ a)) -> In b (tree_edge (g @ a')) -> a = a') /\
      (forall a, NoDup (tree_edge (g @ a))).
Proof.
  intros bs entry.
  destruct (topoSort_initial bs entry) as (st & order & Hrun & TS & _).
  exists st, order. split; [exact Hrun|].
  destruct (tree_after_selectTree TS) as (T & _).
  intro g. splits.
  - apply (tree_row T).
  - apply (tree_unique T).
  - apply (tree_nodup T).
Qed.

(** ** Vectors and sorting *)

Lemma length_set_nth {A : Type} n (l : list A) a :
  length (set_nth n l a) = length l.
Proof.
  revert n. induction l as [|h t IH]; intros [|n]; simpl; auto.
Qed.

Lemma nth_set_nth_other {A : Type} n m (l : list A) a d :
  n <> m -> nth n (set_nth m l a) d = nth n l d.
Proof.
  revert n m. induction l as [|h t IH]; intros [|n] [|m] Hne; simpl; auto;
    congruence.
Qed.

Lemma length_vset v i a : length (vset v i a) = length v.
Proof. unfold vset. destruct (i <? 0); auto using length_set_nth. Qed.

Lemma vget_vset_other v i a j :
  0 <= j -> j <> i -> vget (vset v i a) j = vget v j.
Proof.
  intros Hj Hne. unfold vget, vset.
  destruct (Z.ltb_spec j 0); [lia|].
  destruct (Z.ltb_spec i 0); [reflexivity|].
  apply nth_set_nth_other. lia.
Qed.

Lemma In_insert_sorted {A : Type} (lt : A -> A -> bool) a x l :
  In x (insert_sorted lt a l) <-> x = a \/ In x l.
Proof.
  induction l as [|b l IH]; simpl; [intuition|].
  destruct (lt b a); simpl; rewrite ?IH; intuition.
Qed.

Lemma In_sort {A : Type} (lt : A -> A -> bool) x l :
  In x (sort lt l) <-> In x l.
Proof.
  unfold sort. induction l as [|a l IH]; simpl; [tauto|].
  rewrite In_insert_sorted, IH. intuition.
Qed.

(** ** The sentinel columns of [calculateEdgeMainColumn] *)

Lemma lastLess_nonneg l :
  forall i position value found,
    0 <= i -> 0 <= found ->
    0 <= PointSetMinTree.lastLess l i position value found.
Proof.
  induction l as [|v l IH]; intros i position value found Hi Hf; simpl; auto.
  apply IH; [lia|]. destruct ((i <=? position) && (v <? value)); lia.
Qed.

Lemma rightMostLessThan_found tr position value :
  0 <= position -> vget tr 0 < value -> tr <> [] ->
  0 <= PointSetMinTree.rightMostLessThan tr position value.
Proof.
  intros Hp Hv Hne. unfold PointSetMinTree.rightMostLessThan.
  destruct tr as [|v tr]; [congruence|]. simpl.
  unfold vget in Hv. simpl in Hv.
  destruct (Z.leb_spec 0 position); [|lia].
  destruct (Z.ltb_spec v value); [|lia]. simpl.
  apply lastLess_nonneg; lia.
Qed.

Lemma firstLess_found l :
  forall i n position value,
    0 <= i -> (n < length l)%nat -> nth n l 0 < value ->
    position <= i + Z.of_nat n ->
    0 <= PointSetMinTree.firstLess l i position value.
Proof.
  induction l as [|v l IH]; intros i n position value Hi Hn Hv Hp; simpl in *.
  - lia.
  - destruct ((position <=? i) && (v <? value)) eqn:Hc; [lia|].
    destruct n as [|n].
    + exfalso. apply andb_false_iff in Hc.
      destruct Hc as [Hc|Hc]; [apply Z.leb_gt in Hc | apply Z.ltb_ge in Hc]; lia.
    + apply (IH (i + 1) n); try lia.
Qed.

Lemma leftMostLessThan_found tr position value c :
  0 <= c -> position <= c -> (Z.to_nat c < length tr)%nat ->
  vget tr c < value ->
  0 <= PointSetMinTree.leftMostLessThan tr position value.
Proof.
  intros Hc Hp Hlen Hv. unfold PointSetMinTree.leftMostLessThan.
  apply (@firstLess_found tr 0 (Z.to_nat c)); try lia.
  unfold vget in Hv. destruct (Z.ltb_spec c 0); [lia | exact Hv].
Qed.

Lemma nth_repeat_lt {A : Type} (a d : A) m n :
  (n < m)%nat -> nth n (repeat a m) d = a.
Proof.
  revert n. induction m as [|m IH]; intros [|n] Hn; simpl; try lia; auto.
  apply IH. lia.
Qed.

Lemma make_sentinelsFree columns :
  1 <= columns ->
  sentinelsFree columns (PointSetMinTree.make (columns + 1) (-1)).
Proof.
  intros Hc. unfold sentinelsFree, PointSetMinTree.make, assign, vget.
  rewrite repeat_length. splits; auto.
  - simpl. apply nth_repeat_lt. lia.
  - destruct (Z.ltb_spec columns 0); [lia|]. apply nth_repeat_lt. lia.
Qed.

Lemma set_sentinelsFree columns tr pos v :
  sentinelsFree columns tr -> 1 <= pos <= columns - 1 ->
  sentinelsFree columns (PointSetMinTree.set tr pos v).
Proof.
  intros (Hlen & H0 & Hc) Hpos. unfold sentinelsFree, PointSetMinTree.set.
  rewrite length_vset, !vget_vset_other by lia. auto.
Qed.

Section Sentinels.
Variable st : LayoutState.
Hypothesis columns_ok : 1 <= columns st.
Hypothesis rows_ok : forall k, 0 <= row (grid_blocks st @ k).

Lemma chooseMainColumn_done tr em event :
    sentinelsFree (columns st) tr -> inGrid st (ev_blockId event) ->
    exists c, chooseMainColumn st tr em event = Done c.
  Proof.
    intros (Hlen & H0 & Hc) (Hcol0 & Hcol2). unfold chooseMainColumn.
    set (block := grid_blocks st @ ev_blockId event) in *.
    set (edge := nth (ev_edgeId event) (em @ ev_blockId event) dflt).
    set (targetBlock := grid_blocks st @ dest edge).
    set (topRow := Z.min (row block + 1) (row targetBlock)).
    assert (Htop : 0 <= topRow).
    { unfold topRow, block, targetBlock.
      pose proof (rows_ok (ev_blockId event)). pose proof (rows_ok (dest edge)).
      lia. }
    destruct (PointSetMinTree.valueAtPoint tr (col block + 1) <? topRow);
      [eexists; reflexivity|].
    destruct (PointSetMinTree.valueAtPoint tr (col targetBlock + 1) <? topRow);
      [eexists; reflexivity|].
    assert (Hne : tr <> []).
    { intros ->. simpl in Hlen. lia. }
    assert (HL : 0 <= PointSetMinTree.rightMostLessThan tr (col block + 1) topRow).
    { apply rightMostLessThan_found; auto; lia. }
    assert (HR : 0 <= PointSetMinTree.leftMostLessThan tr (col block + 1) topRow).
    { apply (@leftMostLessThan_found tr (col block + 1) topRow (columns st));
        try lia. }
    replace (negb (PointSetMinTree.rightMostLessThan tr (col block + 1) topRow =? -1)
             && negb (PointSetMinTree.leftMostLessThan tr (col block + 1) topRow =? -1))
      with true.
    - cbn [assert bind].
      repeat match goal with
             | |- exists c, (if ?b then _ else _) = Done c => destruct b
             end; eexists; reflexivity.
    - symmetry. apply andb_true_iff. split; apply negb_true_iff, Z.eqb_neq; lia.
  Qed.

Lemma processEvents_done events :
    forall tr em,
      sentinelsFree (columns st) tr ->
      Forall (fun e => inGrid st (ev_blockId e)) events ->
      exists r, processEvents st (tr, em) events = Done r /\
                sentinelsFree (columns st) (fst r).
  Proof.
    induction events as [|e events IH]; intros tr em Htr Hall; simpl.
    - eexists. split; [reflexivity | exact Htr].
    - inversion Hall as [|? ? He Hall']; subst.
      unfold processEvent. destruct (ev_type e).
      + destruct (@chooseMainColumn_done tr em e Htr He) as (c & Hc).
        rewrite Hc. cbn [bind]. apply IH; auto.
      + cbn [bind]. apply IH; auto.
        apply set_sentinelsFree; auto. destruct He. lia.
  Qed.

Lemma createEvents_blocks e :
    In e (createEvents st) -> In (ev_blockId e) (UMap.keys (grid_blocks st)).
  Proof.
    unfold createEvents. intro He. apply in_flat_map in He.
    destruct He as (k & Hk & He). unfold blockEvents in He.
    destruct He as [<-|He]; [exact Hk|].
    apply in_map_iff in He. destruct He as (ie & <- & _). exact Hk.
  Qed.

  (** With every block inside the grid the assertion of the stage holds at
      every edge event. *)
Lemma calculateEdgeMainColumn_done :
    (forall k, In k (UMap.keys (grid_blocks st)) -> inGrid st k) ->
    exists st', calculateEdgeMainColumn st = Done st'.
  Proof.
    intros Hgrid. unfold calculateEdgeMainColumn.
    destruct (@processEvents_done (sort Event_lt (createEvents st))
                (PointSetMinTree.make (columns st + 1) (-1)) (edge st))
      as (r & Hr & _).
    - now apply make_sentinelsFree.
    - apply Forall_forall. intros e He. apply In_sort in He.
      apply Hgrid. now apply createEvents_blocks.
    - rewrite Hr. cbn [bind]. eexists. reflexivity.
  Qed.
End Sentinels.

(** ** What the placement leaves alone *)

Section FrameBy.
Context {T : Type} (proj : GridBlock -> T) (K : ut64 -> Prop).

Lemma Frame_refl g : FrameBy proj K g g.
  Proof. unfold FrameBy. splits; auto. Qed.

Lemma Frame_trans g1 g2 g3 :
    FrameBy proj K g1 g2 -> FrameBy proj K g2 g3 -> FrameBy proj K g1 g3.
  Proof.
    intros (Hs1 & Hk1 & Hm1) (Hs2 & Hk2 & Hm2). unfold FrameBy. splits.
    - intro k. now rewrite Hs2.
    - intros k Hk. destruct (Hk2 k Hk) as [H|H]; auto.
    - auto.
  Qed.

Lemma Frame_modify g k f :
    keeps proj f -> In k (UMap.keys g) \/ K k ->
    FrameBy proj K g (UMap.modify g k f).
  Proof.
    intros Hf Hk. unfold FrameBy. splits.
    - intro k'. rewrite at_modify. destruct (N.eqb_spec k' k) as [->|]; auto.
    - intros k' Hk'. apply in_keys_modify in Hk'.
      destruct Hk' as [->|Hk']; auto.
    - intros k' Hk'. apply in_keys_modify. now right.
  Qed.

Lemma Frame_touch g k :
    In k (UMap.keys g) \/ K k -> FrameBy proj K g (UMap.touch g k).
  Proof. intros Hk. apply Frame_modify; auto. intro b. reflexivity. Qed.

Lemma Frame_fold_left {A : Type}
      (step : UMap.t GridBlock -> A -> UMap.t GridBlock) l :
    forall g,
      (forall g' x, FrameBy proj K g g' -> In x l ->
                    FrameBy proj K g' (step g' x)) ->
      FrameBy proj K g (fold_left step l g).
  Proof.
    induction l as [|x l IH]; intros g Hstep; simpl; [apply Frame_refl|].
    assert (H1 : FrameBy proj K g (step g x)).
    { apply Hstep; [apply Frame_refl | now left]. }
    eapply Frame_trans; [exact H1|]. apply IH.
    intros g' y Hg' Hy. apply Hstep; [|now right].
    eapply Frame_trans; eauto.
  Qed.

Lemma Frame_proj g g' k : FrameBy proj K g g' -> proj (g' @ k) = proj (g @ k).
  Proof. intros (Hs & _). apply Hs. Qed.

Lemma Frame_keys g g' k :
    FrameBy proj K g g' -> In k (UMap.keys g) -> In k (UMap.keys g').
  Proof. intros (_ & _ & Hm). apply Hm. Qed.

Lemma Frame_new g g' k :
    FrameBy proj K g g' -> In k (UMap.keys g') -> In k (UMap.keys g) \/ K k.
  Proof. intros (_ & Hn & _). apply Hn. Qed.
End FrameBy.

Lemma Frame_tree K g g' k : Frame K g g' -> tree_edge (g' @ k) = tree_edge (g @ k).
Proof. intros (Hs & _). specialize (Hs k). unfold structure in Hs. congruence. Qed.

Lemma Frame_dag K g g' k : Frame K g g' -> dag_edge (g' @ k) = dag_edge (g @ k).
Proof. intros (Hs & _). specialize (Hs k). unfold structure in Hs. congruence. Qed.

Lemma Frame_row K g g' k : Frame K g g' -> row (g' @ k) = row (g @ k).
Proof. intros (Hs & _). specialize (Hs k). unfold structure in Hs. congruence. Qed.

Lemma in_keys_at {V : Type} `{Default V} (m : UMap.t V) k :
  In k (UMap.keys m) -> In (k, m @ k) m.
Proof.
  unfold UMap.keys, UMap.at_. induction m as [|[k0 v0] m IH]; simpl; [tauto|].
  intros [->|Hk].
  - rewrite N.eqb_refl. now left.
  - destruct (N.eqb_spec k k0) as [->|]; [now left | right; auto].
Qed.

Ltac keeps := intro; reflexivity.

(** *** findMergePoints *)

Lemma countGoingToMerge_range g mergeId tree :
  forall n w n' w',
    countGoingToMerge g mergeId tree n w = (n', w') ->
    0 <= n -> 0 <= w -> (w < n \/ (n = 0 /\ w = 0)) ->
    0 <= w' /\ (w' < n' \/ (n' = 0 /\ w' = 0)) /\ n' <= n + zlen tree.
Proof.
  unfold zlen.
  induction tree as [|e tree IH]; intros n w n' w' Heq Hn Hw Hwn; simpl in Heq.
  - inversion Heq; subst. simpl. lia.
  - match type of Heq with (if ?c then _ else _) = _ => destruct c end.
    + apply IH in Heq; try lia.
      * simpl length. lia.
      * destruct (zlen (tree_edge (g @ e)) =? 1); lia.
      * destruct (zlen (tree_edge (g @ e)) =? 1); lia.
    + inversion Heq; subst. simpl length. lia.
Qed.

Lemma findMergePoints_block_frame (K : ut64 -> Prop) g v :
  (forall b, In b (tree_edge (g @ v)) -> K b) ->
  Frame K g (findMergePoints_block g v).
Proof.
  intros HK. unfold findMergePoints_block.
  destruct (findGrandChild g (tree_edge (g @ v))) as [[m|] z];
    [|apply Frame_refl].
  destruct (z =? 1) eqn:Hz.
  2:{ destruct z as [|[p|p|]|p]; try apply Frame_refl. discriminate Hz. }
  apply Z.eqb_eq in Hz. subst z.
  destruct (countGoingToMerge g (id (g @ m)) (tree_edge (g @ v)) 0 0)
    as [n w] eqn:Hc.
  apply countGoingToMerge_range in Hc; try lia.
  destruct Hc as (Hw & Hwn & Hn).
  destruct (Z.eqb_spec n 0); [apply Frame_refl|].
  apply Frame_modify; [keeps|]. right. apply HK. apply nth_In.
  unfold zlen in Hn. lia.
Qed.

Lemma findMergePoints_frame (K : ut64 -> Prop) g :
  (forall a b, In b (tree_edge (g @ a)) -> K b) ->
  Frame K g (findMergePoints g).
Proof.
  intros HK. unfold findMergePoints. apply Frame_fold_left.
  intros g' v Hg' _. apply findMergePoints_block_frame.
  intros b Hb. rewrite (Frame_tree v Hg') in Hb. eauto.
Qed.

(** *** placeBlocks *)

Lemma placeChild_frame (K : ut64 -> Prop) cfg blockId s childId s' :
  placeChild cfg blockId s childId = Done s' ->
  K blockId -> K childId ->
  Frame K (s_grid s) (s_grid s').
Proof.
  unfold placeChild. intros Hrun Hb Hc.
  destruct (walkSides _ _ _) as [w| |]; try discriminate Hrun.
  cbn [bind] in Hrun.
  set (off := if tightSubtreePlacement cfg then minPos w
              else if negb (Nat.eqb (leftIt w) 0)
                   then maxLeftWidth w - leftPosition (s_grid s @ childId)
                   else rightPosition (s_grid s @ blockId) - minRightPos w) in *.
  set (g1 := UMap.modify (s_grid s) childId
               (fun c => with_col (col c + off) c)) in *.
  assert (F1 : Frame K (s_grid s) g1).
  { apply Frame_modify; [keeps | now right]. }
  destruct (negb (Nat.eqb (leftIt w) 0)).
  - destruct (append _ _ _) as [p r]. inversion Hrun; subst s'. simpl.
    eapply Frame_trans; [exact F1|]. apply Frame_modify; [keeps | now right].
  - destruct (negb (Nat.eqb (rightIt w) 0)).
    + destruct (append _ _ _) as [p l]. inversion Hrun; subst s'. simpl.
      eapply Frame_trans; [exact F1|].
      eapply Frame_trans; [|apply Frame_modify; [keeps | now right]].
      apply Frame_modify; [keeps | now right].
    + inversion Hrun; subst s'. simpl.
      eapply Frame_trans; [exact F1|]. apply Frame_modify; [keeps | now right].
Qed.

Lemma placeChildren_frame (K : ut64 -> Prop) cfg blockId children :
  forall s s',
    placeChildren cfg blockId s children = Done s' ->
    K blockId -> (forall c, In c children -> K c) ->
    Frame K (s_grid s) (s_grid s').
Proof.
  induction children as [|c cs IH]; intros s s' Hrun Hb Hc;
    cbn [placeChildren] in Hrun.
  - inversion Hrun; subst. apply Frame_refl.
  - destruct (placeChild cfg blockId s c) as [s1| |] eqn:H1;
      try discriminate Hrun.
    cbn [bind] in Hrun.
    eapply Frame_trans.
    + apply (@placeChild_frame K cfg blockId s c s1 H1); auto. apply Hc. now left.
    + apply (IH s1 s' Hrun); auto. intros x Hx. apply Hc. now right.
Qed.

Lemma placeBlock_frame (K : ut64 -> Prop) cfg g p blockId g' p' :
  placeBlock cfg (g, p) blockId = Done (g', p') ->
  K blockId -> (forall c, In c (tree_edge (g @ blockId)) -> K c) ->
  Frame K g g'.
Proof.
  unfold placeBlock. intros Hrun Hb Hc.
  assert (F0 : Frame K g (UMap.touch g blockId)) by (apply Frame_touch; auto).
  rewrite at_touch in Hrun.
  destruct (tree_edge (g @ blockId)) as [|first others] eqn:Htree.
  - inversion Hrun; subst.
    eapply Frame_trans; [exact F0|]. apply Frame_modify; [keeps | now right].
  - set (g1 := UMap.modify (UMap.touch g blockId) blockId _) in Hrun.
    assert (F1 : Frame K g g1).
    { eapply Frame_trans; [exact F0|]. apply Frame_modify; [keeps | now right]. }
    destruct (placeChildren cfg blockId _ others) as [s| |] eqn:Hch;
      try discriminate Hrun.
    cbn [bind] in Hrun.
    apply placeChildren_frame with (K := K) in Hch; auto.
    2:{ intros c Hx. apply Hc. now right. }
    cbn [s_grid] in Hch.
    assert (F2 : Frame K g (s_grid s)) by (eapply Frame_trans; eauto).
    destruct (makeList _ _) as [pl l0] in Hrun.
    destruct (append pl _ _) as [pl' l] in Hrun.
    destruct (makeList _ _) as [pr r0] in Hrun.
    destruct (append pr _ _) as [pr' r] in Hrun.
    inversion Hrun; subst g' p'. clear Hrun.
    set (g2 := UMap.modify (s_grid s) blockId _).
    assert (F3 : Frame K g g2).
    { eapply Frame_trans; [exact F2|]. apply Frame_modify; [keeps | now right]. }
    set (g3 := UMap.modify g2 blockId (with_leftSideShape l)).
    assert (F4 : Frame K g g3).
    { eapply Frame_trans; [exact F3|]. apply Frame_modify; [keeps | now right]. }
    set (g4 := UMap.modify g3 blockId (with_rightSideShape r)).
    assert (F5 : Frame K g g4).
    { eapply Frame_trans; [exact F4|]. apply Frame_modify; [keeps | now right]. }
    eapply Frame_trans; [exact F5|].
    apply Frame_fold_left. intros gx x Fx Hx.
    apply Frame_modify; [keeps|]. right. apply Hc.
    rewrite (Frame_tree blockId F5), Htree in Hx. exact Hx.
Qed.

Lemma placeBlocks_frame (K : ut64 -> Prop) cfg order :
  forall g p g' p',
    placeBlocks cfg (g, p) order = Done (g', p') ->
    (forall b, In b order -> K b) ->
    (forall a c, In c (tree_edge (g @ a)) -> K c) ->
    Frame K g g'.
Proof.
  induction order as [|b bs IH]; intros g p g' p' Hrun Hb Hc;
    cbn [placeBlocks] in Hrun.
  - inversion Hrun; subst. apply Frame_refl.
  - destruct (placeBlock cfg (g, p) b) as [[g1 p1]| |] eqn:H1;
      try discriminate Hrun.
    cbn [bind] in Hrun.
    assert (F1 : Frame K g g1).
    { eapply placeBlock_frame; eauto. apply Hb. now left. }
    eapply Frame_trans; [exact F1|].
    apply (IH g1 p1 g' p' Hrun).
    + intros x Hx. apply Hb. now right.
    + intros a c Hx. rewrite (Frame_tree a F1) in Hx. eauto.
Qed.

(** *** placeRoots *)

Lemma placeRoots_frame (K : ut64 -> Prop) g : Frame K g (placeRoots g).
Proof.
  unfold placeRoots.
  assert (Hgen : forall ks g0 n,
            incl ks (UMap.keys g) -> Frame K g g0 ->
            Frame K g (fst (fold_left placeRoot ks (g0, n)))).
  { induction ks as [|k ks IH]; intros g0 n Hks F0;
      cbn [fold_left fst]; [exact F0|].
    unfold placeRoot at 2.
    assert (Hks' : incl ks (UMap.keys g)) by (intros x Hx; apply Hks; now right).
    destruct (row (g0 @ k) =? 0); [|now apply IH].
    apply IH; [exact Hks'|].
    eapply Frame_trans; [exact F0|]. apply Frame_modify; [keeps|].
    left. apply (Frame_keys k F0), Hks. now left. }
  apply Hgen; [apply incl_refl | apply Frame_refl].
Qed.

(** *** absoluteBlocks *)

Lemma absolute_children_spec (K : ut64 -> Prop) v l :
  forall g,
    (forall c, In c l -> K c) ->
    let g' := fold_left
                (fun g childId =>
                   UMap.modify g childId
                     (fun c => with_col (col c + col (g @ v)) c))
                l g in
    Frame K g g' /\ (forall k, ~ In k l -> g' @ k = g @ k).
Proof.
  induction l as [|c l IH]; intros g HK; simpl.
  - split; [apply Frame_refl | auto].
  - destruct (IH (UMap.modify g c (fun c0 => with_col (col c0 + col (g @ v)) c0)))
      as (F & Hsame).
    + intros x Hx. apply HK. now right.
    + split.
      * eapply Frame_trans; [|exact F]. apply Frame_modify; [keeps|].
        right. apply HK. now left.
      * intros k Hk. rewrite Hsame by tauto.
        apply at_modify_other. intros ->. tauto.
Qed.

(** The blocks are walked from the roots down; every block that passed the
    assertion keeps its column. *)
Lemma absoluteBlocks_spec (K : ut64 -> Prop) L :
  forall g g',
    absoluteBlocks g L = Done g' ->
    NoDup L -> topoRev (fun k => tree_edge (g @ k)) L ->
    (forall v, In v L -> K v) ->
    Frame K g g' /\
    (forall v, In v L -> 0 <= col (g' @ v)) /\
    (forall k, (forall a, In a L -> ~ In k (tree_edge (g @ a))) ->
               col (g' @ k) = col (g @ k)).
Proof.
  induction L as [|v L IH]; intros g g' Hrun Hnd Htopo HK; simpl in Hrun.
  - inversion Hrun; subst. splits; [apply Frame_refl | intros v [] | auto].
  - unfold absoluteBlock in Hrun. rewrite !at_touch in Hrun.
    destruct (0 <=? col (g @ v)) eqn:Hcol; [|discriminate Hrun].
    cbn [assert bind] in Hrun. apply Z.leb_le in Hcol.
    inversion Hnd as [|? ? Hnin Hnd']; subst.
    assert (Hch : forall c, In c (tree_edge (g @ v)) -> In c L).
    { intros c Hc. apply (Htopo [] v L eq_refl c Hc). }
    destruct (@absolute_children_spec K v (tree_edge (g @ v)) (UMap.touch g v))
      as (F1 & Hsame1).
    { intros c Hc. apply HK. right. now apply Hch. }
    set (g1 := fold_left _ (tree_edge (g @ v)) (UMap.touch g v)) in *.
    assert (F01 : Frame K g g1).
    { eapply Frame_trans; [|exact F1]. apply Frame_touch. right.
      apply HK. now left. }
    assert (Htopo1 : topoRev (fun k => tree_edge (g1 @ k)) L).
    { intros l1 a l2 Heq b Hb. rewrite (Frame_tree a F01) in Hb.
      apply (Htopo (v :: l1) a l2); auto. rewrite Heq. reflexivity. }
    destruct (IH g1 g' Hrun Hnd' Htopo1 ltac:(intros; apply HK; now right))
      as (F & Hpos & Hsame).
    assert (Hnot : forall a, In a L -> ~ In v (tree_edge (g1 @ a))).
    { intros a Ha Hx. rewrite (Frame_tree a F01) in Hx.
      apply in_split in Ha. destruct Ha as (l1 & l2 & ->).
      assert (Hv2 : In v l2) by (apply (Htopo (v :: l1) a l2 eq_refl v Hx)).
      apply Hnin. apply in_or_app. right. now right. }
    splits.
    + eapply Frame_trans; eauto.
    + intros x [<-|Hx]; [|now apply Hpos].
      rewrite (Hsame v Hnot). rewrite Hsame1, at_touch; [exact Hcol|].
      intro Hx. apply Hnin. now apply Hch.
    + intros k Hk. rewrite Hsame.
      * rewrite Hsame1, at_touch; [reflexivity|]. apply Hk. now left.
      * intros a Ha. rewrite (Frame_tree a F01). apply Hk. now right.
Qed.

(** *** Keys written by assignRows and selectTree *)

Lemma assignRows_block_frame (K : ut64 -> Prop) g v :
  K v -> (forall b, In b (dag_edge (g @ v)) -> K b) ->
  FrameBy dag_edge K g (assignRows_block g v).
Proof.
  intros Hv Hd. unfold assignRows_block. rewrite !at_touch.
  apply (Frame_trans (g2 := UMap.touch g v)); [apply Frame_touch; now right|].
  apply Frame_fold_left. intros g' t _ Ht.
  apply Frame_modify; [keeps|]. right. auto.
Qed.

Lemma assignRows_frame (K : ut64 -> Prop) g order :
  (forall v, In v order -> K v) ->
  (forall a b, In b (dag_edge (g @ a)) -> K b) ->
  FrameBy dag_edge K g (assignRows g order).
Proof.
  intros Hv Hd. unfold assignRows. apply Frame_fold_left.
  intros g' v F Hin. apply assignRows_block_frame.
  - apply Hv. now apply in_rev.
  - intros b Hb. rewrite (Frame_proj v F) in Hb. eauto.
Qed.

Lemma selectTree_edge_frame (K : ut64 -> Prop) v g t :
  In v (UMap.keys g) \/ K v -> K t ->
  FrameBy dag_edge K g (selectTree_edge v g t).
Proof.
  intros Hv Ht. unfold selectTree_edge.
  assert (F0 : FrameBy dag_edge K g (UMap.touch g t))
    by (apply Frame_touch; now right).
  destruct (_ && _); [|exact F0].
  eapply Frame_trans; [exact F0|].
  eapply Frame_trans; [|apply Frame_modify; [keeps | now right]].
  apply Frame_modify; [keeps|].
  destruct Hv as [Hv|Hv]; [left | now right].
  now apply (Frame_keys v F0).
Qed.

Lemma selectTree_frame (K : ut64 -> Prop) g :
  (forall a b, In b (dag_edge (g @ a)) -> K b) ->
  FrameBy dag_edge K g (selectTree g).
Proof.
  intros Hd. unfold selectTree. apply Frame_fold_left.
  intros g1 v F1 Hv. unfold selectTree_block.
  apply Frame_fold_left. intros g2 t F2 Ht.
  apply selectTree_edge_frame.
  - left. apply (Frame_keys v F2), (Frame_keys v F1), Hv.
  - rewrite (Frame_proj v F1) in Ht. eauto.
Qed.

Lemma keys_initGridBlocks bs k :
  In k (UMap.keys (initGridBlocks bs)) -> In k (UMap.keys bs).
Proof.
  unfold initGridBlocks.
  assert (Hgen : forall ks (g : UMap.t GridBlock),
            In k (UMap.keys (fold_left (fun g k => UMap.set g k (with_id k dflt))
                               ks g)) ->
            In k (UMap.keys g) \/ In k ks).
  { induction ks as [|k0 ks IH]; intros g Hk; simpl in Hk; [now left|].
    apply IH in Hk. destruct Hk as [Hk|Hk]; [|right; now right].
    unfold UMap.set in Hk. apply in_keys_modify in Hk.
    destruct Hk as [->|Hk]; [right; now left | now left]. }
  intro Hk. apply Hgen in Hk. destruct Hk as [[]|Hk]. exact Hk.
Qed.

(** ** Columns and rows after the placement *)

Lemma placement_in_grid cfg bs entry st order g2 :
  TopoSorted (initialState bs) entry st order ->
  computeAllBlockPlacement cfg order (grid_blocks st) = Done g2 ->
  (forall k, 0 <= col (g2 @ k)) /\ (forall k, 0 <= row (g2 @ k)).
Proof.
  intros TS Hrun. unfold computeAllBlockPlacement in Hrun.
  set (g1 := grid_blocks st) in *.
  set (K := fun k => In k order).
  assert (Hkeys1 : forall k, In k (UMap.keys g1) -> In k order).
  { intros k Hk. destruct (ts_gridkeys TS k Hk) as [Hk'|Hk']; [|exact Hk'].
    apply (ts_blocks_in TS). now apply keys_initGridBlocks. }
  assert (Hdag1 : forall a b, In b (dag_edge (g1 @ a)) -> K b).
  { intros a b Hb. apply (@topoOrdered_in g1 order a b (ts_topo TS)); auto.
    apply (ts_dag_in TS). intro Hn. fold g1 in Hn. rewrite Hn in Hb.
    destruct Hb. }
  set (gA := assignRows g1 order) in *.
  assert (FA : FrameBy dag_edge K g1 gA)
    by (apply assignRows_frame; auto).
  destruct (rows_after_assignRows TS) as (_ & HrowA & _). fold g1 gA in HrowA.
  set (gB := selectTree gA) in *.
  assert (HdagA : forall a b, In b (dag_edge (gA @ a)) -> K b).
  { intros a b Hb. rewrite (Frame_proj a FA) in Hb. eauto. }
  assert (FB : FrameBy dag_edge K gA gB) by (apply selectTree_frame; auto).
  destruct (tree_after_selectTree TS) as (TB & HfB). fold g1 gA gB in TB, HfB.
  assert (HtreeB : forall a b, In b (tree_edge (gB @ a)) -> K b).
  { intros a b Hb. apply (tree_dag TB) in Hb.
    rewrite (Frame_proj a FB) in Hb. eauto. }
  assert (HkeysB : forall k, In k (UMap.keys gB) -> In k order).
  { intros k Hk. destruct (Frame_new k FB Hk) as [Hk'|Hk']; [|exact Hk'].
    destruct (Frame_new k FA Hk') as [Hk''|Hk'']; auto. }
  set (gC := findMergePoints gB) in *.
  assert (FC : Frame K gB gC) by (apply findMergePoints_frame; auto).
  destruct (placeBlocks cfg (gC, newPool) order) as [[gD pD]| |] eqn:HD;
    try discriminate Hrun.
  cbn [bind fst] in Hrun.
  assert (FD : Frame K gC gD).
  { eapply placeBlocks_frame; [exact HD | auto |].
    intros a c Hc. rewrite (Frame_tree a FC) in Hc. eauto. }
  set (gE := placeRoots gD) in *.
  assert (FE : Frame K gD gE) by apply placeRoots_frame.
  assert (FBE : Frame K gB gE).
  { eapply Frame_trans; [exact FC|]. eapply Frame_trans; eauto. }
  assert (Htopo : topoRev (fun k => tree_edge (gE @ k)) (rev order)).
  { intros l1 a l2 Heq b Hb.
    apply (topoRev_of_ordered (ts_topo TS) l1 a l2 Heq).
    rewrite (Frame_tree a FBE) in Hb. apply (tree_dag TB) in Hb.
    rewrite (Frame_proj a FB), (Frame_proj a FA) in Hb. exact Hb. }
  destruct (@absoluteBlocks_spec K (rev order) gE g2 Hrun
              (NoDup_rev (ts_nodup TS)) Htopo)
    as (F2 & Hpos & _).
  { intros v Hv. unfold K. now apply in_rev. }
  assert (FB2 : Frame K gB g2) by (eapply Frame_trans; eauto).
  split.
  - intro k. destruct (in_dec N.eq_dec k order) as [Hk|Hk].
    + apply Hpos. now apply -> in_rev.
    + rewrite at_in_keys; [simpl; lia|].
      intro Hin. destruct (Frame_new k FB2 Hin) as [Hk'|Hk']; auto.
  - intro k. rewrite (Frame_row k FB2).
    replace (row (gB @ k)) with (row (gA @ k)); [apply HrowA|].
    symmetry. apply (forgetTree_fields (HfB k)).
Qed.

Lemma countEdges_frame em g :
  FrameBy (fun b => (col b, row b)) (fun _ => True) g (countEdges em g).
Proof.
  unfold countEdges. apply Frame_fold_left. intros g1 kl F1 _.
  match goal with
  | |- FrameBy _ _ _ (fold_left _ _ ?g0) => apply (Frame_trans (g2 := g0))
  end.
  - apply Frame_modify; [keeps | now right].
  - apply Frame_fold_left. intros g2 e F2 _.
    apply Frame_modify; [keeps | now right].
Qed.

Lemma gridSize_spec g :
  1 <= snd (gridSize g) /\
  forall kb, In kb g -> size_t_plus (col (snd kb)) 2 <= snd (gridSize g).
Proof.
  unfold gridSize.
  assert (Hgen : forall l rc,
            snd rc <= snd (fold_left
                             (fun (rc : Z * Z) (kb : ut64 * GridBlock) =>
                                (Z.max (fst rc) (size_t_plus (row (snd kb)) 1),
                                 Z.max (snd rc) (size_t_plus (col (snd kb)) 2)))
                             l rc) /\
            forall kb, In kb l ->
              size_t_plus (col (snd kb)) 2
              <= snd (fold_left
                        (fun (rc : Z * Z) (kb : ut64 * GridBlock) =>
                           (Z.max (fst rc) (size_t_plus (row (snd kb)) 1),
                            Z.max (snd rc) (size_t_plus (col (snd kb)) 2)))
                        l rc)).
  { induction l as [|kb l IH]; intros rc; simpl.
    - split; [lia | intros kb []].
    - destruct (IH (Z.max (fst rc) (size_t_plus (row (snd kb)) 1),
                    Z.max (snd rc) (size_t_plus (col (snd kb)) 2)))
        as (Hle & Hall).
      simpl in Hle. split; [lia|].
      intros kb' [<-|Hin]; [lia | now apply Hall]. }
  destruct (Hgen g (1, 1)) as (Hle & Hall). simpl in Hle. auto.
Qed.

(** Every block of the state that [CalculateLayout] hands to [routeEdges]
    lies inside the grid. *)
Lemma prepareLayout_in_grid cfg bs entry st :
  prepareLayout cfg bs entry = Done st ->
  1 <= columns st /\
  (forall k, 0 <= row (grid_blocks st @ k)) /\
  (forall k, In k (UMap.keys (grid_blocks st)) -> inGrid st k).
Proof.
  unfold prepareLayout. intro Hrun.
  destruct (topoSort_initial bs entry) as (st1 & order & Hts & TS & _).
  rewrite Hts in Hrun. cbn [bind] in Hrun.
  destruct (computeAllBlockPlacement cfg order (grid_blocks st1))
    as [g2| |] eqn:Hplace; try discriminate Hrun.
  cbn [bind] in Hrun.
  destruct (@placement_in_grid cfg bs entry st1 order g2 TS Hplace)
    as (Hcol & Hrow).
  cbn [grid_blocks with_grid_blocks with_edge edge blocks] in Hrun.
  set (em := initEdges (blocks st1)) in *.
  set (g3 := countEdges em g2) in *.
  destruct (gridSize_spec g3) as (Hc1 & Hcall).
  destruct (gridSize g3) as [r c] eqn:Hsize.
  inversion Hrun; subst st. clear Hrun.
  pose proof (countEdges_frame em g2) as F3. fold g3 in F3.
  assert (Hcol3 : forall k, col (g3 @ k) = col (g2 @ k)).
  { intro k. pose proof (Frame_proj k F3) as H. simpl in H. congruence. }
  assert (Hrow3 : forall k, row (g3 @ k) = row (g2 @ k)).
  { intro k. pose proof (Frame_proj k F3) as H. simpl in H. congruence. }
  simpl in Hc1, Hcall. unfold initWidths.
  match goal with
  | |- context [fold_left ?f ?l ?a] => destruct (fold_left f l a) as [rh cw]
  end.
  unfold inGrid. cbn. splits.
  - exact Hc1.
  - intro k. rewrite Hrow3. apply Hrow.
  - intros k Hk. rewrite Hcol3. split; [apply Hcol|].
    apply in_keys_at in Hk. specialize (Hcall _ Hk). cbn [snd] in Hcall.
    unfold size_t_plus in Hcall. rewrite Hcol3 in Hcall.
    specialize (Hcol k). destruct (Z.ltb_spec (col (g2 @ k)) 0); lia.
Qed.

(** C8. In every run that reaches the selection of main columns, every
    block has 0 <= col <= columns - 2, so block events mark columns 1 to
    columns - 1 only, columns 0 and [columns] stay free, and the assertion
    that a free column exists on either side holds at every edge event: the
    stage returns. *)
Theorem edge_main_column_sentinels :
  forall cfg bs entry st,
    prepareLayout cfg bs entry = Done st ->
    (forall k, In k (UMap.keys (grid_blocks st)) ->
               0 <= col (grid_blocks st @ k) <= columns st - 2) /\
    exists st', calculateEdgeMainColumn st = Done st'.
Proof.
  intros cfg bs entry st Hrun.
  destruct (@prepareLayout_in_grid cfg bs entry st Hrun) as (Hc & Hrow & Hgrid).
  split.
  - intros k Hk. destruct (Hgrid k Hk). lia.
  - now apply calculateEdgeMainColumn_done.
Qed.

Lemma edge_main_column_sentinels_witness :
  exists st,
    prepareLayout (cfg10 Medium) E4 1%N = Done st /\
    exists st', calculateEdgeMainColumn st = Done st'.
Proof.
  destruct (prepareLayout (cfg10 Medium) E4 1%N) as [st| |] eqn:H;
    [|vm_compute in H; discriminate H|vm_compute in H; discriminate H].
  exists st. split; [reflexivity|].
  exact (proj2 (@edge_main_column_sentinels (cfg10 Medium) E4 1%N st H)).
Defined.

(** ** Failures *)

Create HintDb assert_only.

Lemma assertOnly_bind {A B : Type} (m : Outcome A) (f : A -> Outcome B) :
  assertOnly m -> (forall a, assertOnly (f a)) -> assertOnly (bind m f).
Proof. destruct m; simpl; auto. Qed.

Lemma assertOnly_assert b : assertOnly (assert b).
Proof. destruct b; simpl; auto. Qed.

#[export] Hint Resolve assertOnly_assert : assert_only.

Ltac assert_only :=
  repeat first
    [ exact I
    | solve [auto with assert_only]
    | apply assertOnly_bind; [|intros ?]
    | match goal with
      | |- assertOnly (match ?x with _ => _ end) => destruct x
      end ].

Lemma dfsLoop_assertOnly fuel : forall s, assertOnly (dfsLoop fuel s).
Proof.
  induction fuel as [|fuel IH]; intros s; simpl; destruct (stack s); simpl; auto.
Qed.

#[export] Hint Resolve dfsLoop_assertOnly : assert_only.

Lemma dfsRest_assertOnly fuel ks : forall s, assertOnly (dfsRest fuel ks s).
Proof.
  induction ks as [|k ks IH]; intros s; simpl; [exact I|].
  destruct (_ @ k); auto.
  apply assertOnly_bind; auto. unfold dfsFragment. auto with assert_only.
Qed.

#[export] Hint Resolve dfsRest_assertOnly : assert_only.

Lemma topoSort_assertOnly st entry : assertOnly (topoSort st entry).
Proof. unfold topoSort, dfsFragment. assert_only. Qed.

Lemma walkSides_assertOnly fuel p : forall w, assertOnly (walkSides fuel p w).
Proof.
  induction fuel as [|fuel IH]; intros w; simpl;
    destruct (_ || _); simpl; auto.
Qed.

#[export] Hint Resolve topoSort_assertOnly walkSides_assertOnly : assert_only.

Lemma placeChild_assertOnly cfg b s c : assertOnly (placeChild cfg b s c).
Proof. unfold placeChild. assert_only. Qed.

#[export] Hint Resolve placeChild_assertOnly : assert_only.

Lemma placeChildren_assertOnly cfg b cs : forall s,
  assertOnly (placeChildren cfg b s cs).
Proof. induction cs as [|c cs IH]; intros s; simpl; assert_only. Qed.

#[export] Hint Resolve placeChildren_assertOnly : assert_only.

Lemma placeBlock_assertOnly cfg gp b : assertOnly (placeBlock cfg gp b).
Proof. unfold placeBlock. destruct gp as [g p]. assert_only. Qed.

#[export] Hint Resolve placeBlock_assertOnly : assert_only.

Lemma placeBlocks_assertOnly cfg order : forall gp,
  assertOnly (placeBlocks cfg gp order).
Proof.
  induction order as [|b bs IH]; intros gp; cbn [placeBlocks]; assert_only.
Qed.

Lemma absoluteBlocks_assertOnly order : forall g,
  assertOnly (absoluteBlocks g order).
Proof.
  induction order as [|b bs IH]; intros g; cbn [absoluteBlocks];
    unfold absoluteBlock; assert_only.
Qed.

#[export] Hint Resolve placeBlocks_assertOnly absoluteBlocks_assertOnly
  : assert_only.

Lemma computeAllBlockPlacement_assertOnly cfg order g :
  assertOnly (computeAllBlockPlacement cfg order g).
Proof. unfold computeAllBlockPlacement. assert_only. Qed.

#[export] Hint Resolve computeAllBlockPlacement_assertOnly : assert_only.

Lemma prepareLayout_assertOnly cfg bs entry :
  assertOnly (prepareLayout cfg bs entry).
Proof. unfold prepareLayout. assert_only. Qed.

Lemma chooseMainColumn_assertOnly st tr em e :
  assertOnly (chooseMainColumn st tr em e).
Proof. unfold chooseMainColumn. assert_only. Qed.

#[export] Hint Resolve prepareLayout_assertOnly chooseMainColumn_assertOnly
  : assert_only.

Lemma processEvents_assertOnly st events : forall acc,
  assertOnly (processEvents st acc events).
Proof.
  induction events as [|e es IH]; intros acc; cbn [processEvents];
    unfold processEvent; assert_only.
Qed.

#[export] Hint Resolve processEvents_assertOnly : assert_only.

Lemma calculateColumnOffsets_assertOnly cw ecw :
  assertOnly (calculateColumnOffsets cw ecw).
Proof. unfold calculateColumnOffsets. assert_only. Qed.

Lemma compressCoordinates_assertOnly segs ls rs :
  assertOnly (compressCoordinates segs ls rs).
Proof. unfold compressCoordinates. assert_only. Qed.

#[export] Hint Resolve calculateColumnOffsets_assertOnly
  compressCoordinates_assertOnly : assert_only.

Lemma routeEdges_assertOnly cfg st : assertOnly (routeEdges cfg st).
Proof.
  unfold routeEdges, calculateEdgeMainColumn, elaborateEdgePlacement.
  assert_only.
Qed.

Lemma convertToPixelCoordinates_assertOnly cfg st :
  assertOnly (convertToPixelCoordinates cfg st).
Proof. unfold convertToPixelCoordinates. assert_only. Qed.

#[export] Hint Resolve routeEdges_assertOnly
  convertToPixelCoordinates_assertOnly : assert_only.

Lemma CalculateLayout_assertOnly cfg bs entry :
  assertOnly (CalculateLayout cfg bs entry).
Proof. unfold CalculateLayout. assert_only. Qed.

(** ** The layout is a function of the input view *)



























Lemma elaborateEdgePlacement_halves cfg st :
  elaborateEdgePlacement cfg st =
  r <- verticalPlacement cfg st ;; horizontalPlacement cfg (fst r) (snd r).
Proof.
  unfold elaborateEdgePlacement, verticalPlacement.
  destruct (calculateSegmentOffsets _ _ _ _ _ _ _ _) as [[segs eo] ecw].
  destruct (calculateColumnOffsets _ _) as [[[co eco] w]| |]; reflexivity.
Qed.





(** The block map between the two loops of [convertToPixelCoordinates]:
    clearing the outputs before the first loop clears the edges only. *)
Lemma at_map_snd {V W : Type} `{Default V} `{Default W} (f : V -> W)
    (m : UMap.t V) k :
  f dflt = dflt ->
  map (fun kb : ut64 * V => (fst kb, f (snd kb))) m @ k = f (m @ k).
Proof.
  intros Hd. unfold UMap.at_.
  induction m as [|[k' b] m IH]; [cbn; symmetry; exact Hd|].
  cbn. destruct (N.eqb k k'); [reflexivity|exact IH].
Qed.







(** * Further properties of the stages *)

(** ** topoSort *)

(** X1. For every input, the dag edges that the depth-first search keeps are
    edges of the input, none of them is a self loop, and [blockOrder] lists
    the target of each before its source: the kept edges form a directed
    acyclic graph of which [blockOrder] is a reverse topological order. *)
Theorem topoSort_reverse_topological : forall bs entry,
  exists st order,
    topoSort (initialState bs) entry = Done (st, order) /\
    forall a b,
      In b (dag_edge (grid_blocks st @ a)) ->
      In b (targetsOf bs a) /\ a <> b /\
      exists l1 l2, order = l1 ++ a :: l2 /\ In b l1.
Proof.
  intros bs entry.
  destruct (topoSort_initial bs entry) as (st & order & Hrun & TS & _).
  exists st, order. split; [exact Hrun|].
  intros a b Hb.
  assert (Ha : In a order).
  { apply (ts_dag_in TS). intro Hn. rewrite Hn in Hb. destruct Hb. }
  apply in_split in Ha. destruct Ha as (l1 & l2 & Ho).
  pose proof (ts_topo TS l1 a l2 Ho b Hb) as Hb1.
  split; [exact (ts_dag_edges TS a b Hb)|]. split.
  - intros <-. pose proof (ts_nodup TS) as Hnd. rewrite Ho in Hnd.
    apply NoDup_remove_2 in Hnd. apply Hnd. apply in_or_app. now left.
  - now exists l1, l2.
Qed.

(** X2. For every input, also one whose edges name ids that are no blocks,
    [topoSort] leaves every input block as it is and writes nothing but the
    [dag_edge] lists of the grid blocks; the ids that [operator[]] adds to
    the block map are those of [blockOrder], which are the entry, the input
    ids and targets of input edges. *)
Theorem topoSort_writes_dag_edges_only : forall bs entry,
  exists st order,
    topoSort (initialState bs) entry = Done (st, order) /\
    (forall k, blocks st @ k = bs @ k) /\
    (forall k, forgetDag (grid_blocks st @ k)
               = forgetDag (initGridBlocks bs @ k)) /\
    (forall k, In k (UMap.keys (blocks st)) <->
               In k (UMap.keys bs) \/ In k order) /\
    (forall k, In k order ->
               k = entry \/ In k (UMap.keys bs) \/ In k (allTargets bs)).
Proof.
  intros bs entry.
  destruct (topoSort_initial bs entry) as (st & order & Hrun & TS & _).
  exists st, order. split; [exact Hrun|].
  split; [exact (ts_blocks TS)|]. split; [exact (ts_frame TS)|].
  split; [exact (ts_blockkeys TS)|].
  intros k Hk. apply (ts_universe TS) in Hk. unfold universe in Hk.
  apply nodup_In in Hk. cbn [blocks initialState] in Hk.
  destruct Hk as [Hk|Hk]; [now left|]. right. now apply in_app_or in Hk.
Qed.

(** ** assignRows *)

Lemma assignRows_list_tight dag L :
  forall g,
    NoDup L -> topoRev dag L ->
    (forall k, dag_edge (g @ k) = dag k) ->
    let g' := fold_left assignRows_block L g in
    forall k,
      row (g' @ k) = row (g @ k) \/
      exists a, In a L /\ In k (dag a) /\ row (g' @ k) = row (g' @ a) + 1.
Proof.
  induction L as [|v L IH]; intros g Hnd Htopo Hdag; simpl; [now left|].
  destruct (assignRows_block_spec g v) as (Hf1 & Hin1 & Hout1).
  set (g1 := assignRows_block g v) in *.
  assert (Hdag1 : forall k, dag_edge (g1 @ k) = dag k).
  { intro k. rewrite <- Hdag. apply forgetRow_dag, Hf1. }
  inversion Hnd as [|? ? Hnin Hnd']; subst.
  pose proof (IH g1 Hnd' (topoRev_tail Htopo) Hdag1) as Htight.
  destruct (@assignRows_list dag L g1 Hnd' (topoRev_tail Htopo) Hdag1)
    as (_ & _ & Hsame & _).
  cbn zeta in Htight, Hsame.
  set (g' := fold_left assignRows_block L g1) in *.
  assert (Hvdag : forall b, In b (dag v) -> In b L)
    by (intros b Hb; exact (Htopo [] v L eq_refl b Hb)).
  assert (Hv : row (g' @ v) = row (g @ v)).
  { rewrite Hsame.
    - apply Hout1. rewrite Hdag. intro Hb. apply Hnin. now apply Hvdag.
    - intros a Ha Hb. apply in_split in Ha. destruct Ha as (l1 & l2 & ->).
      pose proof (Htopo (v :: l1) a l2 eq_refl v Hb) as Hin.
      apply Hnin. apply in_or_app. right. now right. }
  intro k. destruct (Htight k) as [Heq|(a & Ha & Hk & Hr)].
  - destruct (in_dec N.eq_dec k (dag_edge (g @ v))) as [Hk|Hk].
    + rewrite Heq, (Hin1 k Hk).
      destruct (Z.max_spec (row (g @ k)) (row (g @ v) + 1)) as [[_ Hm]|[_ Hm]].
      * right. exists v. rewrite Hdag in Hk. rewrite Hv.
        split; [now left|]. split; [exact Hk|]. lia.
      * left. lia.
    + left. rewrite Heq. now apply Hout1.
  - right. exists a. split; [now right|]. now split.
Qed.

(** X3. After row assignment every row is the length of a longest path of
    dag edges that ends at the block: the row is not negative; it is at
    least one more than the row of every dag predecessor; and it is 0 or
    exactly one more than the row of some dag predecessor. *)
Theorem assignRows_longest_path : forall bs entry,
  exists st order,
    topoSort (initialState bs) entry = Done (st, order) /\
    let g := assignRows (grid_blocks st) order in
    forall k,
      0 <= row (g @ k) /\
      (forall a, In k (dag_edge (g @ a)) -> row (g @ a) + 1 <= row (g @ k)) /\
      (row (g @ k) = 0 \/
       exists a, In k (dag_edge (g @ a)) /\ row (g @ k) = row (g @ a) + 1).
Proof.
  intros bs entry.
  destruct (topoSort_initial bs entry) as (st & order & Hrun & TS & _).
  exists st, order. split; [exact Hrun|]. intros g k.
  destruct (rows_after_assignRows TS) as (Hf & Hpos & Hedge).
  fold g in Hf, Hpos, Hedge.
  split; [apply Hpos|]. split; [intros a Ha; now apply Hedge|].
  assert (Hrow0 : row (grid_blocks st @ k) = 0).
  { pose proof (ts_frame TS k) as H.
    apply (f_equal row) in H. simpl in H. rewrite H.
    apply initGridBlocks_fields. }
  pose proof (@assignRows_list_tight (fun k => dag_edge (grid_blocks st @ k))
                (rev order) (grid_blocks st) (NoDup_rev (ts_nodup TS))
                (topoRev_of_ordered (ts_topo TS)) (fun k => eq_refl) k) as Ht.
  cbn zeta in Ht. fold (assignRows (grid_blocks st) order) in Ht. fold g in Ht.
  destruct Ht as [Heq|(a & _ & Hk & Hr)]; [left; congruence|].
  right. exists a. split; [|exact Hr].
  rewrite (forgetRow_dag (Hf a)). exact Hk.
Qed.

(** ** selectTree *)

(** What one step of the inner loop of [selectTree] does to the parent marks
    and to the tree edges. *)
Lemma selectTree_edge_parent v g t :
  let g' := selectTree_edge v g t in
  (forall k, has_parent (g @ k) = true -> has_parent (g' @ k) = true) /\
  (forall a b, In b (tree_edge (g @ a)) -> In b (tree_edge (g' @ a))) /\
  (forall b, has_parent (g' @ b) = true ->
             has_parent (g @ b) = true \/ In b (tree_edge (g' @ v))) /\
  (row (g @ t) = row (g @ v) + 1 -> has_parent (g' @ t) = true) /\
  (forall k, row (g' @ k) = row (g @ k)) /\
  (forall k, dag_edge (g' @ k) = dag_edge (g @ k)).
Proof.
  unfold selectTree_edge. rewrite !at_touch.
  destruct (negb (has_parent (g @ t)) && (row (g @ t) =? row (g @ v) + 1))
    eqn:Hc.
  - set (g' := UMap.modify (UMap.modify (UMap.touch g t) v (push_tree t)) t
                 (with_has_parent true)).
    assert (Htree : forall k, tree_edge (g' @ k) =
                              if N.eqb k v then tree_edge (g @ v) ++ [t]
                              else tree_edge (g @ k)).
    { intro k. unfold g'. rewrite !at_modify, !at_touch.
      destruct (N.eqb_spec k t) as [->|Hkt]; simpl;
        destruct (N.eqb_spec t v) as [->|Htv]; try reflexivity;
        destruct (N.eqb_spec k v) as [->|Hkv]; try reflexivity;
        rewrite ?N.eqb_refl; simpl; try reflexivity; congruence. }
    assert (Hpar : forall k, has_parent (g' @ k) =
                             if N.eqb k t then true else has_parent (g @ k)).
    { intro k. unfold g'. rewrite !at_modify, !at_touch.
      destruct (N.eqb_spec k t) as [->|Hkt]; simpl; [reflexivity|].
      destruct (N.eqb_spec k v) as [->|Hkv]; reflexivity. }
    splits.
    + intros k Hk. rewrite Hpar. destruct (N.eqb k t); auto.
    + intros a b Hb. rewrite Htree. destruct (N.eqb_spec a v) as [->|]; auto.
      apply in_or_app. now left.
    + intros b Hb. rewrite Hpar in Hb.
      destruct (N.eqb_spec b t) as [Hbt|]; [|now left].
      right. rewrite Hbt, Htree, N.eqb_refl. apply in_or_app. right. now left.
    + intros _. rewrite Hpar, N.eqb_refl. reflexivity.
    + intro k. unfold g'. rewrite !at_modify, !at_touch.
      destruct (N.eqb_spec k t) as [Hkt|Hkt]; simpl.
      * rewrite Hkt.
        destruct (N.eqb_spec t v) as [Htv|Htv]; [rewrite Htv|]; reflexivity.
      * destruct (N.eqb_spec k v) as [Hkv|Hkv]; [rewrite Hkv|]; reflexivity.
    + intro k. unfold g'. rewrite !at_modify, !at_touch.
      destruct (N.eqb_spec k t) as [Hkt|Hkt]; simpl.
      * rewrite Hkt.
        destruct (N.eqb_spec t v) as [Htv|Htv]; [rewrite Htv|]; reflexivity.
      * destruct (N.eqb_spec k v) as [Hkv|Hkv]; [rewrite Hkv|]; reflexivity.
  - splits; intros; rewrite ?at_touch in *; auto.
    apply andb_false_iff in Hc. destruct Hc as [Hc|Hc].
    + apply negb_false_iff in Hc. exact Hc.
    + apply Z.eqb_neq in Hc. contradiction.
Qed.

(** The marks and the tree edges agree: a block is marked when it is the
    tree child of some block. *)
Lemma selectTree_edges_parent v l :
  forall g,
    (forall b, has_parent (g @ b) = true -> exists a, In b (tree_edge (g @ a))) ->
    let g' := fold_left (selectTree_edge v) l g in
    (forall k, has_parent (g @ k) = true -> has_parent (g' @ k) = true) /\
    (forall a b, In b (tree_edge (g @ a)) -> In b (tree_edge (g' @ a))) /\
    (forall b, has_parent (g' @ b) = true ->
               exists a, In b (tree_edge (g' @ a))) /\
    (forall t, In t l -> row (g @ t) = row (g @ v) + 1 ->
               has_parent (g' @ t) = true) /\
    (forall k, row (g' @ k) = row (g @ k)) /\
    (forall k, dag_edge (g' @ k) = dag_edge (g @ k)).
Proof.
  induction l as [|t l IH]; intros g P; simpl.
  - splits; auto; try (intros ? []).
  - destruct (selectTree_edge_parent v g t)
      as (Hm1 & Ht1 & Hp1 & Hc1 & Hr1 & Hd1).
    set (g1 := selectTree_edge v g t) in *.
    assert (P1 : forall b, has_parent (g1 @ b) = true ->
                           exists a, In b (tree_edge (g1 @ a))).
    { intros b Hb. destruct (Hp1 b Hb) as [Hold|Hnew]; [|eauto].
      destruct (P b Hold) as (a & Ha). eauto. }
    destruct (IH g1 P1) as (Hm & Ht & Hp & Hc & Hr & Hd).
    splits; auto.
    + intros x [<-|Hx] Hrow; [apply Hm; auto|].
      apply Hc; [exact Hx|]. now rewrite !Hr1.
    + intro k. now rewrite Hr.
    + intro k. now rewrite Hd.
Qed.

Lemma selectTree_blocks_parent ks :
  forall g,
    (forall b, has_parent (g @ b) = true -> exists a, In b (tree_edge (g @ a))) ->
    let g' := fold_left selectTree_block ks g in
    (forall k, has_parent (g @ k) = true -> has_parent (g' @ k) = true) /\
    (forall b, has_parent (g' @ b) = true ->
               exists a, In b (tree_edge (g' @ a))) /\
    (forall a t, In a ks -> In t (dag_edge (g @ a)) ->
                 row (g @ t) = row (g @ a) + 1 -> has_parent (g' @ t) = true) /\
    (forall k, row (g' @ k) = row (g @ k)) /\
    (forall k, dag_edge (g' @ k) = dag_edge (g @ k)).
Proof.
  induction ks as [|v ks IH]; intros g P; simpl.
  - splits; auto; try (intros ? ? []).
  - unfold selectTree_block at 2.
    destruct (@selectTree_edges_parent v (dag_edge (g @ v)) g P)
      as (Hm1 & _ & P1 & Hc1 & Hr1 & Hd1).
    set (g1 := fold_left (selectTree_edge v) (dag_edge (g @ v)) g) in *.
    destruct (IH g1 P1) as (Hm & Hp & Hc & Hr & Hd).
    splits; auto.
    + intros a t [<-|Ha] Ht Hrow; [apply Hm; auto|].
      apply (Hc a t Ha); [now rewrite Hd1 | now rewrite !Hr1].
    + intro k. now rewrite Hr.
    + intro k. now rewrite Hd.
Qed.

Lemma dag_edge_in_keys (g : UMap.t GridBlock) a :
  dag_edge (g @ a) <> [] -> In a (UMap.keys g).
Proof.
  intros Hne. destruct (in_dec N.eq_dec a (UMap.keys g)) as [Hin|Hin]; auto.
  exfalso. apply Hne. now rewrite (at_in_keys g a Hin).
Qed.

(** X4. After [selectTree] the tree edges form a forest over the dag whose
    roots are the blocks of row 0: every tree edge is a dag edge; a block is
    marked [has_parent] exactly when its row is positive; and every block
    of positive row is the tree child of some block, a block of row 0 of
    none. *)
Theorem selectTree_roots_are_row_zero : forall bs entry,
  exists st order,
    topoSort (initialState bs) entry = Done (st, order) /\
    let g := selectTree (assignRows (grid_blocks st) order) in
    (forall a b, In b (tree_edge (g @ a)) -> In b (dag_edge (g @ a))) /\
    (forall b, has_parent (g @ b) = true <-> 0 < row (g @ b)) /\
    (forall b, 0 < row (g @ b) <-> exists a, In b (tree_edge (g @ a))).
Proof.
  intros bs entry.
  destruct (topoSort_initial bs entry) as (st & order & Hrun & TS & _).
  exists st, order. split; [exact Hrun|]. intros g.
  set (g1 := assignRows (grid_blocks st) order) in *.
  destruct (tree_after_selectTree TS) as (T & Hft). fold g1 g in T, Hft.
  destruct (rows_after_assignRows TS) as (Hf & Hpos & Hedge).
  fold g1 in Hf, Hpos, Hedge.
  assert (Hpar0 : forall b, has_parent (g1 @ b) = false).
  { intro b. pose proof (Hf b) as H1. apply (f_equal has_parent) in H1.
    simpl in H1. rewrite H1.
    pose proof (ts_frame TS b) as H2. apply (f_equal has_parent) in H2.
    simpl in H2. rewrite H2. apply initGridBlocks_fields. }
  destruct (@selectTree_blocks_parent (UMap.keys g1) g1)
    as (_ & Hp & Hc & Hr & Hd).
  { intros b Hb. rewrite Hpar0 in Hb. discriminate Hb. }
  fold (selectTree g1) in Hp, Hc, Hr, Hd. fold g in Hp, Hc, Hr, Hd.
  assert (Hchild : forall b, (exists a, In b (tree_edge (g @ a))) ->
                             0 < row (g @ b)).
  { intros b (a & Ha). rewrite (tree_row T a b Ha).
    rewrite Hr. specialize (Hpos a). lia. }
  assert (Hmark : forall b, 0 < row (g @ b) -> has_parent (g @ b) = true).
  { intros b Hb. rewrite Hr in Hb.
    pose proof (@assignRows_list_tight
                  (fun k => dag_edge (grid_blocks st @ k))
                  (rev order) (grid_blocks st) (NoDup_rev (ts_nodup TS))
                  (topoRev_of_ordered (ts_topo TS)) (fun k => eq_refl) b) as Ht.
    cbn zeta in Ht. fold (assignRows (grid_blocks st) order) in Ht.
    fold g1 in Ht.
    assert (Hrow0 : row (grid_blocks st @ b) = 0).
    { pose proof (ts_frame TS b) as H.
      apply (f_equal row) in H. simpl in H. rewrite H.
      apply initGridBlocks_fields. }
    destruct Ht as [Heq|(a & _ & Hk & Hrow)]; [lia|].
    rewrite <- (forgetRow_dag (Hf a)) in Hk.
    apply (Hc a b); auto.
    apply dag_edge_in_keys. intro Hn. rewrite Hn in Hk. destruct Hk. }
  splits.
  - apply (tree_dag T).
  - intro b. split; [|apply Hmark]. intro Hb. apply Hchild. now apply Hp.
  - intro b. split; [|apply Hchild]. intro Hb. apply Hp. now apply Hmark.
Qed.

(** ** Root positions *)

Lemma placeRoots_fold g ks :
  forall g0 n,
    NoDup ks ->
    (forall k, with_col 0 (g0 @ k) = with_col 0 (g @ k)) ->
    (forall k, In k ks -> col (g0 @ k) = col (g @ k)) ->
    let r := fold_left placeRoot ks (g0, n) in
    (forall k, with_col 0 (fst r @ k) = with_col 0 (g @ k)) /\
    (forall k, ~ In k ks -> col (fst r @ k) = col (g0 @ k)) /\
    (forall l1 q l2,
       ks = l1 ++ q :: l2 ->
       col (fst r @ q) =
       if row (g @ q) =? 0
       then col (g @ q)
            + (fold_left
                 (fun acc k =>
                    if row (g @ k) =? 0
                    then rightPosition (g @ k) - leftPosition (g @ k)
                    else acc) l1 n
               - leftPosition (g @ q))
       else col (g @ q)).
Proof.
  induction ks as [|k ks IH]; intros g0 n Hnd Hsame Hcol; cbn [fold_left].
  - cbn [fst]. splits; auto. intros [|? ?] q l2 Heq; discriminate Heq.
  - inversion Hnd as [|? ? Hnin Hnd']; subst.
    assert (Hf : forall k', row (g0 @ k') = row (g @ k')
                            /\ leftPosition (g0 @ k') = leftPosition (g @ k')
                            /\ rightPosition (g0 @ k') = rightPosition (g @ k')).
    { intro k'. pose proof (Hsame k') as H. splits.
      - apply (f_equal row) in H. exact H.
      - apply (f_equal leftPosition) in H. exact H.
      - apply (f_equal rightPosition) in H. exact H. }
    destruct (Hf k) as (Hrk & Hlk & Hrtk).
    assert (Hstep : placeRoot (g0, n) k =
                    if row (g @ k) =? 0
                    then (UMap.modify g0 k
                            (with_col (col (g0 @ k)
                                       + (n + - leftPosition (g @ k)))),
                          rightPosition (g @ k) + - leftPosition (g @ k))
                    else (g0, n))
      by (unfold placeRoot; rewrite Hrk, Hlk, Hrtk; reflexivity).
    rewrite Hstep. clear Hstep.
    destruct (row (g @ k) =? 0) eqn:Hroot.
    + set (g1 := UMap.modify g0 k
                   (with_col (col (g0 @ k) + (n + - leftPosition (g @ k))))).
      assert (Hsame1 : forall k', with_col 0 (g1 @ k') = with_col 0 (g @ k')).
      { intro k'. unfold g1. rewrite at_modify.
        destruct (N.eqb_spec k' k) as [Hk|Hk]; [rewrite Hk|]; simpl;
          rewrite <- Hsame; reflexivity. }
      assert (Hcol1 : forall k', In k' ks -> col (g1 @ k') = col (g @ k')).
      { intros k' Hk'. unfold g1. rewrite at_modify_other.
        - apply Hcol. now right.
        - intros ->. contradiction. }
      destruct (IH g1 (rightPosition (g @ k) + - leftPosition (g @ k))
                  Hnd' Hsame1 Hcol1) as (H1 & H2 & H3).
      splits; [exact H1| |].
      * intros k' Hk'. rewrite H2 by (intro; apply Hk'; now right).
        unfold g1. rewrite at_modify_other; [reflexivity|].
        intros ->. apply Hk'. now left.
      * intros [|k0 l1] q l2 Heq; inversion Heq; subst.
        -- rewrite H2 by assumption. unfold g1. rewrite at_modify_same.
           cbn [fold_left col with_col]. rewrite Hroot.
           rewrite (Hcol q) by now left. lia.
        -- rewrite (H3 l1 q l2 eq_refl). cbn [fold_left]. rewrite Hroot.
           replace (rightPosition (g @ k0) + - leftPosition (g @ k0))
             with (rightPosition (g @ k0) - leftPosition (g @ k0)) by lia.
           reflexivity.
    + assert (Hcol1 : forall k', In k' ks -> col (g0 @ k') = col (g @ k'))
        by (intros k' Hk'; apply Hcol; now right).
      destruct (IH g0 n Hnd' Hsame Hcol1) as (H1 & H2 & H3).
      splits; [exact H1| |].
      * intros k' Hk'. apply H2. intro. apply Hk'. now right.
      * intros [|k0 l1] q l2 Heq; inversion Heq; subst.
        -- rewrite H2 by assumption. rewrite Hroot. apply Hcol. now left.
        -- rewrite (H3 l1 q l2 eq_refl). cbn [fold_left]. rewrite Hroot.
           reflexivity.
Qed.

Lemma fold_left_no_root (g : UMap.t GridBlock) l : forall n,
  (forall k, In k l -> row (g @ k) <> 0) ->
  fold_left
    (fun acc k =>
       if row (g @ k) =? 0
       then rightPosition (g @ k) - leftPosition (g @ k)
       else acc) l n = n.
Proof.
  induction l as [|k l IH]; intros n Hl; cbn [fold_left]; [reflexivity|].
  destruct (Z.eqb_spec (row (g @ k)) 0) as [Hk|Hk].
  - exfalso. apply (Hl k); [now left | exact Hk].
  - apply IH. intros k' Hk'. apply Hl. now right.
Qed.

(** X5. The loop that places the roots changes nothing but [col], and only
    of blocks of row 0.  The first root in iteration order is shifted by
    minus its [leftPosition]; every later root is shifted by the width
    ([rightPosition - leftPosition]) of the one root before it in iteration
    order, not by the widths of all the roots before it. *)
Theorem placeRoots_offsets : forall g,
  NoDup (UMap.keys g) ->
  let g' := placeRoots g in
  (forall k, with_col 0 (g' @ k) = with_col 0 (g @ k)) /\
  (forall k, row (g @ k) <> 0 -> col (g' @ k) = col (g @ k)) /\
  (forall l1 q l2,
     UMap.keys g = l1 ++ q :: l2 ->
     (forall k, In k l1 -> row (g @ k) <> 0) -> row (g @ q) = 0 ->
     col (g' @ q) = col (g @ q) - leftPosition (g @ q)) /\
  (forall l1 p l2 q l3,
     UMap.keys g = l1 ++ p :: l2 ++ q :: l3 ->
     row (g @ p) = 0 ->
     (forall k, In k l2 -> row (g @ k) <> 0) -> row (g @ q) = 0 ->
     col (g' @ q) =
     col (g @ q) + (rightPosition (g @ p) - leftPosition (g @ p))
     - leftPosition (g @ q)).
Proof.
  intros g Hnd g'. unfold g', placeRoots.
  destruct (@placeRoots_fold g (UMap.keys g) g 0 Hnd (fun k => eq_refl)
              (fun k _ => eq_refl)) as (H1 & H2 & H3).
  splits; [exact H1| | |].
  - intros k Hk. destruct (in_dec N.eq_dec k (UMap.keys g)) as [Hin|Hin].
    + apply in_split in Hin. destruct Hin as (l1 & l2 & Heq).
      rewrite (H3 l1 k l2 Heq).
      destruct (Z.eqb_spec (row (g @ k)) 0); [contradiction|reflexivity].
    + now apply H2.
  - intros l1 q l2 Heq Hl1 Hq. rewrite (H3 l1 q l2 Heq), Hq. cbn [Z.eqb].
    rewrite (fold_left_no_root g l1 0 Hl1). lia.
  - intros l1 p l2 q l3 Heq Hp Hl2 Hq.
    rewrite (H3 (l1 ++ p :: l2) q l3)
      by (rewrite Heq, <- app_assoc; reflexivity).
    rewrite Hq. cbn [Z.eqb]. rewrite fold_left_app. cbn [fold_left].
    rewrite Hp. cbn [Z.eqb]. rewrite (fold_left_no_root g l2 _ Hl2). lia.
Qed.

Lemma placeRoots_offsets_witness :
  NoDup (UMap.keys threeRoots) /\
  col (placeRoots threeRoots @ 2%N) = 2 /\
  col (placeRoots threeRoots @ 3%N) = 2.
Proof.
  assert (Hnd : NoDup (UMap.keys threeRoots)).
  { cbn. repeat constructor; cbn; intuition discriminate. }
  split; [exact Hnd|].
  destruct (@placeRoots_offsets threeRoots Hnd) as (_ & _ & _ & H).
  split.
  - exact (H [] 1%N [] 2%N [3%N] eq_refl eq_refl (fun k (F : In k []) => match F with end)
             eq_refl).
  - exact (H [1%N] 2%N [] 3%N [] eq_refl eq_refl (fun k (F : In k []) => match F with end)
             eq_refl).
Defined.

(** ** Edge counts *)

Lemma countEdges_inner l : forall (g : UMap.t GridBlock) k,
  let g' := fold_left
              (fun g e =>
                 UMap.modify g (dest e)
                   (fun b => with_inputCount (inputCount b + 1) b)) l g in
  outputCount (g' @ k) = outputCount (g @ k) /\
  inputCount (g' @ k)
  = inputCount (g @ k) + Z.of_nat (count_occ N.eq_dec (map dest l) k).
Proof.
  induction l as [|e l IH]; intros g k; cbn [fold_left map count_occ].
  - split; [reflexivity|]. cbn. lia.
  - destruct (IH (UMap.modify g (dest e)
                    (fun b => with_inputCount (inputCount b + 1) b)) k)
      as (Ho & Hi).
    cbn zeta in Ho, Hi. rewrite Ho, Hi, at_modify.
    destruct (N.eq_dec (dest e) k) as [Hk|Hk].
    + rewrite Hk, N.eqb_refl. cbn [outputCount inputCount with_inputCount].
      split; [reflexivity|]. lia.
    + destruct (N.eqb_spec k (dest e)) as [Hk'|_]; [congruence|].
      split; [reflexivity|]. lia.
Qed.

Lemma countEdges_list em : forall (g : UMap.t GridBlock) k,
  outputCount (countEdges em g @ k)
  = outputCount (g @ k) + Z.of_nat (count_occ N.eq_dec (UMap.keys em) k) /\
  inputCount (countEdges em g @ k)
  = inputCount (g @ k)
    + Z.of_nat (count_occ N.eq_dec
                  (flat_map (fun kl : ut64 * list GridEdge =>
                               map dest (snd kl)) em) k).
Proof.
  unfold countEdges.
  induction em as [|[v l] em IH]; intros g k;
    cbn [fold_left UMap.keys map flat_map count_occ fst snd].
  - split; cbn; lia.
  - match goal with
    | |- context [fold_left _ em ?g1] => destruct (IH g1 k) as (Ho & Hi)
    end.
    rewrite Ho, Hi. clear Ho Hi IH.
    destruct (countEdges_inner l
                (UMap.modify g v
                   (fun b => with_outputCount (outputCount b + 1) b)) k)
      as (Ho & Hi).
    cbn zeta in Ho, Hi. rewrite Ho, Hi, at_modify.
    rewrite count_occ_app. unfold UMap.keys.
    rewrite ?Nat2Z.inj_succ, ?Nat2Z.inj_add.
    destruct (N.eq_dec v k) as [Hk|Hk].
    + rewrite Hk, N.eqb_refl.
      cbn [outputCount inputCount with_outputCount].
      unfold ut64. split; lia.
    + destruct (N.eqb_spec k v) as [Hk'|_]; [congruence|].
      unfold ut64. split; lia.
Qed.

Lemma modify_absent {V : Type} `{Default V} (m : UMap.t V) k f :
  ~ In k (UMap.keys m) -> UMap.modify m k f = m ++ [(k, f dflt)].
Proof.
  unfold UMap.keys. induction m as [|[k0 v0] m IH]; simpl; [reflexivity|].
  intros Hin. destruct (N.eqb_spec k k0) as [->|Hk]; [tauto|].
  f_equal. apply IH. tauto.
Qed.

(** With unique ids, [layoutState.edge] lists the blocks in their order. *)
Lemma initEdges_unique bs :
  NoDup (UMap.keys bs) ->
  initEdges bs =
  map (fun kb : ut64 * GraphBlock =>
         (fst kb, map (fun e => mkGridEdge (target e) (-1) [] 0)
                    (edges (snd kb)))) bs.
Proof.
  unfold initEdges. intros Hnd.
  assert (Hgen : forall l (acc : UMap.t (list GridEdge)),
            NoDup (UMap.keys l) ->
            (forall k, In k (UMap.keys l) -> ~ In k (UMap.keys acc)) ->
            fold_left
              (fun em (kb : ut64 * GraphBlock) =>
                 UMap.set em (fst kb)
                   (map (fun e => mkGridEdge (target e) (-1) [] 0)
                      (edges (snd kb)))) l acc
            = acc ++ map (fun kb : ut64 * GraphBlock =>
                            (fst kb,
                             map (fun e => mkGridEdge (target e) (-1) [] 0)
                               (edges (snd kb)))) l).
  { induction l as [|[k b] l IH]; intros acc Hl Hd; cbn [fold_left map].
    - now rewrite app_nil_r.
    - cbn [UMap.keys map fst] in Hl. inversion Hl as [|? ? Hnin Hl']; subst.
      unfold UMap.set at 2. cbn [fst snd].
      rewrite modify_absent by (apply Hd; now left).
      rewrite IH; [now rewrite <- app_assoc | exact Hl' |].
      intros k' Hk' Hin. unfold UMap.keys in Hin. rewrite map_app in Hin.
      apply in_app_or in Hin. destruct Hin as [Hin|[<-|[]]].
      + apply (Hd k'); [now right | exact Hin].
      + contradiction. }
  rewrite (Hgen bs [] Hnd); [reflexivity|]. intros k _ [].
Qed.

(** X6. The loop of [CalculateLayout] that counts the edges adds one to
    [outputCount] of every input block, whatever the number of its edges
    (none included), and adds to [inputCount] of every id the number of
    input edges that name it as their target. *)
Theorem countEdges_counts : forall bs g k,
  NoDup (UMap.keys bs) ->
  outputCount (countEdges (initEdges bs) g @ k)
  = outputCount (g @ k)
    + (if in_dec N.eq_dec k (UMap.keys bs) then 1 else 0) /\
  inputCount (countEdges (initEdges bs) g @ k)
  = inputCount (g @ k) + Z.of_nat (count_occ N.eq_dec (allTargets bs) k).
Proof.
  intros bs g k Hnd.
  destruct (countEdges_list (initEdges bs) g k) as (Ho & Hi).
  rewrite Ho, Hi, (@initEdges_unique bs Hnd). split.
  - f_equal.
    match goal with
    | |- context [UMap.keys (map ?F bs)] =>
        replace (UMap.keys (map F bs)) with (UMap.keys bs)
          by (unfold UMap.keys; rewrite map_map; reflexivity)
    end.
    destruct (in_dec N.eq_dec k (UMap.keys bs)) as [Hin|Hin].
    + apply (NoDup_count_occ' N.eq_dec) in Hin; [|exact Hnd].
      rewrite Hin. reflexivity.
    + apply (count_occ_not_In N.eq_dec) in Hin. rewrite Hin. reflexivity.
  - do 3 f_equal. unfold allTargets. rewrite flat_map_concat_map, map_map.
    rewrite flat_map_concat_map. f_equal. apply map_ext. intros [k' b].
    cbn [snd]. rewrite map_map. reflexivity.
Qed.

Lemma countEdges_counts_witness :
  NoDup (UMap.keys fanOut) /\
  outputCount (countEdges (initEdges fanOut) (initGridBlocks fanOut) @ 1%N) = 1 /\
  inputCount (countEdges (initEdges fanOut) (initGridBlocks fanOut) @ 2%N) = 1.
Proof.
  assert (Hnd : NoDup (UMap.keys fanOut)).
  { cbn. repeat constructor; cbn; intuition discriminate. }
  split; [exact Hnd|]. split.
  - exact (proj1 (@countEdges_counts fanOut (initGridBlocks fanOut) 1%N Hnd)).
  - exact (proj2 (@countEdges_counts fanOut (initGridBlocks fanOut) 2%N Hnd)).
Defined.

(** ** Rough routing *)

(** The shape of the path of one edge. *)
Lemma routeEdge_shape cfg bs source tgt e :
  points e = [] ->
  let e' := routeEdge cfg bs source tgt e in
  (length (points e') = 2 \/ length (points e') = 4
   \/ length (points e') = 6)%nat /\
  alternating true (points e') /\
  (forall p, In p (points e') -> offset p = 0) /\
  dest e' = dest e /\ mainColumn e' = mainColumn e /\
  secondaryPriority e'
  = 2 * pathLength (points e')
    + (if row source <=? row tgt then 1 else 0).
Proof.
  destruct e as [d mc ps sp]. intros He e'. subst e'.
  simpl in He. subst ps.
  unfold routeEdge, routePoints, addPoint; simpl.
  destruct (mc =? col source + 1) eqn:Hs; simpl;
    destruct (col tgt + 1 =? mc) eqn:Ht; simpl;
    rewrite ?Hs, ?Ht; simpl;
    repeat split; auto; try lia;
    try (apply Z.eqb_eq in Hs); try (apply Z.eqb_eq in Ht); try lia;
    intros p Hp; repeat (destruct Hp as [<-|Hp]; [reflexivity|]);
    destruct Hp.
Qed.

(** X7. The grid path that [roughRouting] gives an edge is made of vertical
    and horizontal steps in turn, the first step vertical: consecutive
    points keep the column, then the row, then the column, and so on.
    Every offset is still 0, and the secondary priority is twice the length
    of the path plus one when the edge does not go upwards. *)
Theorem roughRouting_path_alternates :
  forall cfg bs source tgt e,
    points e = [] ->
    let e' := routeEdge cfg bs source tgt e in
    alternating true (points e') /\
    (forall p, In p (points e') -> offset p = 0) /\
    dest e' = dest e /\ mainColumn e' = mainColumn e /\
    secondaryPriority e'
    = 2 * pathLength (points e')
      + (if row source <=? row tgt then 1 else 0).
Proof.
  intros cfg bs source tgt e He.
  exact (proj2 (@routeEdge_shape cfg bs source tgt e He)).
Qed.

(** The back edge 2->1 of example E4, as [roughRouting] meets it. *)
Lemma roughRouting_path_alternates_witness :
  exists st0 st1 e,
    prepareLayout (cfg10 Medium) E4 1%N = Done st0 /\
    calculateEdgeMainColumn st0 = Done st1 /\
    nth_error (edge st1 @ 2%N) 0 = Some e /\
    points e = [] /\
    alternating true
      (points (routeEdge (cfg10 Medium) (blocks st1) (grid_blocks st1 @ 2%N)
                 (grid_blocks st1 @ dest e) e)).
Proof.
  eexists _, _, _.
  split; [vm_compute; reflexivity|].
  split; [vm_compute; reflexivity|].
  split; [vm_compute; reflexivity|].
  match goal with
  | |- points ?e = [] /\ _ => assert (Hp : points e = []) by reflexivity
  end.
  split; [exact Hp|].
  match goal with
  | |- alternating true (points (routeEdge ?c ?b ?s ?t ?e)) =>
      exact (proj1 (@roughRouting_path_alternates c b s t e Hp))
  end.
Defined.

(** ** Polylines *)

Lemma map_back_single {A : Type} (f : A -> A) a : map_back f [a] = [f a].
Proof. reflexivity. Qed.

Lemma map_back_snoc {A : Type} (f : A -> A) l a :
  map_back f (l ++ [a]) = l ++ [f a].
Proof.
  unfold map_back. rewrite rev_app_distr. cbn [rev app map_front].
  rewrite rev_involutive. reflexivity.
Qed.

Lemma map_back_cons {A : Type} (f : A -> A) a l :
  l <> [] -> map_back f (a :: l) = a :: map_back f l.
Proof.
  intros Hl. destruct (exists_last Hl) as (l' & b & ->).
  rewrite app_comm_cons, !map_back_snoc. reflexivity.
Qed.

Lemma length_map_back {A : Type} (f : A -> A) l :
  length (map_back f l) = length l.
Proof.
  destruct l as [|a l] using rev_ind; [reflexivity|].
  rewrite map_back_snoc, !length_app. reflexivity.
Qed.

(** Moving the last point along the direction of the next step and adding
    a point on that line keeps the path rectilinear. *)
Lemma rectilinear_snoc f q : forall poly v,
  poly <> [] -> rectilinear v poly ->
  (forall p, if xorb v (Nat.even (length poly))
             then snd (f p) = snd p /\ fst (f p) = fst q
             else fst (f p) = fst p /\ snd (f p) = snd q) ->
  rectilinear v (map_back f poly ++ [q]).
Proof.
  induction poly as [|p poly IH]; intros v Hne Hrect Hf; [congruence|].
  destruct poly as [|p' rest].
  - rewrite map_back_single. cbn [app rectilinear]. split; [|exact I].
    specialize (Hf p). cbn in Hf. destruct v; cbn in Hf; tauto.
  - rewrite map_back_cons by discriminate.
    destruct Hrect as (Hstep & Hrect).
    assert (IH' : rectilinear (negb v) (map_back f (p' :: rest) ++ [q])).
    { apply IH; [discriminate | exact Hrect |].
      intro p0. specialize (Hf p0).
      change (length (p :: p' :: rest)) with (S (length (p' :: rest))) in Hf.
      rewrite Nat.even_succ, <- Nat.negb_even in Hf.
      destruct v, (Nat.even (length (p' :: rest))); cbn in Hf |- *; exact Hf. }
    destruct rest as [|p'' rest].
    + rewrite map_back_single in IH' |- *. cbn [app rectilinear] in IH' |- *.
      split; [|exact IH'].
      specialize (Hf p'). cbn in Hf.
      destruct v; cbn in Hf; destruct Hf as (Hk & _); rewrite Hk; exact Hstep.
    + rewrite map_back_cons in IH' |- * by discriminate.
      cbn [app rectilinear] in IH' |- *. split; [exact Hstep | exact IH'].
Qed.

Lemma tracePolyline_rectilinear st pts : forall vertical poly,
  poly <> [] -> rectilinear true poly ->
  vertical = Nat.odd (length poly) ->
  let r := tracePolyline st vertical pts poly in
  rectilinear true r /\
  length r = (length poly + length pts)%nat /\
  (pts <> [] -> snd (hd (0, 0) r) = snd (hd (0, 0) poly)).
Proof.
  induction pts as [|p pts IH]; intros vertical poly Hne Hrect Hv;
    cbn [tracePolyline].
  - cbn. split; [exact Hrect|]. split; [lia | congruence].
  - assert (Hlen : forall f (q : Z * Z),
              length (map_back f poly ++ [q]) = S (length poly))
      by (intros; rewrite length_app, length_map_back; cbn; lia).
    assert (Hhd : forall f (q : Z * Z),
              (forall a, snd (f a) = snd a) \/ (2 <= length poly)%nat ->
              snd (hd (0, 0) (map_back f poly ++ [q]))
              = snd (hd (0, 0) poly)).
    { intros f q Hcase. destruct poly as [|a [|b l]]; [congruence| |].
      - rewrite map_back_single. cbn. destruct Hcase as [Hf|Hl]; [apply Hf|].
        cbn in Hl. lia.
      - rewrite map_back_cons by discriminate. reflexivity. }
    destruct vertical.
    + match goal with
      | |- context [tracePolyline st false pts ?poly'] =>
          destruct (IH false poly') as (H1 & H2 & H3)
      end.
      * intro Hn. apply (f_equal (@length _)) in Hn. rewrite Hlen in Hn.
        discriminate Hn.
      * apply rectilinear_snoc; [exact Hne | exact Hrect|].
        intro a. rewrite <- Nat.negb_odd, <- Hv. cbn. tauto.
      * rewrite Hlen, Nat.odd_succ, <- Nat.negb_odd, <- Hv. reflexivity.
      * cbn zeta in H1, H2, H3. split; [exact H1|]. split.
        -- rewrite H2, Hlen. cbn. lia.
        -- intros _. destruct pts as [|p' pts'].
           ++ cbn [tracePolyline]. apply Hhd. left. intro a. reflexivity.
           ++ rewrite H3 by discriminate. apply Hhd. left. intro a.
              reflexivity.
    + match goal with
      | |- context [tracePolyline st true pts ?poly'] =>
          destruct (IH true poly') as (H1 & H2 & H3)
      end.
      * intro Hn. apply (f_equal (@length _)) in Hn. rewrite Hlen in Hn.
        discriminate Hn.
      * apply rectilinear_snoc; [exact Hne | exact Hrect|].
        intro a. rewrite <- Nat.negb_odd, <- Hv. cbn. tauto.
      * rewrite Hlen, Nat.odd_succ, <- Nat.negb_odd, <- Hv. reflexivity.
      * cbn zeta in H1, H2, H3. split; [exact H1|]. split.
        -- rewrite H2, Hlen. cbn. lia.
        -- assert (Hl2 : (2 <= length poly)%nat).
           { destruct poly as [|a [|b l]]; [congruence| |cbn; lia].
             cbn in Hv. discriminate Hv. }
           intros _. destruct pts as [|p' pts'].
           ++ cbn [tracePolyline]. apply Hhd. now right.
           ++ rewrite H3 by discriminate. apply Hhd. now right.
Qed.

Lemma rectilinear_map_back f : forall poly v,
  rectilinear v poly ->
  (forall p, if xorb v (Nat.odd (length poly))
             then fst (f p) = fst p else snd (f p) = snd p) ->
  rectilinear v (map_back f poly).
Proof.
  induction poly as [|p poly IH]; intros v Hrect Hf; [exact I|].
  destruct poly as [|p' rest]; [exact I|].
  rewrite map_back_cons by discriminate.
  destruct Hrect as (Hstep & Hrect).
  assert (IH' : rectilinear (negb v) (map_back f (p' :: rest))).
  { apply IH; [exact Hrect|]. intro p0. specialize (Hf p0).
    change (length (p :: p' :: rest)) with (S (length (p' :: rest))) in Hf.
    rewrite Nat.odd_succ, <- Nat.negb_odd in Hf.
    destruct v, (Nat.odd (length (p' :: rest))); cbn in Hf |- *; exact Hf. }
  destruct rest as [|p'' rest].
  - rewrite map_back_single in IH' |- *. cbn [rectilinear]. split; [|exact I].
    specialize (Hf p'). cbn in Hf. destruct v; cbn in Hf; rewrite Hf; exact Hstep.
  - rewrite map_back_cons in IH' |- * by discriminate.
    cbn [rectilinear] in IH' |- *. split; [exact Hstep | exact IH'].
Qed.

(** The polyline of one edge, for a grid path with an even number of
    points. *)
Lemma edgePolyline_shape st bs block resultEdge e :
  Nat.even (length (points e)) = true ->
  let r := edgePolyline st bs block resultEdge e in
  target r = target resultEdge /\
  length (polyline r) = Nat.max 1 (length (points e)) /\
  rectilinear true (polyline r) /\
  (points e <> [] -> snd (hd (0, 0) (polyline r)) = y block + height block) /\
  snd (last (polyline r) (0, 0)) = y (bs @ target resultEdge).
Proof.
  intros Heven r. subst r. unfold edgePolyline. cbn [target polyline].
  destruct (points e) as [|p0 [|p1 pts]] eqn:Hp; [|discriminate Heven|].
  - cbn. splits; auto. congruence.
  - cbn [List.tail].
    destruct (@tracePolyline_rectilinear st (p1 :: pts) true
                [(0, y block + height block)]) as (Hrect & Hlen & Hhd);
      [discriminate | exact I | reflexivity |].
    cbn zeta in Hrect, Hlen, Hhd.
    set (poly := tracePolyline st true (p1 :: pts)
                   [(0, y block + height block)]) in *.
    cbn [length] in Hlen, Heven |- *.
    split; [reflexivity|]. split; [rewrite length_map_back; lia|].
    split; [|split].
    + apply rectilinear_map_back; [exact Hrect|]. intro p.
      rewrite Hlen. cbn [Nat.add].
      rewrite <- Nat.negb_even, Heven. reflexivity.
    + intros _.
      destruct poly as [|a [|b l]] eqn:Hpoly;
        [cbn in Hlen; lia | cbn in Hlen; lia |].
      rewrite map_back_cons by discriminate.
      specialize (Hhd ltac:(discriminate)). exact Hhd.
    + destruct (@exists_last _ poly) as (l & a & Hl);
        [intro Hn; rewrite Hn in Hlen; cbn in Hlen; lia|].
      rewrite Hl, map_back_snoc, last_last. reflexivity.
Qed.

(** X8. For a grid path with an even number of points, two at least (rough
    routing gives two, four or six), the polyline written to the edge has
    one point per grid point, is made of vertical and horizontal segments
    in turn, the first one vertical, starts at the lower side of the source
    block ([y + height]) and ends at the [y] of the target block; the
    target id of the edge is kept. *)
Theorem edgePolyline_rectilinear :
  forall st bs block resultEdge e,
    Nat.even (length (points e)) = true -> points e <> [] ->
    let r := edgePolyline st bs block resultEdge e in
    target r = target resultEdge /\
    length (polyline r) = length (points e) /\
    rectilinear true (polyline r) /\
    snd (hd (0, 0) (polyline r)) = y block + height block /\
    snd (last (polyline r) (0, 0)) = y (bs @ target resultEdge).
Proof.
  intros st bs block re e Heven Hne r. subst r.
  destruct (@edgePolyline_shape st bs block re e Heven)
    as (Ht & Hl & Hr & Hh & Hlast).
  cbn zeta in Ht, Hl, Hr, Hh, Hlast.
  split; [exact Ht|]. split; [|split; [exact Hr|split; [now apply Hh|exact Hlast]]].
  rewrite Hl. destruct (points e) as [|p0 [|p1 pts]]; [congruence| |];
    cbn in *; try discriminate; lia.
Qed.

(** The back edge 2->1 of example E4, as [routeEdges] leaves it. *)
Lemma edgePolyline_rectilinear_witness :
  exists st0 st2 e,
    prepareLayout (cfg10 Medium) E4 1%N = Done st0 /\
    routeEdges (cfg10 Medium) st0 = Done st2 /\
    nth_error (edge st2 @ 2%N) 0 = Some e /\
    Nat.even (length (points e)) = true /\ points e <> [] /\
    length (points e) = 6%nat /\
    rectilinear true
      (polyline (edgePolyline st2 (blocks st2) (blocks st2 @ 2%N)
                   (mkGraphEdge 1%N []) e)).
Proof.
  eexists _, _, _.
  split; [vm_compute; reflexivity|].
  split; [vm_compute; reflexivity|].
  split; [vm_compute; reflexivity|].
  match goal with
  | |- Nat.even (length (points ?e)) = true /\ _ =>
      assert (He : Nat.even (length (points e)) = true) by reflexivity;
      assert (Hne : points e <> []) by discriminate
  end.
  split; [exact He|]. split; [exact Hne|]. split; [reflexivity|].
  match goal with
  | |- rectilinear true (polyline (edgePolyline ?st ?bs ?b ?re ?e)) =>
      exact (proj1 (proj2 (proj2
               (@edgePolyline_rectilinear st bs b re e He Hne))))
  end.
Defined.

(** ** Offsets *)

Lemma columnOffsetsLoop_spec cw : forall ecw pos,
  (length cw < length ecw)%nat ->
  exists co eco final,
    columnOffsetsLoop cw ecw pos = (co, eco, final) /\
    length co = length cw /\ length eco = length cw /\
    nth 0 (eco ++ [final]) 0 = pos /\
    (forall i, (i < length cw)%nat ->
       nth i co 0 = nth i (eco ++ [final]) 0 + nth i ecw 0 /\
       nth (S i) (eco ++ [final]) 0 = nth i co 0 + nth i cw 0) /\
    final = pos + fold_right Z.add 0 cw
            + fold_right Z.add 0 (firstn (length cw) ecw).
Proof.
  induction cw as [|w cw IH]; intros ecw pos Hlen; cbn [columnOffsetsLoop].
  - exists [], [], pos. cbn. splits; auto; try lia.
  - destruct ecw as [|ew ecw]; [cbn in Hlen; lia|].
    cbn [hd List.tail].
    destruct (IH ecw (pos + ew + w)) as (co & eco & final & Heq & Hc & He & H0 & Hi & Hf);
      [cbn in Hlen; lia|].
    rewrite Heq. exists ((pos + ew) :: co), (pos :: eco), final.
    splits; cbn [length]; auto.
    + intros [|i] Hlt.
      * cbn [nth app]. rewrite H0. split; lia.
      * cbn [nth app]. apply Hi. cbn in Hlt. lia.
    + rewrite Hf. cbn [firstn fold_right length]. lia.
Qed.

Lemma last_nth {A : Type} (l : list A) d : last l d = nth (length l - 1) l d.
Proof.
  induction l as [|a l IH]; [reflexivity|].
  destruct l as [|b l]; [reflexivity|].
  change (last (a :: b :: l) d) with (last (b :: l) d). rewrite IH.
  cbn [length].
  replace (S (S (length l)) - 1)%nat with (S (length l)) by lia.
  replace (S (length l) - 1)%nat with (length l) by lia. reflexivity.
Qed.

(** X9. [calculateColumnOffsets] fails its assertion exactly when there is
    not one edge column more than there are columns.  Otherwise the edge
    columns and the columns are laid side by side from position 0, an edge
    column first: each column starts where the edge column before it ends,
    each edge column where the column before it ends, and the position
    returned is the sum of all the widths. *)
Theorem calculateColumnOffsets_spec : forall cw ecw,
  if Nat.eqb (length ecw) (length cw + 1)
  then exists co eco total,
      calculateColumnOffsets cw ecw = Done (co, eco, total) /\
      length co = length cw /\ length eco = length ecw /\
      nth 0 eco 0 = 0 /\
      (forall i, (i < length cw)%nat ->
         nth i co 0 = nth i eco 0 + nth i ecw 0 /\
         nth (S i) eco 0 = nth i co 0 + nth i cw 0) /\
      total = nth (length cw) eco 0 + nth (length cw) ecw 0 /\
      total = fold_right Z.add 0 cw + fold_right Z.add 0 ecw
  else calculateColumnOffsets cw ecw = Fail InternalInvariant.
Proof.
  intros cw ecw. unfold calculateColumnOffsets.
  destruct (Nat.eqb_spec (length ecw) (length cw + 1)) as [Hlen|Hlen];
    [|reflexivity].
  cbn [assert bind].
  destruct (@columnOffsetsLoop_spec cw ecw 0)
    as (co & eco & final & Heq & Hc & He & H0 & Hi & Hf); [lia|].
  rewrite Heq.
  assert (Hlast : last ecw 0 = nth (length cw) ecw 0).
  { rewrite last_nth. f_equal. lia. }
  assert (Hsplit : fold_right Z.add 0 ecw
                   = fold_right Z.add 0 (firstn (length cw) ecw)
                     + nth (length cw) ecw 0).
  { clear - Hlen. revert cw Hlen.
    induction ecw as [|a ecw IH]; intros cw Hlen; [cbn in Hlen; lia|].
    destruct cw as [|w cw].
    - destruct ecw; [cbn; lia | cbn in Hlen; lia].
    - cbn [length firstn fold_right nth].
      rewrite (IH cw) by (cbn in Hlen; lia). lia. }
  exists co, (eco ++ [final]), (final + last ecw 0).
  splits; auto.
  - rewrite length_app. cbn. lia.
  - rewrite Hlast. f_equal. rewrite <- He, nth_middle. reflexivity.
  - rewrite Hlast, Hf, Hsplit. lia.
Qed.

(** ** Grid size and widths *)

Lemma nth_set_nth_same {A : Type} n (l : list A) a d :
  (n < length l)%nat -> nth n (set_nth n l a) d = a.
Proof.
  revert n. induction l as [|h t IH]; intros [|n] Hn; simpl in *; try lia; auto.
  apply IH. lia.
Qed.

Lemma vget_vset_same v i a :
  0 <= i < zlen v -> vget (vset v i a) i = a.
Proof.
  unfold zlen. intros Hi. unfold vget, vset.
  destruct (Z.ltb_spec i 0); [lia|]. apply nth_set_nth_same. lia.
Qed.

Lemma set_nth_beyond {A : Type} n (l : list A) a :
  (length l <= n)%nat -> set_nth n l a = l.
Proof.
  revert n. induction l as [|h t IH]; intros [|n] Hn; simpl in *; try lia; auto.
  f_equal. apply IH. lia.
Qed.

(** [v[i] = max(x, v[i])] lowers no entry, and raises entry [i] to [x]
    when [i] is in range. *)
Lemma vset_max_mono v i x j :
  vget v j <= vget (vset v i (Z.max x (vget v i))) j.
Proof.
  destruct (Z.ltb_spec j 0) as [Hj|Hj].
  - unfold vget. destruct (Z.ltb_spec j 0); lia.
  - destruct (Z.eq_dec j i) as [->|Hne].
    + destruct (Z.ltb_spec i (zlen v)) as [Hin|Hout].
      * rewrite vget_vset_same by lia. lia.
      * unfold vset. destruct (i <? 0); [lia|].
        rewrite set_nth_beyond by (unfold zlen in Hout; lia). lia.
    + rewrite vget_vset_other by assumption. lia.
Qed.

Lemma vset_max_ge v i x :
  0 <= i < zlen v -> x <= vget (vset v i (Z.max x (vget v i))) i.
Proof. intros Hi. rewrite vget_vset_same by assumption. lia. Qed.

Lemma zlen_vset v i a : zlen (vset v i a) = zlen v.
Proof. unfold zlen. now rewrite length_vset. Qed.

Lemma gridSize_rows g :
  1 <= fst (gridSize g) /\
  forall kb, In kb g -> size_t_plus (row (snd kb)) 1 <= fst (gridSize g).
Proof.
  unfold gridSize.
  assert (Hgen : forall l rc,
            fst rc <= fst (fold_left
                             (fun (rc : Z * Z) (kb : ut64 * GridBlock) =>
                                (Z.max (fst rc) (size_t_plus (row (snd kb)) 1),
                                 Z.max (snd rc) (size_t_plus (col (snd kb)) 2)))
                             l rc) /\
            forall kb, In kb l ->
              size_t_plus (row (snd kb)) 1
              <= fst (fold_left
                        (fun (rc : Z * Z) (kb : ut64 * GridBlock) =>
                           (Z.max (fst rc) (size_t_plus (row (snd kb)) 1),
                            Z.max (snd rc) (size_t_plus (col (snd kb)) 2)))
                        l rc)).
  { induction l as [|kb l IH]; intros rc; simpl.
    - split; [lia | intros kb []].
    - destruct (IH (Z.max (fst rc) (size_t_plus (row (snd kb)) 1),
                    Z.max (snd rc) (size_t_plus (col (snd kb)) 2)))
        as (Hle & Hall).
      simpl in Hle. split; [lia|].
      intros kb' [<-|Hin]; [lia | now apply Hall]. }
  destruct (Hgen g (1, 1)) as (Hle & Hall). simpl in Hle. auto.
Qed.

(** The loop of [CalculateLayout] over the grid blocks that sets the row
    heights and the column widths. *)
Lemma initWidths_spec st :
  0 <= rows st -> 0 <= columns st ->
  let st' := initWidths st in
  st' = with_widths (columnWidth st') (rowHeight st') st /\
  zlen (rowHeight st') = rows st /\ zlen (columnWidth st') = columns st /\
  forall k,
    In k (UMap.keys (grid_blocks st)) ->
    0 <= row (grid_blocks st @ k) < rows st ->
    0 <= col (grid_blocks st @ k) ->
    col (grid_blocks st @ k) + 2 <= columns st ->
    height (blocks st @ k)
      <= vget (rowHeight st') (row (grid_blocks st @ k)) /\
    Z.quot (width (blocks st @ k)) 2
      <= vget (columnWidth st') (col (grid_blocks st @ k)) /\
    Z.quot (width (blocks st @ k)) 2
      <= vget (columnWidth st') (col (grid_blocks st @ k) + 1).
Proof.
  intros Hr Hc. unfold initWidths.
  match goal with
  | |- context [fold_left ?F ?l ?a] =>
      set (step := F);
      assert (Hgen : forall ks rh cw,
                let r := fold_left step ks (rh, cw) in
                zlen (fst r) = zlen rh /\ zlen (snd r) = zlen cw /\
                (forall j, vget rh j <= vget (fst r) j) /\
                (forall j, vget cw j <= vget (snd r) j) /\
                forall k,
                  In k ks ->
                  0 <= row (grid_blocks st @ k) < zlen rh ->
                  0 <= col (grid_blocks st @ k) ->
                  col (grid_blocks st @ k) + 2 <= zlen cw ->
                  height (blocks st @ k)
                    <= vget (fst r) (row (grid_blocks st @ k)) /\
                  Z.quot (width (blocks st @ k)) 2
                    <= vget (snd r) (col (grid_blocks st @ k)) /\
                  Z.quot (width (blocks st @ k)) 2
                    <= vget (snd r) (col (grid_blocks st @ k) + 1))
  end.
  { induction ks as [|v ks IH]; intros rh cw; cbn [fold_left].
    - cbn. splits; auto; try lia; try (intros ? []).
    - set (node := grid_blocks st @ v). set (ib := blocks st @ v).
      set (rh1 := vset rh (row node) (Z.max (height ib) (vget rh (row node)))).
      set (cw1 := vset cw (col node)
                    (Z.max (Z.quot (width ib) 2) (vget cw (col node)))).
      set (cw2 := vset cw1 (col node + 1)
                    (Z.max (Z.quot (width ib) 2) (vget cw1 (col node + 1)))).
      replace (step (rh, cw) v) with (rh1, cw2) by reflexivity.
      destruct (IH rh1 cw2) as (Hl1 & Hl2 & Hm1 & Hm2 & Hfit).
      cbn zeta in Hl1, Hl2, Hm1, Hm2, Hfit.
      assert (Hrh1 : forall j, vget rh j <= vget rh1 j)
        by (intro j; apply vset_max_mono).
      assert (Hcw1 : forall j, vget cw j <= vget cw1 j)
        by (intro j; apply vset_max_mono).
      assert (Hcw2 : forall j, vget cw1 j <= vget cw2 j)
        by (intro j; apply vset_max_mono).
      splits.
      + rewrite Hl1. apply zlen_vset.
      + rewrite Hl2. unfold cw2, cw1. now rewrite !zlen_vset.
      + intro j. specialize (Hrh1 j). specialize (Hm1 j). lia.
      + intro j. specialize (Hcw1 j). specialize (Hcw2 j). specialize (Hm2 j).
        lia.
      + intros k [<-|Hk] Hrow Hcol Hcol2.
        * fold node ib in Hrow, Hcol, Hcol2 |- *. splits.
          -- pose proof (Hm1 (row node)).
             pose proof (@vset_max_ge rh (row node) (height ib) Hrow).
             fold rh1 in H0. lia.
          -- pose proof (Hm2 (col node)). pose proof (Hcw2 (col node)).
             assert (Hin : 0 <= col node < zlen cw) by lia.
             pose proof (@vset_max_ge cw (col node) (Z.quot (width ib) 2) Hin).
             fold cw1 in H1. lia.
          -- pose proof (Hm2 (col node + 1)).
             assert (Hin : 0 <= col node + 1 < zlen cw1)
               by (unfold cw1; rewrite zlen_vset; lia).
             pose proof (@vset_max_ge cw1 (col node + 1)
                           (Z.quot (width ib) 2) Hin).
             fold cw2 in H0. lia.
        * apply Hfit; auto.
          -- unfold rh1. rewrite zlen_vset. exact Hrow.
          -- unfold cw2, cw1. rewrite !zlen_vset. exact Hcol2. }
  specialize (Hgen (UMap.keys (grid_blocks st)) (assign (rows st) 0)
                (assign (columns st) 0)).
  cbn zeta in Hgen.
  destruct (fold_left step (UMap.keys (grid_blocks st))
              (assign (rows st) 0, assign (columns st) 0)) as [rh cw].
  cbn [fst snd] in Hgen. destruct Hgen as (Hl1 & Hl2 & _ & _ & Hfit).
  assert (Hza : forall n, 0 <= n -> zlen (assign n 0) = n).
  { intros n Hn. unfold zlen, assign. rewrite repeat_length. lia. }
  rewrite Hza in Hl1, Hl2, Hfit by assumption.
  cbn [with_widths rowHeight columnWidth]. splits; auto.
  intros k Hk Hrow Hcol Hcol2. apply Hfit; auto.
  rewrite Hza by assumption. exact Hcol2.
Qed.

(** X10. When [CalculateLayout] gets as far as the routing, the grid has at
    least one row and one column, [rowHeight] and [columnWidth] have one
    entry per row and per column, every grid block lies inside the grid (its
    row below [rows], its two columns below [columns]), and every block
    fits: its row is at least as high as the block and each of its two
    columns at least half as wide. *)
Theorem prepareLayout_blocks_fit : forall cfg bs entry st,
  prepareLayout cfg bs entry = Done st ->
  1 <= rows st /\ 1 <= columns st /\
  zlen (rowHeight st) = rows st /\ zlen (columnWidth st) = columns st /\
  forall k,
    In k (UMap.keys (grid_blocks st)) ->
    0 <= row (grid_blocks st @ k) < rows st /\
    0 <= col (grid_blocks st @ k) /\
    col (grid_blocks st @ k) + 2 <= columns st /\
    height (blocks st @ k)
      <= vget (rowHeight st) (row (grid_blocks st @ k)) /\
    Z.quot (width (blocks st @ k)) 2
      <= vget (columnWidth st) (col (grid_blocks st @ k)) /\
    Z.quot (width (blocks st @ k)) 2
      <= vget (columnWidth st) (col (grid_blocks st @ k) + 1).
Proof.
  intros cfg bs entry st. unfold prepareLayout. intro Hrun.
  destruct (topoSort_initial bs entry) as (st1 & order & Hts & TS & _).
  rewrite Hts in Hrun. cbn [bind] in Hrun.
  destruct (computeAllBlockPlacement cfg order (grid_blocks st1))
    as [g2| |] eqn:Hplace; try discriminate Hrun.
  cbn [bind] in Hrun.
  destruct (@placement_in_grid cfg bs entry st1 order g2 TS Hplace)
    as (Hcol & Hrow).
  cbn [grid_blocks with_grid_blocks with_edge edge blocks] in Hrun.
  set (em := initEdges (blocks st1)) in *.
  set (g3 := countEdges em g2) in *.
  destruct (gridSize_spec g3) as (Hc1 & Hcall).
  destruct (gridSize_rows g3) as (Hr1 & Hrall).
  destruct (gridSize g3) as [r c] eqn:Hsize.
  cbn [fst snd] in Hc1, Hcall, Hr1, Hrall.
  pose proof (countEdges_frame em g2) as F3. fold g3 in F3.
  assert (Hcol3 : forall k, col (g3 @ k) = col (g2 @ k)).
  { intro k. pose proof (Frame_proj k F3) as H. simpl in H. congruence. }
  assert (Hrow3 : forall k, row (g3 @ k) = row (g2 @ k)).
  { intro k. pose proof (Frame_proj k F3) as H. simpl in H. congruence. }
  match type of Hrun with
  | Done (initWidths ?s0) = _ => set (st0 := s0) in *
  end.
  assert (Hrows0 : rows st0 = r) by reflexivity.
  assert (Hcols0 : columns st0 = c) by reflexivity.
  assert (Hgrid0 : grid_blocks st0 = g3) by reflexivity.
  destruct (@initWidths_spec st0) as (Heq & Hl1 & Hl2 & Hfit);
    [rewrite Hrows0; lia | rewrite Hcols0; lia |].
  cbn zeta in Heq, Hl1, Hl2, Hfit.
  assert (Hst : initWidths st0 = st) by congruence.
  clear Hrun. rewrite Hst in Heq, Hl1, Hl2, Hfit.
  assert (Hr : rows st = r) by (rewrite Heq; exact Hrows0).
  assert (Hc : columns st = c) by (rewrite Heq; exact Hcols0).
  assert (Hg : grid_blocks st = g3) by (rewrite Heq; exact Hgrid0).
  assert (Hb : blocks st = blocks st0) by (rewrite Heq; reflexivity).
  rewrite Hr, Hc, Hg, Hb. rewrite Hrows0, Hcols0, Hgrid0 in *.
  splits; auto.
  intros k Hk.
  assert (Hrk : 0 <= row (g3 @ k) < r).
  { pose proof (in_keys_at _ _ Hk) as Hin. specialize (Hrall _ Hin).
    cbn [snd] in Hrall. unfold size_t_plus in Hrall.
    specialize (Hrow k). rewrite <- Hrow3 in Hrow.
    destruct (Z.ltb_spec (row (g3 @ k)) 0); lia. }
  assert (Hck : 0 <= col (g3 @ k) /\ col (g3 @ k) + 2 <= c).
  { pose proof (in_keys_at _ _ Hk) as Hin. specialize (Hcall _ Hin).
    cbn [snd] in Hcall. unfold size_t_plus in Hcall.
    specialize (Hcol k). rewrite <- Hcol3 in Hcol.
    destruct (Z.ltb_spec (col (g3 @ k)) 0); lia. }
  destruct Hck as (Hck1 & Hck2).
  split; [exact Hrk|]. split; [exact Hck1|]. split; [exact Hck2|].
  apply Hfit; auto.
Qed.

Lemma prepareLayout_blocks_fit_witness :
  exists st,
    prepareLayout (cfg10 Medium) E4 1%N = Done st /\
    1 <= rows st /\ 1 <= columns st.
Proof.
  destruct (prepareLayout (cfg10 Medium) E4 1%N) as [st| |] eqn:H;
    [|vm_compute in H; discriminate H|vm_compute in H; discriminate H].
  exists st. split; [reflexivity|].
  pose proof (@prepareLayout_blocks_fit (cfg10 Medium) E4 1%N st H) as P.
  split; [exact (proj1 P) | exact (proj1 (proj2 P))].
Defined.

(** ** The stages of a call that returns *)

Lemma bind_Done {A B : Type} (m : Outcome A) (f : A -> Outcome B) b :
  bind m f = Done b -> exists a, m = Done a /\ f a = Done b.
Proof. destruct m as [a| |]; intros H; try discriminate H. now exists a. Qed.

Lemma CalculateLayout_stages cfg bs entry l :
  CalculateLayout cfg bs entry = Done l ->
  exists st0 st1 st2 st3 w h,
    prepareLayout cfg bs entry = Done st0 /\
    calculateEdgeMainColumn st0 = Done st1 /\
    elaborateEdgePlacement cfg (roughRouting cfg st1) = Done st2 /\
    convertToPixelCoordinates cfg st2 = Done (st3, w, h) /\
    l = mkLayout (blocks st3) w h.
Proof.
  unfold CalculateLayout. intros H.
  apply bind_Done in H. destruct H as (st0 & H0 & H).
  apply bind_Done in H. destruct H as (st2 & Hr & H).
  apply bind_Done in H. destruct H as ([[st3 w] h] & H3 & H).
  unfold routeEdges in Hr.
  apply bind_Done in Hr. destruct Hr as (st1 & H1 & H2).
  exists st0, st1, st2, st3, w, h. splits; auto. congruence.
Qed.

(** ** What the call leaves of its input *)

Lemma at_fold_touch {A : Type} (f : A -> ut64) (l : list A) :
  forall (m : UMap.t GraphBlock) k,
    fold_left (fun bs e => UMap.touch bs (f e)) l m @ k = m @ k.
Proof.
  induction l as [|a l IH]; intros m k; cbn [fold_left]; [reflexivity|].
  rewrite IH. apply at_touch.
Qed.

Lemma at_fold_touch2 {A : Type} (f g : A -> ut64) (l : list A) :
  forall (m : UMap.t GraphBlock) k,
    fold_left (fun bs e => UMap.touch (UMap.touch bs (f e)) (g e)) l m @ k
    = m @ k.
Proof.
  induction l as [|a l IH]; intros m k; cbn [fold_left]; [reflexivity|].
  rewrite IH, !at_touch. reflexivity.
Qed.

Lemma roughRouting_blocks cfg st k :
  blocks (roughRouting cfg st) @ k = blocks st @ k.
Proof.
  unfold roughRouting. generalize (UMap.keys (grid_blocks st)). intros ks.
  revert st. induction ks as [|v ks IH]; intros st; cbn [fold_left];
    [reflexivity|].
  rewrite IH. unfold roughRouting_block. cbn [blocks with_edge with_blocks].
  apply at_fold_touch2.
Qed.

Lemma calculateEdgeMainColumn_blocks st st' :
  calculateEdgeMainColumn st = Done st' -> blocks st' = blocks st.
Proof.
  unfold calculateEdgeMainColumn. intros H.
  destruct (processEvents _ _ _) as [r| |]; try discriminate H.
  cbn [bind] in H. inversion H. reflexivity.
Qed.

Lemma adjustColumnWidths_blocks st :
  blocks (adjustColumnWidths st) = blocks st.
Proof.
  unfold adjustColumnWidths. destruct (fold_left _ _ _) as [rh cw].
  reflexivity.
Qed.

Lemma elaborateEdgePlacement_blocks cfg st st' k :
  elaborateEdgePlacement cfg st = Done st' -> blocks st' @ k = blocks st @ k.
Proof.
  rewrite elaborateEdgePlacement_halves. intros H.
  destruct (verticalPlacement cfg st) as [[st1 eo]| |] eqn:Hv;
    try discriminate H.
  cbn [bind fst snd] in H.
  assert (Hb1 : blocks st1 = blocks st).
  { unfold verticalPlacement in Hv.
    destruct (calculateSegmentOffsets _ _ _ _ _ _ _ _) as [[segs eo1] ecw].
    destruct (calculateColumnOffsets _ _) as [[[co eco] w]| |];
      try discriminate Hv.
    cbn [bind] in Hv. inversion Hv; subst.
    cbn [blocks with_edge with_columnOffsets].
    rewrite adjustColumnWidths_blocks. reflexivity. }
  unfold horizontalPlacement in H.
  destruct (compressCoordinates _ _ _) as [[[[segs' ls] rs] cc]| |];
    try discriminate H.
  cbn [bind] in H.
  destruct (calculateSegmentOffsets _ _ _ _ _ _ _ _) as [[segs'' eo'] erh].
  inversion H; subst. cbn [blocks with_edge with_edgeRowHeight with_blocks].
  rewrite at_fold_touch, Hb1. reflexivity.
Qed.

Lemma clearBlock_at_map (f : ut64 * GraphBlock -> ut64 * GraphBlock)
    (m : UMap.t GraphBlock) k :
  (forall kb, fst (f kb) = fst kb /\
              clearBlock (snd (f kb)) = clearBlock (snd kb)) ->
  clearBlock (map f m @ k) = clearBlock (m @ k).
Proof.
  intros Hf. unfold UMap.at_.
  induction m as [|[k' b] m IH]; [reflexivity|].
  cbn [map UMap.find]. destruct (Hf (k', b)) as (H1 & H2).
  destruct (f (k', b)) as [k'' b'] eqn:Hfb. cbn [fst snd] in H1, H2. subst k''.
  destruct (N.eqb k k'); [exact H2 | exact IH].
Qed.

Lemma keys_map_fst {V : Type} (f : ut64 * V -> ut64 * V) (m : UMap.t V) :
  (forall kb, fst (f kb) = fst kb) -> UMap.keys (map f m) = UMap.keys m.
Proof.
  intros Hf. unfold UMap.keys. rewrite map_map. apply map_ext. exact Hf.
Qed.

Lemma convertToPixelCoordinates_blocks cfg st st' w h :
  convertToPixelCoordinates cfg st = Done (st', w, h) ->
  (forall k, clearBlock (blocks st' @ k) = clearBlock (blocks st @ k)) /\
  UMap.keys (blocks st') = UMap.keys (blocks st).
Proof.
  unfold convertToPixelCoordinates. intros H.
  destruct (calculateColumnOffsets (columnWidth st) (edgeColumnWidth st))
    as [[[co eco] w1]| |]; try discriminate H.
  cbn [bind] in H.
  destruct (calculateColumnOffsets _ _) as [[[ro ero] h1]| |];
    try discriminate H.
  cbn [bind] in H. inversion H; subst. clear H.
  cbn [blocks with_blocks with_grid_blocks with_rowOffsets with_columnOffsets].
  split.
  - intro k. rewrite !clearBlock_at_map; [reflexivity| |].
    + intros [k' b]. cbn [fst snd]. split; [reflexivity|].
      unfold clearBlock, with_xy. cbn [width height edges]. reflexivity.
    + intros [k' b]. cbn [fst snd]. split; [reflexivity|].
      unfold clearBlock, with_edges. cbn [width height edges]. f_equal.
      rewrite map_map.
      match goal with
      | |- map ?F (combine ?s (edges b)) = _ =>
          assert (Hgen : forall l n,
                    map F (combine (seq n (length l)) l) = map clearEdge l)
      end.
      { induction l as [|e l IHl]; intros n; [reflexivity|].
        cbn [length seq combine map]. f_equal. apply IHl. }
      apply Hgen.
  - rewrite !keys_map_fst; [reflexivity| |]; intros [k' b]; reflexivity.
Qed.

Lemma keys_fold_touch {A : Type} (f : A -> ut64) (l : list A) :
  forall (m : UMap.t GraphBlock) k,
    In k (UMap.keys m) ->
    In k (UMap.keys (fold_left (fun bs e => UMap.touch bs (f e)) l m)).
Proof.
  induction l as [|a l IH]; intros m k Hk; cbn [fold_left]; [exact Hk|].
  apply IH. apply in_keys_modify. now right.
Qed.

Lemma keys_fold_touch2 {A : Type} (f g : A -> ut64) (l : list A) :
  forall (m : UMap.t GraphBlock) k,
    In k (UMap.keys m) ->
    In k (UMap.keys
            (fold_left (fun bs e => UMap.touch (UMap.touch bs (f e)) (g e))
               l m)).
Proof.
  induction l as [|a l IH]; intros m k Hk; cbn [fold_left]; [exact Hk|].
  apply IH. apply in_keys_modify. right. apply in_keys_modify. now right.
Qed.

Lemma roughRouting_keys cfg st k :
  In k (UMap.keys (blocks st)) ->
  In k (UMap.keys (blocks (roughRouting cfg st))).
Proof.
  unfold roughRouting. generalize (UMap.keys (grid_blocks st)). intros ks.
  revert st. induction ks as [|v ks IH]; intros st Hk; cbn [fold_left];
    [exact Hk|].
  apply IH. unfold roughRouting_block. cbn [blocks with_edge with_blocks].
  now apply keys_fold_touch2.
Qed.

Lemma elaborateEdgePlacement_keys cfg st st' k :
  elaborateEdgePlacement cfg st = Done st' ->
  In k (UMap.keys (blocks st)) -> In k (UMap.keys (blocks st')).
Proof.
  rewrite elaborateEdgePlacement_halves. intros H Hk.
  destruct (verticalPlacement cfg st) as [[st1 eo]| |] eqn:Hv;
    try discriminate H.
  cbn [bind fst snd] in H.
  assert (Hb1 : blocks st1 = blocks st).
  { unfold verticalPlacement in Hv.
    destruct (calculateSegmentOffsets _ _ _ _ _ _ _ _) as [[segs eo1] ecw].
    destruct (calculateColumnOffsets _ _) as [[[co eco] w]| |];
      try discriminate Hv.
    cbn [bind] in Hv. inversion Hv; subst.
    cbn [blocks with_edge with_columnOffsets].
    rewrite adjustColumnWidths_blocks. reflexivity. }
  unfold horizontalPlacement in H.
  destruct (compressCoordinates _ _ _) as [[[[segs' ls] rs] cc]| |];
    try discriminate H.
  cbn [bind] in H.
  destruct (calculateSegmentOffsets _ _ _ _ _ _ _ _) as [[segs'' eo'] erh].
  inversion H; subst. cbn [blocks with_edge with_edgeRowHeight with_blocks].
  apply keys_fold_touch. now rewrite Hb1.
Qed.

Lemma prepareLayout_blocks cfg bs entry st :
  prepareLayout cfg bs entry = Done st ->
  (forall k, blocks st @ k = bs @ k) /\
  (forall k, In k (UMap.keys bs) -> In k (UMap.keys (blocks st))).
Proof.
  unfold prepareLayout. intro Hrun.
  destruct (topoSort_initial bs entry) as (st1 & order & Hts & TS & _).
  rewrite Hts in Hrun. cbn [bind] in Hrun.
  destruct (computeAllBlockPlacement cfg order (grid_blocks st1))
    as [g2| |]; try discriminate Hrun.
  cbn [bind] in Hrun.
  destruct (gridSize _) as [r c].
  assert (Hb : blocks st = blocks st1).
  { inversion Hrun. unfold initWidths.
    destruct (fold_left _ _ _) as [rh cw]. reflexivity. }
  rewrite Hb. split.
  - exact (ts_blocks TS).
  - intros k Hk. apply (ts_blockkeys TS). now left.
Qed.

(** X11. A call that returns leaves every block of the map as it was apart
    from [x], [y] and the polylines of its edges: the width, the height and
    the edge targets in their order are those of the input, for ids that
    the call has added they are those of an empty block, and every id of
    the input is still in the map. *)
Theorem CalculateLayout_keeps_input : forall cfg bs entry l,
  CalculateLayout cfg bs entry = Done l ->
  (forall k,
     width (out_blocks l @ k) = width (bs @ k) /\
     height (out_blocks l @ k) = height (bs @ k) /\
     map target (edges (out_blocks l @ k)) = map target (edges (bs @ k))) /\
  (forall k, In k (UMap.keys bs) -> In k (UMap.keys (out_blocks l))).
Proof.
  intros cfg bs entry l. intro H.
  destruct (CalculateLayout_stages _ _ _ H)
    as (st0 & st1 & st2 & st3 & w & h & H0 & H1 & H2 & H3 & ->).
  clear H. cbn [out_blocks].
  destruct (prepareLayout_blocks _ _ _ H0) as (Hb0 & Hk0).
  pose proof (calculateEdgeMainColumn_blocks _ H1) as Hb1.
  destruct (convertToPixelCoordinates_blocks _ _ H3) as (Hb3 & Hk3).
  split.
  - intro k.
    assert (Hc : clearBlock (blocks st3 @ k) = clearBlock (bs @ k)).
    { rewrite Hb3, (elaborateEdgePlacement_blocks _ _ k H2),
        roughRouting_blocks, Hb1. now rewrite Hb0. }
    unfold clearBlock in Hc. injection Hc as Hw Hh He.
    split; [exact Hw|]. split; [exact Hh|].
    apply (f_equal (map target)) in He. rewrite !map_map in He.
    cbn [clearEdge target] in He. exact He.
  - intros k Hk. rewrite Hk3.
    apply (elaborateEdgePlacement_keys _ _ k H2), roughRouting_keys.
    rewrite Hb1. now apply Hk0.
Qed.

Lemma CalculateLayout_keeps_input_witness :
  exists l,
    CalculateLayout (cfg10 Medium) E4 1%N = Done l /\
    width (out_blocks l @ 1%N) = width (E4 @ 1%N).
Proof.
  destruct (CalculateLayout (cfg10 Medium) E4 1%N) as [l| |] eqn:H;
    [|vm_compute in H; discriminate H|vm_compute in H; discriminate H].
  exists l. split; [reflexivity|].
  exact (proj1 (proj1 (@CalculateLayout_keeps_input (cfg10 Medium) E4 1%N l H)
                  1%N)).
Defined.

(** ** Comparators *)

Ltac order_cases :=
  repeat match goal with
  | H : context [?x =? ?y] |- _ => destruct (Z.eqb_spec x y); cbn in H
  | H : context [?x <? ?y] |- _ => destruct (Z.ltb_spec x y); cbn in H
  | |- context [?x =? ?y] => destruct (Z.eqb_spec x y); cbn
  | |- context [?x <? ?y] => destruct (Z.ltb_spec x y); cbn
  end;
  try reflexivity; try discriminate; try lia.

Lemma Event_lt_order : StrictWeakOrder Event_lt.
Proof.
  unfold StrictWeakOrder, Event_lt. splits.
  - intros [k i r t]. cbn. order_cases.
  - intros [k1 i1 r1 t1] [k2 i2 r2 t2] [k3 i3 r3 t3]. cbn.
    intros H1 H2. destruct t1, t2, t3; cbn in *; order_cases.
  - intros [k1 i1 r1 t1] [k2 i2 r2 t2] [k3 i3 r3 t3]. cbn.
    intros H1 H2 H3 H4. destruct t1, t2, t3; cbn in *; split; order_cases.
Qed.

Lemma NodeSide_lt_order : StrictWeakOrder NodeSide_lt.
Proof.
  unfold StrictWeakOrder, NodeSide_lt. splits.
  - intros a. order_cases.
  - intros a b c H1 H2. order_cases.
  - intros a b c H1 H2 H3 H4. split; order_cases.
Qed.

Lemma CEvent_lt_true a b :
  CEvent_lt a b = true <->
  (cx a < cx b \/
   (cx a = cx b /\
    (cy a < cy b \/
     (cy a = cy b /\
      (if start a then 0 else 1) < (if start b then 0 else 1))))).
Proof.
  unfold CEvent_lt. destruct a as [x1 y1 i1 s1], b as [x2 y2 i2 s2]. cbn.
  destruct (Z.eqb_spec x1 x2); cbn;
    [|destruct (Z.ltb_spec x1 x2); split; intros; try lia; discriminate].
  destruct (Z.eqb_spec y1 y2); cbn;
    [|destruct (Z.ltb_spec y1 y2); split; intros; try lia; discriminate].
  destruct s1, s2; cbn; split; intros; try lia; try discriminate;
    try reflexivity.
Qed.

Lemma CEvent_lt_false a b :
  CEvent_lt a b = false <->
  ~ (cx a < cx b \/
     (cx a = cx b /\
      (cy a < cy b \/
       (cy a = cy b /\
        (if start a then 0 else 1) < (if start b then 0 else 1))))).
Proof.
  rewrite <- CEvent_lt_true. destruct (CEvent_lt a b); split;
    intros; try congruence; try reflexivity; try tauto.
Qed.

Lemma CEvent_lt_order : StrictWeakOrder CEvent_lt.
Proof.
  unfold StrictWeakOrder. splits.
  - intros a. apply CEvent_lt_false. destruct (start a); lia.
  - intros a b c H1 H2. apply CEvent_lt_true in H1, H2.
    apply CEvent_lt_true. destruct (start a), (start b), (start c); lia.
  - intros a b c H1 H2 H3 H4.
    apply CEvent_lt_false in H1, H2, H3, H4.
    rewrite !CEvent_lt_false.
    destruct (start a), (start b), (start c); split; lia.
Qed.

(** The comparator of the edge segments is the lexicographic order of
    [x], [kind], the length and the secondary priority, the last two
    reversed for the kind 1. *)
Lemma EdgeSegment_lt_true a b :
  EdgeSegment_lt a b = true <->
  (sx a < sx b \/
   (sx a = sx b /\
    (s_kind a < s_kind b \/
     (s_kind a = s_kind b /\
      let sa := if s_kind a =? 1 then - (y1 a - y0 a) else y1 a - y0 a in
      let sb := if s_kind b =? 1 then - (y1 b - y0 b) else y1 b - y0 b in
      let pa := if s_kind a =? 1 then - s_secondaryPriority a
                else s_secondaryPriority a in
      let pb := if s_kind b =? 1 then - s_secondaryPriority b
                else s_secondaryPriority b in
      (sa < sb \/ (sa = sb /\ pa < pb)))))).
Proof.
  unfold EdgeSegment_lt. destruct a as [a0 a1 ax ai ap ak ao].
  destruct b as [b0 b1 bx bi bp bk bo]. cbn.
  destruct (Z.eqb_spec ax bx); cbn; [|destruct (Z.ltb_spec ax bx); split; intros; try lia; discriminate].
  destruct (Z.eqb_spec ak bk); cbn; [|destruct (Z.ltb_spec ak bk); split; intros; try lia; discriminate].
  subst bk. destruct (Z.eqb_spec ak 1); cbn;
    destruct (Z.eqb_spec (a1 - a0) (b1 - b0)); cbn;
    match goal with
    | |- (?x <? ?y) = true <-> _ => destruct (Z.ltb_spec x y)
    end; split; intros; try lia; try discriminate; try reflexivity.
Qed.

Lemma EdgeSegment_lt_false a b :
  EdgeSegment_lt a b = false <->
  ~ (sx a < sx b \/
     (sx a = sx b /\
      (s_kind a < s_kind b \/
       (s_kind a = s_kind b /\
        let sa := if s_kind a =? 1 then - (y1 a - y0 a) else y1 a - y0 a in
        let sb := if s_kind b =? 1 then - (y1 b - y0 b) else y1 b - y0 b in
        let pa := if s_kind a =? 1 then - s_secondaryPriority a
                  else s_secondaryPriority a in
        let pb := if s_kind b =? 1 then - s_secondaryPriority b
                  else s_secondaryPriority b in
        (sa < sb \/ (sa = sb /\ pa < pb)))))).
Proof.
  rewrite <- EdgeSegment_lt_true. destruct (EdgeSegment_lt a b); split;
    intros; try congruence; try reflexivity; try tauto.
Qed.

Lemma EdgeSegment_lt_order : StrictWeakOrder EdgeSegment_lt.
Proof.
  unfold StrictWeakOrder. splits.
  - intros a. apply EdgeSegment_lt_false. cbn zeta. lia.
  - intros a b c H1 H2. apply EdgeSegment_lt_true in H1, H2.
    apply EdgeSegment_lt_true. cbn zeta in *.
    destruct (s_kind a =? 1), (s_kind b =? 1), (s_kind c =? 1) eqn:?; lia.
  - intros a b c H1 H2 H3 H4.
    apply EdgeSegment_lt_false in H1, H2, H3, H4.
    rewrite !EdgeSegment_lt_false. cbn zeta in *.
    destruct (Z.eqb_spec (s_kind a) 1), (Z.eqb_spec (s_kind b) 1),
      (Z.eqb_spec (s_kind c) 1); split; lia.
Qed.

(** X12. Each comparator that the source passes to [std::sort] (for the
    events of the main-column selection, for the edge segments and the node
    sides of the segment offsets, for the events of the centering) is a
    strict weak ordering, as [std::sort] requires: irreflexive, transitive,
    and with a transitive incomparability. *)
Theorem sort_comparators_are_strict_weak_orders :
  StrictWeakOrder Event_lt /\ StrictWeakOrder EdgeSegment_lt /\
  StrictWeakOrder NodeSide_lt /\ StrictWeakOrder CEvent_lt.
Proof.
  splits.
  - exact Event_lt_order.
  - exact EdgeSegment_lt_order.
  - exact NodeSide_lt_order.
  - exact CEvent_lt_order.
Qed.

(** ** The edge counters through the placement *)

Lemma SameCounts_refl g : SameCounts g g.
Proof. split; [apply Frame_refl | auto]. Qed.

Lemma SameCounts_trans g1 g2 g3 :
  SameCounts g1 g2 -> SameCounts g2 g3 -> SameCounts g1 g3.
Proof.
  intros (F1 & N1) (F2 & N2). split; [eapply Frame_trans; eauto | auto].
Qed.

Lemma SameCounts_modify g k f :
  keeps counts f -> SameCounts g (UMap.modify g k f).
Proof.
  intros Hf. split; [apply Frame_modify; [exact Hf | now right]|].
  apply NoDup_keys_modify.
Qed.

Lemma SameCounts_touch g k : SameCounts g (UMap.touch g k).
Proof. apply SameCounts_modify. intro b. reflexivity. Qed.

Lemma SameCounts_fold_left {A : Type}
    (step : UMap.t GridBlock -> A -> UMap.t GridBlock) l :
  forall g,
    (forall g' x, SameCounts g' (step g' x)) ->
    SameCounts g (fold_left step l g).
Proof.
  induction l as [|x l IH]; intros g Hstep; cbn [fold_left];
    [apply SameCounts_refl|].
  eapply SameCounts_trans; [apply Hstep | now apply IH].
Qed.

Ltac counts_step :=
  first [ apply SameCounts_modify; keeps | apply SameCounts_touch ].

Lemma assignRows_counts g order : SameCounts g (assignRows g order).
Proof.
  unfold assignRows. apply SameCounts_fold_left. intros g' v.
  unfold assignRows_block.
  apply (@SameCounts_trans _ (UMap.touch g' v)); [counts_step|].
  apply SameCounts_fold_left. intros; counts_step.
Qed.

Lemma selectTree_counts g : SameCounts g (selectTree g).
Proof.
  unfold selectTree. apply SameCounts_fold_left. intros g1 v.
  unfold selectTree_block. apply SameCounts_fold_left. intros g2 t.
  unfold selectTree_edge.
  assert (F0 : SameCounts g2 (UMap.touch g2 t)) by counts_step.
  destruct (_ && _); [|exact F0].
  apply (SameCounts_trans F0).
  apply (@SameCounts_trans _ (UMap.modify (UMap.touch g2 t) v (push_tree t)));
    counts_step.
Qed.

Lemma findMergePoints_counts g : SameCounts g (findMergePoints g).
Proof.
  unfold findMergePoints. apply SameCounts_fold_left. intros g' v.
  unfold findMergePoints_block.
  destruct (findGrandChild g' (tree_edge (g' @ v))) as [[m|] z];
    [|apply SameCounts_refl].
  destruct z as [|[p|p|]|p]; try apply SameCounts_refl.
  destruct (countGoingToMerge _ _ _ _ _) as [n w].
  destruct (n =? 0); [apply SameCounts_refl | counts_step].
Qed.

Lemma placeChild_counts cfg blockId s childId s' :
  placeChild cfg blockId s childId = Done s' ->
  SameCounts (s_grid s) (s_grid s').
Proof.
  unfold placeChild. intros Hrun.
  destruct (walkSides _ _ _) as [w| |]; try discriminate Hrun.
  cbn [bind] in Hrun.
  set (off := if tightSubtreePlacement cfg then minPos w
              else if negb (Nat.eqb (leftIt w) 0)
                   then maxLeftWidth w - leftPosition (s_grid s @ childId)
                   else rightPosition (s_grid s @ blockId) - minRightPos w) in *.
  set (g1 := UMap.modify (s_grid s) childId
               (fun c => with_col (col c + off) c)) in *.
  assert (F1 : SameCounts (s_grid s) g1) by (unfold g1; counts_step).
  destruct (negb (Nat.eqb (leftIt w) 0)).
  - destruct (append _ _ _) as [p r]. inversion Hrun; subst s'. simpl.
    apply (SameCounts_trans F1). counts_step.
  - destruct (negb (Nat.eqb (rightIt w) 0)).
    + destruct (append _ _ _) as [p l]. inversion Hrun; subst s'. simpl.
      apply (SameCounts_trans F1).
      eapply SameCounts_trans; [|counts_step]. counts_step.
    + inversion Hrun; subst s'. simpl.
      apply (SameCounts_trans F1). counts_step.
Qed.

Lemma placeChildren_counts cfg blockId children :
  forall s s',
    placeChildren cfg blockId s children = Done s' ->
    SameCounts (s_grid s) (s_grid s').
Proof.
  induction children as [|c cs IH]; intros s s' Hrun;
    cbn [placeChildren] in Hrun.
  - inversion Hrun; subst. apply SameCounts_refl.
  - destruct (placeChild cfg blockId s c) as [s1| |] eqn:H1;
      try discriminate Hrun.
    cbn [bind] in Hrun.
    exact (SameCounts_trans (placeChild_counts _ _ _ _ H1) (IH s1 s' Hrun)).
Qed.

Lemma placeBlock_counts cfg g p blockId g' p' :
  placeBlock cfg (g, p) blockId = Done (g', p') -> SameCounts g g'.
Proof.
  unfold placeBlock. intros Hrun.
  assert (F0 : SameCounts g (UMap.touch g blockId)) by counts_step.
  rewrite at_touch in Hrun.
  destruct (tree_edge (g @ blockId)) as [|first others] eqn:Htree.
  - inversion Hrun; subst. apply (SameCounts_trans F0). counts_step.
  - set (g1 := UMap.modify (UMap.touch g blockId) blockId _) in Hrun.
    assert (F1 : SameCounts g g1)
      by (apply (SameCounts_trans F0); unfold g1; counts_step).
    destruct (placeChildren cfg blockId _ others) as [s| |] eqn:Hch;
      try discriminate Hrun.
    cbn [bind] in Hrun.
    apply placeChildren_counts in Hch. cbn [s_grid] in Hch.
    assert (F2 : SameCounts g (s_grid s)) by (eapply SameCounts_trans; eauto).
    destruct (makeList _ _) as [pl l0] in Hrun.
    destruct (append pl _ _) as [pl' l] in Hrun.
    destruct (makeList _ _) as [pr r0] in Hrun.
    destruct (append pr _ _) as [pr' r] in Hrun.
    inversion Hrun; subst g' p'. clear Hrun.
    set (g2 := UMap.modify (s_grid s) blockId _).
    assert (F3 : SameCounts g g2)
      by (apply (SameCounts_trans F2); unfold g2; counts_step).
    set (g3 := UMap.modify g2 blockId (with_leftSideShape l)).
    assert (F4 : SameCounts g g3)
      by (apply (SameCounts_trans F3); unfold g3; counts_step).
    set (g4 := UMap.modify g3 blockId (with_rightSideShape r)).
    assert (F5 : SameCounts g g4)
      by (apply (SameCounts_trans F4); unfold g4; counts_step).
    apply (SameCounts_trans F5).
    apply SameCounts_fold_left. intros; counts_step.
Qed.

Lemma placeBlocks_counts cfg order :
  forall g p g' p',
    placeBlocks cfg (g, p) order = Done (g', p') -> SameCounts g g'.
Proof.
  induction order as [|b bs IH]; intros g p g' p' Hrun;
    cbn [placeBlocks] in Hrun.
  - inversion Hrun; subst. apply SameCounts_refl.
  - destruct (placeBlock cfg (g, p) b) as [[g1 p1]| |] eqn:H1;
      try discriminate Hrun.
    cbn [bind] in Hrun.
    exact (SameCounts_trans (placeBlock_counts _ _ _ _ H1) (IH _ _ _ _ Hrun)).
Qed.

Lemma placeRoots_counts g : SameCounts g (placeRoots g).
Proof.
  unfold placeRoots.
  assert (Hgen : forall ks g0 n,
            SameCounts g g0 ->
            SameCounts g (fst (fold_left placeRoot ks (g0, n)))).
  { induction ks as [|k ks IH]; intros g0 n F0;
      cbn [fold_left fst]; [exact F0|].
    unfold placeRoot at 2.
    destruct (row (g0 @ k) =? 0); [|now apply IH].
    apply IH. apply (SameCounts_trans F0). counts_step. }
  apply Hgen. apply SameCounts_refl.
Qed.

Lemma absoluteBlocks_counts L :
  forall g g', absoluteBlocks g L = Done g' -> SameCounts g g'.
Proof.
  induction L as [|v L IH]; intros g g' Hrun; cbn [absoluteBlocks] in Hrun.
  - inversion Hrun; subst. apply SameCounts_refl.
  - unfold absoluteBlock in Hrun.
    destruct (0 <=? col (UMap.touch g v @ v)); [|discriminate Hrun].
    cbn [assert bind] in Hrun.
    match type of Hrun with
    | absoluteBlocks ?g1 L = _ => assert (F1 : SameCounts g g1)
    end.
    { apply (@SameCounts_trans _ (UMap.touch g v)); [counts_step|].
      apply SameCounts_fold_left. intros; counts_step. }
    exact (SameCounts_trans F1 (IH _ _ Hrun)).
Qed.

Lemma computeAllBlockPlacement_counts cfg order g g' :
  computeAllBlockPlacement cfg order g = Done g' -> SameCounts g g'.
Proof.
  unfold computeAllBlockPlacement. intros Hrun.
  destruct (placeBlocks cfg _ order) as [[g1 p1]| |] eqn:Hp;
    try discriminate Hrun.
  cbn [bind fst] in Hrun.
  apply (SameCounts_trans (assignRows_counts g order)).
  apply (SameCounts_trans (selectTree_counts _)).
  apply (SameCounts_trans (findMergePoints_counts _)).
  apply (SameCounts_trans (@placeBlocks_counts _ _ _ _ _ _ Hp)).
  apply (SameCounts_trans (placeRoots_counts _)).
  exact (@absoluteBlocks_counts _ _ _ Hrun).
Qed.

(** The main-column selection writes nothing but [mainColumn]. *)
Lemma setMainColumn_keeps em blockId edgeId c k :
  map (with_mainColumn 0) (setMainColumn em blockId edgeId c @ k)
  = map (with_mainColumn 0) (em @ k).
Proof.
  unfold setMainColumn. rewrite at_modify.
  destruct (N.eqb_spec k blockId) as [Hk|_]; [|reflexivity]. rewrite Hk.
  generalize (em @ blockId). intros l. revert edgeId.
  induction l as [|h t IH]; intros [|i]; cbn; try reflexivity.
  f_equal. apply IH.
Qed.

Lemma processEvents_keeps st events : forall acc acc',
  processEvents st acc events = Done acc' ->
  forall k, map (with_mainColumn 0) (snd acc' @ k)
            = map (with_mainColumn 0) (snd acc @ k).
Proof.
  induction events as [|ev events IH]; intros [tr em] acc' Hrun k;
    cbn [processEvents] in Hrun.
  - inversion Hrun. reflexivity.
  - destruct (processEvent st (tr, em) ev) as [[tr1 em1]| |] eqn:H1;
      try discriminate Hrun.
    cbn [bind] in Hrun. rewrite (IH _ _ Hrun k). cbn [snd].
    unfold processEvent in H1. destruct (ev_type ev).
    + destruct (chooseMainColumn st tr em ev) as [c| |]; try discriminate H1.
      cbn [bind] in H1. inversion H1; subst. apply setMainColumn_keeps.
    + inversion H1; subst. reflexivity.
Qed.

Lemma calculateEdgeMainColumn_keeps st st1 :
  calculateEdgeMainColumn st = Done st1 ->
  grid_blocks st1 = grid_blocks st /\
  forall k, map (with_mainColumn 0) (edge st1 @ k)
            = map (with_mainColumn 0) (edge st @ k).
Proof.
  unfold calculateEdgeMainColumn. intros H.
  destruct (processEvents _ _ _) as [r| |] eqn:Hp; try discriminate H.
  cbn [bind] in H. inversion H; subst. cbn [grid_blocks edge with_edge].
  split; [reflexivity|]. intro k. exact (@processEvents_keeps _ _ _ _ Hp k).
Qed.

Lemma calculateEdgeMainColumn_dest st st1 :
  calculateEdgeMainColumn st = Done st1 ->
  grid_blocks st1 = grid_blocks st /\
  forall k, map dest (edge st1 @ k) = map dest (edge st @ k).
Proof.
  intros H. destruct (@calculateEdgeMainColumn_keeps _ _ H) as (Hg & Hk).
  split; [exact Hg|]. intro k. specialize (Hk k).
  apply (f_equal (map dest)) in Hk. rewrite !map_map in Hk. exact Hk.
Qed.

(** The counters in the state that the routing reads. *)
Lemma prepareLayout_counts cfg bs entry st :
  prepareLayout cfg bs entry = Done st ->
  forall k,
    outputCount (grid_blocks st @ k)
    = Z.of_nat (count_occ N.eq_dec (UMap.keys (edge st)) k) /\
    inputCount (grid_blocks st @ k)
    = Z.of_nat (count_occ N.eq_dec
                  (flat_map (fun kl : ut64 * list GridEdge =>
                               map dest (snd kl)) (edge st)) k).
Proof.
  unfold prepareLayout. intros Hrun k.
  destruct (topoSort_initial bs entry) as (st1 & order & Hts & TS & _).
  rewrite Hts in Hrun. cbn [bind] in Hrun.
  destruct (computeAllBlockPlacement cfg order (grid_blocks st1))
    as [g2| |] eqn:Hplace; try discriminate Hrun.
  cbn [bind] in Hrun.
  cbn [grid_blocks with_grid_blocks with_edge edge blocks] in Hrun.
  set (em := initEdges (blocks st1)) in *.
  destruct (gridSize _) as [r c].
  assert (Hg : grid_blocks st = countEdges em g2 /\ edge st = em).
  { inversion Hrun. unfold initWidths.
    destruct (fold_left _ _ _) as [rh cw]. split; reflexivity. }
  destruct Hg as (Hg & He). rewrite Hg, He.
  destruct (countEdges_list em g2 k) as (Ho & Hi). rewrite Ho, Hi.
  pose proof (Frame_proj k (proj1 (@computeAllBlockPlacement_counts _ _ _ _ Hplace))) as Hc.
  pose proof (ts_frame TS k) as Hf.
  pose proof (initGridBlocks_at bs k) as H0.
  cbn [grid_blocks initialState] in Hf.
  assert (Hz : counts (grid_blocks st1 @ k) = (0, 0)).
  { transitivity (counts (forgetDag (grid_blocks st1 @ k))); [reflexivity|].
    rewrite Hf.
    transitivity (counts (with_id 0%N (initGridBlocks bs @ k)));
      [reflexivity|].
    rewrite H0. reflexivity. }
  rewrite Hz in Hc. unfold counts in Hc. injection Hc as Hci Hco.
  rewrite Hci, Hco. split; lia.
Qed.

(** X13. The two divisions of [getSpacingOverride] in [roughRouting] are
    never by zero: in the state that [roughRouting] reads, every block with
    an edge has [outputCount] at least 1, and the target of every edge has
    [inputCount] at least 1. *)
Theorem roughRouting_divisors_positive : forall cfg bs entry st st1,
  prepareLayout cfg bs entry = Done st ->
  calculateEdgeMainColumn st = Done st1 ->
  forall k e,
    In e (edge st1 @ k) ->
    1 <= outputCount (grid_blocks st1 @ k) /\
    1 <= inputCount (grid_blocks st1 @ dest e).
Proof.
  intros cfg bs entry st st1 Hprep Hcalc k e He.
  destruct (@calculateEdgeMainColumn_dest _ _ Hcalc) as (Hg & Hd).
  rewrite Hg.
  assert (Hin : In (dest e) (map dest (edge st @ k))).
  { rewrite <- Hd. now apply in_map. }
  assert (Hk : In (k, edge st @ k) (edge st)).
  { destruct (at_in_or_default (edge st) k) as [H|H]; [exact H|].
    rewrite H in Hin. destruct Hin. }
  destruct (@prepareLayout_counts _ _ _ _ Hprep k) as (Ho & _).
  destruct (@prepareLayout_counts _ _ _ _ Hprep (dest e)) as (_ & Hi).
  rewrite Ho, Hi. split.
  - assert (Hc : In k (UMap.keys (edge st))).
    { unfold UMap.keys. apply in_map_iff. now exists (k, edge st @ k). }
    apply (count_occ_In N.eq_dec) in Hc. unfold ut64 in *. lia.
  - assert (Hc : In (dest e)
                   (flat_map (fun kl : ut64 * list GridEdge =>
                                map dest (snd kl)) (edge st))).
    { apply in_flat_map. exists (k, edge st @ k). split; [exact Hk|exact Hin]. }
    apply (count_occ_In N.eq_dec) in Hc. unfold ut64 in *. lia.
Qed.

Lemma roughRouting_divisors_positive_witness :
  exists st st1,
    prepareLayout (cfg10 Medium) E4 1%N = Done st /\
    calculateEdgeMainColumn st = Done st1 /\
    forall k e,
      In e (edge st1 @ k) ->
      1 <= outputCount (grid_blocks st1 @ k) /\
      1 <= inputCount (grid_blocks st1 @ dest e).
Proof.
  destruct (prepareLayout (cfg10 Medium) E4 1%N) as [st| |] eqn:H;
    [|vm_compute in H; discriminate H|vm_compute in H; discriminate H].
  destruct (calculateEdgeMainColumn st) as [st1| |] eqn:H1.
  - exists st, st1. split; [reflexivity|]. split; [exact H1|].
    exact (@roughRouting_divisors_positive (cfg10 Medium) E4 1%N st st1 H H1).
  - exfalso. vm_compute in H. inversion H; subst st. vm_compute in H1.
    discriminate H1.
  - exfalso. vm_compute in H. inversion H; subst st. vm_compute in H1.
    discriminate H1.
Defined.

(** ** Unique ids *)

(** A loop of [topoSort] gives no id two entries and drops no grid
    block. *)
Lemma dfsStep_unique s :
  (NoDup (UMap.keys (d_grid s)) -> NoDup (UMap.keys (d_grid (dfsStep s)))) /\
  (NoDup (UMap.keys (d_blocks s)) -> NoDup (UMap.keys (d_blocks (dfsStep s)))) /\
  (forall k, In k (UMap.keys (d_grid s)) ->
             In k (UMap.keys (d_grid (dfsStep s)))).
Proof.
  unfold dfsStep. destruct (stack s) as [|[v i] rest]; [auto|].
  destruct (nth_error _ i) as [e|]; cbn [d_grid d_blocks].
  - destruct (_ @ target e); cbn [d_grid d_blocks]; splits; intros;
      try apply NoDup_keys_modify; try (apply in_keys_modify; right);
      assumption.
  - splits; intros; try apply NoDup_keys_modify; assumption.
Qed.

Lemma dfsLoop_unique fuel : forall s s',
  dfsLoop fuel s = Done s' ->
  (NoDup (UMap.keys (d_grid s)) -> NoDup (UMap.keys (d_grid s'))) /\
  (NoDup (UMap.keys (d_blocks s)) -> NoDup (UMap.keys (d_blocks s'))) /\
  (forall k, In k (UMap.keys (d_grid s)) -> In k (UMap.keys (d_grid s'))).
Proof.
  induction fuel as [|fuel IH]; intros s s' Hrun; cbn [dfsLoop] in Hrun;
    destruct (stack s) eqn:Hs; try discriminate Hrun;
    try (inversion Hrun; subst; now auto).
  destruct (IH _ _ Hrun) as (H1 & H2 & H3).
  destruct (dfsStep_unique s) as (H4 & H5 & H6).
  splits; auto.
Qed.

Lemma dfsRest_unique fuel ks : forall s s',
  dfsRest fuel ks s = Done s' ->
  (NoDup (UMap.keys (d_grid s)) -> NoDup (UMap.keys (d_grid s'))) /\
  (NoDup (UMap.keys (d_blocks s)) -> NoDup (UMap.keys (d_blocks s'))) /\
  (forall k, In k (UMap.keys (d_grid s)) -> In k (UMap.keys (d_grid s'))).
Proof.
  induction ks as [|k ks IH]; intros s s' Hrun; cbn [dfsRest] in Hrun.
  - inversion Hrun; subst. auto.
  - cbn [visited] in Hrun.
    destruct (UMap.touch (visited s) k @ k).
    + unfold dfsFragment in Hrun.
      destruct (dfsLoop fuel _) as [s2| |] eqn:H2; try discriminate Hrun.
      cbn [bind] in Hrun. apply dfsLoop_unique in H2.
      cbn [d_grid d_blocks] in H2. destruct H2 as (H3 & H4 & H5).
      destruct (IH _ _ Hrun) as (H6 & H7 & H8). splits; auto.
    + destruct (IH _ _ Hrun) as (H5 & H6 & H7). cbn [d_grid d_blocks] in *.
      auto.
    + destruct (IH _ _ Hrun) as (H5 & H6 & H7). cbn [d_grid d_blocks] in *.
      auto.
Qed.

Lemma topoSort_unique st entry st' order :
  topoSort st entry = Done (st', order) ->
  (NoDup (UMap.keys (grid_blocks st)) -> NoDup (UMap.keys (grid_blocks st'))) /\
  (NoDup (UMap.keys (blocks st)) -> NoDup (UMap.keys (blocks st'))) /\
  (forall k, In k (UMap.keys (grid_blocks st)) ->
             In k (UMap.keys (grid_blocks st'))).
Proof.
  unfold topoSort, dfsFragment. intros Hrun.
  destruct (dfsLoop _ _) as [s1| |] eqn:H1; try discriminate Hrun.
  cbn [bind] in Hrun.
  destruct (dfsRest _ _ s1) as [s2| |] eqn:H2; try discriminate Hrun.
  cbn [bind] in Hrun. inversion Hrun; subst.
  cbn [grid_blocks blocks with_grid_blocks with_blocks].
  apply dfsLoop_unique in H1. apply dfsRest_unique in H2.
  cbn [d_grid d_blocks] in H1.
  destruct H1 as (? & ? & ?), H2 as (? & ? & ?). splits; auto.
Qed.

Lemma initGridBlocks_unique bs :
  NoDup (UMap.keys (initGridBlocks bs)) /\
  forall k, In k (UMap.keys bs) -> In k (UMap.keys (initGridBlocks bs)).
Proof.
  unfold initGridBlocks.
  assert (Hgen : forall ks (g : UMap.t GridBlock),
            NoDup (UMap.keys g) ->
            NoDup (UMap.keys
                     (fold_left (fun g k => UMap.set g k (with_id k dflt))
                        ks g)) /\
            forall k, In k ks \/ In k (UMap.keys g) ->
                      In k (UMap.keys
                              (fold_left
                                 (fun g k => UMap.set g k (with_id k dflt))
                                 ks g))).
  { induction ks as [|k ks IH]; intros g Hg; cbn [fold_left].
    - split; [exact Hg|]. intros k [[]|Hk]. exact Hk.
    - destruct (IH (UMap.set g k (with_id k dflt))) as (H1 & H2);
        [now apply NoDup_keys_modify|].
      split; [exact H1|]. intros k' Hk'. apply H2.
      destruct Hk' as [[<-|Hk']|Hk'].
      + right. apply in_keys_modify. now left.
      + now left.
      + right. apply in_keys_modify. now right. }
  destruct (Hgen (UMap.keys bs) [] (NoDup_nil _)) as (H1 & H2).
  split; [exact H1|]. intros k Hk. apply H2. now left.
Qed.

Lemma countEdges_unique em g :
  NoDup (UMap.keys g) -> NoDup (UMap.keys (countEdges em g)).
Proof.
  unfold countEdges. revert g.
  induction em as [|kl em IH]; intros g Hg; cbn [fold_left]; [exact Hg|].
  apply IH.
  assert (Hin : forall l (g0 : UMap.t GridBlock),
            NoDup (UMap.keys g0) ->
            NoDup (UMap.keys
                     (fold_left
                        (fun g e =>
                           UMap.modify g (dest e)
                             (fun b => with_inputCount (inputCount b + 1) b))
                        l g0))).
  { induction l as [|e l IHl]; intros g0 Hg0; cbn [fold_left]; [exact Hg0|].
    apply IHl. now apply NoDup_keys_modify. }
  apply Hin. now apply NoDup_keys_modify.
Qed.

Lemma assignRows_touches g order k :
  In k order -> In k (UMap.keys (assignRows g order)).
Proof.
  unfold assignRows. intros Hk. apply in_rev in Hk. revert g.
  induction (rev order) as [|v L IH]; intros g; [destruct Hk|].
  cbn [fold_left]. destruct Hk as [<-|Hk]; [|now apply IH].
  assert (Hv : In v (UMap.keys (assignRows_block g v))).
  { unfold assignRows_block.
    assert (F : FrameBy dag_edge (fun _ => True) (UMap.touch g v)
                  (fold_left
                     (fun g0 tgt =>
                        UMap.modify g0 tgt
                          (raise_row (row (UMap.touch g v @ v) + 1)))
                     (dag_edge (UMap.touch g v @ v)) (UMap.touch g v))).
    { apply Frame_fold_left. intros g' t _ _.
      apply Frame_modify; [keeps | now right]. }
    apply (Frame_keys v F). apply in_keys_modify. now left. }
  revert Hv. generalize (assignRows_block g v). clear.
  induction L as [|a L IH]; intros g Hv; cbn [fold_left]; [exact Hv|].
  apply IH.
  assert (F : FrameBy dag_edge (fun _ => True) g (assignRows_block g a)).
  { apply assignRows_block_frame; auto. }
  exact (Frame_keys v F Hv).
Qed.

Lemma computeAllBlockPlacement_keys cfg order g g' k :
  computeAllBlockPlacement cfg order g = Done g' ->
  In k order -> In k (UMap.keys g').
Proof.
  unfold computeAllBlockPlacement. intros Hrun Hk.
  destruct (placeBlocks cfg _ order) as [[g1 p1]| |] eqn:Hp;
    try discriminate Hrun.
  cbn [bind fst] in Hrun.
  assert (F : SameCounts (assignRows g order) g').
  { apply (SameCounts_trans (selectTree_counts _)).
    apply (SameCounts_trans (findMergePoints_counts _)).
    apply (SameCounts_trans (@placeBlocks_counts _ _ _ _ _ _ Hp)).
    apply (SameCounts_trans (placeRoots_counts _)).
    exact (@absoluteBlocks_counts _ _ _ Hrun). }
  apply (Frame_keys k (proj1 F)). now apply assignRows_touches.
Qed.

(** The state that the routing reads: the ids of the grid blocks are
    unique, every id of the block map has a grid block, and [edge] is built
    from the block map. *)
Lemma prepareLayout_edges cfg bs entry st :
  prepareLayout cfg bs entry = Done st ->
  NoDup (UMap.keys (grid_blocks st)) /\
  (forall k, In k (UMap.keys (blocks st)) ->
             In k (UMap.keys (grid_blocks st))) /\
  edge st = initEdges (blocks st) /\
  (NoDup (UMap.keys bs) -> NoDup (UMap.keys (blocks st))).
Proof.
  unfold prepareLayout. intros Hrun.
  destruct (topoSort_initial bs entry) as (st1 & order & Hts & TS & _).
  rewrite Hts in Hrun. cbn [bind] in Hrun.
  destruct (computeAllBlockPlacement cfg order (grid_blocks st1))
    as [g2| |] eqn:Hplace; try discriminate Hrun.
  cbn [bind] in Hrun.
  cbn [grid_blocks with_grid_blocks with_edge edge blocks] in Hrun.
  set (em := initEdges (blocks st1)) in *.
  destruct (gridSize _) as [r c].
  assert (Hg : grid_blocks st = countEdges em g2 /\ edge st = em
               /\ blocks st = blocks st1).
  { inversion Hrun. unfold initWidths.
    destruct (fold_left _ _ _) as [rh cw]. splits; reflexivity. }
  destruct Hg as (Hg & He & Hb). rewrite Hg, He, Hb.
  destruct (@topoSort_unique _ _ _ _ Hts) as (Hu1 & Hu2 & Hu3).
  cbn [grid_blocks blocks initialState] in Hu1, Hu2, Hu3.
  destruct (@computeAllBlockPlacement_counts _ _ _ _ Hplace) as (F2 & N2).
  pose proof (countEdges_frame em g2) as F3.
  destruct (initGridBlocks_unique bs) as (Hi1 & Hi2).
  splits; auto.
  - apply countEdges_unique, N2, Hu1, Hi1.
  - intros k Hk. apply (Frame_keys k F3).
    apply (ts_blockkeys TS) in Hk. cbn [blocks initialState] in Hk.
    destruct Hk as [Hk|Hk].
    + apply (Frame_keys k F2), Hu3, Hi2, Hk.
    + exact (@computeAllBlockPlacement_keys _ _ _ _ k Hplace Hk).
Qed.

(** ** The routed edges *)

Lemma initEdges_fresh (m : UMap.t GraphBlock) k e :
  In e (initEdges m @ k) -> points e = [] /\ In k (UMap.keys m).
Proof.
  unfold initEdges.
  assert (Hgen : forall l (em : UMap.t (list GridEdge)),
            (forall e, In e (em @ k) -> points e = [] /\ In k (UMap.keys m)) ->
            incl (UMap.keys l) (UMap.keys m) ->
            forall e,
              In e (fold_left
                      (fun em (kb : ut64 * GraphBlock) =>
                         UMap.set em (fst kb)
                           (map (fun e => mkGridEdge (target e) (-1) [] 0)
                              (edges (snd kb)))) l em @ k) ->
              points e = [] /\ In k (UMap.keys m)).
  { induction l as [|[k0 b] l IH]; intros em Hem Hl e0 He0;
      cbn [fold_left] in He0; [now apply Hem|].
    apply (IH _) in He0; [exact He0| |].
    - intros e1 He1. cbn [fst snd] in He1. rewrite at_set in He1.
      destruct (N.eqb_spec k k0) as [Hk|_]; [|now apply Hem].
      apply in_map_iff in He1. destruct He1 as (ge & <- & _).
      split; [reflexivity|]. apply Hl. rewrite Hk. now left.
    - intros x Hx. apply Hl. now right. }
  apply (Hgen m []); [intros e0 []|apply incl_refl].
Qed.

(** [roughRouting] routes the edges of every grid block once. *)
Lemma roughRouting_edges cfg ks : forall st,
  NoDup ks ->
  let st' := fold_left (roughRouting_block cfg) ks st in
  grid_blocks st' = grid_blocks st /\
  (forall k, ~ In k ks -> edge st' @ k = edge st @ k) /\
  (forall k, In k ks ->
     exists bs',
       edge st' @ k
       = map (fun e => routeEdge cfg bs' (grid_blocks st @ k)
                         (grid_blocks st @ dest e) e) (edge st @ k)).
Proof.
  induction ks as [|v ks IH]; intros st Hnd; cbn [fold_left].
  - splits; auto. intros k [].
  - inversion Hnd as [|? ? Hnin Hnd']; subst.
    destruct (IH (roughRouting_block cfg st v) Hnd') as (Hg & Hout & Hin).
    assert (Hg1 : grid_blocks (roughRouting_block cfg st v) = grid_blocks st)
      by reflexivity.
    assert (He1 : forall k,
              edge (roughRouting_block cfg st v) @ k
              = if N.eqb k v
                then map (fun e =>
                            routeEdge cfg
                              (fold_left
                                 (fun bs e =>
                                    UMap.touch
                                      (UMap.touch bs
                                         (id (grid_blocks st @ v)))
                                      (id (grid_blocks st @ dest e)))
                                 (edge st @ v) (blocks st))
                              (grid_blocks st @ v)
                              (grid_blocks st @ dest e) e) (edge st @ v)
                else edge st @ k).
    { intro k. unfold roughRouting_block. cbn [edge with_edge with_blocks].
      apply at_set. }
    splits.
    + now rewrite Hg.
    + intros k Hk. rewrite Hout by (intro; apply Hk; now right). rewrite He1.
      destruct (N.eqb_spec k v) as [->|]; [exfalso; apply Hk; now left|].
      reflexivity.
    + intros k [<-|Hk].
      * rewrite (Hout v Hnin), He1, N.eqb_refl. eexists. reflexivity.
      * destruct (Hin k Hk) as (bs' & Hbs'). rewrite Hbs', Hg1, He1.
        destruct (N.eqb_spec k v) as [->|]; [contradiction|].
        exists bs'. reflexivity.
Qed.

(** The paths in the state that [roughRouting] leaves. *)
Lemma routed_paths cfg bs entry st0 st1 :
  prepareLayout cfg bs entry = Done st0 ->
  calculateEdgeMainColumn st0 = Done st1 ->
  forall k e,
    In e (edge (roughRouting cfg st1) @ k) ->
    (length (points e) = 2 \/ length (points e) = 4
     \/ length (points e) = 6)%nat /\
    alternating true (points e) /\
    (forall p, In p (points e) -> offset p = 0).
Proof.
  intros H0 H1 k e He.
  destruct (@prepareLayout_edges _ _ _ _ H0) as (Hnd & Hkeys & Hem & _).
  destruct (@calculateEdgeMainColumn_keeps _ _ H1) as (Hg & Hk1).
  assert (Hfresh : forall k' e1, In e1 (edge st1 @ k') ->
                     points e1 = [] /\ In k' (UMap.keys (grid_blocks st1))).
  { intros k' e1 He1.
    apply (in_map (with_mainColumn 0)) in He1. rewrite Hk1 in He1.
    apply in_map_iff in He1. destruct He1 as (e0 & Heq & He0).
    rewrite Hem in He0. apply initEdges_fresh in He0.
    destruct He0 as (Hp & Hin). split.
    - apply (f_equal points) in Heq. cbn in Heq. congruence.
    - rewrite Hg. now apply Hkeys. }
  rewrite <- Hg in Hnd.
  destruct (@roughRouting_edges cfg (UMap.keys (grid_blocks st1)) st1 Hnd)
    as (_ & Hout & Hin).
  fold (roughRouting cfg st1) in Hout, Hin.
  destruct (in_dec N.eq_dec k (UMap.keys (grid_blocks st1))) as [Hk|Hk].
  - destruct (Hin k Hk) as (bs' & Heq). rewrite Heq in He.
    apply in_map_iff in He. destruct He as (e1 & <- & He1).
    destruct (Hfresh k e1 He1) as (Hp & _).
    destruct (@routeEdge_shape cfg bs' (grid_blocks st1 @ k)
                (grid_blocks st1 @ dest e1) e1 Hp) as (Hl & Ha & Ho & _).
    splits; assumption.
  - rewrite (Hout k Hk) in He. destruct (Hfresh k e He) as (_ & Hc).
    contradiction.
Qed.

(** X14. In the state that [roughRouting] leaves, every edge has a grid
    path of two, four or six points, made of vertical and horizontal steps
    in turn (the first vertical), with every offset still 0: no edge is
    left without a path and none is routed twice. *)
Theorem routed_edges_have_paths : forall cfg bs entry st,
  routedState cfg bs entry = Done st ->
  forall k e,
    In e (edge st @ k) ->
    (length (points e) = 2 \/ length (points e) = 4
     \/ length (points e) = 6)%nat /\
    alternating true (points e) /\
    (forall p, In p (points e) -> offset p = 0).
Proof.
  intros cfg bs entry st. unfold routedState. intros Hrun k e He.
  destruct (prepareLayout cfg bs entry) as [st0| |] eqn:H0;
    try discriminate Hrun.
  cbn [bind] in Hrun.
  destruct (calculateEdgeMainColumn st0) as [st1| |] eqn:H1;
    try discriminate Hrun.
  cbn [bind] in Hrun. inversion Hrun; subst st. clear Hrun.
  exact (@routed_paths _ _ _ _ _ H0 H1 k e He).
Qed.

Lemma routed_edges_have_paths_witness :
  exists st,
    routedState (cfg10 Medium) E4 1%N = Done st /\
    forall k e, In e (edge st @ k) -> alternating true (points e).
Proof.
  destruct (routedState (cfg10 Medium) E4 1%N) as [st| |] eqn:H;
    [|vm_compute in H; discriminate H|vm_compute in H; discriminate H].
  exists st. split; [reflexivity|]. intros k e He.
  exact (proj1 (proj2
           (@routed_edges_have_paths (cfg10 Medium) E4 1%N st H k e He))).
Defined.

(** ** The edges through the placement of the segments *)

Lemma setOffsets_length pts : forall here eo i,
  length (fst (setOffsets here pts eo i)) = length pts.
Proof.
  induction pts as [|p pts IH]; intros here eo i; cbn [setOffsets];
    [reflexivity|].
  destruct here.
  - specialize (IH false eo (i + 1)).
    destruct (setOffsets false pts eo (i + 1)) as [r i']. cbn in *. now f_equal.
  - specialize (IH true eo i).
    destruct (setOffsets true pts eo i) as [r i']. cbn in *. now f_equal.
Qed.

Lemma copyToEdge_fold col eo l : forall done i,
  exists l',
    fst (fold_left (copyToEdge col eo) l (done, i)) = done ++ l' /\
    map (fun e => length (points e)) l' = map (fun e => length (points e)) l.
Proof.
  induction l as [|e l IH]; intros done i; cbn [fold_left].
  - exists []. now rewrite app_nil_r.
  - unfold copyToEdge at 2.
    destruct (points e) as [|p0 rest] eqn:Hp.
    + destruct (IH (done ++ [mkGridEdge (dest e) (mainColumn e) []
                               (secondaryPriority e)]) i) as (l' & H1 & H2).
      eexists (_ :: l'). rewrite H1, <- app_assoc. split; [reflexivity|].
      cbn [map points length]. rewrite Hp, H2. reflexivity.
    + pose proof (setOffsets_length rest col eo i) as Hlen.
      destruct (setOffsets col rest eo i) as [r i'] eqn:Hs. cbn [fst] in Hlen.
      destruct (IH (done ++ [mkGridEdge (dest e) (mainColumn e) (p0 :: r)
                               (secondaryPriority e)]) i') as (l' & H1 & H2).
      eexists (_ :: l'). rewrite H1, <- app_assoc. split; [reflexivity|].
      cbn [map points length]. rewrite Hp, H2. cbn [length]. now rewrite Hlen.
Qed.

Lemma copySegmentsToEdges_fold col eo em : forall done i,
  exists rest,
    fst (fold_left
           (fun (acc : UMap.t (list GridEdge) * Z)
                (kl : ut64 * list GridEdge) =>
              let '(done, i) := acc in
              let '(l, i') :=
                fold_left (copyToEdge col eo) (snd kl) ([], i) in
              (done ++ [(fst kl, l)], i'))
           em (done, i)) = done ++ rest /\
    Forall2 (fun kl' kl : ut64 * list GridEdge =>
               fst kl' = fst kl /\
               map (fun e => length (points e)) (snd kl')
               = map (fun e => length (points e)) (snd kl)) rest em.
Proof.
  induction em as [|kl em IH]; intros done i; cbn [fold_left].
  - exists []. rewrite app_nil_r. split; [reflexivity | constructor].
  - destruct (copyToEdge_fold col eo (snd kl) [] i) as (l' & H1 & H2).
    cbv beta iota.
    destruct (fold_left (copyToEdge col eo) (snd kl) ([], i)) as [l i'].
    cbn [fst app] in H1. subst l.
    destruct (IH (done ++ [(fst kl, l')]) i') as (rest & H3 & H4).
    exists ((fst kl, l') :: rest). rewrite <- app_assoc in H3.
    split; [exact H3|]. constructor; [split; [reflexivity | exact H2]|].
    exact H4.
Qed.

Lemma copySegmentsToEdges_lengths col eo em k :
  map (fun e => length (points e)) (copySegmentsToEdges col eo em @ k)
  = map (fun e => length (points e)) (em @ k).
Proof.
  destruct (copySegmentsToEdges_fold col eo em [] 0) as (rest & H1 & H2).
  assert (H1' : copySegmentsToEdges col eo em = rest) by exact H1.
  rewrite H1'. clear H1 H1'. unfold UMap.at_.
  induction H2 as [|[k1 l1] [k2 l2] rest em (Hk & Hl) H2 IH]; [reflexivity|].
  cbn [fst snd] in Hk, Hl. subst k2. cbn [UMap.find].
  destruct (N.eqb k k1); [exact Hl | exact IH].
Qed.

Lemma elaborateEdgePlacement_lengths cfg st st' k :
  elaborateEdgePlacement cfg st = Done st' ->
  map (fun e => length (points e)) (edge st' @ k)
  = map (fun e => length (points e)) (edge st @ k).
Proof.
  rewrite elaborateEdgePlacement_halves. intros H.
  destruct (verticalPlacement cfg st) as [[st1 eo]| |] eqn:Hv;
    try discriminate H.
  cbn [bind fst snd] in H.
  assert (H1 : map (fun e => length (points e)) (edge st1 @ k)
               = map (fun e => length (points e)) (edge st @ k)).
  { unfold verticalPlacement in Hv.
    destruct (calculateSegmentOffsets _ _ _ _ _ _ _ _) as [[segs eo1] ecw].
    destruct (calculateColumnOffsets _ _) as [[[co eco] w]| |];
      try discriminate Hv.
    cbn [bind] in Hv. inversion Hv; subst.
    cbn [edge with_edge with_columnOffsets].
    rewrite copySegmentsToEdges_lengths. f_equal. f_equal.
    unfold adjustColumnWidths. destruct (fold_left _ _ _) as [rh cw].
    reflexivity. }
  unfold horizontalPlacement in H.
  destruct (compressCoordinates _ _ _) as [[[[segs' ls] rs] cc]| |];
    try discriminate H.
  cbn [bind] in H.
  destruct (calculateSegmentOffsets _ _ _ _ _ _ _ _) as [[segs'' eo'] erh].
  inversion H; subst. cbn [edge with_edge with_edgeRowHeight with_blocks].
  rewrite copySegmentsToEdges_lengths. exact H1.
Qed.

(** ** The polylines of the result *)

Lemma find_map_fst {V : Type} (f : ut64 * V -> ut64 * V) (m : UMap.t V) k :
  (forall kb, fst (f kb) = fst kb) ->
  UMap.find (map f m) k
  = option_map (fun b => snd (f (k, b))) (UMap.find m k).
Proof.
  intros Hf. induction m as [|[k' b] m IH]; [reflexivity|].
  cbn [map UMap.find]. pose proof (Hf (k', b)) as H1.
  destruct (f (k', b)) as [k'' b'] eqn:Hfb. cbn [fst] in H1. subst k''.
  destruct (N.eqb_spec k k') as [->|]; [|exact IH].
  cbn [option_map]. now rewrite Hfb.
Qed.

(** Every edge of the result holds the polyline of the edge of the grid
    with the same index, or of an edge without points when the grid has no
    such edge. *)
Lemma convertToPixelCoordinates_edges cfg st st' w h :
  convertToPixelCoordinates cfg st = Done (st', w, h) ->
  forall k oe,
    In oe (edges (blocks st' @ k)) ->
    exists stx bs1 b re i,
      oe = edgePolyline stx bs1 b re (nth i (edge st @ k) dflt) /\
      (i < length (edges (blocks st @ k)))%nat /\
      y b = y (blocks st' @ k) /\ height b = height (blocks st' @ k) /\
      (forall t, y (blocks st' @ t) = y (bs1 @ t)).
Proof.
  unfold convertToPixelCoordinates. intros H k oe Hoe.
  destruct (calculateColumnOffsets (columnWidth st) (edgeColumnWidth st))
    as [[[co eco] w1]| |]; try discriminate H.
  cbn [bind] in H.
  destruct (calculateColumnOffsets _ _) as [[[ro ero] h1]| |];
    try discriminate H.
  cbn [bind] in H. inversion H; subst. clear H.
  cbn [blocks with_blocks with_grid_blocks with_rowOffsets
       with_columnOffsets] in Hoe |- *.
  match type of Hoe with
  | In oe (edges (map ?F2 (map ?F1 (blocks st)) @ k)) =>
      set (f2 := F2) in *; set (f1 := F1) in *;
      set (bs1 := map f1 (blocks st)) in *
  end.
  assert (Hf2 : forall kb, fst (f2 kb) = fst kb) by (intros [k' b]; reflexivity).
  assert (Hf1 : forall kb, fst (f1 kb) = fst kb) by (intros [k' b]; reflexivity).
  assert (Hy : forall t, y (map f2 bs1 @ t) = y (bs1 @ t)).
  { intro t. unfold UMap.at_. rewrite (find_map_fst f2 bs1 t Hf2).
    destruct (UMap.find bs1 t); reflexivity. }
  unfold UMap.at_ in Hoe |- *. rewrite (find_map_fst f2 bs1 k Hf2) in Hoe |- *.
  unfold bs1 in Hoe |- * at 1 2. rewrite (find_map_fst f1 _ k Hf1) in Hoe |- *.
  destruct (UMap.find (blocks st) k) as [b0|]; [|destruct Hoe].
  cbn [option_map f2 f1 snd edges with_edges with_xy y height] in Hoe |- *.
  apply in_map_iff in Hoe. destruct Hoe as ([i re] & Heq & Hin).
  cbn [fst snd] in Heq. apply in_combine_l in Hin. apply in_seq in Hin.
  eexists _, bs1, _, re, i. split; [symmetry; exact Heq|].
  split; [lia|]. split; [reflexivity|]. split; [reflexivity|].
  intro t. exact (Hy t).
Qed.

(** X15. In the result of a call that returns, every polyline is a path of
    vertical and horizontal segments in turn, the first one vertical, and
    ends at the [y] of the block that the edge names as its target (its
    upper side). *)
Theorem output_polylines_rectilinear : forall cfg bs entry l,
  CalculateLayout cfg bs entry = Done l ->
  forall k oe,
    In oe (edges (out_blocks l @ k)) ->
    rectilinear true (polyline oe) /\
    polyline oe <> [] /\
    snd (last (polyline oe) (0, 0)) = y (out_blocks l @ target oe).
Proof.
  intros cfg bs entry l. intro H.
  destruct (CalculateLayout_stages _ _ _ H)
    as (st0 & st1 & st2 & st3 & w & h & H0 & H1 & H2 & H3 & ->).
  clear H. cbn [out_blocks].
  intros k oe Hoe.
  destruct (@convertToPixelCoordinates_edges _ _ _ _ _ H3 k oe Hoe)
    as (stx & bs1 & b & re & i & -> & _ & _ & _ & Hy).
  set (e := nth i (edge st2 @ k) dflt).
  assert (Heven : Nat.even (length (points e)) = true).
  { destruct (nth_in_or_default i (edge st2 @ k) dflt) as [He|He];
      fold e in He; [|rewrite He; reflexivity].
    apply (in_map (fun e => length (points e))) in He.
    rewrite (@elaborateEdgePlacement_lengths _ _ _ k H2) in He.
    apply in_map_iff in He. destruct He as (e' & Hlen & He').
    destruct (@routed_paths _ _ _ _ _ H0 H1 k e' He') as (Hl & _).
    rewrite <- Hlen. destruct Hl as [Hl|[Hl|Hl]]; rewrite Hl; reflexivity. }
  destruct (@edgePolyline_shape stx bs1 b re e Heven)
    as (Ht & Hl & Hr & _ & Hlast).
  cbn zeta in Ht, Hl, Hr, Hlast.
  split; [exact Hr|]. split.
  - intro Hn. rewrite Hn in Hl. cbn [length] in Hl. lia.
  - rewrite Hlast, Ht. symmetry. apply Hy.
Qed.

Lemma output_polylines_rectilinear_witness :
  exists l,
    CalculateLayout (cfg10 Medium) E4 1%N = Done l /\
    forall k oe,
      In oe (edges (out_blocks l @ k)) -> rectilinear true (polyline oe).
Proof.
  destruct (CalculateLayout (cfg10 Medium) E4 1%N) as [l| |] eqn:H;
    [|vm_compute in H; discriminate H|vm_compute in H; discriminate H].
  exists l. split; [reflexivity|]. intros k oe Hoe.
  exact (proj1 (@output_polylines_rectilinear (cfg10 Medium) E4 1%N l H
                  k oe Hoe)).
Defined.

Lemma initEdges_at (m : UMap.t GraphBlock) k :
  NoDup (UMap.keys m) ->
  initEdges m @ k
  = map (fun e => mkGridEdge (target e) (-1) [] 0) (edges (m @ k)).
Proof.
  intros Hnd. rewrite (@initEdges_unique m Hnd).
  apply (at_map_snd
           (fun b : GraphBlock =>
              map (fun e => mkGridEdge (target e) (-1) [] 0) (edges b))).
  reflexivity.
Qed.

Lemma roughRouting_edge_count cfg st k :
  NoDup (UMap.keys (grid_blocks st)) ->
  length (edge (roughRouting cfg st) @ k) = length (edge st @ k).
Proof.
  intros Hnd.
  destruct (@roughRouting_edges cfg (UMap.keys (grid_blocks st)) st Hnd)
    as (_ & Hout & Hin).
  fold (roughRouting cfg st) in Hout, Hin.
  destruct (in_dec N.eq_dec k (UMap.keys (grid_blocks st))) as [Hk|Hk].
  - destruct (Hin k Hk) as (bs' & ->). apply length_map.
  - now rewrite Hout.
Qed.

(** X16. When the ids of the input are unique, every edge of the result has
    a polyline of two, four or six points that starts at the lower side of
    its source block ([y + height]). *)
Theorem output_polylines_start_below_source : forall cfg bs entry l,
  NoDup (UMap.keys bs) ->
  CalculateLayout cfg bs entry = Done l ->
  forall k oe,
    In oe (edges (out_blocks l @ k)) ->
    (length (polyline oe) = 2 \/ length (polyline oe) = 4
     \/ length (polyline oe) = 6)%nat /\
    snd (hd (0, 0) (polyline oe))
    = y (out_blocks l @ k) + height (out_blocks l @ k).
Proof.
  intros cfg bs entry l Hnd. intro H.
  destruct (CalculateLayout_stages _ _ _ H)
    as (st0 & st1 & st2 & st3 & w & h & H0 & H1 & H2 & H3 & ->).
  clear H. cbn [out_blocks].
  intros k oe Hoe.
  destruct (@convertToPixelCoordinates_edges _ _ _ _ _ H3 k oe Hoe)
    as (stx & bs1 & b & re & i & -> & Hi & Hyb & Hhb & _).
  destruct (@prepareLayout_edges _ _ _ _ H0) as (Hndg & _ & Hem & Hndb).
  destruct (@calculateEdgeMainColumn_keeps _ _ H1) as (Hg & Hk1).
  pose proof (calculateEdgeMainColumn_blocks _ H1) as Hb1.
  assert (Hcount : length (edge st2 @ k) = length (edges (blocks st2 @ k))).
  { transitivity (length (edge (roughRouting cfg st1) @ k)).
    { pose proof (@elaborateEdgePlacement_lengths _ _ _ k H2) as Hl.
      apply (f_equal (@length _)) in Hl. now rewrite !length_map in Hl. }
    rewrite roughRouting_edge_count by (now rewrite Hg).
    transitivity (length (edge st0 @ k)).
    { pose proof (Hk1 k) as Hl. apply (f_equal (@length _)) in Hl.
      now rewrite !length_map in Hl. }
    rewrite Hem, (@initEdges_at _ k (Hndb Hnd)), length_map.
    rewrite (@elaborateEdgePlacement_blocks _ _ _ k H2), roughRouting_blocks,
      Hb1. reflexivity. }
  set (e := nth i (edge st2 @ k) dflt).
  assert (He : In e (edge st2 @ k)) by (apply nth_In; lia).
  assert (Hlen : (length (points e) = 2 \/ length (points e) = 4
                  \/ length (points e) = 6)%nat).
  { apply (in_map (fun e => length (points e))) in He.
    rewrite (@elaborateEdgePlacement_lengths _ _ _ k H2) in He.
    apply in_map_iff in He. destruct He as (e' & Hl & He').
    destruct (@routed_paths _ _ _ _ _ H0 H1 k e' He') as (Hl' & _).
    rewrite <- Hl. exact Hl'. }
  assert (Heven : Nat.even (length (points e)) = true)
    by (destruct Hlen as [Hl|[Hl|Hl]]; rewrite Hl; reflexivity).
  destruct (@edgePolyline_shape stx bs1 b re e Heven)
    as (_ & Hl & _ & Hh & _).
  cbn zeta in Hl, Hh. split.
  - rewrite Hl. lia.
  - rewrite Hh, Hyb, Hhb; [reflexivity|].
    intro Hn. rewrite Hn in Hlen. cbn in Hlen. lia.
Qed.

Lemma output_polylines_start_below_source_witness :
  NoDup (UMap.keys E4) /\
  exists l,
    CalculateLayout (cfg10 Medium) E4 1%N = Done l /\
    forall k oe,
      In oe (edges (out_blocks l @ k)) ->
      snd (hd (0, 0) (polyline oe))
      = y (out_blocks l @ k) + height (out_blocks l @ k).
Proof.
  assert (Hnd : NoDup (UMap.keys E4)).
  { cbn. repeat constructor; cbn; intuition discriminate. }
  split; [exact Hnd|].
  destruct (CalculateLayout (cfg10 Medium) E4 1%N) as [l| |] eqn:H;
    [|vm_compute in H; discriminate H|vm_compute in H; discriminate H].
  exists l. split; [reflexivity|]. intros k oe Hoe.
  exact (proj2 (@output_polylines_start_below_source (cfg10 Medium) E4 1%N l
                  Hnd H k oe Hoe)).
Defined.

(** ** The widths of the edge columns and rows *)

Lemma Forall_set_nth {A : Type} (P : A -> Prop) n (l : list A) a :
  Forall P l -> P a -> Forall P (set_nth n l a).
Proof.
  intros Hl Ha. revert n.
  induction Hl as [|h t Hh Ht IH]; intros [|n]; simpl; auto.
Qed.

Lemma Forall_vset (P : Z -> Prop) v i a :
  Forall P v -> P a -> Forall P (vset v i a).
Proof.
  intros Hv Ha. unfold vset. destruct (i <? 0); auto using Forall_set_nth.
Qed.

Lemma segmentColumn_widths m columnWidth H segmentSpacing s :
  m <= segmentSpacing ->
  Forall (fun w => m <= w) (ss_edgeColumnWidth s) ->
  Forall (fun w => m <= w)
    (ss_edgeColumnWidth (segmentColumn columnWidth H segmentSpacing s)) /\
  length (ss_edgeColumnWidth (segmentColumn columnWidth H segmentSpacing s))
  = length (ss_edgeColumnWidth s).
Proof.
  intros Hm Hall. unfold segmentColumn.
  destruct (ss_segments s) as [|s0 segs]; [auto|].
  repeat match goal with
         | |- context [placeSegments ?f ?sp ?acc ?l] =>
             destruct (placeSegments f sp acc l)
         end.
  cbn [ss_edgeColumnWidth]. split.
  - apply Forall_vset; [assumption | lia].
  - apply length_vset.
Qed.

Lemma segmentColumns_widths m columnWidth H segmentSpacing fuel : forall s,
  m <= segmentSpacing ->
  Forall (fun w => m <= w) (ss_edgeColumnWidth s) ->
  Forall (fun w => m <= w)
    (ss_edgeColumnWidth
       (segmentColumns fuel columnWidth H segmentSpacing s)) /\
  length (ss_edgeColumnWidth
            (segmentColumns fuel columnWidth H segmentSpacing s))
  = length (ss_edgeColumnWidth s).
Proof.
  induction fuel as [|fuel IH]; intros s Hm Hall; cbn [segmentColumns].
  - destruct (ss_segments s); auto.
  - destruct (ss_segments s) eqn:Hs; [auto|].
    destruct (@segmentColumn_widths m columnWidth H segmentSpacing s Hm Hall)
      as [Hall1 Hlen1].
    destruct (IH _ Hm Hall1) as [Hall2 Hlen2]. split; [assumption|].
    now rewrite Hlen2.
Qed.

Lemma calculateSegmentOffsets_widths m segments edgeOffsets edgeColumnWidth
    nodeRightSide nodeLeftSide columnWidth H segmentSpacing :
  m <= segmentSpacing ->
  Forall (fun w => m <= w) edgeColumnWidth ->
  let w := snd (calculateSegmentOffsets segments edgeOffsets edgeColumnWidth
                  nodeRightSide nodeLeftSide columnWidth H segmentSpacing) in
  Forall (fun w => m <= w) w /\ length w = length edgeColumnWidth.
Proof.
  intros Hm Hall. unfold calculateSegmentOffsets. cbn [snd].
  apply segmentColumns_widths; assumption.
Qed.

Lemma edgeWidths_spec n inner outer :
  0 <= n ->
  Forall (fun w => Z.min inner outer <= w) (edgeWidths n inner outer) /\
  zlen (edgeWidths n inner outer) = n.
Proof.
  intros Hn. unfold edgeWidths, assign. split.
  - apply Forall_vset; [apply Forall_vset|]; try lia.
    apply Forall_forall. intros w Hw. apply repeat_spec in Hw. lia.
  - rewrite !zlen_vset. unfold zlen. rewrite repeat_length. lia.
Qed.

Lemma vget_assign_zero n j : vget (assign n 0) j = 0.
Proof.
  unfold vget, assign. destruct (j <? 0); [reflexivity|].
  destruct (Nat.lt_ge_cases (Z.to_nat j) (Z.to_nat n)) as [Hlt|Hge].
  - now apply nth_repeat_lt.
  - apply nth_overflow. now rewrite repeat_length.
Qed.

Lemma adjustColumnWidths_rows st :
  0 <= rows st ->
  let st' := adjustColumnWidths st in
  grid_blocks st' = grid_blocks st /\ rows st' = rows st /\
  zlen (rowHeight st') = rows st /\
  (forall j, 0 <= vget (rowHeight st') j) /\
  forall k,
    In k (UMap.keys (grid_blocks st)) ->
    0 <= row (grid_blocks st @ k) < rows st ->
    height (blocks st @ k)
      <= vget (rowHeight st') (row (grid_blocks st @ k)).
Proof.
  intros Hr. unfold adjustColumnWidths.
  match goal with
  | |- context [fold_left ?F ?l ?a] =>
      set (step := F);
      assert (Hgen : forall ks rh cw,
                let r := fold_left step ks (rh, cw) in
                zlen (fst r) = zlen rh /\
                (forall j, vget rh j <= vget (fst r) j) /\
                forall k,
                  In k ks ->
                  0 <= row (grid_blocks st @ k) < zlen rh ->
                  height (blocks st @ k)
                    <= vget (fst r) (row (grid_blocks st @ k)))
  end.
  { induction ks as [|v ks IH]; intros rh cw; cbn [fold_left].
    - cbn. splits; auto; try lia; try (intros ? []).
    - set (node := grid_blocks st @ v). set (ib := blocks st @ v).
      set (rh1 := vset rh (row node) (Z.max (height ib) (vget rh (row node)))).
      assert (Hstep : fst (step (rh, cw) v) = rh1) by reflexivity.
      destruct (step (rh, cw) v) as [rh1' cw1]. cbn [fst] in Hstep. subst rh1'.
      destruct (IH rh1 cw1) as (Hl1 & Hm1 & Hfit).
      cbn zeta in Hl1, Hm1, Hfit.
      assert (Hrh1 : forall j, vget rh j <= vget rh1 j)
        by (intro j; apply vset_max_mono).
      splits.
      + rewrite Hl1. apply zlen_vset.
      + intro j. specialize (Hrh1 j). specialize (Hm1 j). lia.
      + intros k [<-|Hk] Hrow.
        * fold node ib in Hrow |- *.
          pose proof (Hm1 (row node)).
          pose proof (@vset_max_ge rh (row node) (height ib) Hrow).
          fold rh1 in H0. lia.
        * apply Hfit; auto. unfold rh1. rewrite zlen_vset. exact Hrow. }
  specialize (Hgen (UMap.keys (grid_blocks st)) (assign (rows st) 0)
                (assign (columns st) 0)).
  cbn zeta in Hgen.
  destruct (fold_left step (UMap.keys (grid_blocks st))
              (assign (rows st) 0, assign (columns st) 0)) as [rh cw].
  cbn [fst snd] in Hgen. destruct Hgen as (Hl1 & Hm1 & Hfit).
  assert (Hza : zlen (assign (rows st) 0) = rows st).
  { unfold zlen, assign. rewrite repeat_length. lia. }
  rewrite Hza in Hl1, Hfit.
  cbn [with_widths rowHeight grid_blocks rows]. splits; auto.
  intro j. specialize (Hm1 j). rewrite vget_assign_zero in Hm1. exact Hm1.
Qed.

(** What [elaborateEdgePlacement] leaves of the rows: the grid blocks and the
    number of rows are kept, every row is as high as its highest block, and
    no edge row is lower than the smaller of the two vertical spacings. *)
Lemma elaborateEdgePlacement_rows cfg st st' :
  elaborateEdgePlacement cfg st = Done st' ->
  0 <= rows st ->
  grid_blocks st' = grid_blocks st /\ rows st' = rows st /\
  zlen (rowHeight st') = rows st /\
  (forall j, 0 <= vget (rowHeight st') j) /\
  (forall k,
     In k (UMap.keys (grid_blocks st)) ->
     0 <= row (grid_blocks st @ k) < rows st ->
     height (blocks st @ k)
       <= vget (rowHeight st') (row (grid_blocks st @ k))) /\
  zlen (edgeRowHeight st') = rows st + 1 /\
  Forall (fun w =>
            Z.min (blockVerticalSpacing cfg) (edgeVerticalSpacing cfg) <= w)
    (edgeRowHeight st').
Proof.
  rewrite elaborateEdgePlacement_halves. intros H Hr.
  destruct (verticalPlacement cfg st) as [[st1 eo]| |] eqn:Hv;
    try discriminate H.
  cbn [bind fst snd] in H.
  assert (H1 : grid_blocks st1 = grid_blocks st /\ rows st1 = rows st /\
               zlen (rowHeight st1) = rows st /\
               (forall j, 0 <= vget (rowHeight st1) j) /\
               (forall k,
                  In k (UMap.keys (grid_blocks st)) ->
                  0 <= row (grid_blocks st @ k) < rows st ->
                  height (blocks st @ k)
                    <= vget (rowHeight st1) (row (grid_blocks st @ k)))).
  { unfold verticalPlacement in Hv.
    destruct (calculateSegmentOffsets _ _ _ _ _ _ _ _) as [[segs eo1] ecw].
    destruct (calculateColumnOffsets _ _) as [[[co eco] w]| |];
      try discriminate Hv.
    cbn [bind] in Hv. inversion Hv; subst.
    cbn [grid_blocks rows rowHeight with_edge with_columnOffsets].
    match goal with
    | |- context [adjustColumnWidths ?s] =>
        pose proof (@adjustColumnWidths_rows s Hr) as Ha
    end.
    cbn zeta in Ha.
    cbn [grid_blocks rows blocks with_edgeColumnWidth] in Ha. exact Ha. }
  destruct H1 as (Hg1 & Hrows1 & Hlen1 & Hpos1 & Hfit1).
  unfold horizontalPlacement in H.
  destruct (compressCoordinates _ _ _) as [[[[segs' ls] rs] cc]| |];
    try discriminate H.
  cbn [bind] in H.
  match type of H with
  | context [calculateSegmentOffsets ?a ?b ?c ?d ?e ?f ?g ?h] =>
      pose proof (@calculateSegmentOffsets_widths
                    (Z.min (blockVerticalSpacing cfg)
                       (edgeVerticalSpacing cfg)) a b c d e f g h) as Hw;
      destruct (calculateSegmentOffsets a b c d e f g h)
        as [[segs'' eo'] erh]
  end.
  cbn [snd] in Hw.
  cbn [edgeRowHeight with_edgeRowHeight with_blocks rows] in Hw.
  assert (Hrows1' : 0 <= rows st1 + 1) by lia.
  destruct (@edgeWidths_spec (rows st1 + 1) (blockVerticalSpacing cfg)
              (edgeVerticalSpacing cfg) Hrows1') as [Hew Hewl].
  destruct Hw as [Hall Hlen]; [lia | exact Hew |].
  inversion H; subst.
  cbn [grid_blocks rows rowHeight edgeRowHeight with_edge with_edgeRowHeight
       with_blocks].
  splits; auto.
  - unfold zlen in *. rewrite Hlen. lia.
Qed.

(** ** The pixel rows *)

Lemma columnOffsetsLoop_stack cw : forall ecw pos co eco final,
  columnOffsetsLoop cw ecw pos = (co, eco, final) ->
  (forall i, 0 <= nth i cw 0) -> (forall i, 0 <= nth i ecw 0) ->
  pos <= final /\
  (forall i, (i < length cw)%nat ->
     pos + nth 0 ecw 0 <= nth i co 0 /\ nth i co 0 + nth i cw 0 <= final) /\
  (forall i j, (i < j)%nat -> (j < length cw)%nat ->
     nth i co 0 + nth i cw 0 + nth (S i) ecw 0 <= nth j co 0).
Proof.
  induction cw as [|w cw IH]; intros ecw pos co eco final Heq Hcw Hecw;
    cbn [columnOffsetsLoop] in Heq.
  - inversion Heq; subst. cbn [length]. splits; [lia | |]; intros; lia.
  - destruct (columnOffsetsLoop cw (List.tail ecw) (pos + hd 0 ecw + w))
      as [[co' eco'] final'] eqn:Hrec.
    inversion Heq; subst. clear Heq.
    assert (Hw : 0 <= w) by apply (Hcw 0%nat).
    assert (Hhd : hd 0 ecw = nth 0 ecw 0) by (destruct ecw; reflexivity).
    assert (Htl : forall i, nth i (List.tail ecw) 0 = nth (S i) ecw 0).
    { intro i. destruct ecw; [destruct i; reflexivity | reflexivity]. }
    assert (He0 : 0 <= nth 0 ecw 0) by apply Hecw.
    destruct (IH _ _ _ _ _ Hrec) as (Hle & Hin & Hgap).
    { intro i. apply (Hcw (S i)). }
    { intro i. rewrite Htl. apply Hecw. }
    rewrite Hhd in *. splits.
    + lia.
    + intros [|i] Hi; cbn [nth length] in *.
      * lia.
      * destruct (Hin i) as [H1 H2]; [lia|]. rewrite Htl in H1.
        pose proof (Hecw 1%nat). lia.
    + intros [|i] [|j] Hij Hj; cbn [nth length] in *; try lia.
      * destruct (Hin j) as [H1 _]; [lia|]. rewrite Htl in H1. lia.
      * specialize (Hgap i j). rewrite Htl in Hgap. apply Hgap; lia.
Qed.


Lemma find_in_keys {V : Type} `{Default V} (m : UMap.t V) k :
  In k (UMap.keys m) -> UMap.find m k = Some (m @ k).
Proof.
  unfold UMap.keys, UMap.at_. induction m as [|[k0 v0] m IH]; simpl; [tauto|].
  intros [->|Hk].
  - now rewrite N.eqb_refl.
  - destruct (N.eqb_spec k k0); [reflexivity | auto].
Qed.

Lemma at_fold_touch_grid (l : list ut64) : forall (g : UMap.t GridBlock) k,
  fold_left UMap.touch l g @ k = g @ k.
Proof.
  induction l as [|a l IH]; intros g k; cbn [fold_left]; [reflexivity|].
  rewrite IH. apply at_touch.
Qed.


(** The placement keeps the rows that [assignRows] has given. *)
Lemma placement_rows cfg bs entry st order g2 :
  TopoSorted (initialState bs) entry st order ->
  computeAllBlockPlacement cfg order (grid_blocks st) = Done g2 ->
  forall k, row (g2 @ k) = row (assignRows (grid_blocks st) order @ k).
Proof.
  intros TS Hrun. unfold computeAllBlockPlacement in Hrun.
  set (g1 := grid_blocks st) in *.
  set (K := fun k => In k order).
  assert (Hdag1 : forall a b, In b (dag_edge (g1 @ a)) -> K b).
  { intros a b Hb. apply (@topoOrdered_in g1 order a b (ts_topo TS)); auto.
    apply (ts_dag_in TS). intro Hn. fold g1 in Hn. rewrite Hn in Hb.
    destruct Hb. }
  set (gA := assignRows g1 order) in *.
  assert (FA : FrameBy dag_edge K g1 gA)
    by (apply assignRows_frame; auto).
  set (gB := selectTree gA) in *.
  assert (FB : FrameBy dag_edge K gA gB).
  { apply selectTree_frame. intros a b Hb.
    rewrite (Frame_proj a FA) in Hb. eauto. }
  destruct (tree_after_selectTree TS) as (TB & HfB). fold g1 gA gB in TB, HfB.
  assert (HtreeB : forall a b, In b (tree_edge (gB @ a)) -> K b).
  { intros a b Hb. apply (tree_dag TB) in Hb.
    rewrite (Frame_proj a FB), (Frame_proj a FA) in Hb. eauto. }
  set (gC := findMergePoints gB) in *.
  assert (FC : Frame K gB gC) by (apply findMergePoints_frame; auto).
  destruct (placeBlocks cfg (gC, newPool) order) as [[gD pD]| |] eqn:HD;
    try discriminate Hrun.
  cbn [bind fst] in Hrun.
  assert (FD : Frame K gC gD).
  { eapply placeBlocks_frame; [exact HD | auto |].
    intros a c Hc. rewrite (Frame_tree a FC) in Hc. eauto. }
  set (gE := placeRoots gD) in *.
  assert (FE : Frame K gD gE) by apply placeRoots_frame.
  assert (FBE : Frame K gB gE).
  { eapply Frame_trans; [exact FC|]. eapply Frame_trans; eauto. }
  assert (Htopo : topoRev (fun k => tree_edge (gE @ k)) (rev order)).
  { intros l1 a l2 Heq b Hb.
    apply (topoRev_of_ordered (ts_topo TS) l1 a l2 Heq).
    rewrite (Frame_tree a FBE) in Hb. apply (tree_dag TB) in Hb.
    rewrite (Frame_proj a FB), (Frame_proj a FA) in Hb. exact Hb. }
  destruct (@absoluteBlocks_spec K (rev order) gE g2 Hrun
              (NoDup_rev (ts_nodup TS)) Htopo)
    as (F2 & _ & _).
  { intros v Hv. unfold K. now apply in_rev. }
  assert (FB2 : Frame K gB g2) by (eapply Frame_trans; eauto).
  intro k. rewrite (Frame_row k FB2). apply (forgetTree_fields (HfB k)).
Qed.

(** The rows with which [CalculateLayout] enters the routing: every row is
    inside the grid, and every dag edge leads to a later row. *)
Lemma prepareLayout_rows cfg bs entry st0 st order :
  prepareLayout cfg bs entry = Done st0 ->
  topoSort (initialState bs) entry = Done (st, order) ->
  (forall k, 0 <= row (grid_blocks st0 @ k) < rows st0) /\
  (forall a b,
     In b (dag_edge (grid_blocks st @ a)) ->
     row (grid_blocks st0 @ a) + 1 <= row (grid_blocks st0 @ b) /\
     In a (UMap.keys (blocks st0)) /\ In b (UMap.keys (blocks st0))) /\
  In entry (UMap.keys (blocks st0)).
Proof.
  unfold prepareLayout. intros Hrun Htopo.
  destruct (topoSort_initial bs entry) as (st1 & order1 & Hts & TS & _).
  rewrite Hts in Htopo. injection Htopo as <- <-.
  rewrite Hts in Hrun. cbn [bind] in Hrun.
  destruct (computeAllBlockPlacement cfg order1 (grid_blocks st1))
    as [g2| |] eqn:Hplace; try discriminate Hrun.
  cbn [bind] in Hrun.
  pose proof (@placement_rows cfg bs entry st1 order1 g2 TS Hplace) as Hrows.
  destruct (rows_after_assignRows TS) as (HfA & HrowA & HdagA).
  cbn zeta in HfA, HrowA, HdagA.
  cbn [grid_blocks with_grid_blocks with_edge edge blocks] in Hrun.
  set (em := initEdges (blocks st1)) in *.
  set (g3 := countEdges em g2) in *.
  destruct (gridSize_rows g3) as (Hr1 & Hrall).
  destruct (gridSize g3) as [r c] eqn:Hsize.
  assert (Hst0 : initWidths (with_rows_columns r c
                               (with_grid_blocks g3
                                  (with_edge em (with_grid_blocks g2 st1))))
                 = st0) by congruence.
  clear Hrun.
  pose proof (countEdges_frame em g2) as F3. fold g3 in F3.
  assert (Hrow3 : forall k, row (g3 @ k) = row (g2 @ k)).
  { intro k. pose proof (Frame_proj k F3) as H. simpl in H. congruence. }
  assert (Hg0 : grid_blocks st0 = g3 /\ rows st0 = r /\
                blocks st0 = blocks st1).
  { subst st0. unfold initWidths.
    match goal with
    | |- context [fold_left ?f ?l ?a] => destruct (fold_left f l a) as [rh cw]
    end.
    cbn. auto. }
  destruct Hg0 as (Hg0 & Hr0 & Hb0). rewrite Hg0, Hr0, Hb0.
  cbn [fst] in Hr1, Hrall.
  splits.
  - intro k. rewrite Hrow3, Hrows. split; [apply HrowA|].
    destruct (in_dec N.eq_dec k (UMap.keys g3)) as [Hk|Hk].
    + apply in_keys_at in Hk. specialize (Hrall _ Hk). cbn [snd] in Hrall.
      rewrite Hrow3, Hrows in Hrall. unfold size_t_plus in Hrall.
      pose proof (HrowA k) as Hk0.
      destruct (Z.ltb_spec (row (assignRows (grid_blocks st1) order1 @ k)) 0);
        lia.
    + rewrite <- Hrows, <- Hrow3. rewrite (at_in_keys _ _ Hk).
      cbn [row dflt GridBlock_default]. lia.
  - intros a b Hb.
    assert (Hb' : In b (dag_edge (assignRows (grid_blocks st1) order1 @ a))).
    { rewrite (forgetRow_dag (HfA a)). exact Hb. }
    assert (Ha : In a order1).
    { apply (ts_dag_in TS). intro Hn. rewrite Hn in Hb. destruct Hb. }
    assert (Hbo : In b order1)
      by (apply (@topoOrdered_in _ order1 a b (ts_topo TS)); auto).
    splits.
    + rewrite !Hrow3, !Hrows. now apply HdagA.
    + apply (ts_blockkeys TS). now right.
    + apply (ts_blockkeys TS). now right.
  - apply (ts_blockkeys TS). right. apply (ts_entry_in TS).
Qed.

Lemma calculateEdgeMainColumn_rows st st1 :
  calculateEdgeMainColumn st = Done st1 ->
  rows st1 = rows st /\ columns st1 = columns st.
Proof.
  unfold calculateEdgeMainColumn. intros H.
  destruct (processEvents _ _ _) as [r| |]; try discriminate H.
  cbn [bind] in H. inversion H. split; reflexivity.
Qed.

Lemma roughRouting_grid cfg st :
  grid_blocks (roughRouting cfg st) = grid_blocks st /\
  rows (roughRouting cfg st) = rows st /\
  columns (roughRouting cfg st) = columns st.
Proof.
  unfold roughRouting. generalize (UMap.keys (grid_blocks st)). intros ks.
  revert st. induction ks as [|v ks IH]; intros st; cbn [fold_left];
    [auto|].
  destruct (IH (roughRouting_block cfg st v)) as (H1 & H2 & H3).
  rewrite H1, H2, H3. unfold roughRouting_block.
  cbn [grid_blocks rows columns with_edge with_blocks]. auto.
Qed.



(** The blocks of example E4 have sizes that are not negative. *)
Lemma E4_sizesNonNegative : sizesNonNegative E4.
Proof.
  intro k. unfold E4, UMap.at_. cbn [UMap.find].
  destruct (N.eqb k 1); [cbn; lia|].
  destruct (N.eqb k 2); cbn; lia.
Defined.

(** In example E4 every edge names a block. *)
Lemma E4_targetsMetFromEntry : targetsMetFromEntry E4 1%N.
Proof.
  eexists. split; [vm_compute; reflexivity|].
  intros t Ht. vm_compute in Ht. vm_compute.
  destruct Ht as [<-|[<-|[]]]; tauto.
Defined.





(** ** The pixel columns *)

Lemma vget_vset_cases v i a j :
  vget (vset v i a) j = a \/ vget (vset v i a) j = vget v j.
Proof.
  destruct (Z.ltb_spec j 0) as [Hj|Hj].
  - right. unfold vget. destruct (Z.ltb_spec j 0); [reflexivity|lia].
  - destruct (Z.eq_dec j i) as [->|Hne].
    + destruct (Z.ltb_spec i (zlen v)) as [Hin|Hout].
      * left. apply vget_vset_same. lia.
      * right. unfold vset. destruct (Z.ltb_spec i 0); [reflexivity|].
        f_equal. apply set_nth_beyond. unfold zlen in Hout. lia.
    + right. now apply vget_vset_other.
Qed.

Lemma segmentColumn_width_at m j columnWidth H segmentSpacing s :
  m <= segmentSpacing ->
  m <= vget (ss_edgeColumnWidth s) j ->
  m <= vget (ss_edgeColumnWidth
               (segmentColumn columnWidth H segmentSpacing s)) j.
Proof.
  intros Hm Hj. unfold segmentColumn.
  destruct (ss_segments s) as [|s0 segs]; [auto|].
  repeat match goal with
         | |- context [placeSegments ?f ?sp ?acc ?l] =>
             destruct (placeSegments f sp acc l)
         end.
  cbn [ss_edgeColumnWidth].
  match goal with
  | |- _ <= vget (vset ?v ?i ?a) j =>
      destruct (vget_vset_cases v i a j) as [Heq|Heq]; rewrite Heq
  end; [lia | exact Hj].
Qed.

Lemma segmentColumns_width_at m j columnWidth H segmentSpacing fuel :
  forall s,
    m <= segmentSpacing ->
    m <= vget (ss_edgeColumnWidth s) j ->
    m <= vget (ss_edgeColumnWidth
                 (segmentColumns fuel columnWidth H segmentSpacing s)) j.
Proof.
  induction fuel as [|fuel IH]; intros s Hm Hj; cbn [segmentColumns].
  - destruct (ss_segments s); auto.
  - destruct (ss_segments s) eqn:Hs; [auto|].
    apply IH; [exact Hm|]. now apply segmentColumn_width_at.
Qed.

Lemma calculateSegmentOffsets_width_at m j segments edgeOffsets
    edgeColumnWidth nodeRightSide nodeLeftSide columnWidth H segmentSpacing :
  m <= segmentSpacing ->
  m <= vget edgeColumnWidth j ->
  m <= vget (snd (calculateSegmentOffsets segments edgeOffsets
                    edgeColumnWidth nodeRightSide nodeLeftSide columnWidth
                    H segmentSpacing)) j.
Proof.
  intros Hm Hj. unfold calculateSegmentOffsets. cbn [snd].
  apply segmentColumns_width_at; assumption.
Qed.

Lemma edgeWidths_outer n inner outer :
  1 <= n ->
  vget (edgeWidths n inner outer) 0 = outer /\
  vget (edgeWidths n inner outer) (n - 1) = outer.
Proof.
  intros Hn. unfold edgeWidths.
  assert (Hl : zlen (assign n inner) = n).
  { unfold zlen, assign. rewrite repeat_length. lia. }
  cbn zeta. rewrite Hl. split.
  - apply vget_vset_same. rewrite zlen_vset. lia.
  - destruct (Z.eq_dec (n - 1) 0) as [H0|H0].
    + rewrite H0. apply vget_vset_same. rewrite zlen_vset. lia.
    + rewrite vget_vset_other by lia. apply vget_vset_same. lia.
Qed.

Lemma Forall_vget (P : Z -> Prop) v j :
  Forall P v -> P 0 -> P (vget v j).
Proof.
  intros Hv H0. unfold vget. destruct (j <? 0); [exact H0|].
  destruct (nth_in_or_default (Z.to_nat j) v 0) as [Hin | Heq].
  - rewrite Forall_forall in Hv. now apply Hv.
  - now rewrite Heq.
Qed.

Lemma adjustColumnWidths_columns st :
  0 <= columns st ->
  let st' := adjustColumnWidths st in
  columns st' = columns st /\ edgeColumnWidth st' = edgeColumnWidth st /\
  zlen (columnWidth st') = columns st /\
  (forall j, 0 <= vget (columnWidth st') j) /\
  forall k,
    In k (UMap.keys (grid_blocks st)) ->
    0 <= col (grid_blocks st @ k) ->
    col (grid_blocks st @ k) + 2 <= columns st ->
    let q := Z.quot (width (blocks st @ k)
                     - vget (edgeColumnWidth st) (col (grid_blocks st @ k) + 1))
               2 in
    q <= vget (columnWidth st') (col (grid_blocks st @ k)) /\
    q <= vget (columnWidth st') (col (grid_blocks st @ k) + 1).
Proof.
  intros Hc. unfold adjustColumnWidths.
  match goal with
  | |- context [fold_left ?F ?l ?a] =>
      set (step := F);
      assert (Hgen : forall ks rh cw,
                let r := fold_left step ks (rh, cw) in
                zlen (snd r) = zlen cw /\
                (forall j, vget cw j <= vget (snd r) j) /\
                forall k,
                  In k ks ->
                  0 <= col (grid_blocks st @ k) ->
                  col (grid_blocks st @ k) + 2 <= zlen cw ->
                  let q :=
                    Z.quot (width (blocks st @ k)
                            - vget (edgeColumnWidth st)
                                (col (grid_blocks st @ k) + 1)) 2 in
                  q <= vget (snd r) (col (grid_blocks st @ k)) /\
                  q <= vget (snd r) (col (grid_blocks st @ k) + 1))
  end.
  { induction ks as [|v ks IH]; intros rh cw; cbn [fold_left].
    - cbn. splits; auto; try lia; try (intros ? []).
    - set (node := grid_blocks st @ v). set (ib := blocks st @ v).
      set (q := Z.quot (width ib - vget (edgeColumnWidth st) (col node + 1)) 2).
      set (cw1 := vset cw (col node) (Z.max q (vget cw (col node)))).
      set (cw2 := vset cw1 (col node + 1)
                    (Z.max q (vget cw1 (col node + 1)))).
      assert (Hstep : snd (step (rh, cw) v) = cw2) by reflexivity.
      destruct (step (rh, cw) v) as [rh1 cw2']. cbn [snd] in Hstep.
      subst cw2'.
      destruct (IH rh1 cw2) as (Hl2 & Hm2 & Hfit).
      cbn zeta in Hl2, Hm2, Hfit.
      assert (Hcw1 : forall j, vget cw j <= vget cw1 j)
        by (intro j; apply vset_max_mono).
      assert (Hcw2 : forall j, vget cw1 j <= vget cw2 j)
        by (intro j; apply vset_max_mono).
      splits.
      + rewrite Hl2. unfold cw2, cw1. now rewrite !zlen_vset.
      + intro j. specialize (Hcw1 j). specialize (Hcw2 j). specialize (Hm2 j).
        lia.
      + intros k [<-|Hk] Hcol Hcol2.
        * fold node ib in Hcol, Hcol2 |- *. fold q. cbn zeta. split.
          -- pose proof (Hm2 (col node)). pose proof (Hcw2 (col node)).
             assert (Hin : 0 <= col node < zlen cw) by lia.
             pose proof (@vset_max_ge cw (col node) q Hin).
             fold cw1 in H1. lia.
          -- pose proof (Hm2 (col node + 1)).
             assert (Hin : 0 <= col node + 1 < zlen cw1)
               by (unfold cw1; rewrite zlen_vset; lia).
             pose proof (@vset_max_ge cw1 (col node + 1) q Hin).
             fold cw2 in H0. lia.
        * apply Hfit; auto.
          unfold cw2, cw1. rewrite !zlen_vset. exact Hcol2. }
  specialize (Hgen (UMap.keys (grid_blocks st)) (assign (rows st) 0)
                (assign (columns st) 0)).
  cbn zeta in Hgen.
  destruct (fold_left step (UMap.keys (grid_blocks st))
              (assign (rows st) 0, assign (columns st) 0)) as [rh cw].
  cbn [fst snd] in Hgen. destruct Hgen as (Hl2 & Hm2 & Hfit).
  assert (Hza : zlen (assign (columns st) 0) = columns st).
  { unfold zlen, assign. rewrite repeat_length. lia. }
  rewrite Hza in Hl2, Hfit.
  cbn [with_widths columnWidth columns edgeColumnWidth]. splits; auto.
  intro j. specialize (Hm2 j). rewrite vget_assign_zero in Hm2. exact Hm2.
Qed.

(** What [elaborateEdgePlacement] leaves of the columns: each of the two
    columns of a block is at least half as wide as what the edge column
    between them leaves of the block, no edge column is narrower than the
    smaller of the two horizontal spacings, and the two outer edge columns
    are not narrower than the spacing of the edges. *)
Lemma elaborateEdgePlacement_columns cfg st st' :
  elaborateEdgePlacement cfg st = Done st' ->
  1 <= columns st ->
  columns st' = columns st /\
  zlen (columnWidth st') = columns st /\
  (forall j, 0 <= vget (columnWidth st') j) /\
  (forall k,
     In k (UMap.keys (grid_blocks st)) ->
     0 <= col (grid_blocks st @ k) ->
     col (grid_blocks st @ k) + 2 <= columns st ->
     let q := Z.quot (width (blocks st @ k)
                      - vget (edgeColumnWidth st')
                          (col (grid_blocks st @ k) + 1)) 2 in
     q <= vget (columnWidth st') (col (grid_blocks st @ k)) /\
     q <= vget (columnWidth st') (col (grid_blocks st @ k) + 1)) /\
  zlen (edgeColumnWidth st') = columns st + 1 /\
  Forall (fun w =>
            Z.min (blockHorizontalSpacing cfg) (edgeHorizontalSpacing cfg)
            <= w)
    (edgeColumnWidth st') /\
  edgeHorizontalSpacing cfg <= vget (edgeColumnWidth st') 0 /\
  edgeHorizontalSpacing cfg <= vget (edgeColumnWidth st') (columns st).
Proof.
  rewrite elaborateEdgePlacement_halves. intros H Hc.
  destruct (verticalPlacement cfg st) as [[st1 eo]| |] eqn:Hv;
    try discriminate H.
  cbn [bind fst snd] in H.
  assert (H1 : columns st1 = columns st /\
    zlen (columnWidth st1) = columns st /\
    (forall j, 0 <= vget (columnWidth st1) j) /\
    (forall k,
       In k (UMap.keys (grid_blocks st)) ->
       0 <= col (grid_blocks st @ k) ->
       col (grid_blocks st @ k) + 2 <= columns st ->
       let q := Z.quot (width (blocks st @ k)
                        - vget (edgeColumnWidth st1)
                            (col (grid_blocks st @ k) + 1)) 2 in
       q <= vget (columnWidth st1) (col (grid_blocks st @ k)) /\
       q <= vget (columnWidth st1) (col (grid_blocks st @ k) + 1)) /\
    zlen (edgeColumnWidth st1) = columns st + 1 /\
    Forall (fun w =>
              Z.min (blockHorizontalSpacing cfg) (edgeHorizontalSpacing cfg)
              <= w)
      (edgeColumnWidth st1) /\
    edgeHorizontalSpacing cfg <= vget (edgeColumnWidth st1) 0 /\
    edgeHorizontalSpacing cfg <= vget (edgeColumnWidth st1) (columns st)).
  { unfold verticalPlacement in Hv.
    assert (Hc1 : 0 <= columns st + 1) by lia.
    assert (Hc2 : 1 <= columns st + 1) by lia.
    destruct (@edgeWidths_spec (columns st + 1) (blockHorizontalSpacing cfg)
                (edgeHorizontalSpacing cfg) Hc1) as [Hew Hewl].
    destruct (@edgeWidths_outer (columns st + 1) (blockHorizontalSpacing cfg)
                (edgeHorizontalSpacing cfg) Hc2) as [Hfirst Hlast].
    replace (columns st + 1 - 1) with (columns st) in Hlast by lia.
    match type of Hv with
    | context [calculateSegmentOffsets ?a ?b ?c ?d ?e ?f ?g ?h] =>
        pose proof (@calculateSegmentOffsets_widths
                      (Z.min (blockHorizontalSpacing cfg)
                         (edgeHorizontalSpacing cfg)) a b c d e f g h) as Hw;
        pose proof (@calculateSegmentOffsets_width_at
                      (edgeHorizontalSpacing cfg) 0 a b c d e f g h) as Hw0;
        pose proof (@calculateSegmentOffsets_width_at
                      (edgeHorizontalSpacing cfg) (columns st)
                      a b c d e f g h) as Hwn;
        destruct (calculateSegmentOffsets a b c d e f g h)
          as [[segs eo1] ecw]
    end.
    cbn [snd] in Hw, Hw0, Hwn.
    cbn [edgeColumnWidth with_edgeColumnWidth columns] in Hw, Hw0, Hwn.
    destruct Hw as [Hall Hlen]; [lia | exact Hew |].
    specialize (Hw0 (Z.le_refl _)). specialize (Hwn (Z.le_refl _)).
    rewrite Hfirst in Hw0. rewrite Hlast in Hwn.
    specialize (Hw0 (Z.le_refl _)). specialize (Hwn (Z.le_refl _)).
    destruct (calculateColumnOffsets _ _) as [[[co eco] w]| |];
      try discriminate Hv.
    cbn [bind] in Hv. inversion Hv; subst.
    cbn [columns columnWidth edgeColumnWidth with_edge with_columnOffsets].
    match goal with
    | |- context [adjustColumnWidths ?s] =>
        assert (Hcs : 0 <= columns s)
          by (cbn [columns with_edgeColumnWidth]; lia);
        pose proof (@adjustColumnWidths_columns s Hcs) as Ha
    end.
    cbn zeta in Ha.
    cbn [grid_blocks columns blocks edgeColumnWidth with_edgeColumnWidth]
      in Ha.
    destruct Ha as (Ha1 & Ha2 & Ha3 & Ha4 & Ha5).
    rewrite Ha1, Ha2. splits; auto.
    unfold zlen in *. rewrite Hlen. exact Hewl. }
  destruct H1 as (Hc1 & Hl1 & Hp1 & Hfit1 & Hel1 & Hall1 & Hf1 & Hn1).
  unfold horizontalPlacement in H.
  destruct (compressCoordinates _ _ _) as [[[[segs' ls] rs] cc]| |];
    try discriminate H.
  cbn [bind] in H.
  destruct (calculateSegmentOffsets _ _ _ _ _ _ _ _) as [[segs'' eo'] erh].
  inversion H; subst.
  cbn [columns columnWidth edgeColumnWidth with_edge with_edgeRowHeight
       with_blocks].
  splits; auto.
Qed.

Lemma quot2_bounds a :
  2 * Z.quot a 2 - 1 <= a <= 2 * Z.quot a 2 + 1 /\
  (0 <= a -> 2 * Z.quot a 2 <= a) /\ (a <= 0 -> a <= 2 * Z.quot a 2).
Proof.
  pose proof (Z.quot_rem' a 2) as H.
  destruct (Z.le_ge_cases 0 a) as [Ha|Ha].
  - pose proof (Z.rem_bound_pos a 2 Ha ltac:(lia)). lia.
  - pose proof (Z.rem_bound_pos_neg a 2 ltac:(lia) Ha). lia.
Qed.

(** A block of width [w] that is centred on an edge column of width [e]
    between two columns that are as wide as [adjustColumnWidths] makes them
    sticks out of the three by one pixel at most on either side. *)
Lemma block_in_columns w e c0 c1 :
  0 <= e -> 0 <= c0 -> 0 <= c1 ->
  Z.quot (w - e) 2 <= c0 -> Z.quot (w - e) 2 <= c1 ->
  -1 <= c0 + Z.quot e 2 - Z.quot w 2 /\
  Z.quot e 2 - Z.quot w 2 + w <= e + c1 + 1.
Proof.
  intros He H0 H1 Hq0 Hq1.
  pose proof (quot2_bounds w). pose proof (quot2_bounds e).
  pose proof (quot2_bounds (w - e)). lia.
Qed.

Lemma calculateColumnOffsets_margins cw ecw co eco total :
  calculateColumnOffsets cw ecw = Done (co, eco, total) ->
  (forall i, 0 <= vget cw i) -> Forall (fun w => 0 <= w) ecw ->
  forall i, 0 <= i < zlen cw ->
    vget co i = vget eco i + vget ecw i /\
    vget eco (i + 1) = vget co i + vget cw i /\
    vget ecw 0 <= vget co i /\
    vget co i + vget cw i + vget ecw (zlen cw) <= total.
Proof.
  unfold calculateColumnOffsets. intros Heq Hcw Hecw.
  destruct (Nat.eqb_spec (length ecw) (length cw + 1)) as [Hlen|Hlen];
    [|discriminate Heq].
  cbn [assert bind] in Heq.
  destruct (@columnOffsetsLoop_spec cw ecw 0)
    as (co' & eco' & final & Hloop & Hc & He & H0 & Hi & Hf); [lia|].
  rewrite Hloop in Heq. injection Heq as <- <- <-.
  assert (Hn : forall (v : list Z) i, nth i v 0 = vget v (Z.of_nat i)).
  { intros v i. unfold vget. destruct (Z.ltb_spec (Z.of_nat i) 0); [lia|].
    now rewrite Nat2Z.id. }
  assert (Hv : forall (v : list Z) i,
             0 <= i -> vget v i = nth (Z.to_nat i) v 0).
  { intros v i Hi'. unfold vget.
    destruct (Z.ltb_spec i 0); [lia|reflexivity]. }
  assert (Hecw' : forall i, 0 <= nth i ecw 0).
  { intro i. destruct (nth_in_or_default i ecw 0) as [Hin | Heq0];
      [|rewrite Heq0; lia].
    rewrite Forall_forall in Hecw. now apply Hecw. }
  assert (Hlast : last ecw 0 = nth (length cw) ecw 0).
  { rewrite last_nth. f_equal. lia. }
  destruct (@columnOffsetsLoop_stack cw ecw 0 co' eco' final Hloop)
    as (Hle & Hin & _); auto.
  { intro i. rewrite Hn. apply Hcw. }
  intros i Hrange. unfold zlen in *. rewrite !Hv by lia.
  destruct (Hi (Z.to_nat i)) as [Hi1 Hi2]; [lia|].
  destruct (Hin (Z.to_nat i)) as [Hin1 Hin2]; [lia|].
  replace (Z.to_nat (i + 1)) with (S (Z.to_nat i)) by lia.
  rewrite Nat2Z.id, Hlast. splits; auto; lia.
Qed.

(** The [x] that [convertToPixelCoordinates] gives a block: the middle of
    the edge column between its two columns, less half of its width. *)
Lemma convertToPixelCoordinates_x cfg st st' w h :
  convertToPixelCoordinates cfg st = Done (st', w, h) ->
  exists co eco,
    calculateColumnOffsets (columnWidth st) (edgeColumnWidth st)
    = Done (co, eco, w) /\
    forall k,
      In k (UMap.keys (blocks st)) ->
      x (blocks st' @ k)
      = vget eco (col (grid_blocks st @ k) + 1)
        + Z.quot (vget (edgeColumnWidth st) (col (grid_blocks st @ k) + 1)) 2
        - Z.quot (width (blocks st @ k)) 2.
Proof.
  unfold convertToPixelCoordinates. intros H.
  destruct (calculateColumnOffsets (columnWidth st) (edgeColumnWidth st))
    as [[[co eco] w1]| |] eqn:Hcols; try discriminate H.
  cbn [bind] in H.
  cbn [rowHeight edgeRowHeight with_columnOffsets] in H.
  destruct (calculateColumnOffsets (rowHeight st) (edgeRowHeight st))
    as [[[ro ero] h1]| |]; try discriminate H.
  cbn [bind] in H. inversion H; subst. clear H.
  exists co, eco. split; [reflexivity|].
  intros k Hk.
  cbn [blocks with_blocks with_grid_blocks with_rowOffsets with_columnOffsets
       grid_blocks edgeColumnOffset edgeColumnWidth].
  unfold UMap.at_ at 1.
  rewrite find_map_fst by (intros [k' b]; reflexivity).
  rewrite find_map_fst by (intros [k' b]; reflexivity).
  rewrite (find_in_keys _ _ Hk). cbn [option_map snd].
  unfold with_edges, with_xy. cbn [x].
  rewrite at_fold_touch_grid. reflexivity.
Qed.

(** X19. Among runs on blocks without negative sizes whose layout is not
    wider and not higher than [INT_MAX] -- so that no sum of column widths
    leaves the range of [int] --, in which the range-for of [topoSort] has
    nothing to insert, with a horizontal spacing of the blocks that is not
    negative and a spacing of the edges of one at least, every block of the
    result lies inside the width that the call returns: its [x] is not
    negative and its right side is not beyond [width]. *)
Theorem blocks_inside_width : forall cfg bs entry l,
  0 <= blockHorizontalSpacing cfg -> 1 <= edgeHorizontalSpacing cfg ->
  sizesNonNegative bs -> layoutFitsInt l -> targetsMetFromEntry bs entry ->
  CalculateLayout cfg bs entry = Done l ->
  forall k,
    0 <= x (out_blocks l @ k) /\
    x (out_blocks l @ k) + width (out_blocks l @ k) <= out_width l.
Proof.
  intros cfg bs entry l Hbh Heh Hsz Hfit0 _ Hrun k.
  destruct (CalculateLayout_stages _ _ _ Hrun)
    as (st0 & st1 & st2 & st3 & w & h & H0 & H1 & H2 & H3 & ->).
  cbn [out_blocks out_width].
  destruct (topoSort_initial bs entry) as (stt & order & Hts & _ & _).
  destruct (@prepareLayout_rows cfg bs entry st0 stt order H0 Hts)
    as (_ & _ & Hentry).
  destruct (@prepareLayout_in_grid cfg bs entry st0 H0) as (_ & _ & Hgrid).
  destruct (@prepareLayout_edges cfg bs entry st0 H0) as (_ & Hbg & _).
  assert (Hcols0 : 2 <= columns st0).
  { destruct (Hgrid entry (Hbg entry Hentry)) as [Ha Hb]. lia. }
  assert (Hcol0 : forall k, 0 <= col (grid_blocks st0 @ k) /\
                            col (grid_blocks st0 @ k) + 2 <= columns st0).
  { intro k0. destruct (in_dec N.eq_dec k0 (UMap.keys (grid_blocks st0)))
      as [Hk|Hk]; [exact (Hgrid k0 Hk)|].
    rewrite (at_in_keys _ _ Hk). cbn [col dflt GridBlock_default]. lia. }
  destruct (calculateEdgeMainColumn_keeps _ H1) as (Hg1 & _).
  destruct (calculateEdgeMainColumn_rows _ H1) as (_ & Hc1).
  pose proof (calculateEdgeMainColumn_blocks _ H1) as Hb1.
  destruct (roughRouting_grid cfg st1) as (Hg2 & _ & Hc2).
  assert (Hcrr : 1 <= columns (roughRouting cfg st1))
    by (rewrite Hc2, Hc1; lia).
  destruct (@elaborateEdgePlacement_columns cfg _ st2 H2 Hcrr)
    as (Hc & Hlen & Hpos & Hfit & Helen & Hall & Hfirst & Hlast).
  rewrite Hg2, Hg1 in Hfit. rewrite Hc2, Hc1 in Hc, Hlen, Hfit, Helen, Hlast.
  destruct (@elaborateEdgePlacement_rows cfg _ st2 H2) as (Hg & _).
  { destruct (roughRouting_grid cfg st1) as (_ & Hr2 & _).
    destruct (calculateEdgeMainColumn_rows _ H1) as (Hr1 & _).
    rewrite Hr2, Hr1.
    destruct (@prepareLayout_rows cfg bs entry st0 stt order H0 Hts)
      as (Hrow0 & _).
    specialize (Hrow0 0%N). lia. }
  rewrite Hg2, Hg1 in Hg.
  destruct (@convertToPixelCoordinates_x cfg st2 st3 w h H3)
    as (co & eco & Hoff & Hx).
  destruct (@convertToPixelCoordinates_blocks cfg st2 st3 w h H3)
    as (Hclear & Hkeys).
  set (m := Z.min (blockHorizontalSpacing cfg) (edgeHorizontalSpacing cfg))
    in *.
  assert (Hm : 0 <= m) by (unfold m; lia).
  assert (Hall0 : Forall (fun w => 0 <= w) (edgeColumnWidth st2)).
  { eapply Forall_impl; [|exact Hall]. cbn beta. intros a Ha. lia. }
  pose proof (@calculateColumnOffsets_margins _ _ co eco w Hoff Hpos Hall0)
    as Hmar.
  rewrite Hlen in Hmar.
  destruct (in_dec N.eq_dec k (UMap.keys (blocks st3))) as [Hk|Hk].
  - rewrite Hkeys in Hk.
    assert (Hwidth : width (blocks st3 @ k) = width (blocks st0 @ k)).
    { pose proof (Hclear k) as Hcl.
      apply (f_equal width) in Hcl. cbn [clearBlock width] in Hcl.
      rewrite Hcl, (@elaborateEdgePlacement_blocks cfg _ st2 k H2).
      rewrite roughRouting_blocks, Hb1. reflexivity. }
    rewrite (Hx k Hk), Hwidth, Hg.
    rewrite (@elaborateEdgePlacement_blocks cfg _ st2 k H2).
    rewrite roughRouting_blocks, Hb1.
    destruct (Hcol0 k) as (Hk0 & Hk2).
    set (c := col (grid_blocks st0 @ k)) in *.
    set (e := vget (edgeColumnWidth st2) (c + 1)).
    assert (He : 0 <= e).
    { unfold e. apply (@Forall_vget (fun w => 0 <= w)); [exact Hall0|lia]. }
    assert (Hq : Z.quot (width (blocks st0 @ k) - e) 2
                 <= vget (columnWidth st2) c /\
                 Z.quot (width (blocks st0 @ k) - e) 2
                 <= vget (columnWidth st2) (c + 1)).
    { destruct (in_dec N.eq_dec k (UMap.keys (grid_blocks st0))) as [Hkg|Hkg].
      - specialize (Hfit k Hkg Hk0 Hk2). cbn zeta in Hfit.
        rewrite roughRouting_blocks, Hb1 in Hfit. exact Hfit.
      - rewrite (@at_in_keys _ _ (blocks st0) k) by (intro Hc'; auto).
        cbn [width dflt GraphBlock_default].
        pose proof (quot2_bounds (0 - e)).
        pose proof (Hpos c). pose proof (Hpos (c + 1)). lia. }
    destruct Hq as (Hq0 & Hq1).
    destruct (@block_in_columns (width (blocks st0 @ k)) e
                (vget (columnWidth st2) c) (vget (columnWidth st2) (c + 1))
                He (Hpos c) (Hpos (c + 1)) Hq0 Hq1) as (Hl & Hr).
    destruct (Hmar c) as (_ & Ha2 & Ha3 & _); [lia|].
    destruct (Hmar (c + 1)) as (Hb1' & _ & _ & Hb4); [lia|].
    fold e in Hb1'. lia.
  - rewrite (at_in_keys _ _ Hk). cbn [x width dflt GraphBlock_default].
    destruct (Hmar 0) as (_ & _ & Ha3 & Ha4); [lia|].
    pose proof (Hpos 0). lia.
Qed.

Lemma blocks_inside_width_witness :
  0 <= blockHorizontalSpacing (cfg10 Medium) /\
  1 <= edgeHorizontalSpacing (cfg10 Medium) /\
  sizesNonNegative E4 /\
  targetsMetFromEntry E4 1%N /\
  exists l,
    CalculateLayout (cfg10 Medium) E4 1%N = Done l /\
    layoutFitsInt l /\
    0 <= x (out_blocks l @ 2%N) /\
    x (out_blocks l @ 2%N) + width (out_blocks l @ 2%N) <= out_width l.
Proof.
  assert (Hbh : 0 <= blockHorizontalSpacing (cfg10 Medium)) by (cbn; lia).
  assert (Heh : 1 <= edgeHorizontalSpacing (cfg10 Medium)) by (cbn; lia).
  split; [exact Hbh|]. split; [exact Heh|].
  split; [exact E4_sizesNonNegative|].
  split; [exact E4_targetsMetFromEntry|].
  destruct (CalculateLayout (cfg10 Medium) E4 1%N) as [l| |] eqn:H;
    [|vm_compute in H; discriminate H|vm_compute in H; discriminate H].
  assert (Hfit : layoutFitsInt l).
  { split.
    - change (out_width l)
        with ((fun o => match o with Done r => out_width r | _ => 0 end)
                (Done l)).
      rewrite <- H. vm_compute. intro Hc. discriminate Hc.
    - change (out_height l)
        with ((fun o => match o with Done r => out_height r | _ => 0 end)
                (Done l)).
      rewrite <- H. vm_compute. intro Hc. discriminate Hc. }
  exists l. split; [reflexivity|]. split; [exact Hfit|].
  exact (@blocks_inside_width (cfg10 Medium) E4 1%N l Hbh Heh
           E4_sizesNonNegative Hfit E4_targetsMetFromEntry H 2%N).
Defined.

(** ** The assertions after the placement *)

Lemma In_unique x l : In x (unique l) <-> In x l.
Proof.
  induction l as [|a l IH]; [reflexivity|].
  destruct l as [|b l]; [reflexivity|].
  change (unique (a :: b :: l))
    with (if a =? b then unique (b :: l) else a :: unique (b :: l)).
  destruct (Z.eqb_spec a b) as [->|Hne].
  - rewrite IH. cbn [In]. tauto.
  - cbn [In] in *. rewrite IH. tauto.
Qed.

Lemma lower_bound_lt positions p :
  In p positions -> 0 <= lower_bound positions p < zlen positions.
Proof.
  unfold lower_bound, zlen. intros Hp. split; [lia|].
  apply inj_lt.
  induction positions as [|a l IH]; [destruct Hp|].
  cbn [takeWhile]. destruct (Z.ltb_spec a p) as [Hlt|Hge].
  - cbn [length]. apply -> Nat.succ_lt_mono. apply IH.
    destruct Hp as [->|Hp]; [lia | exact Hp].
  - cbn [length]. lia.
Qed.

(** The index of a position grows with the position. *)
Lemma lower_bound_mono positions p q :
  p <= q -> lower_bound positions p <= lower_bound positions q.
Proof.
  unfold lower_bound, zlen. intros Hpq. apply inj_le.
  induction positions as [|a l IH]; [reflexivity|].
  cbn [takeWhile]. destruct (Z.ltb_spec a p) as [Hlt|Hge].
  - destruct (Z.ltb_spec a q); [|lia]. cbn [length]. lia.
  - cbn [length]. lia.
Qed.

(** The assertions of [compressCoordinates] on the positions never fail:
    the call returns whenever it is given as many left as right sides. *)
Lemma compressCoordinates_done segments leftSides rightSides :
  length leftSides = length rightSides ->
  exists r, compressCoordinates segments leftSides rightSides = Done r.
Proof.
  intros Hlen. unfold compressCoordinates.
  set (positions :=
         unique (sort Z.ltb
                   (flat_map (fun s => [y0 s; y1 s]) segments
                    ++ flat_map (fun n => [ny0 n; ny1 n]) leftSides))).
  assert (Hseg : forall s, In s segments ->
            In (y0 s) positions /\ In (y1 s) positions).
  { intros s Hs. unfold positions. rewrite !In_unique, !In_sort.
    split; apply in_or_app; left; apply in_flat_map; exists s;
      (split; [exact Hs | cbn; tauto]). }
  assert (Hside : forall n, In n leftSides ->
            In (ny0 n) positions /\ In (ny1 n) positions).
  { intros n Hn. unfold positions. rewrite !In_unique, !In_sort.
    split; apply in_or_app; right; apply in_flat_map; exists n;
      (split; [exact Hn | cbn; tauto]). }
  assert (Hok : forall p, In p positions ->
            (lower_bound positions p <? zlen positions) = true).
  { intros p Hp. apply Z.ltb_lt. now apply lower_bound_lt. }
  replace (forallb _ segments) with true.
  2:{ symmetry. apply forallb_forall. intros s Hs.
      destruct (Hseg s Hs) as [H0 H1]. now rewrite !Hok. }
  cbn [assert bind].
  replace (Nat.eqb (length leftSides) (length rightSides)) with true
    by (symmetry; now apply Nat.eqb_eq).
  cbn [assert bind].
  replace (forallb _ leftSides) with true.
  2:{ symmetry. apply forallb_forall. intros n Hn.
      destruct (Hside n Hn) as [H0 H1]. now rewrite !Hok. }
  cbn [assert bind]. eexists. reflexivity.
Qed.

Lemma calculateColumnOffsets_done cw ecw :
  zlen ecw = zlen cw + 1 ->
  exists r, calculateColumnOffsets cw ecw = Done r.
Proof.
  unfold zlen, calculateColumnOffsets. intros Hlen.
  replace (Nat.eqb (length ecw) (length cw + 1)) with true
    by (symmetry; apply Nat.eqb_eq; lia).
  cbn [assert bind].
  destruct (columnOffsetsLoop cw ecw 0) as [[co eco] position].
  eexists. reflexivity.
Qed.

Lemma verticalPlacement_done cfg st :
  0 <= columns st -> exists r, verticalPlacement cfg st = Done r.
Proof.
  intros Hc. unfold verticalPlacement.
  assert (Hc1 : 0 <= columns st + 1) by lia.
  destruct (@edgeWidths_spec (columns st + 1) (blockHorizontalSpacing cfg)
              (edgeHorizontalSpacing cfg) Hc1) as [Hew Hewl].
  match goal with
  | |- context [calculateSegmentOffsets ?a ?b ?c ?d ?e ?f ?g ?h] =>
      pose proof (@calculateSegmentOffsets_widths
                    (Z.min (blockHorizontalSpacing cfg)
                       (edgeHorizontalSpacing cfg)) a b c d e f g h) as Hw;
      destruct (calculateSegmentOffsets a b c d e f g h)
        as [[segs eo1] ecw]
  end.
  cbn [snd] in Hw.
  cbn [edgeColumnWidth with_edgeColumnWidth columns] in Hw.
  destruct Hw as [_ Hlen]; [lia | exact Hew |].
  match goal with
  | |- context [adjustColumnWidths ?s] =>
      assert (Hcs : 0 <= columns s)
        by (cbn [columns with_edgeColumnWidth]; lia);
      pose proof (@adjustColumnWidths_columns s Hcs) as Ha
  end.
  cbn zeta in Ha.
  cbn [grid_blocks columns blocks edgeColumnWidth with_edgeColumnWidth] in Ha.
  destruct Ha as (_ & Ha2 & Ha3 & _).
  match goal with
  | |- context [calculateColumnOffsets ?a ?b] =>
      destruct (@calculateColumnOffsets_done a b) as [[[co eco] w] Hdone]
  end.
  { rewrite Ha2, Ha3. unfold zlen in *. rewrite Hlen. exact Hewl. }
  rewrite Hdone. cbn [bind]. eexists. reflexivity.
Qed.

Lemma horizontalPlacement_done cfg st edgeOffsets :
  exists st', horizontalPlacement cfg st edgeOffsets = Done st'.
Proof.
  unfold horizontalPlacement.
  match goal with
  | |- context [compressCoordinates ?a ?b ?c] =>
      destruct (@compressCoordinates_done a b c)
        as [[[[segs ls] rs] cc] Hdone]
  end.
  { now rewrite !length_map. }
  rewrite Hdone. cbn [bind].
  destruct (calculateSegmentOffsets _ _ _ _ _ _ _ _) as [[segs'' eo'] erh].
  eexists. reflexivity.
Qed.

Lemma elaborateEdgePlacement_done cfg st :
  0 <= columns st -> exists st', elaborateEdgePlacement cfg st = Done st'.
Proof.
  intros Hc. rewrite elaborateEdgePlacement_halves.
  destruct (@verticalPlacement_done cfg st Hc) as [[st1 eo] Hv].
  rewrite Hv. cbn [bind fst snd]. apply horizontalPlacement_done.
Qed.

Lemma convertToPixelCoordinates_done cfg st :
  zlen (edgeColumnWidth st) = zlen (columnWidth st) + 1 ->
  zlen (edgeRowHeight st) = zlen (rowHeight st) + 1 ->
  exists r, convertToPixelCoordinates cfg st = Done r.
Proof.
  intros Hc Hr. unfold convertToPixelCoordinates.
  destruct (@calculateColumnOffsets_done _ _ Hc) as [[[co eco] w] Hdc].
  rewrite Hdc. cbn [bind].
  cbn [rowHeight edgeRowHeight with_columnOffsets].
  destruct (@calculateColumnOffsets_done _ _ Hr) as [[[ro ero] h] Hdr].
  rewrite Hdr. cbn [bind]. eexists. reflexivity.
Qed.

(** X20. The only stage of [CalculateLayout] that can fail is the placement
    of the blocks: once the rows, the columns and their sizes are set, no
    assertion of the edge routing ([calculateEdgeMainColumn],
    [compressCoordinates], [calculateColumnOffsets]) fails, and the call
    returns a layout. *)
Theorem routing_never_fails : forall cfg bs entry st,
  prepareLayout cfg bs entry = Done st ->
  exists l, CalculateLayout cfg bs entry = Done l.
Proof.
  intros cfg bs entry st0 H0. unfold CalculateLayout, routeEdges.
  rewrite H0. cbn [bind].
  destruct (@prepareLayout_in_grid cfg bs entry st0 H0)
    as (Hc0 & Hrow0 & Hgrid).
  destruct (@calculateEdgeMainColumn_done st0 Hc0 Hrow0 Hgrid) as [st1 H1].
  rewrite H1. cbn [bind].
  destruct (calculateEdgeMainColumn_rows _ H1) as (Hr1 & Hc1).
  destruct (roughRouting_grid cfg st1) as (_ & Hr2 & Hc2).
  destruct (topoSort_initial bs entry) as (stt & order & Hts & _ & _).
  destruct (@prepareLayout_rows cfg bs entry st0 stt order H0 Hts)
    as (Hrows & _).
  assert (Hcrr : 1 <= columns (roughRouting cfg st1))
    by (rewrite Hc2, Hc1; exact Hc0).
  assert (Hrrr : 0 <= rows (roughRouting cfg st1)).
  { rewrite Hr2, Hr1. specialize (Hrows 0%N). lia. }
  destruct (@elaborateEdgePlacement_done cfg (roughRouting cfg st1))
    as [st2 H2]; [lia|].
  rewrite H2. cbn [bind].
  destruct (@elaborateEdgePlacement_columns cfg _ st2 H2 Hcrr)
    as (_ & Hcl & _ & _ & Hel & _).
  destruct (@elaborateEdgePlacement_rows cfg _ st2 H2 Hrrr)
    as (_ & _ & Hrl & _ & _ & Herl & _).
  destruct (@convertToPixelCoordinates_done cfg st2)
    as [[[st3 w] h] H3]; [lia | lia |].
  rewrite H3. cbn [bind]. eexists. reflexivity.
Qed.

Lemma routing_never_fails_witness :
  exists st l,
    prepareLayout (cfg10 Medium) E4 1%N = Done st /\
    CalculateLayout (cfg10 Medium) E4 1%N = Done l.
Proof.
  destruct (prepareLayout (cfg10 Medium) E4 1%N) as [st| |] eqn:H;
    [|vm_compute in H; discriminate H|vm_compute in H; discriminate H].
  destruct (@routing_never_fails (cfg10 Medium) E4 1%N st H) as [l Hl].
  exists st, l. split; [reflexivity | exact Hl].
Defined.

(** ** The loops over the segments *)

Lemma length_dropWhile {A : Type} (f : A -> bool) l :
  (length (dropWhile f l) <= length l)%nat.
Proof.
  induction l as [|a l IH]; [reflexivity|].
  cbn [dropWhile]. destruct (f a); cbn [length]; lia.
Qed.

(** An iteration of the loop of [calculateSegmentOffsets] takes the first
    segment at least. *)
Lemma segmentColumn_shrinks columnWidth H segmentSpacing s :
  ss_segments s <> [] ->
  (length (ss_segments (segmentColumn columnWidth H segmentSpacing s))
   < length (ss_segments s))%nat.
Proof.
  intros Hne. unfold segmentColumn.
  destruct (ss_segments s) as [|s0 segs] eqn:Hs; [congruence|].
  repeat match goal with
         | |- context [placeSegments ?f ?sp ?acc ?l] =>
             destruct (placeSegments f sp acc l)
         end.
  cbn [ss_segments].
  set (isLeft := fun g => (sx g =? sx s0) && (s_kind g <=? 1)).
  set (isHere := fun g => sx g =? sx s0).
  assert (Hhere : isHere s0 = true) by (unfold isHere; apply Z.eqb_refl).
  cbn [dropWhile]. fold isLeft. destruct (isLeft s0).
  - pose proof (length_dropWhile isHere (dropWhile isLeft segs)).
    pose proof (length_dropWhile isLeft segs). cbn [length]. lia.
  - cbn [dropWhile]. rewrite Hhere.
    pose proof (length_dropWhile isHere segs). cbn [length]. lia.
Qed.

Lemma segmentColumns_finish columnWidth H segmentSpacing n : forall s,
  (length (ss_segments s) <= n)%nat ->
  ss_segments (segmentColumns n columnWidth H segmentSpacing s) = [].
Proof.
  induction n as [|n IH]; intros s Hlen; cbn [segmentColumns].
  - destruct (ss_segments s) eqn:Hs; [exact Hs | cbn in Hlen; lia].
  - destruct (ss_segments s) eqn:Hs; [exact Hs|].
    apply IH.
    pose proof (@segmentColumn_shrinks columnWidth H segmentSpacing s) as Hsh.
    rewrite Hs in Hsh. specialize (Hsh ltac:(discriminate)).
    cbn [length] in *. lia.
Qed.

Lemma takeChunk_rest segmentOffsets events : forall count chunkWidth,
  (length (snd (fst (takeChunk segmentOffsets count chunkWidth events)))
   <= length events)%nat.
Proof.
  induction events as [|e es IH]; intros count chunkWidth;
    cbn [takeChunk].
  - destruct (count <=? 0); cbn; lia.
  - destruct (count <=? 0); [cbn; lia|].
    specialize (IH (count + (if start e then 1 else -1))
                  (Z.max chunkWidth (vget segmentOffsets (index e)))).
    destruct (takeChunk segmentOffsets _ _ es) as [[chunk rest] w].
    cbn [fst snd length] in *. lia.
Qed.

Lemma centerChunks_finish edgeColumnWidth minSpacing n : forall m so events,
  (length events <= n)%nat -> (length events <= m)%nat ->
  centerChunks n edgeColumnWidth minSpacing so events
  = centerChunks m edgeColumnWidth minSpacing so events.
Proof.
  induction n as [|n IH]; intros m so events Hn Hm.
  - destruct events; [|cbn in Hn; lia]. destruct m; reflexivity.
  - destruct events as [|e es]; [destruct m; reflexivity|].
    destruct m as [|m]; [cbn in Hm; lia|].
    cbn [centerChunks].
    pose proof (takeChunk_rest so es 1 0) as Hrest.
    destruct (takeChunk so 1 0 es) as [[chunk rest] w].
    cbn [fst snd] in Hrest. cbn [length] in Hn, Hm.
    apply IH; lia.
Qed.

(** X21. The two loops over the edge segments end by themselves.  Every
    iteration of the loop of [calculateSegmentOffsets] takes one segment at
    least, so that after as many iterations as there are segments none is
    left; and the loop of [centerEdges] takes one event at least in every
    iteration, so that more iterations than there are events change
    nothing. *)
Theorem segment_loops_finish :
  (forall columnWidth H segmentSpacing s n,
     ss_segments
       (segmentColumns (length (ss_segments s) + n) columnWidth H
          segmentSpacing s) = []) /\
  (forall edgeColumnWidth minSpacing segmentOffsets events n,
     centerChunks (length events + n) edgeColumnWidth minSpacing
       segmentOffsets events
     = centerChunks (length events) edgeColumnWidth minSpacing
         segmentOffsets events).
Proof.
  split.
  - intros. apply segmentColumns_finish. lia.
  - intros. apply centerChunks_finish; lia.
Qed.

(** ** Where the grid paths lead *)

Lemma routeEdge_endpoints cfg bs source tgt e :
  points e = [] ->
  let e' := routeEdge cfg bs source tgt e in
  (exists p mid q,
     points e' = p :: mid ++ [q] /\
     p_row p = row source + 1 /\ p_col p = col source + 1 /\
     p_row q = row tgt /\ p_col q = col tgt + 1) /\
  (forall p, In p (points e') ->
     (p_row p = row source + 1 \/ p_row p = row tgt) /\
     (p_col p = col source + 1 \/ p_col p = mainColumn e
      \/ p_col p = col tgt + 1)) /\
  pathLength (points e')
  = Z.abs (mainColumn e - (col source + 1))
    + Z.abs (row tgt - (row source + 1))
    + Z.abs (col tgt + 1 - mainColumn e).
Proof.
  destruct e as [d mc ps sp]. intros He e'. subst e'.
  simpl in He. subst ps.
  unfold routeEdge, routePoints, addPoint; simpl.
  destruct (mc =? col source + 1) eqn:Hs; simpl;
    destruct (col tgt + 1 =? mc) eqn:Ht; simpl;
    rewrite ?Hs, ?Ht; simpl;
    try (apply Z.eqb_eq in Hs); try (apply Z.eqb_eq in Ht);
    (split; [|split]);
    try (intros p Hp; repeat (destruct Hp as [<-|Hp]; [simpl; lia|]);
         destruct Hp);
    try lia.
  - eexists _, [], _. simpl. splits; [reflexivity | simpl; lia ..].
  - eexists _, [_; _], _. simpl. splits; [reflexivity | simpl; lia ..].
  - eexists _, [_; _], _. simpl. splits; [reflexivity | simpl; lia ..].
  - eexists _, [_; _; _; _], _. simpl. splits; [reflexivity | simpl; lia ..].
Qed.

Lemma routed_endpoints cfg bs entry st0 st1 :
  prepareLayout cfg bs entry = Done st0 ->
  calculateEdgeMainColumn st0 = Done st1 ->
  forall k e,
    In e (edge (roughRouting cfg st1) @ k) ->
    let g := grid_blocks (roughRouting cfg st1) in
    (exists p mid q,
       points e = p :: mid ++ [q] /\
       p_row p = row (g @ k) + 1 /\ p_col p = col (g @ k) + 1 /\
       p_row q = row (g @ dest e) /\ p_col q = col (g @ dest e) + 1) /\
    (forall p, In p (points e) ->
       (p_row p = row (g @ k) + 1 \/ p_row p = row (g @ dest e)) /\
       (p_col p = col (g @ k) + 1 \/ p_col p = mainColumn e
        \/ p_col p = col (g @ dest e) + 1)) /\
    pathLength (points e)
    = Z.abs (mainColumn e - (col (g @ k) + 1))
      + Z.abs (row (g @ dest e) - (row (g @ k) + 1))
      + Z.abs (col (g @ dest e) + 1 - mainColumn e).
Proof.
  intros H0 H1 k e He.
  destruct (@prepareLayout_edges _ _ _ _ H0) as (Hnd & Hkeys & Hem & _).
  destruct (@calculateEdgeMainColumn_keeps _ _ H1) as (Hg & Hk1).
  assert (Hfresh : forall k' e1, In e1 (edge st1 @ k') ->
                     points e1 = [] /\ In k' (UMap.keys (grid_blocks st1))).
  { intros k' e1 He1.
    apply (in_map (with_mainColumn 0)) in He1. rewrite Hk1 in He1.
    apply in_map_iff in He1. destruct He1 as (e0 & Heq & He0).
    rewrite Hem in He0. apply initEdges_fresh in He0.
    destruct He0 as (Hp & Hin). split.
    - apply (f_equal points) in Heq. cbn in Heq. congruence.
    - rewrite Hg. now apply Hkeys. }
  rewrite <- Hg in Hnd.
  destruct (@roughRouting_edges cfg (UMap.keys (grid_blocks st1)) st1 Hnd)
    as (Hgrid & Hout & Hin).
  fold (roughRouting cfg st1) in Hgrid, Hout, Hin.
  cbn zeta. rewrite Hgrid.
  destruct (in_dec N.eq_dec k (UMap.keys (grid_blocks st1))) as [Hk|Hk].
  - destruct (Hin k Hk) as (bs' & Heq). rewrite Heq in He.
    apply in_map_iff in He. destruct He as (e1 & <- & He1).
    destruct (Hfresh k e1 He1) as (Hp & _).
    destruct (@routeEdge_shape cfg bs' (grid_blocks st1 @ k)
                (grid_blocks st1 @ dest e1) e1 Hp)
      as (_ & _ & _ & Hd & Hm & _).
    cbn zeta in Hd, Hm. rewrite Hd, Hm.
    exact (@routeEdge_endpoints cfg bs' (grid_blocks st1 @ k)
             (grid_blocks st1 @ dest e1) e1 Hp).
  - rewrite (Hout k Hk) in He. destruct (Hfresh k e He) as (_ & Hc).
    contradiction.
Qed.

(** X22. In the state that [roughRouting] leaves, the grid path of every
    edge starts in the row below its source block, in the edge column in
    the middle of the block, and ends in the row of its target, in the edge
    column in the middle of the target; on its way it uses the two rows and
    the main column of the edge only, and its length is the distance from
    the source to the main column, down (or up) the main column, and from
    the main column to the target. *)
Theorem routed_edges_connect_blocks : forall cfg bs entry st,
  routedState cfg bs entry = Done st ->
  forall k e,
    In e (edge st @ k) ->
    let source := grid_blocks st @ k in
    let tgt := grid_blocks st @ dest e in
    (exists p mid q,
       points e = p :: mid ++ [q] /\
       p_row p = row source + 1 /\ p_col p = col source + 1 /\
       p_row q = row tgt /\ p_col q = col tgt + 1) /\
    (forall p, In p (points e) ->
       (p_row p = row source + 1 \/ p_row p = row tgt) /\
       (p_col p = col source + 1 \/ p_col p = mainColumn e
        \/ p_col p = col tgt + 1)) /\
    pathLength (points e)
    = Z.abs (mainColumn e - (col source + 1))
      + Z.abs (row tgt - (row source + 1))
      + Z.abs (col tgt + 1 - mainColumn e).
Proof.
  intros cfg bs entry st. unfold routedState. intros Hrun k e He.
  destruct (prepareLayout cfg bs entry) as [st0| |] eqn:H0;
    try discriminate Hrun.
  cbn [bind] in Hrun.
  destruct (calculateEdgeMainColumn st0) as [st1| |] eqn:H1;
    try discriminate Hrun.
  cbn [bind] in Hrun. inversion Hrun; subst st. clear Hrun.
  exact (@routed_endpoints _ _ _ _ _ H0 H1 k e He).
Qed.

Lemma routed_edges_connect_blocks_witness :
  exists st,
    routedState (cfg10 Medium) E4 1%N = Done st /\
    forall k e,
      In e (edge st @ k) ->
      pathLength (points e)
      = Z.abs (mainColumn e - (col (grid_blocks st @ k) + 1))
        + Z.abs (row (grid_blocks st @ dest e)
                 - (row (grid_blocks st @ k) + 1))
        + Z.abs (col (grid_blocks st @ dest e) + 1 - mainColumn e).
Proof.
  destruct (routedState (cfg10 Medium) E4 1%N) as [st| |] eqn:H;
    [|vm_compute in H; discriminate H|vm_compute in H; discriminate H].
  exists st. split; [reflexivity|]. intros k e He.
  exact (proj2 (proj2
           (@routed_edges_connect_blocks (cfg10 Medium) E4 1%N st H k e He))).
Defined.

(** ** The coordinate compression *)

Lemma insert_sorted_ascending a l :
  ascending l -> ascending (insert_sorted Z.ltb a l).
Proof.
  induction l as [|b l IH]; intros Hl; cbn [insert_sorted].
  - cbn. split; [intros ? []|exact I].
  - destruct Hl as [Hb Hl]. destruct (Z.ltb_spec b a) as [Hlt|Hge].
    + cbn [ascending]. split; [|auto].
      intros c Hc. apply In_insert_sorted in Hc.
      destruct Hc as [->|Hc]; [lia|auto].
    + cbn [ascending]. split; [|split; auto].
      intros c [<-|Hc]; [lia|]. specialize (Hb c Hc). lia.
Qed.

Lemma sort_ascending l : ascending (sort Z.ltb l).
Proof.
  induction l as [|a l IH]; [exact I|].
  cbn [sort fold_right]. now apply insert_sorted_ascending.
Qed.

Lemma unique_strictlyAscending l :
  ascending l -> strictlyAscending (unique l).
Proof.
  induction l as [|a l IH]; [auto|].
  destruct l as [|b l]; intros Hl.
  - cbn. split; [intros ? []|exact I].
  - change (unique (a :: b :: l))
      with (if a =? b then unique (b :: l) else a :: unique (b :: l)).
    destruct Hl as [Ha Hl]. destruct (Z.eqb_spec a b) as [->|Hne].
    + now apply IH.
    + cbn [strictlyAscending]. split; [|now apply IH].
      intros c Hc. rewrite In_unique in Hc.
      destruct Hl as [Hb _].
      pose proof (Ha b (or_introl eq_refl)) as Hab.
      cbn [In] in Hc. destruct Hc as [Hc|Hc]; [lia|].
      specialize (Hb c Hc). lia.
Qed.

Lemma strictlyAscending_ascending l : strictlyAscending l -> ascending l.
Proof.
  induction l as [|a l IH]; [auto|]. intros [Ha Hl]. split; [|auto].
  intros b Hb. specialize (Ha b Hb). lia.
Qed.

Lemma lower_bound_strict positions p q :
  ascending positions -> In p positions -> p < q ->
  lower_bound positions p < lower_bound positions q.
Proof.
  unfold lower_bound, zlen. intros Hasc Hp Hpq. apply inj_lt.
  induction positions as [|a l IH]; [destruct Hp|].
  destruct Hasc as [Ha Hl]. cbn [takeWhile].
  destruct (Z.ltb_spec a p) as [Hlt|Hge].
  - destruct (Z.ltb_spec a q); [|lia]. cbn [length].
    apply -> Nat.succ_lt_mono. apply IH; [exact Hl|].
    destruct Hp as [->|Hp]; [lia | exact Hp].
  - assert (a = p).
    { destruct Hp as [Hp|Hp]; [exact Hp|]. specialize (Ha p Hp). lia. }
    subst a. destruct (Z.ltb_spec p q); [|lia]. cbn [length]. lia.
Qed.

Lemma lower_bound_nth positions : forall i,
  strictlyAscending positions -> (i < length positions)%nat ->
  lower_bound positions (nth i positions 0) = Z.of_nat i.
Proof.
  unfold lower_bound, zlen.
  induction positions as [|a l IH]; intros i Hasc Hi; [cbn in Hi; lia|].
  destruct Hasc as [Ha Hl]. destruct i as [|i]; cbn [nth takeWhile].
  - rewrite Z.ltb_irrefl. reflexivity.
  - cbn [length] in Hi.
    assert (Hlt : a < nth i l 0) by (apply Ha, nth_In; lia).
    destruct (Z.ltb_spec a (nth i l 0)); [|lia]. cbn [length].
    rewrite !Nat2Z.inj_succ. f_equal. apply IH; [exact Hl | lia].
Qed.

(** X23. [compressCoordinates] fails exactly when it is given different
    numbers of left and right sides; its assertions on the positions never
    fail.  Otherwise it replaces every coordinate by its index among the
    coordinates in use: an index from 0 to the returned size less one, every
    such index being taken, and the order of the coordinates is kept.  The
    right sides get the coordinates of the left sides. *)
Theorem compressCoordinates_keeps_order : forall segments leftSides rightSides,
  if Nat.eqb (length leftSides) (length rightSides)
  then
    exists (idx : Z -> Z) n rs',
      compressCoordinates segments leftSides rightSides
      = Done (map (fun s =>
                     mkEdgeSegment (idx (y0 s)) (idx (y1 s)) (sx s)
                       (edgeIndex s) (s_secondaryPriority s) (s_kind s)
                       (s_spacingOverride s)) segments,
              map (fun s => mkNodeSide (nx s) (idx (ny0 s)) (idx (ny1 s))
                              (size s)) leftSides,
              rs', n) /\
      map (fun s => (nx s, size s)) rs'
      = map (fun s => (nx s, size s)) rightSides /\
      map (fun s => (ny0 s, ny1 s)) rs'
      = map (fun s => (idx (ny0 s), idx (ny1 s))) leftSides /\
      (forall p, In p (coordinates segments leftSides) -> 0 <= idx p < n) /\
      (forall i, 0 <= i < n ->
         exists p, In p (coordinates segments leftSides) /\ idx p = i) /\
      (forall p q,
         In p (coordinates segments leftSides) ->
         In q (coordinates segments leftSides) ->
         (p < q <-> idx p < idx q))
  else compressCoordinates segments leftSides rightSides
       = Fail InternalInvariant.
Proof.
  intros segments leftSides rightSides. unfold compressCoordinates.
  fold (coordinates segments leftSides).
  set (positions := unique (sort Z.ltb (coordinates segments leftSides))).
  assert (Hin : forall p, In p positions <->
                          In p (coordinates segments leftSides)).
  { intro p. unfold positions. now rewrite In_unique, In_sort. }
  assert (Hstrict : strictlyAscending positions).
  { apply unique_strictlyAscending, sort_ascending. }
  assert (Hseg : forall s, In s segments ->
            In (y0 s) positions /\ In (y1 s) positions).
  { intros s Hs. rewrite !Hin. unfold coordinates.
    split; apply in_or_app; left; apply in_flat_map; exists s;
      (split; [exact Hs | cbn; tauto]). }
  assert (Hside : forall s, In s leftSides ->
            In (ny0 s) positions /\ In (ny1 s) positions).
  { intros s Hs. rewrite !Hin. unfold coordinates.
    split; apply in_or_app; right; apply in_flat_map; exists s;
      (split; [exact Hs | cbn; tauto]). }
  assert (Hok : forall p, In p positions ->
            (lower_bound positions p <? zlen positions) = true).
  { intros p Hp. apply Z.ltb_lt. now apply lower_bound_lt. }
  replace (forallb _ segments) with true.
  2:{ symmetry. apply forallb_forall. intros s Hs.
      destruct (Hseg s Hs) as [H0 H1]. now rewrite !Hok. }
  cbn [assert bind].
  destruct (Nat.eqb_spec (length leftSides) (length rightSides))
    as [Hlen|Hlen]; [|reflexivity].
  cbn [assert bind].
  replace (forallb _ leftSides) with true.
  2:{ symmetry. apply forallb_forall. intros s Hs.
      destruct (Hside s Hs) as [H0 H1]. now rewrite !Hok. }
  cbn [assert bind].
  eexists (lower_bound positions), _, _. split; [reflexivity|].
  splits.
  - generalize (lower_bound positions) as f. clear - Hlen. intros f.
    revert rightSides Hlen.
    induction leftSides as [|l ls IH]; intros [|r rs] Hlen;
      try discriminate Hlen; [reflexivity|].
    cbn [combine map fst snd nx size]. f_equal. apply IH.
    now injection Hlen.
  - generalize (lower_bound positions) as f. clear - Hlen. intros f.
    revert rightSides Hlen.
    induction leftSides as [|l ls IH]; intros [|r rs] Hlen;
      try discriminate Hlen; [reflexivity|].
    cbn [combine map fst snd ny0 ny1]. f_equal. apply IH.
    now injection Hlen.
  - intros p Hp. apply lower_bound_lt. now apply Hin.
  - intros i Hi. exists (nth (Z.to_nat i) positions 0). split.
    + apply Hin. apply nth_In. unfold zlen in Hi. lia.
    + rewrite lower_bound_nth; [lia | exact Hstrict |].
      unfold zlen in Hi. lia.
  - intros p q Hp Hq. split.
    + intro Hpq. apply lower_bound_strict; auto.
      * now apply strictlyAscending_ascending.
      * now apply Hin.
    + intro Hlt. destruct (Z.lt_ge_cases p q) as [|Hge]; [assumption|].
      pose proof (@lower_bound_mono positions q p ltac:(lia)). lia.
Qed.

(** ** The range of the main columns *)

Lemma lastLess_range l : forall i position value found,
  let r := PointSetMinTree.lastLess l i position value found in
  r = found \/ (i <= r /\ r <= position).
Proof.
  induction l as [|v l IH]; intros i position value found;
    cbn [PointSetMinTree.lastLess]; [now left|].
  cbn zeta.
  destruct (IH (i + 1) position value
              (if (i <=? position) && (v <? value) then i else found))
    as [Heq|[H1 H2]].
  - cbn zeta in Heq. rewrite Heq.
    destruct ((i <=? position) && (v <? value)) eqn:Hc; [|now left].
    apply andb_true_iff in Hc. destruct Hc as [Hc _].
    apply Z.leb_le in Hc. right. lia.
  - right. cbn zeta in H1, H2. lia.
Qed.

Lemma firstLess_range l : forall i position value,
  let r := PointSetMinTree.firstLess l i position value in
  r = -1 \/ (position <= r /\ i <= r < i + zlen l).
Proof.
  unfold zlen.
  induction l as [|v l IH]; intros i position value;
    cbn [PointSetMinTree.firstLess]; [now left|].
  cbn zeta. destruct ((position <=? i) && (v <? value)) eqn:Hc.
  - apply andb_true_iff in Hc. destruct Hc as [Hc _].
    apply Z.leb_le in Hc. right. cbn [length]. lia.
  - destruct (IH (i + 1) position value) as [Heq|H1]; [now left|].
    right. cbn zeta in H1. cbn [length]. lia.
Qed.

(** The column that an edge event chooses is one of the edge columns 0 to
    [columns]. *)
Lemma chooseMainColumn_range st tr em event c :
  chooseMainColumn st tr em event = Done c ->
  zlen tr = columns st + 1 ->
  (forall k, 0 <= col (grid_blocks st @ k) /\
             col (grid_blocks st @ k) + 2 <= columns st) ->
  0 <= c <= columns st.
Proof.
  unfold chooseMainColumn. intros Hrun Hlen Hcols.
  set (block := grid_blocks st @ ev_blockId event) in *.
  set (edge := nth (ev_edgeId event) (em @ ev_blockId event) dflt) in *.
  set (targetBlock := grid_blocks st @ dest edge) in *.
  pose proof (Hcols (ev_blockId event)) as Hb. fold block in Hb.
  pose proof (Hcols (dest edge)) as Ht. fold targetBlock in Ht.
  set (topRow := Z.min (row block + 1) (row targetBlock)) in *.
  destruct (PointSetMinTree.valueAtPoint tr (col block + 1) <? topRow);
    [injection Hrun as <-; lia|].
  destruct (PointSetMinTree.valueAtPoint tr (col targetBlock + 1) <? topRow);
    [injection Hrun as <-; lia|].
  pose proof (lastLess_range tr 0 (col block + 1) topRow (-1)) as HL.
  pose proof (firstLess_range tr 0 (col block + 1) topRow) as HR.
  cbn zeta in HL, HR.
  fold (PointSetMinTree.rightMostLessThan tr (col block + 1) topRow) in HL.
  fold (PointSetMinTree.leftMostLessThan tr (col block + 1) topRow) in HR.
  set (nearestLeft :=
         PointSetMinTree.rightMostLessThan tr (col block + 1) topRow) in *.
  set (nearestRight :=
         PointSetMinTree.leftMostLessThan tr (col block + 1) topRow) in *.
  destruct (negb (nearestLeft =? -1) && negb (nearestRight =? -1)) eqn:Ha;
    [|discriminate Hrun].
  cbn [assert bind] in Hrun.
  apply andb_true_iff in Ha. destruct Ha as [Ha1 Ha2].
  apply negb_true_iff, Z.eqb_neq in Ha1.
  apply negb_true_iff, Z.eqb_neq in Ha2.
  repeat match type of Hrun with
         | (if ?b then _ else _) = Done c => destruct b
         end;
    injection Hrun as <-;
    repeat match goal with
           | |- context [if ?b then _ else _] => destruct b
           end;
    lia.
Qed.

Lemma processEvents_range st events : forall tr em r,
  processEvents st (tr, em) events = Done r ->
  zlen tr = columns st + 1 ->
  (forall k, 0 <= col (grid_blocks st @ k) /\
             col (grid_blocks st @ k) + 2 <= columns st) ->
  (forall k i,
     (i < length (em @ k))%nat ->
     0 <= mainColumn (nth i (em @ k) dflt) <= columns st \/
     exists ev, In ev events /\ ev_blockId ev = k /\ ev_edgeId ev = i /\
                ev_type ev = EdgeEvent) ->
  forall k i,
    (i < length (snd r @ k))%nat ->
    0 <= mainColumn (nth i (snd r @ k) dflt) <= columns st.
Proof.
  induction events as [|e events IH]; intros tr em r Hrun Hlen Hcols Hinv;
    cbn [processEvents] in Hrun.
  - injection Hrun as <-. cbn [snd]. intros k i Hi.
    destruct (Hinv k i Hi) as [H|(ev & [] & _)]. exact H.
  - unfold processEvent in Hrun at 1. destruct (ev_type e) eqn:Hty.
    + destruct (chooseMainColumn st tr em e) as [c| |] eqn:Hc;
        try discriminate Hrun.
      cbn [bind] in Hrun.
      pose proof (@chooseMainColumn_range st tr em e c Hc Hlen Hcols) as Hrc.
      apply (IH _ _ _ Hrun Hlen Hcols).
      intros k i Hi. unfold setMainColumn in Hi |- *.
      rewrite at_modify in Hi |- *.
      destruct (N.eqb_spec k (ev_blockId e)) as [->|Hk].
      * rewrite length_set_nth in Hi.
        destruct (Nat.eq_dec i (ev_edgeId e)) as [->|Hne].
        -- left. rewrite nth_set_nth_same by exact Hi. cbn. exact Hrc.
        -- rewrite nth_set_nth_other by exact Hne.
           destruct (Hinv _ i Hi) as [H|(ev & [<-|Hev] & Hb & Hid & Ht)];
             [now left | congruence |].
           right. exists ev. auto.
      * destruct (Hinv k i Hi) as [H|(ev & [<-|Hev] & Hb & Hid & Ht)];
          [now left | congruence |].
        right. exists ev. auto.
    + cbn [bind] in Hrun.
      apply (IH _ _ _ Hrun); auto.
      * unfold PointSetMinTree.set. now rewrite zlen_vset.
      * intros k i Hi.
        destruct (Hinv k i Hi) as [H|(ev & [<-|Hev] & Hb & Hid & Ht)];
          [now left | congruence |].
        right. exists ev. auto.
Qed.

Lemma In_combine_seq {A : Type} (l : list A) d i :
  (i < length l)%nat -> In (i, nth i l d) (combine (seq 0 (length l)) l).
Proof.
  assert (Hgen : forall n, (i < length l)%nat ->
            In ((n + i)%nat, nth i l d) (combine (seq n (length l)) l)).
  { revert i. induction l as [|a l IH]; intros i n Hi; [cbn in Hi; lia|].
    cbn [length seq combine]. destruct i as [|i].
    - left. f_equal. lia.
    - right. replace (n + S i)%nat with (S n + i)%nat by lia.
      apply IH. cbn [length] in Hi. lia. }
  intro Hi. exact (Hgen 0%nat Hi).
Qed.

Lemma calculateEdgeMainColumn_range cfg bs entry st0 st1 :
  NoDup (UMap.keys bs) ->
  prepareLayout cfg bs entry = Done st0 ->
  calculateEdgeMainColumn st0 = Done st1 ->
  forall k e,
    In e (edge st1 @ k) -> 0 <= mainColumn e <= columns st0.
Proof.
  intros Hnd H0 H1 k e He.
  destruct (@prepareLayout_in_grid cfg bs entry st0 H0) as (Hc1 & _ & Hgrid).
  destruct (@prepareLayout_edges cfg bs entry st0 H0)
    as (_ & Hbg & Hem & Hndb).
  specialize (Hndb Hnd).
  destruct (topoSort_initial bs entry) as (stt & order & Hts & _ & _).
  destruct (@prepareLayout_rows cfg bs entry st0 stt order H0 Hts)
    as (_ & _ & Hentry).
  assert (Hcols0 : 2 <= columns st0).
  { destruct (Hgrid entry (Hbg entry Hentry)) as [Ha Hb]. lia. }
  assert (Hcol0 : forall k, 0 <= col (grid_blocks st0 @ k) /\
                            col (grid_blocks st0 @ k) + 2 <= columns st0).
  { intro k0. destruct (in_dec N.eq_dec k0 (UMap.keys (grid_blocks st0)))
      as [Hk|Hk]; [exact (Hgrid k0 Hk)|].
    rewrite (at_in_keys _ _ Hk). cbn [col dflt GridBlock_default]. lia. }
  unfold calculateEdgeMainColumn in H1.
  destruct (processEvents st0 _ _) as [r| |] eqn:Hp; try discriminate H1.
  cbn [bind] in H1. injection H1 as <-. cbn [edge with_edge] in He.
  apply In_nth with (d := dflt) in He. destruct He as (i & Hi & <-).
  apply (@processEvents_range st0 _ _ _ r Hp); [| exact Hcol0 | | exact Hi].
  - unfold PointSetMinTree.make, zlen, assign. rewrite repeat_length. lia.
  - clear i Hi. intros k' i Hi. right.
    rewrite Hem, (initEdges_at _ k' Hndb), length_map in Hi.
    assert (Hk' : In k' (UMap.keys (grid_blocks st0))).
    { apply Hbg. destruct (in_dec N.eq_dec k' (UMap.keys (blocks st0)))
        as [Hin|Hout]; [exact Hin|].
      rewrite (at_in_keys _ _ Hout) in Hi. cbn in Hi. lia. }
    eexists (mkEvent k' i _ EdgeEvent). split; [|auto].
    apply In_sort. unfold createEvents. apply in_flat_map.
    exists k'. split; [exact Hk'|]. unfold blockEvents. right.
    apply in_map_iff.
    exists (i, nth i (edges (blocks st0 @ k')) (mkGraphEdge 0%N [])).
    split; [reflexivity|]. now apply In_combine_seq.
Qed.

(** X24. With unique ids in the input, [calculateEdgeMainColumn] gives every
    edge a main column, and it is one of the edge columns of the grid, 0 to
    [columns]. *)
Theorem edge_main_columns_in_range : forall cfg bs entry st st1,
  NoDup (UMap.keys bs) ->
  prepareLayout cfg bs entry = Done st ->
  calculateEdgeMainColumn st = Done st1 ->
  forall k e,
    In e (edge st1 @ k) -> 0 <= mainColumn e <= columns st1.
Proof.
  intros cfg bs entry st st1 Hnd H0 H1 k e He.
  destruct (calculateEdgeMainColumn_rows _ H1) as (_ & Hc).
  rewrite Hc.
  exact (@calculateEdgeMainColumn_range cfg bs entry st st1 Hnd H0 H1 k e He).
Qed.

Lemma edge_main_columns_in_range_witness :
  NoDup (UMap.keys E4) /\
  exists st st1,
    prepareLayout (cfg10 Medium) E4 1%N = Done st /\
    calculateEdgeMainColumn st = Done st1 /\
    forall k e, In e (edge st1 @ k) -> 0 <= mainColumn e <= columns st1.
Proof.
  assert (Hnd : NoDup (UMap.keys E4)).
  { cbn. repeat constructor; cbn; intuition discriminate. }
  split; [exact Hnd|].
  destruct (prepareLayout (cfg10 Medium) E4 1%N) as [st| |] eqn:H;
    [|vm_compute in H; discriminate H|vm_compute in H; discriminate H].
  destruct (@prepareLayout_in_grid (cfg10 Medium) E4 1%N st H)
    as (Hc & Hrow & Hgrid).
  destruct (@calculateEdgeMainColumn_done st Hc Hrow Hgrid) as [st1 H1].
  exists st, st1. split; [reflexivity|]. split; [exact H1|].
  exact (@edge_main_columns_in_range (cfg10 Medium) E4 1%N st st1 Hnd H H1).
Defined.

(** ** What the placement of the edges leaves alone *)

Lemma setOffsets_forget pts : forall here eo i,
  map (with_offset 0) (fst (setOffsets here pts eo i))
  = map (with_offset 0) pts.
Proof.
  induction pts as [|p pts IH]; intros here eo i; cbn [setOffsets];
    [reflexivity|].
  destruct here.
  - specialize (IH false eo (i + 1)).
    destruct (setOffsets false pts eo (i + 1)) as [r i']. cbn [fst] in *.
    cbn [map]. now rewrite IH.
  - specialize (IH true eo i).
    destruct (setOffsets true pts eo i) as [r i']. cbn [fst] in *.
    cbn [map]. now rewrite IH.
Qed.

Lemma copyToEdge_forget col eo l : forall done i,
  exists l',
    fst (fold_left (copyToEdge col eo) l (done, i)) = done ++ l' /\
    map forgetOffsets l' = map forgetOffsets l.
Proof.
  induction l as [|e l IH]; intros done i; cbn [fold_left].
  - exists []. now rewrite app_nil_r.
  - unfold copyToEdge at 2.
    destruct (points e) as [|p0 rest] eqn:Hp.
    + destruct (IH (done ++ [mkGridEdge (dest e) (mainColumn e) []
                               (secondaryPriority e)]) i) as (l' & H1 & H2).
      eexists (_ :: l'). rewrite H1, <- app_assoc. split; [reflexivity|].
      cbn [map]. rewrite H2. f_equal. unfold forgetOffsets.
      cbn [dest mainColumn points secondaryPriority]. now rewrite Hp.
    + pose proof (setOffsets_forget rest col eo i) as Hf.
      destruct (setOffsets col rest eo i) as [r i'] eqn:Hs. cbn [fst] in Hf.
      destruct (IH (done ++ [mkGridEdge (dest e) (mainColumn e) (p0 :: r)
                               (secondaryPriority e)]) i') as (l' & H1 & H2).
      eexists (_ :: l'). rewrite H1, <- app_assoc. split; [reflexivity|].
      cbn [map]. rewrite H2. f_equal. unfold forgetOffsets.
      cbn [dest mainColumn points secondaryPriority]. rewrite Hp.
      cbn [map]. now rewrite Hf.
Qed.

Lemma copySegmentsToEdges_forget_fold col eo em : forall done i,
  exists rest,
    fst (fold_left
           (fun (acc : UMap.t (list GridEdge) * Z)
                (kl : ut64 * list GridEdge) =>
              let '(done, i) := acc in
              let '(l, i') :=
                fold_left (copyToEdge col eo) (snd kl) ([], i) in
              (done ++ [(fst kl, l)], i'))
           em (done, i)) = done ++ rest /\
    Forall2 (fun kl' kl : ut64 * list GridEdge =>
               fst kl' = fst kl /\
               map forgetOffsets (snd kl') = map forgetOffsets (snd kl))
      rest em.
Proof.
  induction em as [|kl em IH]; intros done i; cbn [fold_left].
  - exists []. rewrite app_nil_r. split; [reflexivity | constructor].
  - destruct (copyToEdge_forget col eo (snd kl) [] i) as (l' & H1 & H2).
    cbv beta iota.
    destruct (fold_left (copyToEdge col eo) (snd kl) ([], i)) as [l i'].
    cbn [fst app] in H1. subst l.
    destruct (IH (done ++ [(fst kl, l')]) i') as (rest & H3 & H4).
    exists ((fst kl, l') :: rest). rewrite <- app_assoc in H3.
    split; [exact H3|]. constructor; [split; [reflexivity | exact H2]|].
    exact H4.
Qed.

Lemma copySegmentsToEdges_forget col eo em k :
  map forgetOffsets (copySegmentsToEdges col eo em @ k)
  = map forgetOffsets (em @ k).
Proof.
  destruct (copySegmentsToEdges_forget_fold col eo em [] 0)
    as (rest & H1 & H2).
  assert (H1' : copySegmentsToEdges col eo em = rest) by exact H1.
  rewrite H1'. clear H1 H1'. unfold UMap.at_.
  induction H2 as [|[k1 l1] [k2 l2] rest em (Hk & Hl) H2 IH]; [reflexivity|].
  cbn [fst snd] in Hk, Hl. subst k2. cbn [UMap.find].
  destruct (N.eqb k k1); [exact Hl | exact IH].
Qed.

Lemma elaborateEdgePlacement_forget cfg st st' k :
  elaborateEdgePlacement cfg st = Done st' ->
  map forgetOffsets (edge st' @ k) = map forgetOffsets (edge st @ k).
Proof.
  rewrite elaborateEdgePlacement_halves. intros H.
  destruct (verticalPlacement cfg st) as [[st1 eo]| |] eqn:Hv;
    try discriminate H.
  cbn [bind fst snd] in H.
  assert (H1 : map forgetOffsets (edge st1 @ k)
               = map forgetOffsets (edge st @ k)).
  { unfold verticalPlacement in Hv.
    destruct (calculateSegmentOffsets _ _ _ _ _ _ _ _) as [[segs eo1] ecw].
    destruct (calculateColumnOffsets _ _) as [[[co eco] w]| |];
      try discriminate Hv.
    cbn [bind] in Hv. inversion Hv; subst.
    cbn [edge with_edge with_columnOffsets].
    rewrite copySegmentsToEdges_forget. f_equal. f_equal.
    unfold adjustColumnWidths. destruct (fold_left _ _ _) as [rh cw].
    reflexivity. }
  unfold horizontalPlacement in H.
  destruct (compressCoordinates _ _ _) as [[[[segs' ls] rs] cc]| |];
    try discriminate H.
  cbn [bind] in H.
  destruct (calculateSegmentOffsets _ _ _ _ _ _ _ _) as [[segs'' eo'] erh].
  inversion H; subst. cbn [edge with_edge with_edgeRowHeight with_blocks].
  rewrite copySegmentsToEdges_forget. exact H1.
Qed.

Lemma elaborateEdgePlacement_grid cfg st st' :
  elaborateEdgePlacement cfg st = Done st' ->
  grid_blocks st' = grid_blocks st /\
  rows st' = rows st /\ columns st' = columns st.
Proof.
  rewrite elaborateEdgePlacement_halves. intros H.
  destruct (verticalPlacement cfg st) as [[st1 eo]| |] eqn:Hv;
    try discriminate H.
  cbn [bind fst snd] in H.
  assert (H1 : grid_blocks st1 = grid_blocks st /\
               rows st1 = rows st /\ columns st1 = columns st).
  { unfold verticalPlacement in Hv.
    destruct (calculateSegmentOffsets _ _ _ _ _ _ _ _) as [[segs eo1] ecw].
    destruct (calculateColumnOffsets _ _) as [[[co eco] w]| |];
      try discriminate Hv.
    cbn [bind] in Hv. inversion Hv; subst.
    cbn [grid_blocks rows columns with_edge with_columnOffsets].
    unfold adjustColumnWidths. destruct (fold_left _ _ _) as [rh cw].
    cbn. auto. }
  destruct H1 as (Hg1 & Hr1 & Hc1).
  unfold horizontalPlacement in H.
  destruct (compressCoordinates _ _ _) as [[[[segs' ls] rs] cc]| |];
    try discriminate H.
  cbn [bind] in H.
  destruct (calculateSegmentOffsets _ _ _ _ _ _ _ _) as [[segs'' eo'] erh].
  inversion H; subst.
  cbn [grid_blocks rows columns with_edge with_edgeRowHeight with_blocks].
  auto.
Qed.

(** X25. [elaborateEdgePlacement] changes nothing of an edge but the offsets
    of its points: destination, main column, priority, and the row, column,
    kind and spacing override of every point are kept, for every list of
    edges and in its order.  The grid blocks, the numbers of rows and
    columns and the content of every block are kept as well. *)
Theorem elaborateEdgePlacement_writes_offsets_only : forall cfg st st',
  elaborateEdgePlacement cfg st = Done st' ->
  (forall k, map forgetOffsets (edge st' @ k)
             = map forgetOffsets (edge st @ k)) /\
  grid_blocks st' = grid_blocks st /\
  (forall k, blocks st' @ k = blocks st @ k) /\
  rows st' = rows st /\ columns st' = columns st.
Proof.
  intros cfg st st' H.
  destruct (@elaborateEdgePlacement_grid cfg st st' H) as (Hg & Hr & Hc).
  splits; auto.
  - intro k. exact (@elaborateEdgePlacement_forget cfg st st' k H).
  - intro k. exact (@elaborateEdgePlacement_blocks cfg st st' k H).
Qed.

Lemma elaborateEdgePlacement_writes_offsets_only_witness :
  exists st st',
    routedState (cfg10 Medium) E4 1%N = Done st /\
    elaborateEdgePlacement (cfg10 Medium) st = Done st' /\
    map forgetOffsets (edge st' @ 1%N) = map forgetOffsets (edge st @ 1%N).
Proof.
  destruct (routedState (cfg10 Medium) E4 1%N) as [st| |] eqn:H;
    [|vm_compute in H; discriminate H|vm_compute in H; discriminate H].
  assert (Hc : 0 <= columns st).
  { assert (Hcs : columns st = 2).
    { change (columns st)
        with (columns (match Done st with Done s => s | _ => st end)).
      rewrite <- H. vm_compute. reflexivity. }
    rewrite Hcs. lia. }
  destruct (@elaborateEdgePlacement_done (cfg10 Medium) st Hc) as [st' H'].
  exists st, st'. split; [reflexivity|]. split; [exact H'|].
  exact (proj1 (@elaborateEdgePlacement_writes_offsets_only
                  (cfg10 Medium) st st' H') 1%N).
Defined.

(** ** The reads of the pixel conversion *)

Lemma prepareLayout_columns cfg bs entry st0 :
  prepareLayout cfg bs entry = Done st0 ->
  forall k, 0 <= col (grid_blocks st0 @ k) /\
            col (grid_blocks st0 @ k) + 2 <= columns st0.
Proof.
  intros H0.
  destruct (@prepareLayout_in_grid cfg bs entry st0 H0) as (_ & _ & Hgrid).
  destruct (@prepareLayout_edges cfg bs entry st0 H0) as (_ & Hbg & _).
  destruct (topoSort_initial bs entry) as (stt & order & Hts & _ & _).
  destruct (@prepareLayout_rows cfg bs entry st0 stt order H0 Hts)
    as (_ & _ & Hentry).
  assert (Hcols0 : 2 <= columns st0).
  { destruct (Hgrid entry (Hbg entry Hentry)) as [Ha Hb]. lia. }
  intro k. destruct (in_dec N.eq_dec k (UMap.keys (grid_blocks st0)))
    as [Hk|Hk]; [exact (Hgrid k Hk)|].
  rewrite (at_in_keys _ _ Hk). cbn [col dflt GridBlock_default]. lia.
Qed.

Lemma routed_points_in_grid cfg bs entry st0 st1 :
  NoDup (UMap.keys bs) ->
  prepareLayout cfg bs entry = Done st0 ->
  calculateEdgeMainColumn st0 = Done st1 ->
  forall k e p,
    In e (edge (roughRouting cfg st1) @ k) -> In p (points e) ->
    0 <= p_row p <= rows st0 /\ 0 <= p_col p <= columns st0.
Proof.
  intros Hndb H0 H1 k e p He Hp.
  destruct (@prepareLayout_edges _ _ _ _ H0) as (Hnd & Hkeys & Hem & _).
  destruct (@calculateEdgeMainColumn_keeps _ _ H1) as (Hg & Hk1).
  pose proof (@prepareLayout_columns cfg bs entry st0 H0) as Hcols.
  destruct (topoSort_initial bs entry) as (stt & order & Hts & _ & _).
  destruct (@prepareLayout_rows cfg bs entry st0 stt order H0 Hts)
    as (Hrows & _).
  assert (Hfresh : forall k' e1, In e1 (edge st1 @ k') ->
                     points e1 = [] /\ In k' (UMap.keys (grid_blocks st1))).
  { intros k' e1 He1.
    apply (in_map (with_mainColumn 0)) in He1. rewrite Hk1 in He1.
    apply in_map_iff in He1. destruct He1 as (e0 & Heq & He0).
    rewrite Hem in He0. apply initEdges_fresh in He0.
    destruct He0 as (Hp0 & Hin). split.
    - apply (f_equal points) in Heq. cbn in Heq. congruence.
    - rewrite Hg. now apply Hkeys. }
  rewrite <- Hg in Hnd.
  destruct (@roughRouting_edges cfg (UMap.keys (grid_blocks st1)) st1 Hnd)
    as (_ & Hout & Hin).
  fold (roughRouting cfg st1) in Hout, Hin.
  destruct (in_dec N.eq_dec k (UMap.keys (grid_blocks st1))) as [Hk|Hk].
  - destruct (Hin k Hk) as (bs' & Heq). rewrite Heq in He.
    apply in_map_iff in He. destruct He as (e1 & <- & He1).
    destruct (Hfresh k e1 He1) as (Hp1 & _).
    destruct (@routeEdge_endpoints cfg bs' (grid_blocks st1 @ k)
                (grid_blocks st1 @ dest e1) e1 Hp1) as (_ & Hpts & _).
    destruct (Hpts p Hp) as (Hr & Hc).
    pose proof (@calculateEdgeMainColumn_range cfg bs entry st0 st1 Hndb H0
                  H1 k e1 He1) as Hmc.
    rewrite Hg in Hr, Hc.
    pose proof (Hrows k). pose proof (Hrows (dest e1)).
    pose proof (Hcols k). pose proof (Hcols (dest e1)). lia.
  - rewrite (Hout k Hk) in He. destruct (Hfresh k e He) as (_ & Hc).
    contradiction.
Qed.

Lemma calculateColumnOffsets_lengths cw ecw co eco total :
  calculateColumnOffsets cw ecw = Done (co, eco, total) ->
  zlen co = zlen cw /\ zlen eco = zlen ecw.
Proof.
  unfold calculateColumnOffsets. intros Heq.
  destruct (Nat.eqb_spec (length ecw) (length cw + 1)) as [Hlen|Hlen];
    [|discriminate Heq].
  cbn [assert bind] in Heq.
  destruct (@columnOffsetsLoop_spec cw ecw 0)
    as (co' & eco' & final & Hloop & Hc & He & _); [lia|].
  rewrite Hloop in Heq. injection Heq as <- <- <-.
  unfold zlen. rewrite length_app. cbn [length]. lia.
Qed.

Lemma convertToPixelCoordinates_offsets cfg st st' w h :
  convertToPixelCoordinates cfg st = Done (st', w, h) ->
  edge st' = edge st /\
  zlen (edgeColumnOffset st') = zlen (edgeColumnWidth st) /\
  zlen (edgeRowOffset st') = zlen (edgeRowHeight st).
Proof.
  unfold convertToPixelCoordinates. intros H.
  destruct (calculateColumnOffsets (columnWidth st) (edgeColumnWidth st))
    as [[[co eco] w1]| |] eqn:Hco; try discriminate H.
  cbn [bind] in H.
  cbn [rowHeight edgeRowHeight with_columnOffsets] in H.
  destruct (calculateColumnOffsets (rowHeight st) (edgeRowHeight st))
    as [[[ro ero] h1]| |] eqn:Hro; try discriminate H.
  cbn [bind] in H. inversion H; subst. clear H.
  cbn [edge edgeColumnOffset edgeRowOffset with_blocks with_grid_blocks
       with_rowOffsets with_columnOffsets].
  destruct (calculateColumnOffsets_lengths _ _ Hco) as (_ & Le).
  destruct (calculateColumnOffsets_lengths _ _ Hro) as (_ & Lr).
  auto.
Qed.

(** X26. With unique ids in the input, every point of every grid path that
    [convertToPixelCoordinates] turns into a polyline names a row and a
    column for which [edgeRowOffset] and [edgeColumnOffset] have an entry:
    the reads [edgeColumnOffset[column]] and [edgeRowOffset[row]] stay
    inside the two vectors. *)
Theorem polyline_reads_in_bounds : forall cfg bs entry st0 st2 st3 w h,
  NoDup (UMap.keys bs) ->
  prepareLayout cfg bs entry = Done st0 ->
  routeEdges cfg st0 = Done st2 ->
  convertToPixelCoordinates cfg st2 = Done (st3, w, h) ->
  forall k e p,
    In e (edge st3 @ k) -> In p (points e) ->
    0 <= p_col p < zlen (edgeColumnOffset st3) /\
    0 <= p_row p < zlen (edgeRowOffset st3).
Proof.
  intros cfg bs entry st0 st2 st3 w h Hnd H0 Hroute H3 k e p He Hp.
  unfold routeEdges in Hroute.
  destruct (bind_Done _ _ Hroute) as (st1 & H1 & H2). clear Hroute.
  destruct (calculateEdgeMainColumn_rows _ H1) as (Hr1 & Hc1).
  destruct (roughRouting_grid cfg st1) as (_ & Hr2 & Hc2).
  pose proof (@prepareLayout_columns cfg bs entry st0 H0 0%N) as Hcols.
  destruct (topoSort_initial bs entry) as (stt & order & Hts & _ & _).
  destruct (@prepareLayout_rows cfg bs entry st0 stt order H0 Hts)
    as (Hrows & _).
  specialize (Hrows 0%N).
  assert (Hcrr : 1 <= columns (roughRouting cfg st1))
    by (rewrite Hc2, Hc1; lia).
  assert (Hrrr : 0 <= rows (roughRouting cfg st1))
    by (rewrite Hr2, Hr1; lia).
  destruct (@elaborateEdgePlacement_columns cfg _ st2 H2 Hcrr)
    as (_ & Hcl & _ & _ & Hel & _).
  destruct (@elaborateEdgePlacement_rows cfg _ st2 H2 Hrrr)
    as (_ & _ & Hrl & _ & _ & Herl & _).
  rewrite Hc2, Hc1 in Hcl, Hel. rewrite Hr2, Hr1 in Hrl, Herl.
  destruct (@convertToPixelCoordinates_offsets cfg st2 st3 w h H3)
    as (Hedge & Hlc & Hlr).
  rewrite Hedge in He. rewrite Hlc, Hlr, Hel, Herl.
  (* the point goes back to a point of the routed state *)
  apply (in_map forgetOffsets) in He.
  rewrite (@elaborateEdgePlacement_forget cfg _ st2 k H2) in He.
  apply in_map_iff in He. destruct He as (e' & Heq & He').
  apply (f_equal points) in Heq. cbn [points forgetOffsets] in Heq.
  apply (in_map (with_offset 0)) in Hp. rewrite <- Heq in Hp.
  apply in_map_iff in Hp. destruct Hp as (p' & Hpeq & Hp').
  destruct (@routed_points_in_grid cfg bs entry st0 st1 Hnd H0 H1 k e' p'
              He' Hp') as (Hrow & Hcol).
  assert (Hsame : p_row p = p_row p' /\ p_col p = p_col p').
  { split; [apply (f_equal p_row) in Hpeq | apply (f_equal p_col) in Hpeq];
      cbn in Hpeq; congruence. }
  lia.
Qed.

Lemma polyline_reads_in_bounds_witness :
  NoDup (UMap.keys E4) /\
  exists st0 st2 st3 w h,
    prepareLayout (cfg10 Medium) E4 1%N = Done st0 /\
    routeEdges (cfg10 Medium) st0 = Done st2 /\
    convertToPixelCoordinates (cfg10 Medium) st2 = Done (st3, w, h) /\
    forall k e p,
      In e (edge st3 @ k) -> In p (points e) ->
      0 <= p_col p < zlen (edgeColumnOffset st3) /\
      0 <= p_row p < zlen (edgeRowOffset st3).
Proof.
  assert (Hnd : NoDup (UMap.keys E4)).
  { cbn. repeat constructor; cbn; intuition discriminate. }
  split; [exact Hnd|].
  destruct (CalculateLayout (cfg10 Medium) E4 1%N) as [l| |] eqn:H;
    [|vm_compute in H; discriminate H|vm_compute in H; discriminate H].
  destruct (CalculateLayout_stages _ _ _ H)
    as (st0 & st1 & st2 & st3 & w & h & H0 & H1 & H2 & H3 & _).
  assert (Hroute : routeEdges (cfg10 Medium) st0 = Done st2).
  { unfold routeEdges. rewrite H1. exact H2. }
  exists st0, st2, st3, w, h.
  split; [exact H0|]. split; [exact Hroute|]. split; [exact H3|].
  exact (@polyline_reads_in_bounds (cfg10 Medium) E4 1%N st0 st2 st3 w h
           Hnd H0 Hroute H3).
Defined.

(** ** The reads of [centerEdges] *)

Lemma activeAfter_app a b : activeAfter (a ++ b) = activeAfter a + activeAfter b.
Proof.
  induction a as [|e a IH]; cbn [app activeAfter]; [reflexivity|].
  rewrite IH. lia.
Qed.

Lemma activeNonNegative_app a : forall c b,
  activeNonNegative c (a ++ b) <->
  activeNonNegative c a /\ activeNonNegative (c + activeAfter a) b.
Proof.
  induction a as [|e a IH]; intros c b; cbn [app activeNonNegative activeAfter].
  - rewrite Z.add_0_r. tauto.
  - rewrite IH.
    replace (c + (if start e then 1 else -1) + activeAfter a)
      with (c + ((if start e then 1 else -1) + activeAfter a)) by lia.
    tauto.
Qed.

Lemma activeNonNegative_mono l : forall c c',
  c <= c' -> activeNonNegative c l -> activeNonNegative c' l.
Proof.
  induction l as [|e l IH]; intros c c' Hc; cbn [activeNonNegative];
    [auto|].
  intros [H1 H2]. split; [lia|]. eapply IH; [|exact H2]. lia.
Qed.

Lemma activeNonNegative_after l : forall c,
  0 <= c -> activeNonNegative c l -> 0 <= c + activeAfter l.
Proof.
  induction l as [|e l IH]; intros c Hc; cbn [activeNonNegative activeAfter];
    [lia|].
  intros [H1 H2]. specialize (IH _ H1 H2). lia.
Qed.

Lemma insert_sorted_split {A : Type} (lt : A -> A -> bool) a l :
  exists l1 l2,
    l = l1 ++ l2 /\ insert_sorted lt a l = l1 ++ a :: l2 /\
    forall b, In b l1 -> lt b a = true.
Proof.
  induction l as [|b l IH]; cbn [insert_sorted].
  - exists [], []. splits; auto; try (intros ? []).
  - destruct (lt b a) eqn:Hlt.
    + destruct IH as (l1 & l2 & H1 & H2 & H3).
      exists (b :: l1), l2. cbn [app]. rewrite H2, <- H1. splits; auto.
      intros c [<-|Hc]; auto.
    + exists [], (b :: l). splits; auto; try (intros ? []).
Qed.

(** Sorting in the two events of a segment keeps the count of the active
    segments from falling below none: the start is put before the end. *)
Lemma insert_pair_active s e l :
  start s = true -> start e = false -> CEvent_lt e s = false ->
  activeNonNegative 0 l -> activeAfter l = 0 ->
  let l' := insert_sorted CEvent_lt s (insert_sorted CEvent_lt e l) in
  activeNonNegative 0 l' /\ activeAfter l' = 0.
Proof.
  intros Hs He Hlt Hl Hbal. cbn zeta.
  destruct (insert_sorted_split CEvent_lt e l) as (A & B & HL & HA & _).
  rewrite HA.
  destruct (insert_sorted_split CEvent_lt s (A ++ e :: B))
    as (l1 & l2 & H1 & H2 & H3).
  rewrite H2.
  assert (Hm : exists m, A = l1 ++ m /\ l2 = m ++ e :: B).
  { apply app_eq_app in H1. destruct H1 as (m & [[H1a H1b]|[H1a H1b]]).
    - exists m. auto.
    - destruct m as [|x m].
      + exists []. rewrite app_nil_r in H1a. cbn [app] in H1b |- *.
        rewrite app_nil_r. auto.
      + cbn [app] in H1b. injection H1b as <- _.
        assert (Hin : In e l1)
          by (rewrite H1a; apply in_or_app; right; now left).
        rewrite (H3 e Hin) in Hlt. discriminate Hlt. }
  destruct Hm as (m & -> & ->). subst l.
  rewrite <- app_assoc in Hl, Hbal.
  rewrite !activeAfter_app in Hbal.
  apply activeNonNegative_app in Hl. destruct Hl as [Hl1 Hl2].
  apply activeNonNegative_app in Hl2. destruct Hl2 as [Hlm HlB].
  pose proof (activeNonNegative_after _ (Z.le_refl 0) Hl1) as H10.
  assert (H1m : 0 <= 0 + activeAfter l1 + activeAfter m)
    by (apply activeNonNegative_after; [lia | exact Hlm]).
  split.
  - apply activeNonNegative_app. split; [exact Hl1|].
    cbn [activeNonNegative]. rewrite Hs. split; [lia|].
    apply activeNonNegative_app. split.
    + eapply activeNonNegative_mono; [|exact Hlm]. lia.
    + cbn [activeNonNegative]. rewrite He. split; [lia|].
      eapply activeNonNegative_mono; [|exact HlB]. lia.
  - rewrite activeAfter_app. cbn [activeAfter]. rewrite Hs.
    rewrite activeAfter_app. cbn [activeAfter]. rewrite He. lia.
Qed.

Lemma sorted_events_active segmentOffsets edgeColumnWidth segments :
  Forall (fun s => y0 s <= y1 s) segments ->
  let events :=
    sort CEvent_lt
      (flat_map
         (fun s =>
            let o := vget segmentOffsets (edgeIndex s) in
            if (0 <=? o) && (o <=? vget edgeColumnWidth (sx s))
            then [mkCEvent (sx s) (y0 s) (edgeIndex s) true;
                  mkCEvent (sx s) (y1 s) (edgeIndex s) false]
            else [])
         segments) in
  activeNonNegative 0 events /\ activeAfter events = 0.
Proof.
  intros Hall. cbn zeta.
  induction Hall as [|s segs Hs Hall IH]; [cbn; auto|].
  cbn [flat_map]. cbv zeta.
  destruct ((0 <=? vget segmentOffsets (edgeIndex s))
            && (vget segmentOffsets (edgeIndex s)
                <=? vget edgeColumnWidth (sx s))); [|exact IH].
  cbn [app sort fold_right].
  destruct IH as [IH1 IH2].
  apply insert_pair_active; auto.
  unfold CEvent_lt. cbn [cx cy start]. rewrite Z.eqb_refl. cbn [negb].
  destruct (Z.eqb_spec (y1 s) (y0 s)); cbn [negb]; [reflexivity|].
  apply Z.ltb_ge. exact Hs.
Qed.

Lemma takeChunkChecked_closes segmentOffsets events : forall count chunkWidth,
  0 <= count ->
  activeNonNegative count events -> count + activeAfter events = 0 ->
  takeChunkChecked segmentOffsets count chunkWidth events
  = Some (takeChunk segmentOffsets count chunkWidth events) /\
  let rest := snd (fst (takeChunk segmentOffsets count chunkWidth events)) in
  activeNonNegative 0 rest /\ activeAfter rest = 0.
Proof.
  induction events as [|e es IH]; intros count chunkWidth Hc Hnn Hbal;
    cbn [takeChunkChecked takeChunk].
  - cbn [activeAfter] in Hbal.
    destruct (Z.leb_spec count 0); [|lia]. cbn. auto.
  - destruct (Z.leb_spec count 0) as [H0|H0].
    + assert (count = 0) by lia. subst count. cbn [fst snd].
      split; [reflexivity|]. split; [exact Hnn|]. lia.
    + cbn [activeNonNegative activeAfter] in Hnn, Hbal.
      destruct Hnn as [Hn1 Hn2].
      destruct (IH (count + (if start e then 1 else -1))
                  (Z.max chunkWidth (vget segmentOffsets (index e)))
                  Hn1 Hn2 ltac:(lia)) as (Heq & Hrest).
      rewrite Heq.
      destruct (takeChunk segmentOffsets _ _ es) as [[chunk rest] w].
      cbn [fst snd] in *. auto.
Qed.

Lemma centerChunksChecked_closes edgeColumnWidth minSpacing fuel :
  forall segmentOffsets events,
    activeNonNegative 0 events -> activeAfter events = 0 ->
    centerChunksChecked fuel edgeColumnWidth minSpacing segmentOffsets events
    = Some (centerChunks fuel edgeColumnWidth minSpacing segmentOffsets
              events).
Proof.
  induction fuel as [|fuel IH]; intros so events Hnn Hbal.
  - destruct events; reflexivity.
  - destruct events as [|e es]; [reflexivity|].
    cbn [centerChunksChecked centerChunks].
    cbn [activeNonNegative activeAfter] in Hnn, Hbal.
    destruct Hnn as [Hn1 Hn2].
    assert (Hstart : start e = true) by (destruct (start e); [reflexivity|lia]).
    rewrite Hstart in *.
    destruct (@takeChunkChecked_closes so es 1 0 ltac:(lia) Hn2 ltac:(lia))
      as (Heq & Hrest).
    rewrite Heq.
    destruct (takeChunk so 1 0 es) as [[chunk rest] w].
    cbn [fst snd] in Hrest. destruct Hrest as [Hr1 Hr2].
    apply IH; assumption.
Qed.

Lemma centerEdgesChecked_closes segmentOffsets edgeColumnWidth segments
    minSpacing :
  Forall (fun s => y0 s <= y1 s) segments ->
  centerEdgesChecked segmentOffsets edgeColumnWidth segments minSpacing
  = Some (centerEdges segmentOffsets edgeColumnWidth segments minSpacing).
Proof.
  intros Hall. unfold centerEdgesChecked, centerEdges.
  destruct (@sorted_events_active segmentOffsets edgeColumnWidth segments
              Hall) as [H1 H2].
  cbn zeta in H1, H2. cbn zeta.
  apply centerChunksChecked_closes; assumption.
Qed.

Lemma calculateSegmentOffsets_oriented segments edgeOffsets edgeColumnWidth
    nodeRightSide nodeLeftSide columnWidth H segmentSpacing :
  Forall (fun s => y0 s <= y1 s)
    (fst (fst (calculateSegmentOffsets segments edgeOffsets edgeColumnWidth
                 nodeRightSide nodeLeftSide columnWidth H segmentSpacing))).
Proof.
  unfold calculateSegmentOffsets. cbn [fst].
  apply Forall_forall. intros s Hs. apply In_sort in Hs.
  apply in_map_iff in Hs. destruct Hs as (s0 & <- & _).
  unfold orientSegment. destruct (Z.ltb_spec (y1 s0) (y0 s0)); cbn; lia.
Qed.

(** X27. The inner loop of [centerEdges] advances its iterator without
    comparing it with the end of the events.  Called with the segments as
    [calculateSegmentOffsets] leaves them ([y0 <= y1]), as
    [elaborateEdgePlacement] does, it never reads past the last event: in
    the sorted events every end of a segment comes after its start, so the
    count of active segments is 0 at the last event of every chunk.  The
    loop with the read checked agrees with the loop as written. *)
Theorem centerEdges_reads_inside_events :
  forall segments edgeOffsets edgeColumnWidth nodeRightSide nodeLeftSide
         columnWidth H segmentSpacing minSpacing,
    let r := calculateSegmentOffsets segments edgeOffsets edgeColumnWidth
               nodeRightSide nodeLeftSide columnWidth H segmentSpacing in
    centerEdgesChecked (snd (fst r)) (snd r) (fst (fst r)) minSpacing
    = Some (centerEdges (snd (fst r)) (snd r) (fst (fst r)) minSpacing).
Proof.
  intros. subst r. apply centerEdgesChecked_closes.
  apply calculateSegmentOffsets_oriented.
Qed.

(** ** The edges that [topoSort] drops *)

Lemma dfsStep_complete bs s s' :
  DagComplete bs s -> dfsStepSpec bs s s' -> DagComplete bs s'.
Proof.
  intros (Hb & Hst & Hc1 & Hc2) Hstep.
  assert (Hcons : forall (x y : ut64 * nat) l s1 s2,
            x :: l = s1 ++ y :: s2 ->
            (s1 = [] /\ x = y /\ l = s2) \/
            exists s1', s1 = x :: s1' /\ l = s1' ++ y :: s2).
  { intros x y l [|z s1] s2 Heq; cbn [app] in Heq.
    - left. injection Heq as -> ->. auto.
    - right. injection Heq as -> ->. eauto. }
  assert (Htgt : forall v i e,
            nth_error (edges (bs @ v)) i = Some e ->
            nth_error (targetsOf bs v) i = Some (target e)).
  { intros v i e He. unfold targetsOf. now apply map_nth_error. }
  destruct Hstep.
  - (* tree edge *)
    assert (Hmono : forall k b, In b (dag_edge (d_grid s @ k)) ->
                                In b (dag_edge (d_grid s' @ k))).
    { intros k b Hin. rewrite Hgrid.
      destruct (N.eqb_spec k v) as [Heq|Hne]; [|exact Hin].
      rewrite Heq in Hin. unfold push_dag. cbn. apply in_or_app. now left. }
    unfold DagComplete. splits.
    + intro k. rewrite Hblocks, at_touch. apply Hb.
    + intros k Hk. rewrite Hvisited in Hk. rewrite Hstack'. cbn [map fst].
      destruct (N.eqb_spec k (target e)) as [Heq|Hne]; [left; now symmetry|].
      right. specialize (Hst k Hk). rewrite Hstack in Hst. exact Hst.
    + intros s1 a i' s2 Heq j b Hj Hnth. rewrite Hstack' in Heq.
      destruct (Hcons _ _ _ _ _ Heq) as [(-> & Hxy & Hl)|(s1' & -> & Hl)].
      * injection Hxy as <- <-. lia.
      * destruct (Hcons _ _ _ _ _ Hl) as [(-> & Hxy & Hl2)|(s1'' & -> & Hl2)].
        -- injection Hxy as <- <-. subst s2.
           destruct (Nat.eq_dec j i) as [->|Hne].
           ++ rewrite (Htgt _ _ _ Hedge) in Hnth. injection Hnth as <-.
              left. rewrite Hgrid, N.eqb_refl. unfold push_dag. cbn.
              apply in_or_app. right. now left.
           ++ destruct (Hc1 [] v i rest Hstack j b ltac:(lia) Hnth)
                as [H|H]; [left; auto | right; exact H].
        -- destruct (Hc1 ((v, i) :: s1'') a i' s2) with (j := j) (b := b)
             as [H|H]; auto.
           rewrite Hstack, Hl2. reflexivity.
    + intros a b Ha Hab. rewrite Horder in Ha |- *. rewrite Hstack'.
      destruct (Hc2 a b Ha Hab) as [H|[H|[H|H]]]; auto.
      right. right. left. rewrite Hstack in H. cbn [map fst In] in *. tauto.
  - (* cross edge *)
    assert (Hmono : forall k b, In b (dag_edge (d_grid s @ k)) ->
                                In b (dag_edge (d_grid s' @ k))).
    { intros k b Hin. rewrite Hgrid.
      destruct (N.eqb_spec k v) as [Heq|Hne]; [|exact Hin].
      rewrite Heq in Hin. unfold push_dag. cbn. apply in_or_app. now left. }
    unfold DagComplete. splits.
    + intro k. rewrite Hblocks, at_touch. apply Hb.
    + intros k Hk. rewrite Hvisited in Hk. rewrite Hstack'.
      specialize (Hst k Hk). rewrite Hstack in Hst. exact Hst.
    + intros s1 a i' s2 Heq j b Hj Hnth. rewrite Hstack' in Heq.
      destruct (Hcons _ _ _ _ _ Heq) as [(-> & Hxy & Hl)|(s1' & -> & Hl)].
      * injection Hxy as <- <-. subst s2.
        destruct (Nat.eq_dec j i) as [->|Hne].
        -- rewrite (Htgt _ _ _ Hedge) in Hnth. injection Hnth as <-.
           left. rewrite Hgrid, N.eqb_refl. unfold push_dag. cbn.
           apply in_or_app. right. now left.
        -- destruct (Hc1 [] v i rest Hstack j b ltac:(lia) Hnth)
             as [H|H]; [left; auto | right; exact H].
      * destruct (Hc1 ((v, i) :: s1') a i' s2) with (j := j) (b := b)
          as [H|H]; auto.
        rewrite Hstack, Hl. reflexivity.
    + intros a b Ha Hab. rewrite Horder in Ha |- *. rewrite Hstack'.
      destruct (Hc2 a b Ha Hab) as [H|[H|[H|H]]]; auto.
      right. right. left. rewrite Hstack in H. exact H.
  - (* back edge *)
    unfold DagComplete. splits.
    + intro k. rewrite Hblocks, at_touch. apply Hb.
    + intros k Hk. rewrite Hvisited in Hk. rewrite Hstack'.
      specialize (Hst k Hk). rewrite Hstack in Hst. exact Hst.
    + intros s1 a i' s2 Heq j b Hj Hnth. rewrite Hstack' in Heq.
      rewrite Hgrid.
      destruct (Hcons _ _ _ _ _ Heq) as [(-> & Hxy & Hl)|(s1' & -> & Hl)].
      * injection Hxy as <- <-. subst s2.
        destruct (Nat.eq_dec j i) as [->|Hne].
        -- rewrite (Htgt _ _ _ Hedge) in Hnth. injection Hnth as <-.
           right. specialize (Hst _ Hstate). rewrite Hstack in Hst.
           exact Hst.
        -- exact (Hc1 [] v i rest Hstack j b ltac:(lia) Hnth).
      * apply (Hc1 ((v, i) :: s1') a i' s2) with (j := j); auto.
        rewrite Hstack, Hl. reflexivity.
    + intros a b Ha Hab. rewrite Horder in Ha |- *. rewrite Hstack', Hgrid.
      destruct (Hc2 a b Ha Hab) as [H|[H|[H|H]]]; auto.
      right. right. left. rewrite Hstack in H. exact H.
  - (* the block leaves the stack *)
    unfold DagComplete. splits.
    + intro k. rewrite Hblocks, at_touch. apply Hb.
    + intros k Hk. rewrite Hvisited in Hk. rewrite Hstack'.
      destruct (N.eqb_spec k v) as [Heq|Hne]; [discriminate Hk|].
      specialize (Hst k Hk). rewrite Hstack in Hst.
      destruct Hst as [Heq|Hin]; [cbn in Heq; congruence | exact Hin].
    + intros s1 a i' s2 Heq j b Hj Hnth. rewrite Hstack' in Heq.
      rewrite Hgrid.
      apply (Hc1 ((v, i) :: s1) a i' s2) with (j := j); auto.
      rewrite Hstack, Heq. reflexivity.
    + intros a b Ha Hab. rewrite Horder in Ha |- *. rewrite Hstack', Hgrid.
      apply in_app_or in Ha. destruct Ha as [Ha|[<-|[]]].
      * destruct (Hc2 a b Ha Hab) as [H|[H|[H|H]]]; auto.
        -- rewrite Hstack in H. destruct H as [H|H].
           ++ cbn [fst] in H. subst b.
              apply in_split in Ha. destruct Ha as (l1 & l2 & ->).
              right. right. right. exists l1, l2, [].
              now rewrite <- app_assoc.
           ++ auto.
        -- destruct H as (l1 & l2 & l3 & ->).
           right. right. right. exists l1, l2, (l3 ++ [v]).
           rewrite <- !app_assoc. cbn [app]. rewrite <- app_assoc.
           reflexivity.
      * apply In_nth_error in Hab. destruct Hab as (j & Hj).
        assert (Hlt : (j < i)%nat).
        { assert (Hjl : (j < length (targetsOf bs v))%nat)
            by (apply nth_error_Some; congruence).
          unfold targetsOf in Hjl. rewrite length_map in Hjl.
          apply nth_error_None in Hedge. lia. }
        destruct (Hc1 [] v i rest Hstack j b Hlt Hj) as [H|[H|H]]; auto.
Qed.

Lemma dfsLoop_complete bs fuel : forall s s',
  dfsLoop fuel s = Done s' -> DagComplete bs s ->
  DagComplete bs s' /\ stack s' = [].
Proof.
  induction fuel as [|fuel IH]; intros s s' Hrun HC; cbn [dfsLoop] in Hrun;
    destruct (stack s) eqn:Hs; try discriminate Hrun.
  - injection Hrun as <-. auto.
  - injection Hrun as <-. auto.
  - apply (IH _ _ Hrun). apply (dfsStep_complete HC).
    apply dfsStep_spec; [apply HC | congruence].
Qed.

Lemma dfsFragment_complete bs fuel s first s' :
  dfsFragment fuel s first = Done s' -> DagComplete bs s -> stack s = [] ->
  DagComplete bs s' /\ stack s' = [].
Proof.
  unfold dfsFragment. intros Hrun (Hb & Hst & Hc1 & Hc2) Hs.
  apply (@dfsLoop_complete bs _ _ _ Hrun). rewrite Hs.
  unfold DagComplete.
  cbn [d_blocks visited stack d_grid blockOrder map fst]. splits.
  - exact Hb.
  - intros v Hv. rewrite at_set in Hv.
    destruct (N.eqb_spec v first) as [Heq|Hne]; [left; now symmetry|].
    specialize (Hst v Hv). rewrite Hs in Hst. destruct Hst.
  - intros s1 a i s2 Heq j b Hj Hnth.
    destruct s1 as [|x [|y s1]]; cbn [app] in Heq; try discriminate Heq.
    injection Heq as <- <- <-. lia.
  - intros a b Ha Hab.
    destruct (Hc2 a b Ha Hab) as [H|[H|[H|H]]]; auto.
    rewrite Hs in H. destruct H.
Qed.

Lemma dfsRest_complete bs fuel ks : forall s s',
  dfsRest fuel ks s = Done s' -> DagComplete bs s -> stack s = [] ->
  DagComplete bs s' /\ stack s' = [].
Proof.
  induction ks as [|k ks IH]; intros s s' Hrun HC Hs; cbn [dfsRest] in Hrun.
  - injection Hrun as <-. auto.
  - set (s1 := mkDfs (UMap.touch (visited s) k) (d_blocks s) (d_grid s)
                 (stack s) (blockOrder s)) in *.
    assert (HC1 : DagComplete bs s1).
    { destruct HC as (Hb & Hst & Hc1 & Hc2). unfold DagComplete, s1.
      cbn [d_blocks visited stack d_grid blockOrder]. splits; auto.
      intros v Hv. rewrite at_touch in Hv. auto. }
    assert (Hs1 : stack s1 = []) by exact Hs.
    destruct (visited s1 @ k).
    + destruct (dfsFragment fuel s1 k) as [s2| |] eqn:H2;
        try discriminate Hrun.
      cbn [bind] in Hrun.
      destruct (@dfsFragment_complete bs fuel s1 k s2 H2 HC1 Hs1)
        as [HC2 Hs2].
      exact (IH _ _ Hrun HC2 Hs2).
    + exact (IH _ _ Hrun HC1 Hs1).
    + exact (IH _ _ Hrun HC1 Hs1).
Qed.

(** X28. When every edge names a block, [topoSort] drops an edge only when
    it closes a cycle: every edge of the input is a dag edge, unless it leads
    from a block to itself or to a block that comes later in [blockOrder] (a
    block that was on the stack of the search when the edge was looked at).
    With every target a block, the range-for of [topoSort] inserts nothing
    into the map that it walks. *)
Theorem topoSort_drops_back_edges_only : forall bs entry,
  targetsKnown bs ->
  exists st order,
    topoSort (initialState bs) entry = Done (st, order) /\
    forall a b,
      In b (targetsOf bs a) ->
      In b (dag_edge (grid_blocks st @ a)) \/ a = b \/
      exists l1 l2 l3, order = l1 ++ a :: l2 ++ b :: l3.
Proof.
  intros bs entry _.
  destruct (topoSort_initial bs entry) as (st & order & Hts & TS & _).
  exists st, order. split; [exact Hts|].
  unfold topoSort in Hts.
  cbn [blocks grid_blocks initialState] in Hts.
  destruct (dfsFragment _ _ entry) as [s1| |] eqn:H1; try discriminate Hts.
  cbn [bind] in Hts.
  destruct (dfsRest _ _ s1) as [s2| |] eqn:H2; try discriminate Hts.
  cbn [bind] in Hts. injection Hts as <- <-.
  cbn [grid_blocks with_grid_blocks with_blocks].
  assert (HC0 : DagComplete bs (mkDfs [] bs (initGridBlocks bs) [] [])).
  { unfold DagComplete. cbn [d_blocks visited stack d_grid blockOrder].
    splits; auto;
      try (intros v Hv; cbn in Hv; discriminate Hv);
      try (intros [|x s1'] a i s2' Heq; discriminate Heq);
      try (intros a b []). }
  destruct (@dfsFragment_complete bs _ _ entry s1 H1 HC0 eq_refl)
    as [HC1 Hs1].
  destruct (@dfsRest_complete bs _ _ s1 s2 H2 HC1 Hs1)
    as [(_ & _ & _ & Hc2) Hs2].
  intros a b Hab.
  assert (Ha : In a (blockOrder s2)).
  { apply (ts_blocks_in TS). cbn [blocks initialState].
    destruct (in_dec N.eq_dec a (UMap.keys bs)) as [Hin|Hout]; [exact Hin|].
    unfold targetsOf in Hab. rewrite (at_in_keys _ _ Hout) in Hab.
    destruct Hab. }
  destruct (Hc2 a b Ha Hab) as [H|[H|[H|H]]]; auto.
  rewrite Hs2 in H. destruct H.
Qed.

Lemma topoSort_drops_back_edges_only_witness :
  targetsKnown E4 /\
  exists st order,
    topoSort (initialState E4) 1%N = Done (st, order) /\
    forall a b,
      In b (targetsOf E4 a) ->
      In b (dag_edge (grid_blocks st @ a)) \/ a = b \/
      exists l1 l2 l3, order = l1 ++ a :: l2 ++ b :: l3.
Proof.
  assert (Hk : targetsKnown E4).
  { intros kb e Hkb He. unfold E4 in Hkb. simpl in Hkb.
    repeat (destruct Hkb as [<-|Hkb];
            [simpl in He; repeat (destruct He as [<-|He]; [simpl; tauto|]);
             destruct He|]).
    destruct Hkb. }
  split; [exact Hk|].
  exact (@topoSort_drops_back_edges_only E4 1%N Hk).
Defined.

(** ** The lists of the pool *)

Lemma incr_addTo p i d j : incr (addTo p i d) j = incr p j.
Proof.
  unfold addTo, incr at 1.
  destruct (Nat.eq_dec j i) as [Heq|Hne].
  - subst j. destruct (Nat.lt_ge_cases i (length p)) as [Hlt|Hge].
    + rewrite nth_set_nth_same by exact Hlt. reflexivity.
    + rewrite set_nth_beyond by exact Hge. reflexivity.
  - rewrite nth_set_nth_other by exact Hne. reflexivity.
Qed.

Lemma length_addTo p i d : length (addTo p i d) = length p.
Proof. unfold addTo. apply length_set_nth. Qed.

Lemma chain_addTo p i d cells : forall h,
  chain p h cells -> chain (addTo p i d) h cells.
Proof.
  induction cells as [|c cs IH]; intros h Hc; cbn [chain] in *; [exact Hc|].
  destruct Hc as (Hh & Hc0 & Hlt & Hrest). splits; auto.
  - rewrite length_addTo. exact Hlt.
  - rewrite incr_addTo. apply IH. exact Hrest.
Qed.

Lemma listOf_addTo p i d h cells :
  listOf p h cells -> listOf (addTo p i d) h cells.
Proof. intros [Hc Ht]. split; [now apply chain_addTo | exact Ht]. Qed.

Lemma incr_app p x c : (c < length p)%nat -> incr (p ++ [x]) c = incr p c.
Proof. intro Hc. unfold incr. rewrite app_nth1 by exact Hc. reflexivity. Qed.

Lemma chain_grow p x cells : forall h,
  chain p h cells -> chain (p ++ [x]) h cells.
Proof.
  induction cells as [|c cs IH]; intros h Hc; cbn [chain] in *; [exact Hc|].
  destruct Hc as (Hh & Hc0 & Hlt & Hrest). splits; auto.
  - rewrite length_app. simpl. lia.
  - rewrite incr_app by exact Hlt. apply IH. exact Hrest.
Qed.

Lemma chain_in_range p cells : forall h c,
  chain p h cells -> In c cells -> c <> 0%nat /\ (c < length p)%nat.
Proof.
  induction cells as [|c0 cs IH]; intros h c Hc Hin; [destruct Hin|].
  cbn [chain] in Hc. destruct Hc as (Hh & Hc0 & Hlt & Hrest).
  destruct Hin as [<-|Hin]; [auto|]. eapply IH; eauto.
Qed.

Lemma chain_null p cells : chain p 0%nat cells -> cells = [].
Proof.
  destruct cells as [|c cs]; [reflexivity|]. cbn [chain].
  intros (Hh & Hc0 & _). congruence.
Qed.

Lemma chain_head p h cells : chain p h cells -> h <> 0%nat -> cells <> [].
Proof. intros Hc Hh ->. cbn [chain] in Hc. contradiction. Qed.

Lemma incr_setNext_other p t n c : c <> t -> incr (setNext p t n) c = incr p c.
Proof.
  intro Hne. unfold setNext, incr. rewrite nth_set_nth_other by exact Hne.
  reflexivity.
Qed.

Lemma incr_setNext_same p t n :
  (t < length p)%nat -> incr (setNext p t n) t = n.
Proof.
  intro Hlt. unfold setNext, incr. rewrite nth_set_nth_same by exact Hlt.
  reflexivity.
Qed.

Lemma length_setNext p t n : length (setNext p t n) = length p.
Proof. apply length_set_nth. Qed.

Lemma chain_setNext p t n cells : forall h,
  chain p h cells -> ~ In t cells -> chain (setNext p t n) h cells.
Proof.
  induction cells as [|c cs IH]; intros h Hc Hin; cbn [chain] in *;
    [exact Hc|].
  destruct Hc as (Hh & Hc0 & Hlt & Hrest). splits; auto.
  - rewrite length_setNext. exact Hlt.
  - rewrite incr_setNext_other by (intro Heq; apply Hin; left; auto).
    apply IH; [exact Hrest|]. intro Hx. apply Hin. now right.
Qed.

Lemma chain_link p B hb A : forall ha,
  chain p ha A -> A <> [] -> NoDup A -> chain p hb B ->
  ~ In (last A 0%nat) B ->
  chain (setNext p (last A 0%nat) hb) ha (A ++ B).
Proof.
  induction A as [|c A IH]; intros ha Hc Hne Hnd HB Hout; [congruence|].
  cbn [chain] in Hc. destruct Hc as (Hh & Hc0 & Hlt & Hrest).
  inversion Hnd as [|? ? Hnotin Hnd']; subst.
  destruct A as [|c' A'].
  - cbn [last app chain]. splits; auto.
    + rewrite length_setNext. exact Hlt.
    + rewrite incr_setNext_same by exact Hlt.
      apply chain_setNext; assumption.
  - change (last (c :: c' :: A') 0%nat) with (last (c' :: A') 0%nat) in *.
    assert (Hne2 : c' :: A' <> []) by discriminate.
    remember (c' :: A') as A2 eqn:HA2.
    cbn [app chain]. splits; auto.
    + rewrite length_setNext. exact Hlt.
    + rewrite incr_setNext_other.
      * apply (IH (incr p c)); auto.
      * intro Heq. apply Hnotin. rewrite Heq.
        destruct (@exists_last _ A2 Hne2) as (l0 & a0 & Hl).
        rewrite Hl. rewrite last_last. apply in_or_app. right. now left.
Qed.

Lemma chain_unique p A : forall B h, chain p h A -> chain p h B -> A = B.
Proof.
  induction A as [|a A IH]; intros [|b B] h HA HB; cbn [chain] in *.
  - reflexivity.
  - destruct HB as (Hh & Hb & _). congruence.
  - destruct HA as (Hh & Ha & _). congruence.
  - destruct HA as (Hh & Ha & _ & HA). destruct HB as (Hh' & Hb & _ & HB).
    assert (Hab : a = b) by congruence. rewrite <- Hab in *.
    rewrite (IH B (incr p a) HA HB). reflexivity.
Qed.

Lemma chain_suffix p A : forall B h,
  chain p h (A ++ B) -> exists h', chain p h' B.
Proof.
  induction A as [|a A IH]; intros B h Hc; cbn [app] in Hc.
  - now exists h.
  - cbn [chain] in Hc. destruct Hc as (_ & _ & _ & Hc). eapply IH; eauto.
Qed.

Lemma chain_nodup p A : forall h, chain p h A -> NoDup A.
Proof.
  induction A as [|a A IH]; intros h Hc; [constructor|].
  pose proof Hc as Hc0.
  cbn [chain] in Hc. destruct Hc as (Hh & Ha & Hlt & Hrest).
  constructor; [|eapply IH; eauto].
  intro Hin. apply in_split in Hin. destruct Hin as (l1 & l2 & Heq).
  assert (Hsuf : chain p a (a :: l2)).
  { rewrite Heq in Hrest.
    destruct (@chain_suffix p l1 (a :: l2) _ Hrest) as (h' & Hs).
    pose proof Hs as Hs0. cbn [chain] in Hs. destruct Hs as (-> & _).
    exact Hs0. }
  subst h.
  pose proof (@chain_unique _ _ _ _ Hc0 Hsuf) as Hx.
  apply (f_equal (@length nat)) in Hx. rewrite Heq in Hx.
  cbn [length] in Hx. rewrite length_app in Hx. cbn [length] in Hx. lia.
Qed.

Lemma nodup_below_length n : forall (A : list nat),
  NoDup A -> (forall c, In c A -> (c < n)%nat) -> (length A <= n)%nat.
Proof.
  intros A Hnd Hlt.
  apply Nat.le_trans with (length (seq 0%nat n));
    [|rewrite length_seq; apply Nat.le_refl].
  apply NoDup_incl_length; [exact Hnd|].
  intros c Hc. apply in_seq. specialize (Hlt c Hc). lia.
Qed.

Lemma chain_length p h A : chain p h A -> (length A <= length p)%nat.
Proof.
  intro Hc. apply nodup_below_length; [eapply chain_nodup; eauto|].
  intros c Hin. eapply chain_in_range; eauto.
Qed.

(** [walkSides] on two lists: it returns, at the end of the shorter one. *)
Lemma walkSides_chain p A : forall B fuel w,
  chain p (leftIt w) A -> chain p (rightIt w) B ->
  (Nat.min (length A) (length B) <= fuel)%nat ->
  exists w',
    walkSides fuel p w = Done w' /\
    chain p (leftIt w') (skipn (Nat.min (length A) (length B)) A) /\
    chain p (rightIt w') (skipn (Nat.min (length A) (length B)) B).
Proof.
  induction A as [|a A IH]; intros B fuel w HA HB Hfuel.
  - cbn [chain] in HA. exists w. splits.
    + destruct fuel; cbn [walkSides]; rewrite HA; reflexivity.
    + cbn. exact HA.
    + cbn. exact HB.
  - destruct B as [|b B].
    + cbn [chain] in HB. exists w. splits.
      * destruct fuel; cbn [walkSides]; rewrite HB, orb_true_r; reflexivity.
      * cbn. exact HA.
      * cbn. exact HB.
    + cbn [chain] in HA, HB.
      destruct HA as (Hl & Ha & _ & HA). destruct HB as (Hr & Hb & _ & HB).
      cbn [length Nat.min] in Hfuel.
      destruct fuel as [|fuel]; [lia|].
      cbn [walkSides].
      assert (Hcond : Nat.eqb (leftIt w) 0 || Nat.eqb (rightIt w) 0 = false).
      { apply orb_false_iff. split; apply Nat.eqb_neq; congruence. }
      rewrite Hcond.
      match goal with
      | |- exists w', walkSides fuel p ?w1 = _ /\ _ =>
          destruct (IH B fuel w1) as (w' & Hrun & HA' & HB')
      end.
      * cbn [leftIt]. rewrite Hl. exact HA.
      * cbn [rightIt]. rewrite Hr. exact HB.
      * lia.
      * exists w'. splits; [exact Hrun | exact HA' | exact HB'].
Qed.

Lemma last_skipn {X : Type} (d : X) : forall (A : list X) k,
  (k < length A)%nat -> last (skipn k A) d = last A d.
Proof.
  induction A as [|a A IH]; intros k Hk; [cbn in Hk; lia|].
  destruct k as [|k]; [reflexivity|].
  cbn [skipn]. cbn [length] in Hk. rewrite IH by lia.
  destruct A as [|a' A']; [cbn in Hk; lia | reflexivity].
Qed.

Lemma skipn_nonempty {X : Type} (A : list X) k :
  skipn k A <> [] -> (k < length A)%nat.
Proof.
  intro Hne. destruct (Nat.lt_ge_cases k (length A)) as [H|H]; [exact H|].
  rewrite skipn_all2 in Hne by exact H. congruence.
Qed.

Lemma disjoint_sym A B : disjoint A B -> disjoint B A.
Proof. intros H c Hc Hc'. exact (H c Hc' Hc). Qed.

Lemma disjoint_nil_l B : disjoint [] B.
Proof. intros c []. Qed.

Lemma disjoint_nil_r A : disjoint A [].
Proof. intros c _ []. Qed.

Lemma disjoint_app_l A1 A2 B :
  disjoint (A1 ++ A2) B <-> disjoint A1 B /\ disjoint A2 B.
Proof.
  unfold disjoint. split.
  - intro H. split; intros c Hc; apply H; apply in_or_app; auto.
  - intros [H1 H2] c Hc. apply in_app_or in Hc. destruct Hc; auto.
Qed.

Lemma disjoint_app_r A B1 B2 :
  disjoint A (B1 ++ B2) <-> disjoint A B1 /\ disjoint A B2.
Proof.
  unfold disjoint. split.
  - intro H. split; intros c Hc Hc'; apply (H c Hc); apply in_or_app; auto.
  - intros [H1 H2] c Hc Hc'. apply in_app_or in Hc'.
    destruct Hc' as [Hc'|Hc']; [exact (H1 c Hc Hc') | exact (H2 c Hc Hc')].
Qed.

Lemma in_skipn_list {X : Type} (A : list X) k x : In x (skipn k A) -> In x A.
Proof.
  intro Hx. rewrite <- (firstn_skipn k A). apply in_or_app. now right.
Qed.

Lemma disjoint_skipn_l A B k : disjoint A B -> disjoint (skipn k A) B.
Proof.
  intros H c Hc. apply H. rewrite <- (firstn_skipn k A).
  apply in_or_app. now right.
Qed.

Lemma in_last (A : list nat) : A <> [] -> In (last A 0%nat) A.
Proof.
  intro Hne. destruct (@exists_last _ A Hne) as (l0 & a0 & Hl).
  rewrite Hl, last_last. apply in_or_app. right. now left.
Qed.

(** [append] of two lists without a common cell: the result is the list of
    the cells of both, and no list apart from the first has changed. *)
Lemma append_listOf p a b A B :
  listOf p a A -> listOf p b B -> disjoint A B ->
  exists p' r,
    append p a b = (p', r) /\
    listOf p' r (A ++ B) /\
    length p' = length p /\
    (forall h C, chain p h C -> disjoint A C -> chain p' h C).
Proof.
  intros [HA HtA] [HB HtB] Hd. unfold append.
  destruct (Nat.eqb_spec (head a) 0) as [Ha0|Ha0].
  - rewrite Ha0 in HA. apply chain_null in HA. subst A.
    exists p, b. splits; auto. split; assumption.
  - destruct (Nat.eqb_spec (head b) 0) as [Hb0|Hb0].
    + rewrite Hb0 in HB. apply chain_null in HB. subst B.
      exists p, a. rewrite app_nil_r. splits; auto. split; assumption.
    + pose proof (@chain_head _ _ _ HA Ha0) as HneA.
      pose proof (@chain_head _ _ _ HB Hb0) as HneB.
      eexists _, _. split; [reflexivity|].
      rewrite (HtA HneA).
      change (set_nth (last A 0%nat) p
                (mkItem (head b) (deref p (last A 0%nat))))
        with (setNext p (last A 0%nat) (head b)).
      splits.
      * split; cbn [head tail].
        -- apply chain_link; auto.
           ++ eapply chain_nodup; eauto.
           ++ apply Hd. now apply in_last.
        -- intros _. rewrite (HtB HneB).
           destruct (@exists_last _ B HneB) as (l0 & b0 & Hl).
           rewrite Hl, app_assoc, !last_last. reflexivity.
      * apply length_setNext.
      * intros h C HC HdC. apply chain_setNext; [exact HC|].
        apply HdC. now apply in_last.
Qed.

Lemma makeList_listOf p v :
  (1 <= length p)%nat ->
  exists p' l,
    makeList p v = (p', l) /\
    p' = p ++ [mkItem 0 v] /\
    listOf p' l [length p].
Proof.
  intro Hp. unfold makeList. eexists _, _. split; [reflexivity|].
  split; [reflexivity|]. split; cbn [head tail chain last].
  - splits; auto; try lia.
    + rewrite length_app. simpl. lia.
    + unfold incr. rewrite app_nth2 by lia. rewrite Nat.sub_diag. reflexivity.
  - intros _. reflexivity.
Qed.

(** ** The lists of the blocks while the children are placed *)

Lemma left_modify g k f b :
  keeps shapesOf f ->
  leftSideShape (UMap.modify g k f @ b) = leftSideShape (g @ b).
Proof.
  intro Hf. rewrite at_modify.
  destruct (N.eqb_spec b k) as [Hbk|Hbk]; [|reflexivity].
  subst. exact (f_equal fst (Hf _)).
Qed.

Lemma right_modify g k f b :
  keeps shapesOf f ->
  rightSideShape (UMap.modify g k f @ b) = rightSideShape (g @ b).
Proof.
  intro Hf. rewrite at_modify.
  destruct (N.eqb_spec b k) as [Hbk|Hbk]; [|reflexivity].
  subst. exact (f_equal snd (Hf _)).
Qed.

Lemma disjoint_incl_l A A' B : incl A' A -> disjoint A B -> disjoint A' B.
Proof. intros Hi Hd c Hc. apply Hd. now apply Hi. Qed.

Lemma not_in_snoc (l : list ut64) c b : ~ In b (l ++ [c]) -> ~ In b l /\ b <> c.
Proof.
  intro H. split.
  - intro Hb. apply H. apply in_or_app. now left.
  - intro Hb. apply H. apply in_or_app. right. left. now symmetry.
Qed.

Ltac incl_in := repeat rewrite in_app_iff; tauto.
Ltac incl_app := intros ? ?; incl_in.

(** One child placed: what is to be shown of the new state of the loop. *)
Lemma sides_step s consumed own LS RS c g' p' l' r' LS' RS' X :
  SidesInv s consumed own LS RS -> ~ In c consumed ->
  (forall b, shapesOf (g' @ b) = shapesOf (s_grid s @ b)) ->
  length p' = length (s_pool s) ->
  (forall h C, chain (s_pool s) h C -> disjoint X C -> chain p' h C) ->
  incl X (LS ++ RS ++ fst (own c) ++ snd (own c)) ->
  listOf p' l' LS' -> listOf p' r' RS' ->
  incl LS' (LS ++ RS ++ fst (own c) ++ snd (own c)) ->
  incl RS' (LS ++ RS ++ fst (own c) ++ snd (own c)) ->
  disjoint LS' RS' ->
  SidesInv (mkSides g' p' l' r') (consumed ++ [c]) own LS' RS'.
Proof.
  intros [HP HL HR HS HA] Hc Hg Hlen Hkeep HX Hl' Hr' HiL HiR Hd.
  assert (Hfar : forall b, ~ In b consumed -> b <> c ->
            disjoint (LS ++ RS ++ fst (own c) ++ snd (own c))
              (fst (own b) ++ snd (own b))).
  { intros b Hb Hbc. rewrite app_assoc. apply disjoint_app_l. split.
    - apply HA. exact Hb.
    - apply (pool_apart HP); auto. }
  constructor; cbn [s_pool s_grid leftSide rightSide]; auto.
  - constructor.
    + rewrite Hlen. apply (pool_nonempty HP).
    + intros b Hb. apply not_in_snoc in Hb. destruct Hb as [Hb Hbc].
      pose proof (f_equal fst (Hg b)) as Hs. cbn [shapesOf fst] in Hs.
      rewrite Hs.
      destruct (pool_left HP b Hb) as [H1 H2]. split; [|exact H2].
      apply Hkeep; [exact H1|].
      apply (disjoint_incl_l HX).
      pose proof (Hfar b Hb Hbc) as Hf.
      apply disjoint_app_r in Hf. apply Hf.
    + intros b Hb. apply not_in_snoc in Hb. destruct Hb as [Hb Hbc].
      pose proof (f_equal snd (Hg b)) as Hs. cbn [shapesOf snd] in Hs.
      rewrite Hs.
      destruct (pool_right HP b Hb) as [H1 H2]. split; [|exact H2].
      apply Hkeep; [exact H1|].
      apply (disjoint_incl_l HX).
      pose proof (Hfar b Hb Hbc) as Hf.
      apply disjoint_app_r in Hf. apply Hf.
    + intros b Hb. apply not_in_snoc in Hb. apply (pool_sides HP). apply Hb.
    + intros b b' Hb Hb' Hne. apply not_in_snoc in Hb. apply not_in_snoc in Hb'.
      apply (pool_apart HP); [apply Hb | apply Hb' | exact Hne].
  - intros b Hb. apply not_in_snoc in Hb. destruct Hb as [Hb Hbc].
    apply disjoint_incl_l with (A := LS ++ RS ++ fst (own c) ++ snd (own c)).
    + intros x Hx. apply in_app_or in Hx. destruct Hx; auto.
    + apply Hfar; auto.
Qed.

(** One more child placed beside the others: the walk along the two sides
    returns, and the lists of the loop are lists again. *)
Lemma placeChild_inv cfg P s c consumed own LS RS :
  SidesInv s consumed own LS RS -> ~ In c consumed ->
  exists s' LS' RS',
    placeChild cfg P s c = Done s' /\
    SidesInv s' (consumed ++ [c]) own LS' RS'.
Proof.
  intros Hinv Hc. pose proof Hinv as [HP HL HR HS HA].
  pose proof (pool_left HP c Hc) as HCL.
  pose proof (pool_right HP c Hc) as HCR.
  pose proof (pool_sides HP c Hc) as HCS.
  pose proof (HA c Hc) as HAc.
  apply disjoint_app_l in HAc. destruct HAc as [HAl HAr].
  apply disjoint_app_r in HAl. destruct HAl as [HLCL HLCR].
  apply disjoint_app_r in HAr. destruct HAr as [HRCL HRCR].
  set (CL := fst (own c)) in *. set (CR := snd (own c)) in *.
  set (k := Nat.min (length RS) (length CL)).
  unfold placeChild.
  destruct (@walkSides_chain (s_pool s) RS CL (length (s_pool s))
              (mkWalk (head (rightSide s))
                 (head (leftSideShape (s_grid s @ c))) 0 0 INT_MIN 0
                 (col (s_grid s @ c))))
    as (w & Hw & HwL & HwR).
  { exact (proj1 HR). }
  { exact (proj1 HCL). }
  { apply Nat.le_trans with (length RS); [apply Nat.le_min_l|].
    eapply chain_length. exact (proj1 HR). }
  fold k in HwL, HwR.
  rewrite Hw. cbn [bind].
  set (off := if tightSubtreePlacement cfg then minPos w
              else if negb (Nat.eqb (leftIt w) 0)
                   then maxLeftWidth w - leftPosition (s_grid s @ c)
                   else rightPosition (s_grid s @ P) - minRightPos w) in *.
  set (g1 := UMap.modify (s_grid s) c
               (fun c0 => with_col (col c0 + off) c0)) in *.
  assert (Hg1l : leftSideShape (g1 @ c) = leftSideShape (s_grid s @ c))
    by (apply left_modify; intro; reflexivity).
  assert (Hg1r : rightSideShape (g1 @ c) = rightSideShape (s_grid s @ c))
    by (apply right_modify; intro; reflexivity).
  rewrite ?Hg1l, ?Hg1r.
  destruct (Nat.eqb_spec (leftIt w) 0) as [Hl0|Hl0]; cbn [negb].
  2:{ pose proof (@chain_head _ _ _ HwL Hl0) as Hne.
      pose proof (skipn_nonempty _ _ Hne) as Hk.
      assert (HRne : RS <> [])
        by (intro Hx; rewrite Hx in Hk; cbn in Hk; lia).
      match goal with
      | |- context [append ?p1 ?a ?b] =>
          destruct (@append_listOf p1 a b CR (skipn k RS))
            as (p2 & r & Happ & Hr & Hlen & Hkeep)
      end.
      - apply listOf_addTo. exact HCR.
      - split; cbn [splitTail head tail].
        + apply chain_addTo. exact HwL.
        + intros _. rewrite (proj2 HR HRne). symmetry.
          apply last_skipn. exact Hk.
      - apply disjoint_sym, disjoint_skipn_l. exact HRCR.
      - rewrite Happ. eexists _, LS, (CR ++ skipn k RS).
        split; [reflexivity|].
        apply sides_step with (LS := LS) (RS := RS) (X := CR) (s := s);
          auto.
        + intro b. unfold shapesOf, g1.
          rewrite !left_modify, !right_modify by (intro; reflexivity).
          reflexivity.
        + rewrite length_addTo, Hlen, length_addTo. reflexivity.
        + intros h C HC HdC. apply chain_addTo.
          apply Hkeep; [apply chain_addTo; exact HC | exact HdC].
        + fold CL CR. incl_app.
        + split; [|exact (proj2 HL)].
          apply chain_addTo, Hkeep;
            [apply chain_addTo; exact (proj1 HL) | now apply disjoint_sym].
        + apply listOf_addTo. exact Hr.
        + fold CL CR. incl_app.
        + fold CL CR. intros x Hx. apply in_app_or in Hx.
          destruct Hx as [Hx|Hx]; [incl_in|].
          apply in_skipn_list in Hx. incl_in.
        + apply disjoint_app_r. split; [exact HLCR|].
          apply disjoint_sym, disjoint_skipn_l, disjoint_sym. exact HS. }
  destruct (Nat.eqb_spec (rightIt w) 0) as [Hr0|Hr0]; cbn [negb].
  2:{ pose proof (@chain_head _ _ _ HwR Hr0) as Hne.
      pose proof (skipn_nonempty _ _ Hne) as Hk.
      assert (HCLne : CL <> [])
        by (intro Hx; rewrite Hx in Hk; cbn in Hk; lia).
      match goal with
      | |- context [append ?p1 ?a ?b] =>
          destruct (@append_listOf p1 a b LS (skipn k CL))
            as (p2 & l & Happ & Hl & Hlen & Hkeep)
      end.
      - apply listOf_addTo. exact HL.
      - split; cbn [splitTail head tail].
        + apply chain_addTo. exact HwR.
        + intros _. rewrite (proj2 HCL HCLne). symmetry.
          apply last_skipn. exact Hk.
      - apply disjoint_sym, disjoint_skipn_l, disjoint_sym. exact HLCL.
      - rewrite Happ. eexists _, (LS ++ skipn k CL), CR.
        split; [reflexivity|].
        apply sides_step with (LS := LS) (RS := RS) (X := LS) (s := s);
          auto.
        + intro b. unfold shapesOf, g1.
          rewrite !left_modify, !right_modify by (intro; reflexivity).
          reflexivity.
        + rewrite length_addTo, Hlen, length_addTo. reflexivity.
        + intros h C HC HdC. apply chain_addTo.
          apply Hkeep; [apply chain_addTo; exact HC | exact HdC].
        + fold CL CR. incl_app.
        + apply listOf_addTo. exact Hl.
        + split; [|exact (proj2 HCR)].
          apply chain_addTo, Hkeep;
            [apply chain_addTo; exact (proj1 HCR) | exact HLCR].
        + fold CL CR. intros x Hx. apply in_app_or in Hx.
          destruct Hx as [Hx|Hx]; [incl_in|].
          apply in_skipn_list in Hx. incl_in.
        + fold CL CR. incl_app.
        + apply disjoint_app_l. split; [exact HLCR|].
          apply disjoint_skipn_l. exact HCS. }
  eexists _, LS, CR. split; [reflexivity|].
  apply sides_step with (LS := LS) (RS := RS) (X := []) (s := s); auto.
  - intro b. unfold shapesOf, g1.
    rewrite !left_modify, !right_modify by (intro; reflexivity).
    reflexivity.
  - apply length_addTo.
  - intros h C HC _. apply chain_addTo. exact HC.
  - intros x [].
  - apply listOf_addTo. exact HL.
  - apply listOf_addTo. exact HCR.
  - fold CL CR. incl_app.
  - fold CL CR. incl_app.
Qed.

Lemma placeChildren_inv cfg P children : forall s consumed own LS RS,
  SidesInv s consumed own LS RS -> NoDup children ->
  (forall c, In c children -> ~ In c consumed) ->
  exists s' LS' RS',
    placeChildren cfg P s children = Done s' /\
    SidesInv s' (consumed ++ children) own LS' RS'.
Proof.
  induction children as [|c cs IH]; intros s consumed own LS RS Hinv Hnd Hc;
    cbn [placeChildren].
  - exists s, LS, RS. rewrite app_nil_r. split; [reflexivity | exact Hinv].
  - inversion Hnd as [|? ? Hnotin Hnd']; subst.
    destruct (@placeChild_inv cfg P s c consumed own LS RS Hinv)
      as (s1 & LS1 & RS1 & H1 & Hinv1).
    { apply Hc. now left. }
    rewrite H1. cbn [bind].
    destruct (IH s1 (consumed ++ [c]) own LS1 RS1 Hinv1 Hnd')
      as (s2 & LS2 & RS2 & H2 & Hinv2).
    { intros x Hx Hin. apply in_app_or in Hin. destruct Hin as [Hin|[<-|[]]].
      - apply (Hc x); [now right | exact Hin].
      - contradiction. }
    exists s2, LS2, RS2. split; [exact H2|].
    rewrite <- app_assoc in Hinv2. exact Hinv2.
Qed.

Lemma single_listOf p v :
  (1 <= length p)%nat ->
  listOf (p ++ [mkItem 0 v]) (mkPList (length p) (length p)) [length p].
Proof.
  intro Hp. destruct (@makeList_listOf p v Hp) as (p1 & l0 & Hm & Hp1 & Hl0).
  unfold makeList in Hm. injection Hm as <- <-. exact Hl0.
Qed.

Lemma listOf_grow p x h C : listOf p h C -> listOf (p ++ [x]) h C.
Proof. intros [H1 H2]. split; [now apply chain_grow | exact H2]. Qed.

Lemma own_in_range p g consumed own b c :
  PoolInv p g consumed own -> ~ In b consumed ->
  In c (fst (own b) ++ snd (own b)) -> (c < length p)%nat.
Proof.
  intros HP Hb Hin. apply in_app_or in Hin. destruct Hin as [Hin|Hin].
  - eapply chain_in_range; [exact (proj1 (pool_left HP b Hb)) | exact Hin].
  - eapply chain_in_range; [exact (proj1 (pool_right HP b Hb)) | exact Hin].
Qed.

(** A new cell in front of a list: [makeList] and [append]. *)
Lemma push_listOf p h A v :
  (1 <= length p)%nat -> listOf p h A ->
  exists p' l,
    append (p ++ [mkItem 0 v]) (mkPList (length p) (length p)) h = (p', l) /\
    listOf p' l (length p :: A) /\
    length p' = S (length p) /\
    (forall h' C, chain p h' C -> chain p' h' C).
Proof.
  intros Hp HA.
  destruct (@makeList_listOf p v Hp) as (p1 & l0 & Hm & Hp1 & Hl0).
  unfold makeList in Hm. injection Hm as <- <-.
  assert (Hfresh : forall h' C, chain p h' C -> ~ In (length p) C).
  { intros h' C HC Hin.
    destruct (@chain_in_range p C h' _ HC Hin) as [_ Hlt]. lia. }
  destruct (@append_listOf (p ++ [mkItem 0 v])
              (mkPList (length p) (length p)) h [length p] A)
    as (p' & l & Happ & Hl & Hlen & Hkeep).
  - exact Hl0.
  - destruct HA as [H1 H2]. split; [now apply chain_grow | exact H2].
  - intros c [<-|[]]. apply (Hfresh (head h)). exact (proj1 HA).
  - exists p', l. split; [exact Happ|]. split; [exact Hl|]. split.
    + rewrite Hlen, length_app. simpl. lia.
    + intros h' C HC. apply Hkeep; [now apply chain_grow|].
      intros c [<-|[]]. eapply Hfresh; eauto.
Qed.

(** The lists of a block that has been placed take the place of what
    [own] named for it. *)
Lemma pool_install p g consumed own p' g' P LP RP consumed' :
  PoolInv p g consumed own ->
  (1 <= length p')%nat ->
  incl consumed consumed' ->
  (forall b, b <> P -> shapesOf (g' @ b) = shapesOf (g @ b)) ->
  (forall h C, chain p h C -> chain p' h C) ->
  listOf p' (leftSideShape (g' @ P)) LP ->
  listOf p' (rightSideShape (g' @ P)) RP ->
  disjoint LP RP ->
  (forall b, ~ In b consumed' -> b <> P ->
             disjoint (LP ++ RP) (fst (own b) ++ snd (own b))) ->
  PoolInv p' g' consumed'
    (fun b => if N.eqb b P then (LP, RP) else own b).
Proof.
  intros HP Hp' Hinc Hg Hkeep HL HR Hd Hfar.
  assert (Hw : forall b, ~ In b consumed' -> ~ In b consumed).
  { intros b Hb Hin. apply Hb, Hinc, Hin. }
  constructor.
  - exact Hp'.
  - intros b Hb. destruct (N.eqb_spec b P) as [->|Hne]; cbn [fst]; [exact HL|].
    pose proof (f_equal fst (Hg b Hne)) as Hs. cbn [shapesOf fst] in Hs.
    rewrite Hs. destruct (pool_left HP b (Hw b Hb)) as [H1 H2].
    split; [now apply Hkeep | exact H2].
  - intros b Hb. destruct (N.eqb_spec b P) as [->|Hne]; cbn [snd]; [exact HR|].
    pose proof (f_equal snd (Hg b Hne)) as Hs. cbn [shapesOf snd] in Hs.
    rewrite Hs. destruct (pool_right HP b (Hw b Hb)) as [H1 H2].
    split; [now apply Hkeep | exact H2].
  - intros b Hb. destruct (N.eqb_spec b P) as [->|Hne]; cbn [fst snd];
      [exact Hd|]. apply (pool_sides HP). auto.
  - intros b b' Hb Hb' Hne.
    destruct (N.eqb_spec b P) as [Hb1|Hb1];
      destruct (N.eqb_spec b' P) as [Hb2|Hb2]; cbn [fst snd].
    + congruence.
    + apply Hfar; auto.
    + apply disjoint_sym. apply Hfar; auto.
    + apply (pool_apart HP); auto.
Qed.

Lemma PoolInv_weaken p g consumed own g' consumed' :
  PoolInv p g consumed own ->
  incl consumed consumed' ->
  (forall b, shapesOf (g' @ b) = shapesOf (g @ b)) ->
  PoolInv p g' consumed' own.
Proof.
  intros HP Hinc Hg.
  assert (Hw : forall b, ~ In b consumed' -> ~ In b consumed).
  { intros b Hb Hin. apply Hb, Hinc, Hin. }
  constructor.
  - apply (pool_nonempty HP).
  - intros b Hb. pose proof (f_equal fst (Hg b)) as Hs.
    cbn [shapesOf fst] in Hs. rewrite Hs. apply (pool_left HP). auto.
  - intros b Hb. pose proof (f_equal snd (Hg b)) as Hs.
    cbn [shapesOf snd] in Hs. rewrite Hs. apply (pool_right HP). auto.
  - intros b Hb. apply (pool_sides HP). auto.
  - intros b b' Hb Hb' Hne. apply (pool_apart HP); auto.
Qed.

Lemma shapes_fold_left {A : Type}
    (step : UMap.t GridBlock -> A -> UMap.t GridBlock) l :
  (forall g x b, shapesOf (step g x @ b) = shapesOf (g @ b)) ->
  forall g b, shapesOf (fold_left step l g @ b) = shapesOf (g @ b).
Proof.
  intro Hstep. induction l as [|x l IH]; intros g b; cbn [fold_left];
    [reflexivity|].
  rewrite IH. apply Hstep.
Qed.

Lemma shapes_modify g k f b :
  keeps shapesOf f -> shapesOf (UMap.modify g k f @ b) = shapesOf (g @ b).
Proof.
  intro Hf. unfold shapesOf. rewrite left_modify, right_modify by exact Hf.
  reflexivity.
Qed.

(** One block placed: the loop over its children returns, and the block has
    the lists of its subtree, with a new cell in front of each. *)
Lemma placeBlock_inv cfg g p P consumed own :
  PoolInv p g consumed own ->
  NoDup (tree_edge (g @ P)) ->
  (forall c, In c (tree_edge (g @ P)) -> ~ In c consumed) ->
  exists g' p' own',
    placeBlock cfg (g, p) P = Done (g', p') /\
    PoolInv p' g' (consumed ++ tree_edge (g @ P)) own'.
Proof.
  intros HP Hnd Hc. unfold placeBlock. rewrite at_touch.
  destruct (tree_edge (g @ P)) as [|first others] eqn:Htree.
  - unfold makeList. cbn iota beta.
    eexists _, _,
      (fun b => if N.eqb b P
                then ([length p], [length (p ++ [mkItem 0 0])])
                else own b).
    split; [reflexivity|]. rewrite app_nil_r.
    apply pool_install with (p := p) (g := g) (consumed := consumed).
    + exact HP.
    + rewrite !length_app. simpl. lia.
    + apply incl_refl.
    + intros b Hb. rewrite at_modify.
      destruct (N.eqb_spec b P) as [Heq|_]; [congruence|].
      rewrite at_touch. reflexivity.
    + intros h C HC. apply chain_grow, chain_grow. exact HC.
    + rewrite at_modify, N.eqb_refl.
      cbn [leftSideShape with_rightSideShape with_leftSideShape].
      apply listOf_grow, single_listOf, (pool_nonempty HP).
    + rewrite at_modify, N.eqb_refl.
      cbn [rightSideShape with_rightSideShape].
      apply single_listOf. rewrite length_app. simpl. lia.
    + intros c [<-|[]] [Hx|[]]. rewrite length_app in Hx. simpl in Hx. lia.
    + intros b Hb Hne c Hin Hin'.
      pose proof (@own_in_range _ _ _ _ _ _ HP Hb Hin') as Hlt.
      rewrite length_app in Hin. simpl in Hin.
      destruct Hin as [<-|[<-|[]]]; lia.
  - rewrite !at_touch.
    match goal with
    | |- context [placeChildren cfg P (mkSides ?g0 _ _ _) _] =>
        set (g1 := g0)
    end.
    assert (Hfirst : ~ In first consumed) by (apply Hc; now left).
    inversion Hnd as [|? ? Hnotin Hnd']; subst.
    assert (Hinv0 : SidesInv
              (mkSides g1 p (leftSideShape (g @ first))
                 (rightSideShape (g @ first)))
              (consumed ++ [first]) own (fst (own first)) (snd (own first))).
    { constructor; cbn [s_pool s_grid leftSide rightSide].
      - apply PoolInv_weaken with (g := g) (consumed := consumed); auto.
        + intros x Hx. apply in_or_app. now left.
        + intro b. unfold g1. rewrite shapes_modify by (intro; reflexivity).
          rewrite at_touch. reflexivity.
      - apply (pool_left HP). exact Hfirst.
      - apply (pool_right HP). exact Hfirst.
      - apply (pool_sides HP). exact Hfirst.
      - intros b Hb. apply not_in_snoc in Hb. destruct Hb as [Hb Hne].
        apply (pool_apart HP); auto. }
    destruct (@placeChildren_inv cfg P others _ _ _ _ _ Hinv0 Hnd')
      as (s & LS & RS & Hrun & Hinv).
    { intros c Hin Hx. apply in_app_or in Hx.
      destruct Hx as [Hx|[<-|[]]];
        [apply (Hc c); [now right | exact Hx] | contradiction]. }
    rewrite Hrun. cbn [bind]. clear Hrun Hinv0.
    rewrite <- app_assoc in Hinv. cbn [app] in Hinv.
    pose proof (sides_pool Hinv) as HPs.
    pose proof (sides_left Hinv) as HLs.
    pose proof (sides_right Hinv) as HRs.
    unfold makeList.
    match goal with
    | |- context [append (?q ++ [mkItem 0 ?v]) _ (leftSide s)] =>
        destruct (@push_listOf q (leftSide s) LS v)
          as (p3 & l & Happ & Hl & Hlen3 & Hkeep3)
    end.
    { rewrite length_addTo. apply (pool_nonempty HPs). }
    { apply listOf_addTo. exact HLs. }
    rewrite Happ.
    match goal with
    | |- context [append (?q ++ [mkItem 0 ?v]) _ (rightSide s)] =>
        destruct (@push_listOf q (rightSide s) RS v)
          as (p6 & r & Happ2 & Hr & Hlen6 & Hkeep6)
    end.
    { rewrite length_addTo, Hlen3. lia. }
    { apply listOf_addTo. split; [|exact (proj2 HRs)].
      apply Hkeep3, chain_addTo. exact (proj1 HRs). }
    rewrite Happ2.
    rewrite !length_addTo in *. rewrite Hlen3 in *.
    eexists _, _,
      (fun b => if N.eqb b P
                then (length (s_pool s) :: LS, S (length (s_pool s)) :: RS)
                else own b).
    split; [reflexivity|].
    match goal with
    | |- PoolInv _ ?gF _ _ =>
        assert (Hshape : forall b,
                  shapesOf (gF @ b)
                  = if N.eqb b P then (l, r) else shapesOf (s_grid s @ b))
    end.
    { intro b. rewrite shapes_fold_left
        by (intros g0 x b0; apply shapes_modify; intro; reflexivity).
      rewrite !at_modify, ?N.eqb_refl. destruct (N.eqb b P); reflexivity. }
    apply pool_install with (p := s_pool s) (g := s_grid s)
                            (consumed := consumed ++ first :: others).
    + exact HPs.
    + rewrite Hlen6. lia.
    + apply incl_refl.
    + intros b Hb. rewrite Hshape.
      destruct (N.eqb_spec b P) as [Heq|_]; [congruence | reflexivity].
    + intros h C HC. apply Hkeep6, chain_addTo, Hkeep3, chain_addTo. exact HC.
    + pose proof (f_equal fst (Hshape P)) as HsP.
      rewrite N.eqb_refl in HsP. cbn [shapesOf fst] in HsP. rewrite HsP.
      split; [|exact (proj2 Hl)].
      apply Hkeep6, chain_addTo. exact (proj1 Hl).
    + pose proof (f_equal snd (Hshape P)) as HsP.
      rewrite N.eqb_refl in HsP. cbn [shapesOf snd] in HsP. rewrite HsP.
      exact Hr.
    + assert (HLr : forall c, In c LS -> (c < length (s_pool s))%nat)
        by (intros c Hin; eapply chain_in_range;
            [exact (proj1 HLs) | exact Hin]).
      assert (HRr : forall c, In c RS -> (c < length (s_pool s))%nat)
        by (intros c Hin; eapply chain_in_range;
            [exact (proj1 HRs) | exact Hin]).
      intros c [<-|Hin] [Hx|Hin'].
      * lia.
      * specialize (HRr _ Hin'). lia.
      * subst c. specialize (HLr _ Hin). lia.
      * exact (sides_sides Hinv c Hin Hin').
    + intros b Hb Hne c Hin Hin'.
      pose proof (@own_in_range _ _ _ _ _ _ HPs Hb Hin') as Hlt.
      apply in_app_or in Hin.
      destruct Hin as [[<-|Hin]|[<-|Hin]]; try lia.
      * apply (sides_apart Hinv b Hb c); [|exact Hin'].
        apply in_or_app. now left.
      * apply (sides_apart Hinv b Hb c); [|exact Hin'].
        apply in_or_app. now right.
Qed.

(** ** [placeBlocks] returns *)

Section Placement.
Variable cfg : Config.
Variable g0 : UMap.t GridBlock.
Hypothesis tree_unique0 : forall a a' b,
  In b (tree_edge (g0 @ a)) -> In b (tree_edge (g0 @ a')) -> a = a'.
Hypothesis tree_nodup0 : forall a, NoDup (tree_edge (g0 @ a)).

(** No block is the tree child of two blocks, and [blockOrder] has every
    block once: no list is taken twice, and [placeBlocks] returns. *)
Lemma placeBlocks_inv order : forall g p consumed own done,
  PoolInv p g consumed own ->
  (forall k, tree_edge (g @ k) = tree_edge (g0 @ k)) ->
  NoDup (done ++ order) ->
  (forall c, In c consumed ->
             exists b, In b done /\ In c (tree_edge (g0 @ b))) ->
  exists gp, placeBlocks cfg (g, p) order = Done gp.
Proof.
  induction order as [|b order IH]; intros g p consumed own done HP Htree Hnd
    Hcons; cbn [placeBlocks].
  - eexists. reflexivity.
  - assert (Hb : ~ In b done).
    { intro Hin. apply NoDup_remove_2 in Hnd. apply Hnd.
      apply in_or_app. now left. }
    destruct (@placeBlock_inv cfg g p b consumed own HP)
      as (g' & p' & own' & Hrun & HP').
    { rewrite Htree. apply tree_nodup0. }
    { intros c Hc Hin. destruct (Hcons c Hin) as (b' & Hb' & Hc').
      rewrite Htree in Hc.
      rewrite (tree_unique0 _ _ _ Hc Hc') in Hb. contradiction. }
    rewrite Hrun. cbn [bind].
    apply (IH g' p' (consumed ++ tree_edge (g @ b)) own' (done ++ [b])).
    + exact HP'.
    + intro k. rewrite <- Htree.
      apply (@Frame_tree (fun _ => True) g g' k).
      apply (@placeBlock_frame (fun _ => True) cfg g p b g' p' Hrun); auto.
    + rewrite <- app_assoc. exact Hnd.
    + intros c Hin. apply in_app_or in Hin. destruct Hin as [Hin|Hin].
      * destruct (Hcons c Hin) as (b' & Hb' & Hc'). exists b'.
        split; [apply in_or_app; now left | exact Hc'].
      * exists b. split; [apply in_or_app; right; now left|].
        rewrite <- Htree. exact Hin.
Qed.
End Placement.

Lemma PoolInv_newPool g :
  (forall k, shapesOf (g @ k) = (mkPList 0 0, mkPList 0 0)) ->
  PoolInv newPool g [] (fun _ => ([], [])).
Proof.
  intro Hg. constructor; cbn [fst snd].
  - cbn. lia.
  - intros b _. pose proof (f_equal fst (Hg b)) as Hs.
    cbn [shapesOf fst] in Hs. rewrite Hs. split; [reflexivity|congruence].
  - intros b _. pose proof (f_equal snd (Hg b)) as Hs.
    cbn [shapesOf snd] in Hs. rewrite Hs. split; [reflexivity|congruence].
  - intros b _. apply disjoint_nil_l.
  - intros b b' _ _ _. apply disjoint_nil_l.
Qed.

Lemma absoluteBlocks_total order : forall g,
  (exists g', absoluteBlocks g order = Done g') \/
  absoluteBlocks g order = Fail InternalInvariant.
Proof.
  induction order as [|v order IH]; intro g; cbn [absoluteBlocks].
  - left. eexists. reflexivity.
  - unfold absoluteBlock, assert.
    destruct (0 <=? col (UMap.touch g v @ v)); cbn [bind]; [apply IH|].
    now right.
Qed.

Lemma findMergePoints_shapes g k :
  shapesOf (findMergePoints g @ k) = shapesOf (g @ k).
Proof.
  unfold findMergePoints. apply shapes_fold_left. clear g k.
  intros g v k. unfold findMergePoints_block.
  destruct (findGrandChild g (tree_edge (g @ v))) as [[m|] z];
    [|reflexivity].
  destruct (z =? 1) eqn:Hz.
  2:{ destruct z as [|[q|q|]|q]; try reflexivity. discriminate Hz. }
  apply Z.eqb_eq in Hz. subst z.
  destruct (countGoingToMerge g (id (g @ m)) (tree_edge (g @ v)) 0 0)
    as [n w].
  destruct (n =? 0); [reflexivity|].
  apply shapes_modify. intro; reflexivity.
Qed.

(** The placement of the blocks returns, or an assertion fails: no walk
    along the sides of two subtrees goes on for ever. *)
Lemma computeAllBlockPlacement_total cfg bs entry st order :
  TopoSorted (initialState bs) entry st order ->
  (exists g, computeAllBlockPlacement cfg order (grid_blocks st) = Done g) \/
  computeAllBlockPlacement cfg order (grid_blocks st) = Fail InternalInvariant.
Proof.
  intro TS. unfold computeAllBlockPlacement.
  destruct (tree_after_selectTree TS) as (T & HfT).
  destruct (rows_after_assignRows TS) as (HfR & _ & _).
  set (g2 := selectTree (assignRows (grid_blocks st) order)) in *.
  set (g3 := findMergePoints g2).
  assert (Htree : forall k, tree_edge (g3 @ k) = tree_edge (g2 @ k)).
  { intro k. apply (@Frame_tree (fun _ => True) g2 g3 k).
    apply findMergePoints_frame. auto. }
  assert (Hshape : forall k, shapesOf (g3 @ k) = (mkPList 0 0, mkPList 0 0)).
  { intro k. unfold g3. rewrite findMergePoints_shapes.
    pose proof (HfT k) as H1. apply (f_equal shapesOf) in H1.
    cbn [shapesOf forgetTree leftSideShape rightSideShape with_has_parent
           with_tree_edge] in H1.
    change (shapesOf (g2 @ k)
            = shapesOf (assignRows (grid_blocks st) order @ k)) in H1.
    rewrite H1.
    pose proof (HfR k) as H2. apply (f_equal shapesOf) in H2.
    cbn [shapesOf forgetRow leftSideShape rightSideShape with_row] in H2.
    change (shapesOf (assignRows (grid_blocks st) order @ k)
            = shapesOf (grid_blocks st @ k)) in H2.
    rewrite H2.
    pose proof (ts_frame TS k) as H3. apply (f_equal shapesOf) in H3.
    cbn [shapesOf forgetDag leftSideShape rightSideShape with_dag_edge] in H3.
    change (shapesOf (grid_blocks st @ k)
            = shapesOf (grid_blocks (initialState bs) @ k)) in H3.
    rewrite H3. cbn [grid_blocks initialState].
    pose proof (initGridBlocks_at bs k) as H4.
    apply (f_equal shapesOf) in H4.
    cbn [shapesOf with_id leftSideShape rightSideShape] in H4.
    exact H4. }
  destruct (@placeBlocks_inv cfg g2 (tree_unique T) (tree_nodup T) order
              g3 newPool [] (fun _ => ([], [])) [])
    as ([g4 p4] & Hrun).
  - apply PoolInv_newPool. exact Hshape.
  - exact Htree.
  - cbn [app]. apply (ts_nodup TS).
  - intros c [].
  - fold g2. fold g3. rewrite Hrun. cbn [bind fst].
    apply absoluteBlocks_total.
Qed.

Lemma prepareLayout_total cfg bs entry :
  (exists st, prepareLayout cfg bs entry = Done st) \/
  prepareLayout cfg bs entry = Fail InternalInvariant.
Proof.
  unfold prepareLayout.
  destruct (topoSort_initial bs entry) as (st & order & Hts & TS & _).
  rewrite Hts. cbn [bind].
  destruct (@computeAllBlockPlacement_total cfg bs entry st order TS)
    as [[g Hg]|Hfail].
  - rewrite Hg. cbn [bind]. left.
    destruct (gridSize _) as [r c]. eexists. reflexivity.
  - rewrite Hfail. cbn [bind]. now right.
Qed.

(** ** Ids that are no block *)

Lemma searchFromEntry_inv bs entry :
  exists s1,
    searchFromEntry bs entry = Done s1 /\
    DfsInv bs (initGridBlocks bs) (universe bs entry) s1 /\
    stack s1 = [].
Proof.
  unfold searchFromEntry.
  set (g0 := initGridBlocks bs). set (U := universe bs entry).
  pose proof (universe_nodup bs entry) as Hnd.
  pose proof (@universe_closed bs entry) as Hcl.
  pose proof (DfsInv_init bs g0 (initGridBlocks_dag bs)
                (@universe_keys bs entry)) as I0.
  fold U in Hnd, Hcl, I0.
  assert (Hm0 : (dfsMeasure bs U (mkDfs [] bs g0 [] []) <= dfsFuel bs)%nat).
  { unfold dfsMeasure. simpl. apply dfsFuel_enough. }
  destruct (@dfsFragment_terminates bs g0 U Hnd Hcl (dfsFuel bs) _ entry I0
              eq_refl (at_nil entry) (universe_entry bs entry) Hm0)
    as (s1 & Hrun1 & I1 & Hs1 & _).
  exists s1. splits; auto.
Qed.

(** When every edge names a block, the search from the entry has nothing to
    insert but the entry. *)
Lemma targetsKnown_met bs entry :
  targetsKnown bs -> targetsMetFromEntry bs entry.
Proof.
  intro Hk. destruct (searchFromEntry_inv bs entry) as (s1 & Hrun & I1 & _).
  exists s1. split; [exact Hrun|].
  intros t Ht. apply (inv_keys I1). now apply allTargets_known.
Qed.

Section FixedBlocks.
Variable bs : UMap.t GraphBlock.
Variable B : UMap.t GraphBlock.
Hypothesis B_blocks : forall k, B @ k = bs @ k.
Hypothesis B_targets : incl (allTargets bs) (UMap.keys B).

Lemma dfsStep_fixed s :
  d_blocks s = B -> stackIn B s ->
  d_blocks (dfsStep s) = B /\ stackIn B (dfsStep s).
Proof.
  intros HB Hst. unfold dfsStep.
  destruct (stack s) as [|[v i] rest] eqn:Hstack; [split; assumption|].
  assert (Hv : In v (UMap.keys B)).
  { apply (Hst v i). rewrite Hstack. now left. }
  assert (Hrest : forall v' i', In (v', i') rest -> In v' (UMap.keys B)).
  { intros v' i' Hin. apply (Hst v' i'). rewrite Hstack. now right. }
  rewrite HB, (modify_present_id _ _ Hv).
  destruct (nth_error (edges (B @ v)) i) as [e|] eqn:He.
  - assert (Ht : In (target e) (UMap.keys B)).
    { apply B_targets. apply (@targetsOf_allTargets bs v).
      unfold targetsOf. rewrite <- B_blocks. apply in_map.
      eapply nth_error_In; eauto. }
    destruct (UMap.touch (visited s) (target e) @ target e);
      cbn [d_blocks stack]; (split; [reflexivity|]);
      intros v' i' Hin; cbn [In] in Hin.
    + destruct Hin as [Heq|[Heq|Hin]]; [| |eauto].
      * injection Heq as <- _. exact Ht.
      * injection Heq as <- _. exact Hv.
    + destruct Hin as [Heq|Hin]; [|eauto]. injection Heq as <- _. exact Hv.
    + destruct Hin as [Heq|Hin]; [|eauto]. injection Heq as <- _. exact Hv.
  - cbn [d_blocks stack]. split; [reflexivity|]. exact Hrest.
Qed.

Lemma dfsLoop_fixed fuel : forall s s',
  dfsLoop fuel s = Done s' -> d_blocks s = B -> stackIn B s ->
  d_blocks s' = B /\ stack s' = [].
Proof.
  induction fuel as [|fuel IH]; intros s s' Hrun HB Hst;
    cbn [dfsLoop] in Hrun; destruct (stack s) eqn:Hstack;
    try discriminate Hrun.
  - injection Hrun as <-. split; assumption.
  - injection Hrun as <-. split; assumption.
  - destruct (@dfsStep_fixed s HB Hst) as [HB' Hst'].
    apply (IH _ _ Hrun HB' Hst').
Qed.

Lemma dfsFragment_fixed fuel s first s' :
  dfsFragment fuel s first = Done s' ->
  d_blocks s = B -> stack s = [] -> In first (UMap.keys B) ->
  d_blocks s' = B /\ stack s' = [].
Proof.
  unfold dfsFragment. intros Hrun HB Hs Hfirst.
  apply (@dfsLoop_fixed fuel _ _ Hrun); cbn [d_blocks stack]; [exact HB|].
  rewrite Hs. intros v i [Heq|[]]. injection Heq as <- _. exact Hfirst.
Qed.

Lemma dfsRest_fixed fuel ks : forall s s',
  dfsRest fuel ks s = Done s' ->
  d_blocks s = B -> stack s = [] -> incl ks (UMap.keys B) ->
  d_blocks s' = B.
Proof.
  induction ks as [|k ks IH]; intros s s' Hrun HB Hs Hks;
    cbn [dfsRest] in Hrun.
  - injection Hrun as <-. exact HB.
  - assert (Hks' : incl ks (UMap.keys B))
      by (intros x Hx; apply Hks; now right).
    cbn [visited] in Hrun.
    destruct (UMap.touch (visited s) k @ k).
    + destruct (dfsFragment fuel _ k) as [s2| |] eqn:Hf;
        try discriminate Hrun.
      cbn [bind] in Hrun.
      destruct (@dfsFragment_fixed _ _ _ _ Hf) as [HB2 Hs2]; auto.
      { apply Hks. now left. }
      apply (IH _ _ Hrun HB2 Hs2 Hks').
    + apply (IH _ _ Hrun); auto.
    + apply (IH _ _ Hrun); auto.
Qed.
End FixedBlocks.

(** With every edge target a key of the map when the range-for of
    [topoSort] begins, the loop leaves the map as it is. *)
Lemma topoSort_loop_inserts_nothing bs entry s1 st order :
  searchFromEntry bs entry = Done s1 ->
  incl (allTargets bs) (UMap.keys (d_blocks s1)) ->
  topoSort (initialState bs) entry = Done (st, order) ->
  blocks st = d_blocks s1.
Proof.
  intros Hrun Hinc Hts.
  destruct (searchFromEntry_inv bs entry) as (s1' & Hrun' & I1 & Hs1).
  rewrite Hrun in Hrun'. injection Hrun' as <-.
  unfold topoSort in Hts. cbn [blocks grid_blocks initialState] in Hts.
  unfold searchFromEntry in Hrun. rewrite Hrun in Hts. cbn [bind] in Hts.
  destruct (dfsRest _ _ s1) as [s2| |] eqn:H2; try discriminate Hts.
  cbn [bind] in Hts. injection Hts as <- _.
  cbn [blocks with_grid_blocks with_blocks].
  apply (@dfsRest_fixed bs (d_blocks s1) (inv_blocks I1) Hinc _ _ _ _ H2);
    auto. apply incl_refl.
Qed.

(** ** The call returns *)

(** [CalculateLayout] returns a layout, or an assertion fails. *)
Lemma CalculateLayout_total cfg bs entry :
  (exists l, CalculateLayout cfg bs entry = Done l) \/
  CalculateLayout cfg bs entry = Fail InternalInvariant.
Proof.
  destruct (prepareLayout_total cfg bs entry) as [[st0 H0]|Hfail].
  2:{ right. unfold CalculateLayout. rewrite Hfail. reflexivity. }
  left. unfold CalculateLayout, routeEdges. rewrite H0. cbn [bind].
  destruct (@prepareLayout_in_grid cfg bs entry st0 H0)
    as (Hc0 & Hrow0 & Hgrid).
  destruct (@calculateEdgeMainColumn_done st0 Hc0 Hrow0 Hgrid) as [st1 H1].
  rewrite H1. cbn [bind].
  destruct (calculateEdgeMainColumn_rows _ H1) as (Hr1 & Hc1).
  destruct (roughRouting_grid cfg st1) as (_ & Hr2 & Hc2).
  destruct (topoSort_initial bs entry) as (stt & order & Hts & _ & _).
  destruct (@prepareLayout_rows cfg bs entry st0 stt order H0 Hts)
    as (Hrows & _).
  assert (Hcrr : 1 <= columns (roughRouting cfg st1))
    by (rewrite Hc2, Hc1; exact Hc0).
  assert (Hrrr : 0 <= rows (roughRouting cfg st1)).
  { rewrite Hr2, Hr1. specialize (Hrows 0%N). lia. }
  destruct (@elaborateEdgePlacement_done cfg (roughRouting cfg st1))
    as [st2 H2]; [lia|].
  rewrite H2. cbn [bind].
  destruct (@elaborateEdgePlacement_columns cfg _ st2 H2 Hcrr)
    as (_ & Hcl & _ & _ & Hel & _).
  destruct (@elaborateEdgePlacement_rows cfg _ st2 H2 Hrrr)
    as (_ & _ & Hrl & _ & _ & Herl & _).
  destruct (@convertToPixelCoordinates_done cfg st2)
    as [[[st3 w] h] H3]; [lia | lia |].
  rewrite H3. cbn [bind]. eexists. reflexivity.
Qed.

(** Every id that an edge of a block names is in the order that [topoSort]
    returns. *)
Lemma topoSort_targets_in_order bs entry st order :
  topoSort (initialState bs) entry = Done (st, order) ->
  forall a t, In t (targetsOf bs a) -> In t order.
Proof.
  intros Hts0 a b Hab.
  destruct (topoSort_initial bs entry) as (st' & order' & Hts & TS & _).
  rewrite Hts0 in Hts. injection Hts as <- <-.
  assert (Ha : In a order).
  { apply (ts_blocks_in TS). cbn [blocks initialState].
    destruct (in_dec N.eq_dec a (UMap.keys bs)) as [Hin|Hout]; [exact Hin|].
    unfold targetsOf in Hab. rewrite (at_in_keys _ _ Hout) in Hab.
    destruct Hab. }
  pose proof (ts_topo TS) as Htopo.
  unfold topoSort in Hts0.
  cbn [blocks grid_blocks initialState] in Hts0.
  destruct (dfsFragment _ _ entry) as [s1| |] eqn:H1; try discriminate Hts0.
  cbn [bind] in Hts0.
  destruct (dfsRest _ _ s1) as [s2| |] eqn:H2; try discriminate Hts0.
  cbn [bind] in Hts0. injection Hts0 as <- <-.
  cbn [grid_blocks with_grid_blocks with_blocks] in Htopo.
  assert (HC0 : DagComplete bs (mkDfs [] bs (initGridBlocks bs) [] [])).
  { unfold DagComplete. cbn [d_blocks visited stack d_grid blockOrder].
    splits; auto;
      try (intros v Hv; cbn in Hv; discriminate Hv);
      try (intros [|x s1'] a0 i s2' Heq; discriminate Heq);
      try (intros a0 b0 []). }
  destruct (@dfsFragment_complete bs _ _ entry s1 H1 HC0 eq_refl)
    as [HC1 Hs1].
  destruct (@dfsRest_complete bs _ _ s1 s2 H2 HC1 Hs1)
    as [(_ & _ & _ & Hc2) Hs2].
  destruct (Hc2 a b Ha Hab) as [H|[H|[H|H]]].
  - eapply topoOrdered_in; eauto.
  - now subst b.
  - rewrite Hs2 in H. destruct H.
  - destruct H as (l1 & l2 & l3 & ->).
    apply in_or_app. right. right. apply in_or_app. right. now left.
Qed.

(** The blocks of the result: those of the input, as they were apart from
    the outputs, and one for every id of the order of [topoSort]. *)
Lemma CalculateLayout_blocks cfg bs entry l st order :
  CalculateLayout cfg bs entry = Done l ->
  topoSort (initialState bs) entry = Done (st, order) ->
  (forall k, clearBlock (out_blocks l @ k) = clearBlock (bs @ k)) /\
  (forall k, In k order -> In k (UMap.keys (out_blocks l))).
Proof.
  intros H Hts0.
  destruct (CalculateLayout_stages _ _ _ H)
    as (st0 & st1 & st2 & st3 & w & h & H0 & H1 & H2 & H3 & ->).
  clear H. cbn [out_blocks].
  destruct (prepareLayout_blocks _ _ _ H0) as (Hb0 & _).
  pose proof (calculateEdgeMainColumn_blocks _ H1) as Hb1.
  destruct (convertToPixelCoordinates_blocks _ _ H3) as (Hb3 & Hk3).
  split.
  - intro k.
    rewrite Hb3, (elaborateEdgePlacement_blocks _ _ k H2),
      roughRouting_blocks, Hb1. now rewrite Hb0.
  - intros k Hk. rewrite Hk3.
    apply (elaborateEdgePlacement_keys _ _ k H2), roughRouting_keys.
    rewrite Hb1.
    destruct (topoSort_initial bs entry) as (st' & order' & Hts & TS & _).
    rewrite Hts0 in Hts. injection Hts as <- <-.
    assert (Hb : blocks st0 = blocks st).
    { unfold prepareLayout in H0. rewrite Hts0 in H0. cbn [bind] in H0.
      destruct (computeAllBlockPlacement cfg order (grid_blocks st))
        as [g2| |]; try discriminate H0.
      cbn [bind] in H0. destruct (gridSize _) as [r c].
      inversion H0. unfold initWidths.
      destruct (fold_left _ _ _) as [rh cw]. reflexivity. }
    rewrite Hb. apply (ts_blockkeys TS). now right.
Qed.

(** C6, amended.  The call never fails with [InvalidGraph]: the source has
    no check of the edge targets, and [operator[]] makes a block of width 0
    and height 0 without edges of an id that is no block.  When the ids that
    are no block are all met by the search from the entry -- as they are
    when there is none --, the call returns a layout, unless an assertion
    fails; in the layout every id that an edge names is a block, and a block
    that the input did not have has no size and no edge. *)
Theorem CalculateLayout_never_InvalidGraph :
  forall cfg bs entry,
    targetsMetFromEntry bs entry ->
    (exists l,
       CalculateLayout cfg bs entry = Done l /\
       (forall a t,
          In t (targetsOf bs a) -> In t (UMap.keys (out_blocks l))) /\
       (forall k,
          ~ In k (UMap.keys bs) ->
          width (out_blocks l @ k) = 0 /\ height (out_blocks l @ k) = 0 /\
          edges (out_blocks l @ k) = [])) \/
    CalculateLayout cfg bs entry = Fail InternalInvariant.
Proof.
  intros cfg bs entry _.
  destruct (CalculateLayout_total cfg bs entry) as [[l Hl]|Hfail];
    [left | now right].
  exists l. split; [exact Hl|].
  destruct (topoSort_initial bs entry) as (st & order & Hts & _ & _).
  destruct (@CalculateLayout_blocks cfg bs entry l st order Hl Hts)
    as (Hclear & Hkeys).
  split.
  - intros a t Ht. apply Hkeys.
    eapply topoSort_targets_in_order; eauto.
  - intros k Hk. specialize (Hclear k).
    rewrite (at_in_keys bs k Hk) in Hclear.
    unfold clearBlock in Hclear. injection Hclear as Hw Hh He.
    cbn [width height edges dflt GraphBlock_default] in Hw, Hh, He.
    splits; auto.
    destruct (edges (out_blocks l @ k)); [reflexivity | discriminate He].
Qed.

Lemma CalculateLayout_never_InvalidGraph_witness :
  targetsMetFromEntry dangling 1%N /\
  exists l,
    CalculateLayout (cfg10 Medium) dangling 1%N = Done l /\
    In 2%N (UMap.keys (out_blocks l)) /\
    width (out_blocks l @ 2%N) = 0 /\ height (out_blocks l @ 2%N) = 0 /\
    edges (out_blocks l @ 2%N) = [].
Proof.
  assert (Hmet : targetsMetFromEntry dangling 1%N).
  { eexists. split; [vm_compute; reflexivity|].
    intros t Ht. vm_compute in Ht. destruct Ht as [<-|[]].
    vm_compute. tauto. }
  split; [exact Hmet|].
  destruct (@CalculateLayout_never_InvalidGraph (cfg10 Medium) dangling 1%N
              Hmet) as [(l & Hl & Hk & Hz)|Hfail].
  - exists l. split; [exact Hl|]. split.
    + apply (Hk 1%N). vm_compute. left. reflexivity.
    + apply Hz. vm_compute. intros [H|[]]. discriminate H.
  - vm_compute in Hfail. discriminate Hfail.
Defined.
